(** * BAT-LZ: the greedier bounded-cost LZ parser (greedier_BATLZ.c)

    A shallow embedding of the suffix tree construction, the annotation
    engine, the longest-admissible-match query and the parser, followed by
    the properties of the program that are established on it.

    Conventions.
    - A [NODE*] is an index into the arena [heap]; [None] is the NULL
      pointer.
    - Memory that C leaves indeterminate after [malloc] is [None] (fields
      [strDepth], [annot], cells of [inversePointers] and [maxStrDepth],
      the virtual end [e]).  Reading it, dereferencing NULL and indexing an
      array outside its bounds gives the outcome [Undef].
    - Loops that chase pointers take a [fuel]; running out of it gives
      [Timeout].  Counting loops recurse on their trip count. *)

From stdpp Require Import base option list.
From Stdlib Require Import ZArith Lia.

Local Open Scope Z_scope.

(** ** Outcomes of a call *)

Inductive outcome (A : Type) : Type :=
| Ret (a : A)          (* the call returns [a] *)
| Exit (code : Z)      (* the process called exit(code) *)
| Undef                (* behaviour not defined by the C program *)
| Timeout.             (* the fuel of the model ran out *)

Arguments Ret {A} a.
Arguments Exit {A} code.
Arguments Undef {A}.
Arguments Timeout {A}.

#[global] Instance outcome_ret : MRet outcome := @Ret.
#[global] Instance outcome_bind : MBind outcome := fun A B f m =>
  match m with
  | Ret a => f a
  | Exit c => Exit c
  | Undef => Undef
  | Timeout => Timeout
  end.

Definition deref {A : Type} (o : option A) : outcome A :=
  match o with
  | Some a => Ret a
  | None => Undef
  end.

(** ** Machine integers *)

(** [unsigned int] and [int] are 32 bits wide. *)
Definition u32 (x : Z) : Z := x mod 2 ^ 32.
Definition s32 (x : Z) : Z :=
  let y := x mod 2 ^ 32 in if y <? 2 ^ 31 then y else y - 2 ^ 32.

(** Modelled from the spec: [DBL_WORD] is declared in suffix_tree.h, which
    is not part of the sources; it is the unsigned 64-bit word the
    format strings of this file print it with. *)
Definition dw (x : Z) : Z := x mod 2 ^ 64.

(** The unset sentinel of the annotation fields: -1 stored in an unsigned
    field, so it compares above every cost ("+infinity"). *)
Definition UNSET : Z := u32 (-1).

(** ** Arrays *)

Definition rd {A : Type} (a : list A) (i : Z) : outcome A :=
  if i <? 0 then Undef else deref (a !! Z.to_nat i).

Definition wr {A : Type} (a : list A) (i : Z) (v : A) : outcome (list A) :=
  if (0 <=? i) && (i <? Z.of_nat (length a))
  then Ret (<[Z.to_nat i := v]> a) else Undef.

(** A cell of an array that [malloc] returned and nobody wrote yet. *)
Definition rd_init {A : Type} (a : list (option A)) (i : Z) : outcome A :=
  o ← rd a i; deref o.

(** ** Data model *)

Abbreviation ptr := nat (only parsing).

(** Modelled from the spec: the annotation record of suffix_tree.h. *)
Record Annotation := mkAnnot {
  minMax : Z;
  textPos : Z;
  optimisticMinMax : Z;
  optimisticTextPos : Z
}.

Record NODE := mkNode {
  sons : option ptr;
  right_sibling : option ptr;
  left_sibling : option ptr;
  suffix_link : option ptr;
  father : option ptr;
  path_position : Z;
  edge_label_start : Z;
  edge_label_end : Z;
  strDepth : option Z;
  annot : option Annotation
}.

Definition set_sons (n : NODE) (v : option ptr) : NODE :=
  mkNode v (right_sibling n) (left_sibling n) (suffix_link n) (father n)
    (path_position n) (edge_label_start n) (edge_label_end n) (strDepth n) (annot n).
Definition set_right_sibling (n : NODE) (v : option ptr) : NODE :=
  mkNode (sons n) v (left_sibling n) (suffix_link n) (father n)
    (path_position n) (edge_label_start n) (edge_label_end n) (strDepth n) (annot n).
Definition set_left_sibling (n : NODE) (v : option ptr) : NODE :=
  mkNode (sons n) (right_sibling n) v (suffix_link n) (father n)
    (path_position n) (edge_label_start n) (edge_label_end n) (strDepth n) (annot n).
Definition set_suffix_link (n : NODE) (v : option ptr) : NODE :=
  mkNode (sons n) (right_sibling n) (left_sibling n) v (father n)
    (path_position n) (edge_label_start n) (edge_label_end n) (strDepth n) (annot n).
Definition set_father (n : NODE) (v : option ptr) : NODE :=
  mkNode (sons n) (right_sibling n) (left_sibling n) (suffix_link n) v
    (path_position n) (edge_label_start n) (edge_label_end n) (strDepth n) (annot n).
Definition set_edge_label_start (n : NODE) (v : Z) : NODE :=
  mkNode (sons n) (right_sibling n) (left_sibling n) (suffix_link n) (father n)
    (path_position n) v (edge_label_end n) (strDepth n) (annot n).
Definition set_strDepth (n : NODE) (v : Z) : NODE :=
  mkNode (sons n) (right_sibling n) (left_sibling n) (suffix_link n) (father n)
    (path_position n) (edge_label_start n) (edge_label_end n) (Some v) (annot n).
Definition set_annot (n : NODE) (a : Annotation) : NODE :=
  mkNode (sons n) (right_sibling n) (left_sibling n) (suffix_link n) (father n)
    (path_position n) (edge_label_start n) (edge_label_end n) (strDepth n) (Some a).

(** The tree object together with the arena its nodes live in.
    [tree_string] is the buffer [str] of [length] bytes; the C field points
    one byte before it, so text position [k] is byte [k - 1] of the buffer.
    [segm] is the segment tree, kept as the array of values it stores.
    [suffixless] is the file-scope variable of that name and [avail] is the
    number of nodes [malloc] can still deliver. *)
Record SUFFIX_TREE := mkTree {
  e : option Z;
  root : ptr;
  length : Z;
  tree_string : list Z;
  heap : list NODE;
  inversePointers : list (option ptr);
  costArray : list Z;
  maxStrDepth : list (option Z);
  D : list Z;
  segm : list Z;
  COST : Z;
  suffixless : option ptr;
  avail : nat
}.

Definition with_e (t : SUFFIX_TREE) (v : Z) : SUFFIX_TREE :=
  mkTree (Some v) (root t) (length t) (tree_string t) (heap t) (inversePointers t)
    (costArray t) (maxStrDepth t) (D t) (segm t) (COST t) (suffixless t) (avail t).
Definition with_heap (t : SUFFIX_TREE) (h : list NODE) : SUFFIX_TREE :=
  mkTree (e t) (root t) (length t) (tree_string t) h (inversePointers t)
    (costArray t) (maxStrDepth t) (D t) (segm t) (COST t) (suffixless t) (avail t).
Definition with_inversePointers (t : SUFFIX_TREE) (a : list (option ptr)) : SUFFIX_TREE :=
  mkTree (e t) (root t) (length t) (tree_string t) (heap t) a
    (costArray t) (maxStrDepth t) (D t) (segm t) (COST t) (suffixless t) (avail t).
Definition with_costArray (t : SUFFIX_TREE) (a : list Z) : SUFFIX_TREE :=
  mkTree (e t) (root t) (length t) (tree_string t) (heap t) (inversePointers t)
    a (maxStrDepth t) (D t) (segm t) (COST t) (suffixless t) (avail t).
Definition with_maxStrDepth (t : SUFFIX_TREE) (a : list (option Z)) : SUFFIX_TREE :=
  mkTree (e t) (root t) (length t) (tree_string t) (heap t) (inversePointers t)
    (costArray t) a (D t) (segm t) (COST t) (suffixless t) (avail t).
Definition with_D (t : SUFFIX_TREE) (a : list Z) : SUFFIX_TREE :=
  mkTree (e t) (root t) (length t) (tree_string t) (heap t) (inversePointers t)
    (costArray t) (maxStrDepth t) a (segm t) (COST t) (suffixless t) (avail t).
Definition with_segm (t : SUFFIX_TREE) (a : list Z) : SUFFIX_TREE :=
  mkTree (e t) (root t) (length t) (tree_string t) (heap t) (inversePointers t)
    (costArray t) (maxStrDepth t) (D t) a (COST t) (suffixless t) (avail t).
Definition with_COST (t : SUFFIX_TREE) (c : Z) : SUFFIX_TREE :=
  mkTree (e t) (root t) (length t) (tree_string t) (heap t) (inversePointers t)
    (costArray t) (maxStrDepth t) (D t) (segm t) c (suffixless t) (avail t).
Definition with_suffixless (t : SUFFIX_TREE) (s : option ptr) : SUFFIX_TREE :=
  mkTree (e t) (root t) (length t) (tree_string t) (heap t) (inversePointers t)
    (costArray t) (maxStrDepth t) (D t) (segm t) (COST t) s (avail t).
Definition with_avail (t : SUFFIX_TREE) (a : nat) : SUFFIX_TREE :=
  mkTree (e t) (root t) (length t) (tree_string t) (heap t) (inversePointers t)
    (costArray t) (maxStrDepth t) (D t) (segm t) (COST t) (suffixless t) a.

Definition node_at (t : SUFFIX_TREE) (p : ptr) : outcome NODE :=
  deref (heap t !! p).

Definition store (t : SUFFIX_TREE) (p : ptr) (n : NODE) : SUFFIX_TREE :=
  with_heap t (<[p := n]> (heap t)).

(** [tree->tree_string[k]] *)
Definition char_at (t : SUFFIX_TREE) (k : Z) : outcome Z :=
  rd (tree_string t) (k - 1).

Inductive SKIP_TYPE := skip | no_skip.
Inductive RULE_2_TYPE := new_son | split.

Record PATH := mkPath { path_begin : Z; path_end : Z }.
Record POS := mkPos { pos_node : ptr; edge_pos : Z }.
Record MATCH := mkMatch { match_length : Z; match_pos : Z }.

(** ** Suffix tree construction (Ukkonen) *)

Definition create_node (t : SUFFIX_TREE) (father : option ptr)
    (start end_ position : Z) : outcome (SUFFIX_TREE * ptr) :=
  match avail t with
  | O => Exit 0                      (* malloc returned 0: "Out of memory", exit(0) *)
  | S a =>
    let node := mkNode None None None None father position start end_ None None in
    Ret (with_avail (with_heap t (heap t ++ [node])) a, List.length (heap t))
  end.

Fixpoint find_son_loop (fuel : nat) (t : SUFFIX_TREE) (node : option ptr)
    (character : Z) : outcome (option ptr) :=
  match node with
  | None => Ret None
  | Some p =>
    match fuel with
    | O => Timeout
    | S fuel' =>
      n ← node_at t p;
      c ← char_at t (edge_label_start n);
      if bool_decide (c = character) then Ret (Some p)
      else find_son_loop fuel' t (right_sibling n) character
    end
  end.

Definition find_son (fuel : nat) (t : SUFFIX_TREE) (node : ptr)
    (character : Z) : outcome (option ptr) :=
  n ← node_at t node;
  find_son_loop fuel t (sons n) character.

Definition get_node_label_end (t : SUFFIX_TREE) (node : ptr) : outcome Z :=
  n ← node_at t node;
  match sons n with
  | None => deref (e t)
  | Some _ => Ret (edge_label_end n)
  end.

Definition get_node_label_length (t : SUFFIX_TREE) (node : ptr) : outcome Z :=
  n ← node_at t node;
  end_ ← get_node_label_end t node;
  Ret (dw (end_ - edge_label_start n + 1)).

Definition is_last_char_in_edge (t : SUFFIX_TREE) (node : ptr) (edge_pos : Z)
    : outcome bool :=
  len ← get_node_label_length t node;
  Ret (bool_decide (edge_pos = dw (len - 1))).

Definition connect_siblings (t : SUFFIX_TREE) (left_sib right_sib : option ptr)
    : outcome SUFFIX_TREE :=
  t1 ← match left_sib with
       | Some l => n ← node_at t l; Ret (store t l (set_right_sibling n right_sib))
       | None => Ret t
       end;
  match right_sib with
  | Some r => n ← node_at t1 r; Ret (store t1 r (set_left_sibling n left_sib))
  | None => Ret t1
  end.

(** [while(son->right_sibling != 0) son = son->right_sibling;] *)
Fixpoint last_sibling (fuel : nat) (t : SUFFIX_TREE) (son : ptr) : outcome ptr :=
  match fuel with
  | O => Timeout
  | S fuel' =>
    n ← node_at t son;
    match right_sibling n with
    | None => Ret son
    | Some r => last_sibling fuel' t r
    end
  end.

Definition apply_extension_rule_2 (fuel : nat) (t : SUFFIX_TREE) (node : ptr)
    (edge_label_begin edge_label_end_ path_pos edge_pos : Z) (type : RULE_2_TYPE)
    : outcome (SUFFIX_TREE * ptr) :=
  match type with
  | new_son =>
    '(t1, new_leaf) ← create_node t (Some node) edge_label_begin edge_label_end_ path_pos;
    n ← node_at t1 node;
    first ← deref (sons n);
    son ← last_sibling fuel t1 first;
    t2 ← connect_siblings t1 (Some son) (Some new_leaf);
    Ret (t2, new_leaf)
  | split =>
    n ← node_at t node;
    '(t1, new_internal) ← create_node t (father n) (edge_label_start n)
                            (dw (edge_label_start n + edge_pos)) (path_position n);
    let t2 := store t1 node (set_edge_label_start n (dw (edge_label_start n + (edge_pos + 1)))) in
    '(t3, new_leaf) ← create_node t2 (Some new_internal) edge_label_begin edge_label_end_ path_pos;
    n3 ← node_at t3 node;
    t4 ← connect_siblings t3 (left_sibling n3) (Some new_internal);
    n4 ← node_at t4 node;
    t5 ← connect_siblings t4 (Some new_internal) (right_sibling n4);
    n5 ← node_at t5 node;
    let t6 := store t5 node (set_left_sibling n5 None) in
    ni ← node_at t6 new_internal;
    f ← deref (father ni);
    fn ← node_at t6 f;
    let t7 := if bool_decide (sons fn = Some node)
              then store t6 f (set_sons fn (Some new_internal)) else t6 in
    ni7 ← node_at t7 new_internal;
    let t8 := store t7 new_internal (set_sons ni7 (Some node)) in
    n8 ← node_at t8 node;
    let t9 := store t8 node (set_father n8 (Some new_internal)) in
    t10 ← connect_siblings t9 (Some node) (Some new_leaf);
    Ret (t10, new_internal)
  end.

(** The comparison loop of [trace_single_edge] in [no_skip] mode, entered
    with [edge_pos = chars_found = 1]; [inl] is the early return at a
    mismatch, [inr] the fall through the end of the loop.  Both carry
    [(edge_pos, chars_found)]. *)
Fixpoint scan_edge (cnt : nat) (t : SUFFIX_TREE) (start str_begin len : Z)
    (edge_pos chars_found : Z) : outcome (Z * Z + Z * Z) :=
  if bool_decide (edge_pos < len) then
    match cnt with
    | O => Timeout
    | S cnt' =>
      a ← char_at t (dw (start + edge_pos));
      b ← char_at t (dw (str_begin + edge_pos));
      if bool_decide (a = b)
      then scan_edge cnt' t start str_begin len (dw (edge_pos + 1)) (dw (chars_found + 1))
      else Ret (inl (dw (edge_pos - 1), chars_found))
    end
  else Ret (inr (edge_pos, chars_found)).

(** Returns the node, [*edge_pos], [*chars_found] and [*search_done]. *)
Definition trace_single_edge (fuel : nat) (t : SUFFIX_TREE) (node : ptr) (str : PATH)
    (type : SKIP_TYPE) : outcome (ptr * Z * Z * bool) :=
  c ← char_at t (path_begin str);
  cont_node ← find_son fuel t node c;
  match cont_node with
  | None =>
    len ← get_node_label_length t node;
    Ret (node, dw (len - 1), 0, true)
  | Some node' =>
    len ← get_node_label_length t node';
    let str_len := dw (path_end str - path_begin str + 1) in
    match type with
    | skip =>
      if bool_decide (len <= str_len)
      then Ret (node', dw (len - 1), len, negb (bool_decide (len < str_len)))
      else Ret (node', dw (str_len - 1), str_len, true)
    | no_skip =>
      let len' := if bool_decide (str_len < len) then str_len else len in
      n ← node_at t node';
      r ← scan_edge (Z.to_nat len') t (edge_label_start n) (path_begin str) len' 1 1;
      match r with
      | inl (ep, cf) => Ret (node', ep, cf, true)
      | inr (ep, cf) => Ret (node', dw (ep - 1), cf, negb (bool_decide (cf < str_len)))
      end
    end
  end.

(** Returns the node, [*edge_pos] and [*chars_found]. *)
Fixpoint trace_string_loop (fuel fuel0 : nat) (t : SUFFIX_TREE) (node : ptr) (str : PATH)
    (chars_found : Z) (type : SKIP_TYPE) : outcome (ptr * Z * Z) :=
  match fuel with
  | O => Timeout
  | S fuel' =>
    '(node', ep, edge_chars_found, search_done) ← trace_single_edge fuel0 t node str type;
    let str' := mkPath (dw (path_begin str + edge_chars_found)) (path_end str) in
    let chars_found' := dw (chars_found + edge_chars_found) in
    if search_done : bool then Ret (node', ep, chars_found')
    else trace_string_loop fuel' fuel0 t node' str' chars_found' type
  end.

Definition trace_string (fuel : nat) (t : SUFFIX_TREE) (node : ptr) (str : PATH)
    (type : SKIP_TYPE) : outcome (ptr * Z * Z) :=
  trace_string_loop fuel fuel t node str 0 type.

Definition follow_suffix_link (fuel : nat) (t : SUFFIX_TREE) (pos : POS) : outcome POS :=
  if bool_decide (pos_node pos = root t) then Ret pos
  else
    n ← node_at t (pos_node pos);
    last ← match suffix_link n with
           | None => Ret false          (* the || does not evaluate its right side *)
           | Some _ => is_last_char_in_edge t (pos_node pos) (edge_pos pos)
           end;
    match suffix_link n, last with
    | Some link, true =>
      len ← get_node_label_length t link;
      Ret (mkPos link (dw (len - 1)))
    | _, _ =>
      if bool_decide (father n = Some (root t)) then Ret (mkPos (root t) (edge_pos pos))
      else
        let gama := mkPath (edge_label_start n) (dw (edge_label_start n + edge_pos pos)) in
        f ← deref (father n);
        fn ← node_at t f;
        link ← deref (suffix_link fn);
        '(node', ep, _) ← trace_string fuel t link gama skip;
        Ret (mkPos node' ep)
    end.

Definition create_suffix_link (t : SUFFIX_TREE) (node : ptr) (link : option ptr)
    : outcome SUFFIX_TREE :=
  n ← node_at t node;
  Ret (store t node (set_suffix_link n link)).

(** Returns the tree, [*pos] and the rule applied, [None] when
    [*rule_applied] is left as the caller had it. *)
Definition SEA (fuel : nat) (t : SUFFIX_TREE) (pos : POS) (str : PATH)
    (after_rule_3 : bool) : outcome (SUFFIX_TREE * POS * option Z) :=
  let path_pos := path_begin str in
  pos1 ← (if after_rule_3 then Ret pos else follow_suffix_link fuel t pos);
  '(pos2, str2, chars_found) ←
    (if bool_decide (pos_node pos1 = root t) then
       '(node', ep, cf) ← trace_string fuel t (root t) str no_skip;
       Ret (mkPos node' ep, str, cf)
     else
       let str' := mkPath (path_end str) (path_end str) in
       last ← is_last_char_in_edge t (pos_node pos1) (edge_pos pos1);
       if last : bool then
         c ← char_at t (path_end str');
         tmp ← find_son fuel t (pos_node pos1) c;
         match tmp with
         | Some q => Ret (mkPos q 0, str', 1)
         | None => Ret (pos1, str', 0)
         end
       else
         n ← node_at t (pos_node pos1);
         a ← char_at t (dw (edge_label_start n + edge_pos pos1 + 1));
         b ← char_at t (path_end str');
         if bool_decide (a = b) then Ret (mkPos (pos_node pos1) (dw (edge_pos pos1 + 1)), str', 1)
         else Ret (pos1, str', 0));
  if bool_decide (chars_found = dw (path_end str2 - path_begin str2 + 1)) then
    t' ← match suffixless t with
         | Some s =>
           n ← node_at t (pos_node pos2);
           t1 ← create_suffix_link t s (father n);
           Ret (with_suffixless t1 None)
         | None => Ret t
         end;
    Ret (t', pos2, Some 3)
  else
    last ← is_last_char_in_edge t (pos_node pos2) (edge_pos pos2);
    if (last : bool) || bool_decide (pos_node pos2 = root t) then
      n ← node_at t (pos_node pos2);
      match sons n with
      | Some _ =>
        '(t1, _) ← apply_extension_rule_2 fuel t (pos_node pos2)
                     (dw (path_begin str2 + chars_found)) (path_end str2) path_pos 0 new_son;
        t2 ← match suffixless t1 with
             | Some s =>
               t' ← create_suffix_link t1 s (Some (pos_node pos2));
               Ret (with_suffixless t' None)
             | None => Ret t1
             end;
        Ret (t2, pos2, Some 2)
      | None => Ret (t, pos2, None)
      end
    else
      '(t1, tmp) ← apply_extension_rule_2 fuel t (pos_node pos2)
                     (dw (path_begin str2 + chars_found)) (path_end str2) path_pos
                     (edge_pos pos2) split;
      t2 ← match suffixless t1 with
           | Some s => create_suffix_link t1 s (Some tmp)
           | None => Ret t1
           end;
      len ← get_node_label_length t2 tmp;
      tn ← node_at t2 tmp;
      t3 ← (if bool_decide (len = 1) && bool_decide (father tn = Some (root t2))
            then Ret (with_suffixless (store t2 tmp (set_suffix_link tn (Some (root t2)))) None)
            else Ret (with_suffixless t2 (Some tmp)));
      Ret (t3, mkPos tmp (edge_pos pos2), Some 2).

(** The loop of [SPA]; carries [*pos], [*extension], [*repeated_extension]
    and the local [rule_applied]. *)
Fixpoint SPA_loop (fuel fuel0 : nat) (t : SUFFIX_TREE) (pos : POS) (phase : Z)
    (extension : Z) (repeated_extension : bool) (rule_applied : Z)
    : outcome (SUFFIX_TREE * POS * Z * bool) :=
  if bool_decide (extension <= dw (phase + 1)) then
    match fuel with
    | O => Timeout
    | S fuel' =>
      let str := mkPath extension (dw (phase + 1)) in
      '(t1, pos1, r) ← SEA fuel0 t pos str repeated_extension;
      let rule_applied' := default rule_applied r in
      if bool_decide (rule_applied' = 3) then Ret (t1, pos1, extension, true)
      else SPA_loop fuel' fuel0 t1 pos1 phase (dw (extension + 1)) false rule_applied'
    end
  else Ret (t, pos, extension, repeated_extension).

Definition SPA (fuel : nat) (t : SUFFIX_TREE) (pos : POS) (phase : Z)
    (extension : Z) (repeated_extension : bool)
    : outcome (SUFFIX_TREE * POS * Z * bool) :=
  SPA_loop fuel fuel (with_e t (dw (phase + 1))) pos phase extension repeated_extension 0.

(** [dfsForInversePointers]; returns the number of leaves seen.
    [dfs_children] is its loop over the children of a node of string
    depth [depth], from [currentChild] on. *)
Fixpoint dfsForInversePointers (fuel : nat) (t : SUFFIX_TREE) (node : ptr)
    (depth : Z) {struct fuel} : outcome (SUFFIX_TREE * Z) :=
  match fuel with
  | O => Timeout
  | S fuel' =>
    n ← node_at t node;
    let t1 := store t node (set_strDepth n depth) in
    match sons n with
    | None =>
      ip ← wr (inversePointers t1) (path_position n) (Some node);
      f ← deref (father n);
      fn ← node_at t1 f;
      fd ← deref (strDepth fn);
      msd ← wr (maxStrDepth t1) (path_position n) (Some (u32 (path_position n + fd - 1)));
      let a := mkAnnot UNSET (u32 (path_position n)) UNSET (u32 (path_position n)) in
      n1 ← node_at t1 node;
      Ret (store (with_maxStrDepth (with_inversePointers t1 ip) msd) node (set_annot n1 a), 1)
    | Some first =>
      n1 ← node_at t1 node;
      let t2 := store t1 node (set_annot n1 (mkAnnot UNSET 0 UNSET 0)) in
      dfs_children fuel' t2 (Some first) depth 0
    end
  end
with dfs_children (fuel : nat) (t : SUFFIX_TREE) (currentChild : option ptr)
    (depth : Z) (num : Z) {struct fuel} : outcome (SUFFIX_TREE * Z) :=
  match currentChild with
  | None => Ret (t, num)
  | Some c =>
    match fuel with
    | O => Timeout
    | S fuel' =>
      cn ← node_at t c;
      '(t', k) ← dfsForInversePointers fuel' t c
                    (u32 (depth + (edge_label_end cn - edge_label_start cn) + 1));
      cn' ← node_at t' c;
      dfs_children fuel' t' (right_sibling cn') depth (u32 (num + k))
    end
  end.

(** Modelled from the spec: the segment tree of segm.h is not part of the
    sources.  The spec keeps it as the range-maximum structure over the
    cost array that "always reflects the current U", with a point update
    and a capped range maximum. *)
Definition segmCreate (costs : list Z) (n : Z) : list Z := costs.

(** Modelled from the spec: [segmUpdate(i, v)] sets the value at [i]. *)
Definition segmUpdate (s : list Z) (i v : Z) : list Z :=
  if i <? 0 then s else <[Z.to_nat i := v]> s.

(** The cells [l..r] of an array (empty when [r < l]). *)
Definition cells (a : list Z) (l r : Z) : list Z :=
  take (Z.to_nat (r - l + 1)) (drop (Z.to_nat l) a).

Definition range_max (a : list Z) (l r : Z) : Z :=
  foldr Z.max 0 (cells a l r).

(** Modelled from the spec: [cappedMax(l, r, C)] "returns the maximum of
    U[l..r], but if that maximum is >= C, returns C", that is
    min(C, max U[l..r]). *)
Definition cappedMax_spec (s : list Z) (l r C : Z) : Z :=
  Z.min C (range_max s l r).

(** The phase loop of [ST_CreateTree]: [cnt] phases starting at [phase]. *)
Fixpoint phases (cnt : nat) (fuel : nat) (t : SUFFIX_TREE) (pos : POS) (phase : Z)
    (extension : Z) (repeated_extension : bool) : outcome SUFFIX_TREE :=
  match cnt with
  | O => Ret t
  | S cnt' =>
    '(t1, pos1, ext1, rep1) ← SPA fuel t pos phase extension repeated_extension;
    phases cnt' fuel t1 pos1 (dw (phase + 1)) ext1 rep1
  end.

(** The pass that makes [maxStrDepth] monotone, [i] running from [i] up
    over [cnt] cells. *)
Fixpoint monotone_pass (cnt : nat) (a : list (option Z)) (i : Z)
    : outcome (list (option Z)) :=
  match cnt with
  | O => Ret a
  | S cnt' =>
    x ← rd_init a (i - 1);
    y ← rd_init a i;
    a' ← (if bool_decide (x > y) then wr a i (Some x) else Ret a);
    monotone_pass cnt' a' (i + 1)
  end.

(** [ST_CreateTree(str, length)]; [str] is the buffer of [length + 1] bytes
    that [main] hands over and [mem] the number of checked allocations
    that succeed. *)
Definition ST_CreateTree (fuel : nat) (mem : nat) (str : list Z) (len : Z)
    : outcome SUFFIX_TREE :=
  match mem with
  | O => Exit 0                                   (* tree = malloc(...) failed *)
  | S mem' =>
    let n2 := Z.to_nat (len + 2) in
    let costs := replicate n2 (u32 (len + 1)) in
    let t0 := mkTree None 0%nat (dw (len + 1)) str []
                (replicate n2 None) costs (replicate n2 None) []
                (segmCreate costs (len + 1)) 0 None mem' in
    '(t1, r) ← create_node t0 None 0 0 0;
    let t2 := mkTree (e t1) r (length t1) (tree_string t1) (heap t1)
                (inversePointers t1) (costArray t1) (maxStrDepth t1) (D t1)
                (segm t1) (COST t1) (suffixless t1) (avail t1) in
    '(t3, first) ← create_node t2 (Some r) 1 (length t2) 1;
    rn ← node_at t3 r;
    let t4 := with_suffixless (store t3 r (set_sons rn (Some first))) None in
    t5 ← phases (Z.to_nat (length t4 - 2)) fuel t4 (mkPos r 0) 2 2 false;
    '(t6, nn) ← dfsForInversePointers fuel t5 (root t5) 0;
    msd ← monotone_pass (Z.to_nat (length t6 - 1)) (maxStrDepth t6) 2;
    Ret (with_D (with_maxStrDepth t6 msd) (replicate (Z.to_nat (length t6 + 1)) (-1)))
  end.

(** ** The longest-admissible-match query *)

(** The inner loop of [ST_FindSubstring] that walks one edge:
    [while(j<P && k<=node_label_end && tree_string[k] == W[j])]. *)
Fixpoint scan_label (cnt : nat) (t : SUFFIX_TREE) (W : list Z) (P : Z)
    (node_label_end : Z) (j k : Z) : outcome (Z * Z) :=
  if bool_decide (j < P) && bool_decide (k <= node_label_end) then
    a ← char_at t k;
    b ← rd W j;
    if bool_decide (a = b) then
      match cnt with
      | O => Timeout
      | S cnt' => scan_label cnt' t W P node_label_end (dw (j + 1)) (dw (k + 1))
      end
    else Ret (j, k)
  else Ret (j, k).

(** The descent of [ST_FindSubstring] from [node] on.
    Modelled from the spec: the [MATCH] structure is declared in
    suffix_tree.h; the spec reads an entry -1 of [D] as "lowest priority",
    so [D[..] > currentMatch.length] compares as integers. *)
Fixpoint ST_FindSubstring_loop (fuel fuel0 : nat) (t : SUFFIX_TREE) (W : list Z) (P : Z)
    (node : option ptr) (j : Z) (currentMatch : MATCH) : outcome MATCH :=
  match node with
  | None => Ret currentMatch
  | Some p =>
    match fuel with
    | O => Timeout
    | S fuel' =>
      n ← node_at t p;
      a ← deref (annot n);
      if bool_decide (optimisticMinMax a = UNSET) then Ret currentMatch
      else if bool_decide (optimisticMinMax a = COST t) then
        d ← rd (D t) (optimisticTextPos a);
        if bool_decide (d > match_length currentMatch)
        then Ret (mkMatch d (optimisticTextPos a))
        else Ret currentMatch
      else
        node_label_end ← get_node_label_end t p;
        '(j', k') ← scan_label (Z.to_nat (node_label_end - edge_label_start n + 1))
                      t W P node_label_end j (edge_label_start n);
        if bool_decide (optimisticTextPos a = 0) then Exit 1
        else
          let currentMatch' := mkMatch j' (optimisticTextPos a) in
          if bool_decide (j' = P) then Ret currentMatch'
          else if bool_decide (k' > node_label_end) then
            c ← rd W j';
            next ← find_son fuel0 t p c;
            ST_FindSubstring_loop fuel' fuel0 t W P next j' currentMatch'
          else Ret currentMatch'
    end
  end.

Definition ST_FindSubstring (fuel : nat) (t : SUFFIX_TREE) (W : list Z) (P : Z)
    : outcome MATCH :=
  c ← rd W 0;
  node ← find_son fuel t (root t) c;
  ST_FindSubstring_loop fuel fuel t W P node 0 (mkMatch 0 0).

(** ** The annotation engine *)

Fixpoint getMinMaxOfChildren_loop (fuel : nat) (t : SUFFIX_TREE) (resultSon : ptr)
    (currentSon : option ptr) : outcome ptr :=
  match currentSon with
  | None => Ret resultSon
  | Some c =>
    match fuel with
    | O => Timeout
    | S fuel' =>
      rn ← node_at t resultSon;
      ra ← deref (annot rn);
      cn ← node_at t c;
      ca ← deref (annot cn);
      better ← (if bool_decide (optimisticMinMax ra > optimisticMinMax ca) then Ret true
                else if bool_decide (optimisticMinMax ra = optimisticMinMax ca) then
                  dr ← rd (D t) (optimisticTextPos ra);
                  dc ← rd (D t) (optimisticTextPos ca);
                  Ret (bool_decide (dr < dc))
                else Ret false);
      getMinMaxOfChildren_loop fuel' t (if better : bool then c else resultSon)
        (right_sibling cn)
    end
  end.

Definition getMinMaxOfChildren (fuel : nat) (t : SUFFIX_TREE) (node : ptr)
    : outcome (option ptr) :=
  n ← node_at t node;
  match sons n with
  | None => Ret None
  | Some s => r ← getMinMaxOfChildren_loop fuel t s (Some s); Ret (Some r)
  end.

Definition commit (a : Annotation) (cost textPos_ : Z) : Annotation :=
  mkAnnot cost textPos_ (optimisticMinMax a) (optimisticTextPos a).
Definition adopt (a : Annotation) (m p : Z) : Annotation :=
  mkAnnot (minMax a) (textPos a) m p.

Section Engine.

(** [cappedMax] of the segment tree, which is not part of the sources. *)
Variable cappedMax : list Z -> Z -> Z -> Z -> Z.

(** The first half of the loop body of [changeAnnotationFromLeaf]: the
    committed [minMax]/[textPos] of the ancestor with annotation [a] and
    string depth [d]. *)
Definition commit_ancestor (t : SUFFIX_TREE) (textPos_ finalPos : Z) (d : Z)
    (a : Annotation) : outcome Annotation :=
  if bool_decide (u32 (textPos_ + d - 1) <= finalPos) then
    cost ← rd (costArray t) (cappedMax (segm t) textPos_ (u32 (textPos_ + d - 1)) (COST t));
    if bool_decide (minMax a = COST t) then
      if bool_decide (cost < COST t) then Ret (commit a cost textPos_)
      else
        dt ← rd (D t) textPos_;
        if bool_decide (dt = -1) then Ret a
        else
          dp ← rd (D t) (textPos a);
          Ret (if bool_decide (dt > dp) then commit a cost textPos_ else a)
    else Ret (if bool_decide (cost < minMax a) then commit a cost textPos_ else a)
  else Ret a.

(** The second half: the optimistic pair, given the annotation [h] that
    [newMinMaxHolder] points to (read only when the pair was set). *)
Definition optimistic_ancestor (t : SUFFIX_TREE) (textPos_ minMaxOfRange : Z)
    (a : Annotation) (holder : outcome Annotation) : outcome Annotation :=
  if bool_decide (optimisticMinMax a = UNSET) then Ret (adopt a minMaxOfRange textPos_)
  else
    h ← holder;
    if bool_decide (optimisticMinMax a = COST t) then
      if bool_decide (optimisticMinMax h = COST t) then
        dh ← rd (D t) (optimisticTextPos h);
        dp ← rd (D t) (optimisticTextPos a);
        Ret (if bool_decide (dh > dp)
             then adopt a (optimisticMinMax h) (optimisticTextPos h)
             else adopt a (minMax a) (textPos a))
      else Ret (adopt a (optimisticMinMax h) (optimisticTextPos h))
    else
      Ret (if bool_decide (optimisticMinMax h < minMax a)
           then adopt a (optimisticMinMax h) (optimisticTextPos h)
           else adopt a (minMax a) (textPos a)).

(** The body of the while loop of [changeAnnotationFromLeaf] at [parent]. *)
Definition annotate_ancestor (fuel : nat) (t : SUFFIX_TREE)
    (textPos_ finalPos minMaxOfRange : Z) (parent : ptr) : outcome SUFFIX_TREE :=
  newMinMaxHolder ← getMinMaxOfChildren fuel t parent;
  pn ← node_at t parent;
  d ← deref (strDepth pn);
  a ← deref (annot pn);
  a1 ← commit_ancestor t textPos_ finalPos d a;
  let t1 := store t parent (set_annot pn a1) in
  a2 ← optimistic_ancestor t1 textPos_ minMaxOfRange a1
         (h ← deref newMinMaxHolder; hn ← node_at t1 h; deref (annot hn));
  Ret (store t1 parent (set_annot (set_annot pn a1) a2)).

Fixpoint ancestors_loop (fuel fuel0 : nat) (t : SUFFIX_TREE)
    (textPos_ finalPos len minMaxOfRange : Z) (parent : option ptr)
    : outcome SUFFIX_TREE :=
  match parent with
  | None => Ret t
  | Some p =>
    pn ← node_at t p;
    d ← deref (strDepth pn);
    if bool_decide (s32 d > len) then
      match fuel with
      | O => Timeout
      | S fuel' =>
        t' ← annotate_ancestor fuel0 t textPos_ finalPos minMaxOfRange p;
        pn' ← node_at t' p;
        ancestors_loop fuel' fuel0 t' textPos_ finalPos len minMaxOfRange (father pn')
      end
    else Ret t
  end.

(** The update of the leaf at the head of [changeAnnotationFromLeaf]. *)
Definition annotate_leaf (minMaxOfRange : Z) (a : Annotation) : Annotation :=
  if bool_decide (minMaxOfRange > minMax a) || bool_decide (minMax a = UNSET)
  then mkAnnot minMaxOfRange (textPos a) minMaxOfRange (optimisticTextPos a)
  else a.

Definition changeAnnotationFromLeaf (fuel : nat) (t : SUFFIX_TREE)
    (textPos_ finalPos len minMaxOfRange distToC : Z) : outcome SUFFIX_TREE :=
  leaf ← rd_init (inversePointers t) textPos_;
  ln ← node_at t leaf;
  la ← deref (annot ln);
  let t1 := store t leaf (set_annot ln (annotate_leaf minMaxOfRange la)) in
  ancestors_loop fuel fuel t1 textPos_ finalPos len minMaxOfRange (father ln).

(** The loop of [propagateAnnotation], [i] counting down to 1. *)
Fixpoint propagate_loop (i : nat) (fuel : nat) (t : SUFFIX_TREE) (textPos_ len : Z)
    (currentMinMaxOfRange : Z) : outcome SUFFIX_TREE :=
  match i with
  | O => Ret t
  | S i' =>
    u ← rd (costArray t) (Z.of_nat i);
    let cur := if bool_decide (currentMinMaxOfRange < u) then u else currentMinMaxOfRange in
    m ← rd_init (maxStrDepth t) (Z.of_nat i);
    if bool_decide (m < textPos_) then Ret t
    else
      t' ← changeAnnotationFromLeaf fuel t (Z.of_nat i) (u32 (textPos_ + len))
             (s32 (textPos_ - Z.of_nat i)) cur 0;
      propagate_loop i' fuel t' textPos_ len cur
  end.

Definition propagateAnnotation (fuel : nat) (t : SUFFIX_TREE) (textPos_ len : Z)
    : outcome SUFFIX_TREE :=
  propagate_loop (Z.to_nat (u32 (textPos_ + len))) fuel t textPos_ len 0.

(** ** The parser *)

(** [for(currentPos = ..; currentPos > positionOfPreviousC; currentPos--)
      D[currentPos] = D[currentPos+1] + 1;] *)
Fixpoint fill_D (cnt : nat) (d : list Z) (currentPos : Z) : outcome (list Z) :=
  match cnt with
  | O => Ret d
  | S cnt' =>
    x ← rd d (currentPos + 1);
    d' ← wr d currentPos (x + 1);
    fill_D cnt' d' (currentPos - 1)
  end.

(** One round of the [for] loop over the phrase body, at index [i] with
    source offset [k]; returns the tree, [k] and [positionOfPreviousC]. *)
Definition cost_step (t : SUFFIX_TREE) (textPos_ pos i k positionOfPreviousC : Z)
    : outcome (SUFFIX_TREE * Z * Z) :=
  src ← rd (costArray t) (u32 (pos + k));
  let v := u32 (src + 1) in
  u ← wr (costArray t) (u32 (textPos_ + i)) v;
  let t1 := with_costArray t u in
  '(t2, prevC) ←
    (if bool_decide (v = COST t) then
       d0 ← wr (D t1) (u32 (textPos_ + i)) 0;
       d1 ← fill_D (Z.to_nat (u32 (textPos_ + i) - 1 - positionOfPreviousC)) d0
              (u32 (textPos_ + i) - 1);
       Ret (with_D t1 d1, u32 (textPos_ + i))
     else Ret (t1, positionOfPreviousC));
  let t3 := with_segm t2 (segmUpdate (segm t2) (u32 (textPos_ + i)) v) in
  if bool_decide (v > COST t) then Exit 1
  else
    let k1 := u32 (k + 1) in
    Ret (t3, if bool_decide (u32 (pos + k1) = textPos_) then 0 else k1, prevC).

Fixpoint cost_loop (cnt : nat) (t : SUFFIX_TREE) (textPos_ pos i k positionOfPreviousC : Z)
    : outcome (SUFFIX_TREE * Z) :=
  match cnt with
  | O => Ret (t, positionOfPreviousC)
  | S cnt' =>
    '(t', k', prevC) ← cost_step t textPos_ pos i k positionOfPreviousC;
    cost_loop cnt' t' textPos_ pos (u32 (i + 1)) k' prevC
  end.

(** What one round of the parser did: the query it made, the match it got
    and the line it printed. *)
Record ROUND := mkRound {
  at_textPos : Z;               (* textPos when the round began *)
  query_W : list Z;             (* the bytes W points to *)
  query_P : Z;                  (* the length handed to ST_FindSubstring *)
  found : MATCH;
  printed : Z * Z * Z           (* the three numbers of the printed line *)
}.

(** The body of the [while] loop of [parseBLZ]; returns the tree, the new
    [textPos] and [positionOfPreviousC], and the record of the round. *)
Definition parse_round (fuel : nat) (t : SUFFIX_TREE) (textPos_ positionOfPreviousC : Z)
    : outcome (SUFFIX_TREE * Z * Z * ROUND) :=
  let W := drop (Z.to_nat (textPos_ - 1)) (tree_string t) in
  currentPhrase ← ST_FindSubstring fuel t W (length t);
  let len := match_length currentPhrase in
  '(t1, prevC) ← cost_loop (Z.to_nat len) t textPos_ (match_pos currentPhrase) 0 0
                   positionOfPreviousC;
  u ← wr (costArray t1) (u32 (textPos_ + len)) 0;
  let t2 := with_segm (with_costArray t1 u) (segmUpdate (segm t1) (u32 (textPos_ + len)) 0) in
  t3 ← propagateAnnotation fuel t2 textPos_ len;
  let textPos' := u32 (textPos_ + len + 1) in
  lit ← char_at t3 (textPos' - 1);
  Ret (t3, textPos', prevC,
       mkRound textPos_ W (length t) currentPhrase
         (s32 (match_pos currentPhrase - 1), len, lit)).

Fixpoint parse_loop (rounds fuel : nat) (t : SUFFIX_TREE) (textPos_ : Z) (z : Z)
    (positionOfPreviousC : Z) (log : list ROUND) : outcome (SUFFIX_TREE * Z * list ROUND) :=
  if bool_decide (textPos_ <= length t) then
    match rounds with
    | O => Timeout
    | S rounds' =>
      '(t', textPos', prevC, r) ← parse_round fuel t textPos_ positionOfPreviousC;
      parse_loop rounds' fuel t' textPos' (z + 1) prevC (log ++ [r])
    end
  else Ret (t, z, log).

(** [parseBLZ]; returns the tree as the parse left it, [z] and the rounds
    in the order they ran. *)
Definition parseBLZ (fuel : nat) (t : SUFFIX_TREE) : outcome (SUFFIX_TREE * Z * list ROUND) :=
  parse_loop fuel fuel t 1 0 0 [].

(** ** The program *)

(** What [main] gets from its environment: the argument count, the bytes
    of the input file ([None] when [fopen] fails), [atoi(argv[2])] and the
    number of checked allocations that succeed. *)
Record ENV := mkEnv {
  argc : Z;
  file : option (list Z);
  maxc : Z;
  mem : nat
}.

(** [main]; [Ret c] is [return c]. *)
Definition main (fuel : nat) (env : ENV) : outcome Z :=
  if bool_decide (argc env < 3) then Exit 1
  else
    match file env with
    | None => Ret 0                                (* "can't open file." return(0) *)
    | Some content =>
      match mem env with
      | O => Exit 0                                (* str = malloc(len+1) failed *)
      | S mem' =>
        if bool_decide (Exists (fun b => b = 0) content) then Exit 1
        else
          let len := Z.of_nat (List.length content) in
          t ← ST_CreateTree fuel mem' (content ++ [0]) len;
          '(_, z, _) ← parseBLZ fuel (with_COST t (u32 (maxc env)));
          Ret 0
      end
    end.

End Engine.

(** The status the process ends with. *)
Definition exit_status (o : outcome Z) : option Z :=
  match o with
  | Ret c => Some c
  | Exit c => Some c
  | _ => None
  end.

(** The first [k] rounds of [parseBLZ], from [textPos] on. *)
Fixpoint rounds_run (cappedMax : list Z -> Z -> Z -> Z -> Z) (k : nat) (fuel : nat)
    (t : SUFFIX_TREE) (textPos_ positionOfPreviousC : Z) : outcome (SUFFIX_TREE * Z * Z) :=
  match k with
  | O => Ret (t, textPos_, positionOfPreviousC)
  | S k' =>
    '(t', textPos', prevC, _) ← parse_round cappedMax fuel t textPos_ positionOfPreviousC;
    rounds_run cappedMax k' fuel t' textPos' prevC
  end.

(** A [cappedMax] that answers with a position, as the subscript at its
    call site takes it: the first position of [l..r] whose cost reaches [C]
    if there is one, else the first position of the maximum. *)
Fixpoint cappedMax_at_loop (cnt : nat) (s : list Z) (i best C : Z) : Z :=
  match cnt with
  | O => best
  | S cnt' =>
    let v := default 0 (s !! Z.to_nat i) in
    if bool_decide (v >= C) then i
    else cappedMax_at_loop cnt' s (i + 1)
           (if bool_decide (v > default 0 (s !! Z.to_nat best)) then i else best) C
  end.

Definition cappedMax_at (s : list Z) (l r C : Z) : Z :=
  cappedMax_at_loop (Z.to_nat (r - l + 1)) s l l C.

(** ** Worked inputs *)

Definition build (s : list Z) : outcome SUFFIX_TREE :=
  ST_CreateTree 64 64 (s ++ [0]) (Z.of_nat (List.length s)).

(** The tree of a text with cost bound [C], ready for [parseBLZ]. *)
Definition ready (s : list Z) (C : Z) : outcome SUFFIX_TREE :=
  t ← build s; Ret (with_COST t (u32 C)).

Definition parsed (cappedMax : list Z -> Z -> Z -> Z -> Z) (s : list Z) (C : Z)
    : outcome (SUFFIX_TREE * Z * list ROUND) :=
  t ← ready s C; parseBLZ cappedMax 64 t.

Definition tree_of {A : Type} (o : outcome (SUFFIX_TREE * Z * A)) : SUFFIX_TREE :=
  match o with
  | Ret (t, _, _) => t
  | _ => mkTree None 0%nat 0 [] [] [] [] [] [] [] 0 None 0%nat
  end.

Definition abab : list Z := [97; 98; 97; 98].
Definition aaaa : list Z := [97; 97; 97; 97].
Definition aabab : list Z := [97; 97; 98; 97; 98].
Definition aababab : list Z := [97; 97; 98; 97; 98; 97; 98].

Definition no_tree : SUFFIX_TREE := mkTree None 0%nat 0 [] [] [] [] [] [] [] 0 None 0%nat.

(** The tree of "abab" with cost bound 2, before the parse. *)
Definition abab_2_ready : SUFFIX_TREE :=
  Eval vm_compute in match ready abab 2 with Ret t => t | _ => no_tree end.

(** The same tree over a buffer whose third byte, 'c', labels no edge out
    of the root. *)
Definition abcb_on_abab : SUFFIX_TREE :=
  let t := abab_2_ready in
  mkTree (e t) (root t) (length t) [97; 98; 99; 98; 0] (heap t) (inversePointers t)
    (costArray t) (maxStrDepth t) (D t) (segm t) (COST t) (suffixless t) (avail t).

(** The tree that parsing "abab" with cost bound 2 leaves behind. *)
Definition abab_2_parsed : SUFFIX_TREE :=
  Eval vm_compute in tree_of (parsed cappedMax_spec abab 2).

(** "aabab" with cost bound 2 after two rounds, [cappedMax] as the spec
    words it. *)
Definition aabab_2_after_2 : SUFFIX_TREE :=
  Eval vm_compute in
    match (t ← ready aabab 2; rounds_run cappedMax_spec 2 64 t 1 0) with
    | Ret (t, _, _) => t
    | _ => no_tree
    end.

(** "aababab" with cost bound 1 after three rounds, [cappedMax] answering
    with a position. *)
Definition aababab_1_after_3 : SUFFIX_TREE :=
  Eval vm_compute in
    match (t ← ready aababab 1; rounds_run cappedMax_at 3 64 t 1 0) with
    | Ret (t, _, _) => t
    | _ => no_tree
    end.

(** The tree that parsing "aaaa" with cost bound 1 leaves behind. *)
Definition aaaa_1_parsed : SUFFIX_TREE :=
  Eval vm_compute in tree_of (parsed cappedMax_spec aaaa 1).

(** The tree [ST_CreateTree] builds for "aaaa". *)
Definition aaaa_tree : SUFFIX_TREE :=
  Eval vm_compute in match build aaaa with Ret t => t | _ => no_tree end.

(** "aaaa" with cost bound 2 after the first round (the literal 'a'). *)
Definition aaaa_2_after_1 : SUFFIX_TREE :=
  Eval vm_compute in
    match (t ← ready aaaa 2; rounds_run cappedMax_spec 1 64 t 1 0) with
    | Ret (t, _, _) => t
    | _ => no_tree
    end.

(** Its second round, the phrase (0, 3, $): the tree it leaves and its
    record. *)
Definition aaaa_2_round_2_tree : SUFFIX_TREE :=
  Eval vm_compute in
    match parse_round cappedMax_spec 64 aaaa_2_after_1 2 0 with
    | Ret (t, _, _, _) => t
    | _ => no_tree
    end.

Definition aaaa_2_round_2 : ROUND :=
  Eval vm_compute in
    match parse_round cappedMax_spec 64 aaaa_2_after_1 2 0 with
    | Ret (_, _, _, r) => r
    | _ => mkRound 0 [] 0 (mkMatch 0 0) (0, 0, 0)
    end.

(** ** Basic facts about outcomes and arrays *)

Lemma bind_Ret {A B : Type} (m : outcome A) (k : A -> outcome B) (b : B) :
  m ≫= k = Ret b -> exists a, m = Ret a /\ k a = Ret b.
Proof. destruct m; simpl; try discriminate. eauto. Qed.

Lemma bind_Exit {A B : Type} (m : outcome A) (k : A -> outcome B) (c : Z) :
  m ≫= k = Exit c -> m = Exit c \/ exists a, m = Ret a /\ k a = Exit c.
Proof. destruct m; simpl; try discriminate; eauto. intros [= ->]. now left. Qed.

Lemma deref_Ret {A : Type} (o : option A) (a : A) : deref o = Ret a -> o = Some a.
Proof. destruct o; simpl; congruence. Qed.

Lemma rd_Ret {A : Type} (l : list A) (i : Z) (a : A) :
  rd l i = Ret a -> 0 <= i /\ l !! Z.to_nat i = Some a.
Proof.
  unfold rd. destruct (Z.ltb_spec i 0) as [Hlt|Hge]; [discriminate|].
  intros Hd%deref_Ret. auto.
Qed.

Lemma rd_lookup {A : Type} (l : list A) (i : Z) (a : A) :
  0 <= i -> l !! Z.to_nat i = Some a -> rd l i = Ret a.
Proof.
  intros Hi Hl. unfold rd. destruct (Z.ltb_spec i 0); [lia|]. now rewrite Hl.
Qed.

Lemma wr_Ret {A : Type} (l l' : list A) (i : Z) (v : A) :
  wr l i v = Ret l' ->
  0 <= i < Z.of_nat (List.length l) /\ l' = <[Z.to_nat i := v]> l.
Proof.
  unfold wr. destruct (Z.leb_spec 0 i), (Z.ltb_spec i (Z.of_nat (List.length l)));
    simpl; try discriminate.
  intros [= <-]. auto.
Qed.

(** ** The query: pruned nodes and the bare literal *)

(** C7.  At a node the descent of [ST_FindSubstring] visits: when the
    node's [optimisticMinMax] is the unset sentinel the function returns
    the match found so far; when it equals the cost bound the function
    returns, having taken [(D[optimisticTextPos], optimisticTextPos)] as
    the match exactly when [D[optimisticTextPos]] is greater than the
    length of the match found so far. *)
Theorem ST_FindSubstring_pruned_node (fuel fuel0 : nat) (t : SUFFIX_TREE)
    (W : list Z) (P : Z) (p : ptr) (j : Z) (currentMatch : MATCH)
    (n : NODE) (a : Annotation) :
  heap t !! p = Some n ->
  annot n = Some a ->
  (optimisticMinMax a = UNSET ->
     ST_FindSubstring_loop (S fuel) fuel0 t W P (Some p) j currentMatch
     = Ret currentMatch) /\
  (optimisticMinMax a <> UNSET -> optimisticMinMax a = COST t ->
   forall d, rd (D t) (optimisticTextPos a) = Ret d ->
     ST_FindSubstring_loop (S fuel) fuel0 t W P (Some p) j currentMatch
     = Ret (if bool_decide (d > match_length currentMatch)
            then mkMatch d (optimisticTextPos a) else currentMatch)).
Proof.
  intros Hn Ha. split.
  - intros Hu. simpl. unfold node_at. rewrite Hn. simpl. rewrite Ha. simpl.
    now rewrite bool_decide_eq_true_2.
  - intros Hu Hc d Hd. simpl. unfold node_at. rewrite Hn. simpl. rewrite Ha. simpl.
    rewrite bool_decide_eq_false_2 by assumption.
    rewrite bool_decide_eq_true_2 by assumption.
    rewrite Hd. simpl. now destruct (bool_decide (d > match_length currentMatch)).
Qed.

Lemma ST_FindSubstring_pruned_node_witness :
  let t := aaaa_1_parsed in
  let a := mkAnnot 1 1 1 1 in
  let n := mkNode None (Some 3%nat) None None (Some 2%nat) 1 4 5 (Some 5) (Some a) in
  heap t !! 1%nat = Some n /\ annot n = Some a /\
  optimisticMinMax a <> UNSET /\ optimisticMinMax a = COST t /\
  rd (D t) (optimisticTextPos a) = Ret 1 /\
  ST_FindSubstring_loop 1 0 t [97; 0] 5 (Some 1%nat) 0 (mkMatch 0 0) = Ret (mkMatch 1 1).
Proof.
  intros t a n.
  assert (Hn : heap t !! 1%nat = Some n) by reflexivity.
  assert (Ha : annot n = Some a) by reflexivity.
  assert (Hu : optimisticMinMax a <> UNSET) by (vm_compute; discriminate).
  assert (Hc : optimisticMinMax a = COST t) by reflexivity.
  assert (Hd : rd (D t) (optimisticTextPos a) = Ret 1) by reflexivity.
  refine (conj Hn (conj Ha (conj Hu (conj Hc (conj Hd _))))).
  exact (proj2 (ST_FindSubstring_pruned_node 0 0 t [97; 0] 5 1%nat 0 (mkMatch 0 0) n a Hn Ha)
           Hu Hc 1 Hd).
Defined.

(** ** What the annotation engine leaves alone *)

(** A node without its annotation, and a tree whose nodes are so reduced:
    everything the annotation engine does not write. *)
Definition skeleton (n : NODE) : NODE :=
  mkNode (sons n) (right_sibling n) (left_sibling n) (suffix_link n) (father n)
    (path_position n) (edge_label_start n) (edge_label_end n) (strDepth n) None.

Definition erase (t : SUFFIX_TREE) : SUFFIX_TREE :=
  with_heap t (skeleton <$> heap t).

Lemma erase_store_annot (t : SUFFIX_TREE) (p : ptr) (n n0 : NODE) (a : Annotation) :
  heap t !! p = Some n0 -> skeleton n = skeleton n0 ->
  erase (store t p (set_annot n a)) = erase t.
Proof.
  intros Hp Hs. unfold erase, store, with_heap. simpl. f_equal.
  rewrite list_fmap_insert. apply list_insert_id.
  rewrite list_lookup_fmap, Hp. simpl. f_equal. rewrite <- Hs. reflexivity.
Qed.

Lemma erase_fields (t t' : SUFFIX_TREE) :
  erase t' = erase t ->
  e t' = e t /\ root t' = root t /\ length t' = length t /\
  tree_string t' = tree_string t /\ inversePointers t' = inversePointers t /\
  costArray t' = costArray t /\ maxStrDepth t' = maxStrDepth t /\
  D t' = D t /\ segm t' = segm t /\ COST t' = COST t /\
  skeleton <$> heap t' = skeleton <$> heap t.
Proof.
  intros H.
  repeat split;
    [ apply (f_equal e) in H | apply (f_equal root) in H | apply (f_equal length) in H
    | apply (f_equal tree_string) in H | apply (f_equal inversePointers) in H
    | apply (f_equal costArray) in H | apply (f_equal maxStrDepth) in H
    | apply (f_equal D) in H | apply (f_equal segm) in H | apply (f_equal COST) in H
    | apply (f_equal heap) in H ]; exact H.
Qed.

(** A call that cannot end the process. *)
Definition quiet {A : Type} (m : outcome A) : Prop := forall c, m <> Exit c.

Lemma quiet_Ret {A : Type} (a : A) : quiet (Ret a).
Proof. intros c. discriminate. Qed.
Lemma quiet_Undef {A : Type} : quiet (@Undef A).
Proof. intros c. discriminate. Qed.
Lemma quiet_Timeout {A : Type} : quiet (@Timeout A).
Proof. intros c. discriminate. Qed.
Lemma quiet_bind {A B : Type} (m : outcome A) (k : A -> outcome B) :
  quiet m -> (forall a, m = Ret a -> quiet (k a)) -> quiet (m ≫= k).
Proof.
  intros Hm Hk c H. apply bind_Exit in H as [H | (a & Ha & H)].
  - exact (Hm c H).
  - exact (Hk a Ha c H).
Qed.
Lemma quiet_deref {A : Type} (o : option A) : quiet (deref o).
Proof. destruct o; intros c; discriminate. Qed.
Lemma quiet_rd {A : Type} (l : list A) (i : Z) : quiet (rd l i).
Proof. unfold rd. destruct (i <? 0); [apply quiet_Undef | apply quiet_deref]. Qed.
Lemma quiet_wr {A : Type} (l : list A) (i : Z) (v : A) : quiet (wr l i v).
Proof. unfold wr. destruct (_ && _); intros c; discriminate. Qed.
Lemma quiet_rd_init {A : Type} (l : list (option A)) (i : Z) : quiet (rd_init l i).
Proof. apply quiet_bind; [apply quiet_rd | intros; apply quiet_deref]. Qed.
Lemma quiet_node_at (t : SUFFIX_TREE) (p : ptr) : quiet (node_at t p).
Proof. apply quiet_deref. Qed.
Lemma quiet_if {A : Type} (b : bool) (x y : outcome A) :
  quiet x -> quiet y -> quiet (if b then x else y).
Proof. now destruct b. Qed.

Create HintDb quiet.
#[local] Hint Resolve quiet_Ret quiet_Undef quiet_Timeout quiet_deref quiet_rd
  quiet_wr quiet_rd_init quiet_node_at : quiet.

(** Splits the goal [quiet m] along the binds, branches and matches of [m]. *)
Ltac quiet_step :=
  match goal with
  | |- quiet (_ ≫= _) => apply quiet_bind; [| intros ? ?]
  | |- quiet (if ?b then _ else _) => destruct b
  | |- quiet (match ?x with _ => _ end) => destruct x
  | |- quiet (let '(_, _) := ?x in _) => destruct x
  | |- quiet _ => solve [auto with quiet]
  end.
Ltac quiet_tac := repeat quiet_step.

Lemma quiet_getMinMaxOfChildren_loop fuel t r c :
  quiet (getMinMaxOfChildren_loop fuel t r c).
Proof.
  revert r c. induction fuel as [|fuel IH]; intros r [c|]; simpl; quiet_tac; apply IH.
Qed.

Lemma quiet_getMinMaxOfChildren fuel t p : quiet (getMinMaxOfChildren fuel t p).
Proof.
  unfold getMinMaxOfChildren. quiet_tac. apply quiet_getMinMaxOfChildren_loop.
Qed.

Section EngineFacts.

Variable cappedMax : list Z -> Z -> Z -> Z -> Z.

Lemma quiet_commit_ancestor t textPos_ finalPos d a :
  quiet (commit_ancestor cappedMax t textPos_ finalPos d a).
Proof. unfold commit_ancestor. quiet_tac. Qed.

Lemma quiet_optimistic_ancestor t textPos_ mm a h :
  quiet h -> quiet (optimistic_ancestor t textPos_ mm a h).
Proof. intros Hh. unfold optimistic_ancestor. quiet_tac. Qed.

Lemma quiet_annotate_ancestor fuel t textPos_ finalPos mm p :
  quiet (annotate_ancestor cappedMax fuel t textPos_ finalPos mm p).
Proof.
  unfold annotate_ancestor. quiet_tac.
  - apply quiet_getMinMaxOfChildren.
  - apply quiet_commit_ancestor.
  - apply quiet_optimistic_ancestor. quiet_tac.
Qed.

Lemma quiet_ancestors_loop fuel fuel0 t textPos_ finalPos len mm parent :
  quiet (ancestors_loop cappedMax fuel fuel0 t textPos_ finalPos len mm parent).
Proof.
  revert t parent. induction fuel as [|fuel IH]; intros t [p|]; simpl; quiet_tac;
    try apply quiet_annotate_ancestor; apply IH.
Qed.

Lemma quiet_changeAnnotationFromLeaf fuel t textPos_ finalPos len mm distToC :
  quiet (changeAnnotationFromLeaf cappedMax fuel t textPos_ finalPos len mm distToC).
Proof. unfold changeAnnotationFromLeaf. quiet_tac. apply quiet_ancestors_loop. Qed.

Lemma quiet_propagate_loop i fuel t textPos_ len cur :
  quiet (propagate_loop cappedMax i fuel t textPos_ len cur).
Proof.
  revert t cur. induction i as [|i IH]; intros t cur; simpl; quiet_tac.
  apply quiet_changeAnnotationFromLeaf.
Qed.

Lemma quiet_propagateAnnotation fuel t textPos_ len :
  quiet (propagateAnnotation cappedMax fuel t textPos_ len).
Proof. apply quiet_propagate_loop. Qed.

End EngineFacts.

(** Inverts a hypothesis [m = Ret _] along the binds of [m]. *)
Ltac inv_ret H :=
  repeat match type of H with
  | (_ ≫= _) = Ret _ =>
    let x := fresh "x" in let E := fresh "E" in
    apply bind_Ret in H as (x & E & H)
  | (let '(_, _) := ?p in _) = Ret _ => destruct p
  | Ret _ = Ret _ => injection H as H
  end.

Lemma node_at_Ret (t : SUFFIX_TREE) (p : ptr) (n : NODE) :
  node_at t p = Ret n -> heap t !! p = Some n.
Proof. apply deref_Ret. Qed.

Lemma node_at_lookup (t : SUFFIX_TREE) (p : ptr) (n : NODE) :
  heap t !! p = Some n -> node_at t p = Ret n.
Proof. intros H. unfold node_at. now rewrite H. Qed.

Lemma lookup_store_eq (t : SUFFIX_TREE) (p : ptr) (n n0 : NODE) :
  heap t !! p = Some n0 -> heap (store t p n) !! p = Some n.
Proof.
  intros H. unfold store. simpl. apply list_lookup_insert_eq.
  now apply lookup_lt_Some in H.
Qed.

Lemma lookup_store_ne (t : SUFFIX_TREE) (p q : ptr) (n : NODE) :
  p <> q -> heap (store t p n) !! q = heap t !! q.
Proof. intros H. unfold store. simpl. now apply list_lookup_insert_ne. Qed.

Lemma skeleton_set_annot (n : NODE) (a : Annotation) :
  skeleton (set_annot n a) = skeleton n.
Proof. reflexivity. Qed.

Section EngineFrame.

Variable cappedMax : list Z -> Z -> Z -> Z -> Z.

Lemma erase_annotate_ancestor fuel t textPos_ finalPos mm p t' :
  annotate_ancestor cappedMax fuel t textPos_ finalPos mm p = Ret t' ->
  erase t' = erase t.
Proof.
  unfold annotate_ancestor. intros H. inv_ret H. subst t'.
  match goal with E : node_at t p = Ret ?n |- _ => apply node_at_Ret in E; rename E into Hp end.
  etransitivity.
  - eapply erase_store_annot; [eapply lookup_store_eq; exact Hp | reflexivity].
  - eapply erase_store_annot; [exact Hp | reflexivity].
Qed.

Lemma erase_ancestors_loop fuel fuel0 t textPos_ finalPos len mm parent t' :
  ancestors_loop cappedMax fuel fuel0 t textPos_ finalPos len mm parent = Ret t' ->
  erase t' = erase t.
Proof.
  revert t parent. induction fuel as [|fuel IH]; intros t [p|]; simpl; intros H;
    try (injection H as ->; reflexivity).
  - inv_ret H. destruct (bool_decide _); [discriminate | now injection H as ->].
  - inv_ret H. destruct (bool_decide _); [| now injection H as ->].
    inv_ret H. apply IH in H. apply erase_annotate_ancestor in E1. congruence.
Qed.

Lemma erase_changeAnnotationFromLeaf fuel t textPos_ finalPos len mm distToC t' :
  changeAnnotationFromLeaf cappedMax fuel t textPos_ finalPos len mm distToC = Ret t' ->
  erase t' = erase t.
Proof.
  unfold changeAnnotationFromLeaf. intros H. inv_ret H.
  apply erase_ancestors_loop in H. rewrite H.
  apply node_at_Ret in E0. now apply (erase_store_annot t _ x0 x0).
Qed.

Lemma erase_propagate_loop i fuel t textPos_ len cur t' :
  propagate_loop cappedMax i fuel t textPos_ len cur = Ret t' ->
  erase t' = erase t.
Proof.
  revert t cur. induction i as [|i IH]; intros t cur H.
  - simpl in H. now injection H as ->.
  - cbn [propagate_loop] in H. inv_ret H.
    destruct (bool_decide _); [now injection H as ->|].
    inv_ret H. apply IH in H. apply erase_changeAnnotationFromLeaf in E1. congruence.
Qed.

Lemma erase_propagateAnnotation fuel t textPos_ len t' :
  propagateAnnotation cappedMax fuel t textPos_ len = Ret t' -> erase t' = erase t.
Proof. apply erase_propagate_loop. Qed.

End EngineFrame.

Lemma u32_small (x : Z) : 0 <= x < 2 ^ 32 -> u32 x = x.
Proof. intros H. unfold u32. now apply Z.mod_small. Qed.

Lemma u32_range (x : Z) : 0 <= u32 x < 2 ^ 32.
Proof. unfold u32. apply Z.mod_pos_bound. lia. Qed.

Lemma rd_drop_0 {A : Type} (l : list A) (k : Z) :
  1 <= k -> rd (drop (Z.to_nat (k - 1)) l) 0 = rd l (k - 1).
Proof.
  intros Hk. unfold rd. destruct (Z.ltb_spec (k - 1) 0); [lia|]. simpl.
  rewrite lookup_drop. now rewrite Nat.add_0_r.
Qed.

(** A query whose first byte labels no edge out of the root comes back
    empty. *)
Lemma ST_FindSubstring_no_edge (fuel : nat) (t : SUFFIX_TREE) (W : list Z) (P c : Z) :
  rd W 0 = Ret c -> find_son fuel t (root t) c = Ret None ->
  ST_FindSubstring fuel t W P = Ret (mkMatch 0 0).
Proof.
  intros HW Hson. unfold ST_FindSubstring. rewrite HW. simpl. rewrite Hson. simpl.
  now destruct fuel.
Qed.

(** C10.  When the byte at the current position labels no edge out of the
    root, every query that starts with it returns the match of length 0
    at position 0; the round of the parser then goes through without
    ending the process, writes cost 0 at the position, and prints the
    line (-1, 0, byte): the phrase that is just a literal. *)
Theorem bare_literal_round (cappedMax : list Z -> Z -> Z -> Z -> Z) (fuel : nat)
    (t : SUFFIX_TREE) (textPos_ positionOfPreviousC c : Z) :
  1 <= textPos_ -> textPos_ + 1 < 2 ^ 32 ->
  char_at t textPos_ = Ret c ->
  find_son fuel t (root t) c = Ret None ->
  (forall W P, rd W 0 = Ret c -> ST_FindSubstring fuel t W P = Ret (mkMatch 0 0)) /\
  parse_round cappedMax fuel t textPos_ positionOfPreviousC =
    (u ← wr (costArray t) textPos_ 0;
     t' ← propagateAnnotation cappedMax fuel
            (with_segm (with_costArray t u) (segmUpdate (segm t) textPos_ 0)) textPos_ 0;
     Ret (t', textPos_ + 1, positionOfPreviousC,
          mkRound textPos_ (drop (Z.to_nat (textPos_ - 1)) (tree_string t)) (length t)
            (mkMatch 0 0) (-1, 0, c))) /\
  quiet (parse_round cappedMax fuel t textPos_ positionOfPreviousC).
Proof.
  intros Hlo Hhi Hc Hson.
  assert (Hq : forall W P, rd W 0 = Ret c -> ST_FindSubstring fuel t W P = Ret (mkMatch 0 0))
    by (intros W P HW; now apply ST_FindSubstring_no_edge with c).
  assert (Heq : parse_round cappedMax fuel t textPos_ positionOfPreviousC =
    (u ← wr (costArray t) textPos_ 0;
     t' ← propagateAnnotation cappedMax fuel
            (with_segm (with_costArray t u) (segmUpdate (segm t) textPos_ 0)) textPos_ 0;
     Ret (t', textPos_ + 1, positionOfPreviousC,
          mkRound textPos_ (drop (Z.to_nat (textPos_ - 1)) (tree_string t)) (length t)
            (mkMatch 0 0) (-1, 0, c)))).
  { unfold parse_round. rewrite Hq by (rewrite rd_drop_0 by lia; exact Hc).
    cbn [mbind outcome_bind match_length match_pos].
    change (Z.to_nat 0) with 0%nat. cbn [cost_loop mbind outcome_bind].
    rewrite Z.add_0_r, (u32_small textPos_) by lia.
    destruct (wr (costArray t) textPos_ 0) as [u| | |]; try reflexivity.
    cbn [mbind outcome_bind].
    destruct (propagateAnnotation _ _ _ _ _) as [t'| | |] eqn:Hp; try reflexivity.
    cbn [mbind outcome_bind].
    apply erase_propagateAnnotation, erase_fields in Hp.
    destruct Hp as (_ & _ & _ & Hs & _).
    rewrite (u32_small (textPos_ + 1)) by lia.
    replace (textPos_ + 1 - 1) with textPos_ by lia.
    unfold char_at in *. rewrite Hs. cbn [tree_string with_segm with_costArray].
    rewrite Hc. reflexivity. }
  split; [exact Hq|]. split; [exact Heq|].
  rewrite Heq. quiet_tac. apply quiet_propagateAnnotation.
Qed.

Lemma bare_literal_round_witness :
  let t := abcb_on_abab in
  1 <= 3 /\ 3 + 1 < 2 ^ 32 /\ char_at t 3 = Ret 99 /\
  find_son 8 t (root t) 99 = Ret None /\
  ST_FindSubstring 8 t [99; 98; 0] 5 = Ret (mkMatch 0 0) /\
  exists t', parse_round cappedMax_spec 8 t 3 0
             = Ret (t', 4, 0, mkRound 3 [99; 98; 0] 5 (mkMatch 0 0) (-1, 0, 99)).
Proof.
  intros t.
  assert (H1 : 1 <= 3) by lia.
  assert (H2 : 3 + 1 < 2 ^ 32) by lia.
  assert (H3 : char_at t 3 = Ret 99) by reflexivity.
  assert (H4 : find_son 8 t (root t) 99 = Ret None) by reflexivity.
  destruct (bare_literal_round cappedMax_spec 8 t 3 0 99 H1 H2 H3 H4) as (Hq & Heq & _).
  refine (conj H1 (conj H2 (conj H3 (conj H4 (conj (Hq [99; 98; 0] 5 eq_refl) _))))).
  rewrite Heq. vm_compute. eexists. reflexivity.
Defined.

(** ** What a round of the parser leaves alone *)

(** The parser writes the cost array, its segment tree, [D] and the
    annotations; this is the rest of the tree. *)
Definition static (t : SUFFIX_TREE) : SUFFIX_TREE :=
  with_segm (with_D (with_costArray (erase t) []) []) [].

Lemma static_erase (t t' : SUFFIX_TREE) : erase t' = erase t -> static t' = static t.
Proof. unfold static. now intros ->. Qed.

Lemma static_fields (t t' : SUFFIX_TREE) :
  static t' = static t ->
  length t' = length t /\ tree_string t' = tree_string t /\ COST t' = COST t /\
  maxStrDepth t' = maxStrDepth t /\ inversePointers t' = inversePointers t /\
  skeleton <$> heap t' = skeleton <$> heap t.
Proof.
  intros H.
  repeat split;
    [ apply (f_equal length) in H | apply (f_equal tree_string) in H
    | apply (f_equal COST) in H | apply (f_equal maxStrDepth) in H
    | apply (f_equal inversePointers) in H | apply (f_equal heap) in H ]; exact H.
Qed.

Lemma static_cost_step t textPos_ pos i k prevC t' k' prevC' :
  cost_step t textPos_ pos i k prevC = Ret (t', k', prevC') -> static t' = static t.
Proof.
  unfold cost_step. intros H. inv_ret H.
  destruct (bool_decide (_ > _)); [discriminate|].
  destruct (bool_decide (_ = COST t)) in E1; inv_ret E1; simplify_eq; reflexivity.
Qed.

Lemma static_cost_loop cnt t textPos_ pos i k prevC t' prevC' :
  cost_loop cnt t textPos_ pos i k prevC = Ret (t', prevC') -> static t' = static t.
Proof.
  revert t i k prevC. induction cnt as [|cnt IH]; intros t i k prevC H; simpl in H.
  - now simplify_eq.
  - inv_ret H. apply IH in H. apply static_cost_step in E. congruence.
Qed.

Section ParserFrame.

Variable cappedMax : list Z -> Z -> Z -> Z -> Z.

Lemma static_parse_round fuel t textPos_ prevC t' textPos' prevC' r :
  parse_round cappedMax fuel t textPos_ prevC = Ret (t', textPos', prevC', r) ->
  static t' = static t.
Proof.
  unfold parse_round. intros H. inv_ret H. simplify_eq.
  apply erase_propagateAnnotation, static_erase in E2.
  apply static_cost_loop in E0. rewrite E2, <- E0. reflexivity.
Qed.

(** What a round records of its query. *)
Lemma parse_round_query fuel t textPos_ prevC t' textPos' prevC' r :
  parse_round cappedMax fuel t textPos_ prevC = Ret (t', textPos', prevC', r) ->
  at_textPos r = textPos_ /\ query_P r = length t /\
  query_W r = drop (Z.to_nat (textPos_ - 1)) (tree_string t).
Proof.
  unfold parse_round. intros H. inv_ret H. simplify_eq. auto.
Qed.

End ParserFrame.

(** ** Exit codes *)

(** Every [exit] a call can reach has a code in [P]. *)
Definition exits {A : Type} (P : Z -> Prop) (m : outcome A) : Prop :=
  forall c, m = Exit c -> P c.

Lemma exits_quiet {A : Type} (P : Z -> Prop) (m : outcome A) : quiet m -> exits P m.
Proof. intros H c Hc. destruct (H c Hc). Qed.

Lemma exits_Exit {A : Type} (P : Z -> Prop) (c : Z) : P c -> exits P (@Exit A c).
Proof. intros H c' [= <-]. exact H. Qed.

Lemma exits_bind {A B : Type} (P : Z -> Prop) (m : outcome A) (k : A -> outcome B) :
  exits P m -> (forall a, m = Ret a -> exits P (k a)) -> exits P (m ≫= k).
Proof.
  intros Hm Hk c H. apply bind_Exit in H as [H | (a & Ha & H)].
  - exact (Hm c H).
  - exact (Hk a Ha c H).
Qed.

Create HintDb exits.
#[local] Hint Resolve exits_quiet exits_Exit : exits.
#[local] Hint Extern 2 (quiet _) => solve [auto with quiet] : exits.

Ltac exits_step :=
  match goal with
  | |- exits _ (_ ≫= _) => apply exits_bind; [| intros ? ?]
  | |- exits _ (if ?b then _ else _) => destruct b
  | |- exits _ (match ?x with _ => _ end) => destruct x
  | |- exits _ _ => solve [auto with exits]
  end.
Ltac exits_tac := repeat exits_step.

Lemma quiet_char_at t k : quiet (char_at t k).
Proof. apply quiet_rd. Qed.
#[local] Hint Resolve quiet_char_at : quiet.

Lemma quiet_find_son_loop fuel t node c : quiet (find_son_loop fuel t node c).
Proof. revert node. induction fuel as [|fuel IH]; intros [p|]; simpl; quiet_tac. Qed.
#[local] Hint Resolve quiet_find_son_loop : quiet.

Lemma quiet_find_son fuel t node c : quiet (find_son fuel t node c).
Proof. unfold find_son. quiet_tac. Qed.
#[local] Hint Resolve quiet_find_son : quiet.

Lemma quiet_get_node_label_end t node : quiet (get_node_label_end t node).
Proof. unfold get_node_label_end. quiet_tac. Qed.
#[local] Hint Resolve quiet_get_node_label_end : quiet.

Lemma quiet_get_node_label_length t node : quiet (get_node_label_length t node).
Proof. unfold get_node_label_length. quiet_tac. Qed.
#[local] Hint Resolve quiet_get_node_label_length : quiet.

Lemma quiet_is_last_char_in_edge t node ep : quiet (is_last_char_in_edge t node ep).
Proof. unfold is_last_char_in_edge. quiet_tac. Qed.
#[local] Hint Resolve quiet_is_last_char_in_edge : quiet.

Lemma quiet_connect_siblings t l r : quiet (connect_siblings t l r).
Proof. unfold connect_siblings. quiet_tac. Qed.
#[local] Hint Resolve quiet_connect_siblings : quiet.

Lemma quiet_last_sibling fuel t son : quiet (last_sibling fuel t son).
Proof. revert son. induction fuel as [|fuel IH]; intros son; simpl; quiet_tac. Qed.
#[local] Hint Resolve quiet_last_sibling : quiet.

Lemma quiet_scan_edge cnt t start sb len ep cf : quiet (scan_edge cnt t start sb len ep cf).
Proof. revert ep cf. induction cnt as [|cnt IH]; intros ep cf; simpl; quiet_tac. Qed.
#[local] Hint Resolve quiet_scan_edge : quiet.

Lemma quiet_trace_single_edge fuel t node str type :
  quiet (trace_single_edge fuel t node str type).
Proof. unfold trace_single_edge. quiet_tac. Qed.
#[local] Hint Resolve quiet_trace_single_edge : quiet.

Lemma quiet_trace_string_loop fuel fuel0 t node str cf type :
  quiet (trace_string_loop fuel fuel0 t node str cf type).
Proof.
  revert node str cf. induction fuel as [|fuel IH]; intros node str cf; simpl; quiet_tac.
Qed.
#[local] Hint Resolve quiet_trace_string_loop : quiet.

Lemma quiet_trace_string fuel t node str type : quiet (trace_string fuel t node str type).
Proof. apply quiet_trace_string_loop. Qed.
#[local] Hint Resolve quiet_trace_string : quiet.

Lemma quiet_follow_suffix_link fuel t pos : quiet (follow_suffix_link fuel t pos).
Proof. unfold follow_suffix_link. quiet_tac. Qed.
#[local] Hint Resolve quiet_follow_suffix_link : quiet.

Lemma quiet_create_suffix_link t node link : quiet (create_suffix_link t node link).
Proof. unfold create_suffix_link. quiet_tac. Qed.
#[local] Hint Resolve quiet_create_suffix_link : quiet.

Lemma exits_create_node t f s e_ p : exits (eq 0) (create_node t f s e_ p).
Proof. unfold create_node. exits_tac. Qed.
#[local] Hint Resolve exits_create_node : exits.

Lemma exits_apply_extension_rule_2 fuel t node b e_ pp ep type :
  exits (eq 0) (apply_extension_rule_2 fuel t node b e_ pp ep type).
Proof. unfold apply_extension_rule_2. exits_tac. Qed.
#[local] Hint Resolve exits_apply_extension_rule_2 : exits.

Lemma exits_SEA fuel t pos str after : exits (eq 0) (SEA fuel t pos str after).
Proof. unfold SEA. exits_tac. Qed.
#[local] Hint Resolve exits_SEA : exits.

Lemma exits_SPA_loop fuel fuel0 t pos phase ext rep rule :
  exits (eq 0) (SPA_loop fuel fuel0 t pos phase ext rep rule).
Proof.
  revert t pos ext rep rule.
  induction fuel as [|fuel IH]; intros t pos ext rep rule; simpl; exits_tac.
Qed.
#[local] Hint Resolve exits_SPA_loop : exits.

Lemma exits_phases cnt fuel t pos phase ext rep :
  exits (eq 0) (phases cnt fuel t pos phase ext rep).
Proof.
  revert t pos phase ext rep.
  induction cnt as [|cnt IH]; intros t pos phase ext rep; simpl; exits_tac.
  unfold SPA. auto with exits.
Qed.
#[local] Hint Resolve exits_phases : exits.

Lemma quiet_monotone_pass cnt a i : quiet (monotone_pass cnt a i).
Proof. revert a i. induction cnt as [|cnt IH]; intros a i; simpl; quiet_tac. Qed.
#[local] Hint Resolve quiet_monotone_pass : quiet.

Lemma quiet_dfs fuel :
  (forall t node depth, quiet (dfsForInversePointers fuel t node depth)) /\
  (forall t c depth num, quiet (dfs_children fuel t c depth num)).
Proof.
  induction fuel as [|fuel [IH1 IH2]]; split.
  - intros; apply quiet_Timeout.
  - intros t [c|] depth num; simpl; quiet_tac.
  - intros t node depth. simpl. quiet_tac; apply IH2.
  - intros t [c|] depth num; simpl; quiet_tac; first [apply IH1 | apply IH2].
Qed.

Lemma quiet_dfsForInversePointers fuel t node depth :
  quiet (dfsForInversePointers fuel t node depth).
Proof. apply quiet_dfs. Qed.
#[local] Hint Resolve quiet_dfsForInversePointers : quiet.

Lemma exits_ST_CreateTree fuel mem_ str len : exits (eq 0) (ST_CreateTree fuel mem_ str len).
Proof. unfold ST_CreateTree. exits_tac. Qed.

Lemma quiet_scan_label cnt t W P le j k : quiet (scan_label cnt t W P le j k).
Proof. revert j k. induction cnt as [|cnt IH]; intros j k; simpl; quiet_tac. Qed.
#[local] Hint Resolve quiet_scan_label : quiet.

Lemma exits_ST_FindSubstring_loop fuel fuel0 t W P node j cm :
  exits (eq 1) (ST_FindSubstring_loop fuel fuel0 t W P node j cm).
Proof.
  revert node j cm. induction fuel as [|fuel IH]; intros [p|] j cm; simpl; exits_tac.
Qed.
#[local] Hint Resolve exits_ST_FindSubstring_loop : exits.

Lemma exits_ST_FindSubstring fuel t W P : exits (eq 1) (ST_FindSubstring fuel t W P).
Proof. unfold ST_FindSubstring. exits_tac. Qed.
#[local] Hint Resolve exits_ST_FindSubstring : exits.

Lemma quiet_fill_D cnt d pos : quiet (fill_D cnt d pos).
Proof. revert d pos. induction cnt as [|cnt IH]; intros d pos; simpl; quiet_tac. Qed.
#[local] Hint Resolve quiet_fill_D : quiet.

Lemma exits_cost_step t textPos_ pos i k prevC :
  exits (eq 1) (cost_step t textPos_ pos i k prevC).
Proof. unfold cost_step. exits_tac. Qed.
#[local] Hint Resolve exits_cost_step : exits.

Lemma exits_cost_loop cnt t textPos_ pos i k prevC :
  exits (eq 1) (cost_loop cnt t textPos_ pos i k prevC).
Proof.
  revert t i k prevC. induction cnt as [|cnt IH]; intros t i k prevC; simpl; exits_tac.
Qed.
#[local] Hint Resolve exits_cost_loop : exits.

Section ProgramExits.

Variable cappedMax : list Z -> Z -> Z -> Z -> Z.

Lemma exits_parse_round fuel t textPos_ prevC :
  exits (eq 1) (parse_round cappedMax fuel t textPos_ prevC).
Proof.
  unfold parse_round. exits_tac.
  apply exits_quiet, quiet_propagateAnnotation.
Qed.

Lemma exits_parse_loop rounds fuel t textPos_ z prevC log :
  exits (eq 1) (parse_loop cappedMax rounds fuel t textPos_ z prevC log).
Proof.
  revert t textPos_ z prevC log.
  induction rounds as [|rounds IH]; intros t textPos_ z prevC log; simpl; exits_tac.
  apply exits_parse_round.
Qed.

Lemma exits_parseBLZ fuel t : exits (eq 1) (parseBLZ cappedMax fuel t).
Proof. apply exits_parse_loop. Qed.

End ProgramExits.

(** The exit status of [main], path by path: 1 when arguments are missing,
    when the input holds a zero byte and when the parser detects a violated
    invariant; 0 on success, and also 0 when the input file cannot be
    opened and when an allocation fails. *)
Theorem main_exit_status (cappedMax : list Z -> Z -> Z -> Z -> Z) (fuel : nat) (env : ENV) :
  (argc env < 3 -> main cappedMax fuel env = Exit 1) /\
  (3 <= argc env -> file env = None -> main cappedMax fuel env = Ret 0) /\
  (3 <= argc env -> forall content, file env = Some content ->
     (mem env = 0%nat -> main cappedMax fuel env = Exit 0) /\
     (mem env <> 0%nat -> Exists (fun b => b = 0) content ->
        main cappedMax fuel env = Exit 1) /\
     (mem env <> 0%nat -> ~ Exists (fun b => b = 0) content ->
        let built := ST_CreateTree fuel (pred (mem env)) (content ++ [0])
                       (Z.of_nat (List.length content)) in
        (forall c, built = Exit c -> c = 0 /\ main cappedMax fuel env = Exit 0) /\
        (forall t, built = Ret t ->
           let run := parseBLZ cappedMax fuel (with_COST t (u32 (maxc env))) in
           (forall c, run = Exit c -> c = 1 /\ main cappedMax fuel env = Exit 1) /\
           (forall r, run = Ret r -> main cappedMax fuel env = Ret 0)))).
Proof.
  unfold main. split; [|split].
  - intros H. now rewrite bool_decide_eq_true_2.
  - intros H Hf. rewrite bool_decide_eq_false_2 by lia. now rewrite Hf.
  - intros H content Hf. rewrite bool_decide_eq_false_2 by lia. rewrite Hf.
    split; [|split].
    + now intros ->.
    + intros Hm Hz. destruct (mem env); [congruence|].
      now rewrite bool_decide_eq_true_2.
    + intros Hm Hz. destruct (mem env) as [|m]; [congruence|].
      rewrite bool_decide_eq_false_2 by assumption. simpl. split.
      * intros c Hc. pose proof (exits_ST_CreateTree _ _ _ _ c Hc) as <-.
        now rewrite Hc.
      * intros t Ht. rewrite Ht. simpl. split.
        -- intros c Hc. pose proof (exits_parseBLZ cappedMax _ _ c Hc) as <-.
           now rewrite Hc.
        -- intros [[t' z] log] Hr. now rewrite Hr.
Qed.

Lemma main_exit_status_witness :
  main cappedMax_spec 64 (mkEnv 3 (Some abab) 2 64) = Ret 0 /\
  main cappedMax_spec 64 (mkEnv 3 (Some [97; 0; 98]) 2 64) = Exit 1 /\
  main cappedMax_spec 64 (mkEnv 2 (Some abab) 2 64) = Exit 1.
Proof.
  pose (env := mkEnv 3 (Some abab) 2 64).
  pose (bad := mkEnv 3 (Some [97; 0; 98]) 2 64).
  pose (few := mkEnv 2 (Some abab) 2 64).
  destruct (main_exit_status cappedMax_spec 64 env) as (_ & _ & H).
  destruct (main_exit_status cappedMax_spec 64 bad) as (_ & _ & Hb).
  destruct (main_exit_status cappedMax_spec 64 few) as (Hf & _).
  assert (Hargs : 3 <= 3) by lia.
  assert (Hmem : 64%nat <> 0%nat) by discriminate.
  split; [|split].
  - destruct (H Hargs abab eq_refl) as (_ & _ & Hok).
    assert (Hz : ~ Exists (fun b => b = 0) abab).
    { unfold abab. rewrite !Exists_cons, Exists_nil. intuition discriminate. }
    destruct (Hok Hmem Hz) as (_ & Hrun). cbv zeta in Hrun.
    match type of Hrun with
    | forall t, ?b = Ret t -> _ =>
      destruct b as [t| | |] eqn:Ht; try (vm_compute in Ht; discriminate)
    end.
    destruct (Hrun t eq_refl) as (_ & Hret).
    match type of Hret with
    | forall r, ?b = Ret r -> _ => destruct b as [r| | |] eqn:Hp
    end.
    + exact (Hret r eq_refl).
    + vm_compute in Ht. injection Ht as <-. vm_compute in Hp. discriminate.
    + vm_compute in Ht. injection Ht as <-. vm_compute in Hp. discriminate.
    + vm_compute in Ht. injection Ht as <-. vm_compute in Hp. discriminate.
  - destruct (Hb Hargs [97; 0; 98] eq_refl) as (_ & Hzero & _).
    apply (Hzero Hmem). apply Exists_cons_tl, Exists_cons_hd. reflexivity.
  - apply Hf. simpl. lia.
Defined.

(** C3 asks for exit status 1 when the input file cannot be opened and
    when an allocation fails; the program ends with status 0 there: [main]
    returns 0 after "can't open file.", and [main], [ST_CreateTree] and
    [create_node] call exit(0) when [malloc] fails.  The error paths beside
    them in [main], too few arguments and a zero byte in the input, call
    exit(1). *)
Lemma failures_with_exit_status_0 :
  exit_status (main cappedMax_spec 64 (mkEnv 3 None 2 64)) = Some 0 /\
  exit_status (main cappedMax_spec 64 (mkEnv 3 (Some abab) 2 0)) = Some 0 /\
  exit_status (main cappedMax_spec 64 (mkEnv 3 (Some abab) 2 1)) = Some 0 /\
  exit_status (main cappedMax_spec 64 (mkEnv 3 (Some abab) 2 5)) = Some 0 /\
  (exists t p, create_node (with_avail abab_2_ready 0) None 0 0 0 = Exit 0 /\
               create_node abab_2_ready None 0 0 0 = Ret (t, p)).
Proof.
  repeat split; try (vm_compute; reflexivity).
  vm_compute. eexists _, _. split; reflexivity.
Qed.

(** ** The candidate cost of an ancestor *)

Section CandidateCost.

Variable cappedMax : list Z -> Z -> Z -> Z -> Z.

Lemma commit_ancestor_cost t textPos_ finalPos d a a' :
  u32 (textPos_ + d - 1) <= finalPos ->
  commit_ancestor cappedMax t textPos_ finalPos d a = Ret a' ->
  exists cost,
    rd (costArray t) (cappedMax (segm t) textPos_ (u32 (textPos_ + d - 1)) (COST t))
      = Ret cost /\
    optimisticMinMax a' = optimisticMinMax a /\
    optimisticTextPos a' = optimisticTextPos a /\
    (minMax a <> COST t -> cost < minMax a ->
       minMax a' = cost /\ textPos a' = textPos_) /\
    (minMax a <> COST t -> ~ cost < minMax a -> a' = a) /\
    (minMax a = COST t -> cost < COST t ->
       minMax a' = cost /\ textPos a' = textPos_) /\
    (minMax a = COST t -> ~ cost < COST t ->
       a' = a \/ (minMax a' = cost /\ textPos a' = textPos_)).
Proof.
  intros Hfit H. unfold commit_ancestor in H.
  rewrite bool_decide_eq_true_2 in H by exact Hfit.
  apply bind_Ret in H as (cost & Hcost & H).
  exists cost. split; [exact Hcost|].
  destruct (decide (minMax a = COST t)) as [Hm|Hm].
  - rewrite bool_decide_eq_true_2 in H by exact Hm.
    destruct (decide (cost < COST t)) as [Hc|Hc].
    + rewrite bool_decide_eq_true_2 in H by exact Hc. simplify_eq.
      simpl. repeat split; try tauto.
    + rewrite bool_decide_eq_false_2 in H by exact Hc.
      apply bind_Ret in H as (dt & _ & H).
      destruct (bool_decide (dt = -1)).
      * simplify_eq. repeat split; try tauto.
      * apply bind_Ret in H as (dp & _ & H).
        destruct (bool_decide (dt > dp)); simplify_eq; simpl; repeat split; try tauto.
  - rewrite bool_decide_eq_false_2 in H by exact Hm.
    destruct (decide (cost < minMax a)) as [Hc|Hc].
    + rewrite bool_decide_eq_true_2 in H by exact Hc. simplify_eq.
      simpl. repeat split; try tauto.
    + rewrite bool_decide_eq_false_2 in H by exact Hc. simplify_eq.
      repeat split; try tauto.
Qed.

Lemma optimistic_ancestor_committed t textPos_ mm a h a' :
  optimistic_ancestor t textPos_ mm a h = Ret a' ->
  minMax a' = minMax a /\ textPos a' = textPos a.
Proof.
  unfold optimistic_ancestor. intros H.
  repeat match type of H with
  | (if ?b then _ else _) = Ret _ => destruct b
  | (_ ≫= _) = Ret _ => apply bind_Ret in H as (? & _ & H)
  end; simplify_eq; auto; now destruct (bool_decide _).
Qed.

(** In an ancestor step of [changeAnnotationFromLeaf] whose range fits the
    phrase horizon, the candidate cost that is compared against the
    ancestor's [minMax] is the entry of the cost array at the index that
    [cappedMax] returns,
    [costArray[cappedMax(segm, textPos, textPos+d-1, COST)]]: when the
    ancestor's [minMax] is not the cost bound the ancestor commits the
    candidate exactly when it is smaller, and when it is the cost bound a
    candidate below the bound is committed. *)
Theorem annotate_ancestor_candidate_cost (fuel : nat) (t t' : SUFFIX_TREE)
    (textPos_ finalPos minMaxOfRange : Z) (p : ptr) (pn : NODE) (d : Z) (a : Annotation) :
  heap t !! p = Some pn -> strDepth pn = Some d -> annot pn = Some a ->
  u32 (textPos_ + d - 1) <= finalPos ->
  annotate_ancestor cappedMax fuel t textPos_ finalPos minMaxOfRange p = Ret t' ->
  exists cost pn' a',
    rd (costArray t) (cappedMax (segm t) textPos_ (u32 (textPos_ + d - 1)) (COST t))
      = Ret cost /\
    heap t' !! p = Some pn' /\ annot pn' = Some a' /\
    (minMax a <> COST t -> cost < minMax a ->
       minMax a' = cost /\ textPos a' = textPos_) /\
    (minMax a <> COST t -> ~ cost < minMax a ->
       minMax a' = minMax a /\ textPos a' = textPos a) /\
    (minMax a = COST t -> cost < COST t ->
       minMax a' = cost /\ textPos a' = textPos_).
Proof.
  intros Hp Hd Ha Hfit H. unfold annotate_ancestor in H.
  apply bind_Ret in H as (holder & _ & H).
  rewrite (node_at_lookup _ _ _ Hp) in H. cbn [mbind outcome_bind] in H.
  rewrite Hd, Ha in H. cbn [mbind outcome_bind deref] in H.
  apply bind_Ret in H as (a1 & H1 & H).
  apply bind_Ret in H as (a2 & H2 & H).
  apply (commit_ancestor_cost _ _ _ _ _ _ Hfit) in H1
    as (cost & Hcost & _ & _ & Hlt & Hge & Hclt & _).
  apply optimistic_ancestor_committed in H2 as (Hmm & Htp).
  exists cost, (set_annot (set_annot pn a1) a2), a2.
  split; [exact Hcost|]. split.
  - simplify_eq. eapply lookup_store_eq, lookup_store_eq, Hp.
  - split; [reflexivity|]. rewrite Hmm, Htp. split; [|split].
    + exact Hlt.
    + intros Hne Hnlt. now rewrite (Hge Hne Hnlt).
    + exact Hclt.
Qed.

End CandidateCost.

Lemma annotate_ancestor_candidate_cost_witness :
  let t := abab_2_parsed in
  let a := mkAnnot 0 3 0 3 in
  let pn := mkNode (Some 1%nat) (Some 5%nat) None (Some 5%nat) (Some 0%nat) 1 1 2
              (Some 2) (Some a) in
  heap t !! 3%nat = Some pn /\ u32 (3 + 2 - 1) <= 5 /\
  exists t' cost pn' a',
    annotate_ancestor cappedMax_spec 8 t 3 5 1 3%nat = Ret t' /\
    rd (costArray t) (cappedMax_spec (segm t) 3 (u32 (3 + 2 - 1)) (COST t)) = Ret cost /\
    heap t' !! 3%nat = Some pn' /\ annot pn' = Some a' /\
    (minMax a <> COST t -> ~ cost < minMax a ->
       minMax a' = minMax a /\ textPos a' = textPos a).
Proof.
  intros t a pn.
  assert (Hp : heap t !! 3%nat = Some pn) by reflexivity.
  assert (Hfit : u32 (3 + 2 - 1) <= 5) by (vm_compute; discriminate).
  split; [exact Hp|]. split; [exact Hfit|].
  destruct (annotate_ancestor cappedMax_spec 8 t 3 5 1 3%nat) as [t'| | |] eqn:H;
    try (vm_compute in H; discriminate).
  destruct (annotate_ancestor_candidate_cost cappedMax_spec 8 t t' 3 5 1 3%nat pn 2 a
              Hp eq_refl eq_refl Hfit H) as (cost & pn' & a' & Hc & Hp' & Ha' & _ & Hk & _).
  exists t', cost, pn', a'. auto.
Defined.

(** ** The calls that [propagateAnnotation] makes *)

(** The calls of [changeAnnotationFromLeaf] as the spec lists them: for [i]
    from [hi = textPos + len] downward, stopping at the first [i] with
    [maxStrDepth[i] < textPos], the call with arguments [i], [hi],
    [textPos - i] and the maximum of [U[i..hi]] (at least 0). *)
Fixpoint calls_from (i : nat) (U : list Z) (msd : list (option Z)) (textPos_ hi : Z)
    : list (Z * Z * Z * Z) :=
  match i with
  | O => []
  | S i' =>
    match msd !! i with
    | Some (Some m) =>
      if bool_decide (m < textPos_) then []
      else (Z.of_nat i, hi, textPos_ - Z.of_nat i, range_max U (Z.of_nat i) hi)
             :: calls_from i' U msd textPos_ hi
    | _ => []
    end
  end.

Definition propagate_calls (U : list Z) (msd : list (option Z)) (textPos_ len : Z)
    : list (Z * Z * Z * Z) :=
  calls_from (Z.to_nat (textPos_ + len)) U msd textPos_ (textPos_ + len).

Lemma s32_small (x : Z) : - 2 ^ 31 <= x < 2 ^ 31 -> s32 x = x.
Proof.
  intros H. unfold s32. destruct (Z_lt_le_dec x 0) as [Hneg|Hpos].
  - replace (x mod 2 ^ 32) with (x + 2 ^ 32).
    + destruct (Z.ltb_spec (x + 2 ^ 32) (2 ^ 31)); lia.
    + apply Z.mod_unique with (-1); lia.
  - rewrite Z.mod_small by lia. destruct (Z.ltb_spec x (2 ^ 31)); lia.
Qed.

Lemma cells_cons (a : list Z) (l r u : Z) :
  0 <= l <= r -> a !! Z.to_nat l = Some u -> cells a l r = u :: cells a (l + 1) r.
Proof.
  intros Hlr Hu. unfold cells.
  rewrite (drop_S _ _ _ Hu).
  replace (Z.to_nat (r - l + 1)) with (S (Z.to_nat (r - (l + 1) + 1))) by lia.
  replace (Z.to_nat (l + 1)) with (S (Z.to_nat l)) by lia.
  reflexivity.
Qed.

Lemma range_max_cons (a : list Z) (l r u : Z) :
  0 <= l <= r -> a !! Z.to_nat l = Some u ->
  range_max a l r = Z.max u (range_max a (l + 1) r).
Proof. intros Hlr Hu. unfold range_max. now rewrite (cells_cons _ _ _ _ Hlr Hu). Qed.

Lemma range_max_empty (a : list Z) (l r : Z) : r < l -> range_max a l r = 0.
Proof.
  intros H. unfold range_max, cells.
  replace (Z.to_nat (r - l + 1)) with 0%nat by lia. reflexivity.
Qed.

Section PropagateCalls.

Variable cappedMax : list Z -> Z -> Z -> Z -> Z.

Fixpoint run_calls (fuel : nat) (t : SUFFIX_TREE) (calls : list (Z * Z * Z * Z))
    : outcome SUFFIX_TREE :=
  match calls with
  | [] => Ret t
  | (i, finalPos, len, m) :: calls' =>
    t' ← changeAnnotationFromLeaf cappedMax fuel t i finalPos len m 0;
    run_calls fuel t' calls'
  end.

Lemma propagate_loop_calls (fuel : nat) (U : list Z) (msd : list (option Z))
    (textPos_ len : Z) (i : nat) (t : SUFFIX_TREE) (cur : Z) :
  0 <= textPos_ -> 0 <= len -> textPos_ + len < 2 ^ 31 ->
  textPos_ + len < Z.of_nat (List.length U) ->
  (forall j, 1 <= j <= textPos_ + len -> exists m, msd !! Z.to_nat j = Some (Some m)) ->
  Z.of_nat i <= textPos_ + len ->
  cur = range_max U (Z.of_nat i + 1) (textPos_ + len) ->
  costArray t = U -> maxStrDepth t = msd ->
  propagate_loop cappedMax i fuel t textPos_ len cur
  = run_calls fuel t (calls_from i U msd textPos_ (textPos_ + len)).
Proof.
  intros Htp Hlen Hhi HU Hmsd. revert t cur.
  induction i as [|i IH]; intros t cur Hi Hcur Hct Hmt; [reflexivity|].
  cbn [propagate_loop calls_from].
  destruct (lookup_lt_is_Some_2 U (S i)) as [u Hu]; [lia|].
  destruct (Hmsd (Z.of_nat (S i))) as [m Hm]; [lia|].
  rewrite Nat2Z.id in Hm.
  rewrite Hct, Hmt. unfold rd_init.
  rewrite (rd_lookup U (Z.of_nat (S i)) u) by (rewrite ?Nat2Z.id; first [lia | exact Hu]).
  rewrite (rd_lookup msd (Z.of_nat (S i)) (Some m)) by (rewrite ?Nat2Z.id; first [lia | exact Hm]).
  cbn [mbind outcome_bind deref]. rewrite Hm.
  destruct (bool_decide (m < textPos_)); [reflexivity|].
  cbn [run_calls].
  assert (Hmax : (if bool_decide (cur < u) then u else cur)
                 = range_max U (Z.of_nat (S i)) (textPos_ + len)).
  { rewrite (range_max_cons U (Z.of_nat (S i)) (textPos_ + len) u)
      by (rewrite ?Nat2Z.id; first [lia | exact Hu]).
    rewrite <- Hcur. destruct (bool_decide_reflect (cur < u)); lia. }
  rewrite Hmax, (u32_small (textPos_ + len)) by lia.
  rewrite (s32_small (textPos_ - Z.of_nat (S i))) by lia.
  destruct (changeAnnotationFromLeaf _ _ _ _ _ _ _ _) as [t'| | |] eqn:Hcall;
    try reflexivity.
  cbn [mbind outcome_bind].
  apply erase_changeAnnotationFromLeaf, erase_fields in Hcall.
  destruct Hcall as (_ & _ & _ & _ & _ & Hc' & Hm' & _).
  apply IH; [lia | | congruence | congruence].
  f_equal. lia.
Qed.

(** C8.  [propagateAnnotation(textPos, len)] runs [i] downward from
    [textPos + len], keeps [currentMinMaxOfRange] equal to the maximum of
    [U[i..textPos+len]] (from 0), stops at the first [i] with
    [maxStrDepth[i] < textPos] and at every other [i] calls
    [changeAnnotationFromLeaf(i, textPos+len, textPos-i,
    currentMinMaxOfRange)]: it is the sequence of exactly those calls. *)
Theorem propagateAnnotation_calls (fuel : nat) (t : SUFFIX_TREE) (textPos_ len : Z) :
  0 <= textPos_ -> 0 <= len -> textPos_ + len < 2 ^ 31 ->
  textPos_ + len < Z.of_nat (List.length (costArray t)) ->
  (forall j, 1 <= j <= textPos_ + len ->
     exists m, maxStrDepth t !! Z.to_nat j = Some (Some m)) ->
  propagateAnnotation cappedMax fuel t textPos_ len
  = run_calls fuel t (propagate_calls (costArray t) (maxStrDepth t) textPos_ len).
Proof.
  intros Htp Hlen Hhi HU Hmsd. unfold propagateAnnotation, propagate_calls.
  rewrite (u32_small (textPos_ + len)) by lia.
  apply propagate_loop_calls; try assumption; try reflexivity; [lia|].
  rewrite range_max_empty; [reflexivity | lia].
Qed.

End PropagateCalls.

Lemma propagateAnnotation_calls_witness :
  let t := abab_2_parsed in
  0 <= 3 /\ 0 <= 2 /\ 3 + 2 < 2 ^ 31 /\ 3 + 2 < Z.of_nat (List.length (costArray t)) /\
  (forall j, 1 <= j <= 3 + 2 -> exists m, maxStrDepth t !! Z.to_nat j = Some (Some m)) /\
  propagate_calls (costArray t) (maxStrDepth t) 3 2
    = [(5, 5, -2, 0); (4, 5, -1, 1); (3, 5, 0, 1)] /\
  propagateAnnotation cappedMax_spec 8 t 3 2
    = run_calls cappedMax_spec 8 t [(5, 5, -2, 0); (4, 5, -1, 1); (3, 5, 0, 1)].
Proof.
  intros t.
  assert (H1 : 0 <= 3) by lia.
  assert (H2 : 0 <= 2) by lia.
  assert (H3 : 3 + 2 < 2 ^ 31) by lia.
  assert (H4 : 3 + 2 < Z.of_nat (List.length (costArray t))) by (vm_compute; reflexivity).
  assert (H5 : forall j, 1 <= j <= 3 + 2 ->
                 exists m, maxStrDepth t !! Z.to_nat j = Some (Some m)).
  { intros j Hj.
    assert (Hc : j = 1 \/ j = 2 \/ j = 3 \/ j = 4 \/ j = 5) by lia.
    destruct Hc as [->|[->|[->|[->| ->]]]]; vm_compute; eauto. }
  assert (H6 : propagate_calls (costArray t) (maxStrDepth t) 3 2
               = [(5, 5, -2, 0); (4, 5, -1, 1); (3, 5, 0, 1)]) by reflexivity.
  refine (conj H1 (conj H2 (conj H3 (conj H4 (conj H5 (conj H6 _)))))).
  rewrite <- H6.
  exact (propagateAnnotation_calls cappedMax_spec 8 t 3 2 H1 H2 H3 H4 H5).
Defined.

(** ** The cost bound *)

(** The cells [lo .. hi-1] of the cost array hold costs from 0 to [C]. *)
Definition bounded (U : list Z) (C lo hi : Z) : Prop :=
  forall p, lo <= p < hi -> exists u, U !! Z.to_nat p = Some u /\ 0 <= u <= C.

Lemma bounded_extend (U : list Z) (C lo hi v : Z) :
  0 <= lo ->
  bounded U C lo hi -> 0 <= hi < Z.of_nat (List.length U) -> 0 <= v <= C ->
  bounded (<[Z.to_nat hi := v]> U) C lo (hi + 1).
Proof.
  intros Hlo HU Hq Hv p Hp. destruct (decide (p = hi)) as [->|Hne].
  - exists v. split; [|exact Hv]. apply list_lookup_insert_eq. lia.
  - destruct (HU p) as (u & Hu & Hle); [lia|]. exists u. split; [|exact Hle].
    rewrite list_lookup_insert_ne by lia. exact Hu.
Qed.

Lemma cost_step_bounded t textPos_ pos i k prevC t' k' prevC' :
  1 <= textPos_ -> 0 <= i ->
  Z.of_nat (List.length (costArray t)) < 2 ^ 32 ->
  textPos_ + i <= Z.of_nat (List.length (costArray t)) ->
  bounded (costArray t) (COST t) 1 (textPos_ + i) ->
  cost_step t textPos_ pos i k prevC = Ret (t', k', prevC') ->
  bounded (costArray t') (COST t') 1 (textPos_ + i + 1) /\
  List.length (costArray t') = List.length (costArray t) /\
  textPos_ + i < Z.of_nat (List.length (costArray t)).
Proof.
  intros Htp Hi Hsz Hle Hb H.
  pose proof (static_cost_step _ _ _ _ _ _ _ _ _ H) as Hst.
  apply static_fields in Hst as (_ & _ & HC & _).
  assert (Hu32 : u32 (textPos_ + i) = textPos_ + i) by (apply u32_small; lia).
  unfold cost_step in H. rewrite !Hu32 in H. inv_ret H.
  destruct (bool_decide_reflect (u32 (x + 1) > COST t)) as [|Hv]; [discriminate|].
  apply wr_Ret in E0 as (Hq & ->).
  assert (HU : costArray t' = <[Z.to_nat (textPos_ + i) := u32 (x + 1)]> (costArray t)).
  { destruct (bool_decide (_ = COST t)) in E1; inv_ret E1; simplify_eq; reflexivity. }
  rewrite HU, HC, length_insert. split; [|split; [reflexivity | lia]].
  pose proof (u32_range (x + 1)).
  apply bounded_extend; [lia | exact Hb | lia | lia].
Qed.

Lemma cost_loop_bounded cnt t textPos_ pos i k prevC t' prevC' :
  1 <= textPos_ -> 0 <= i ->
  Z.of_nat (List.length (costArray t)) < 2 ^ 32 ->
  textPos_ + i <= Z.of_nat (List.length (costArray t)) ->
  bounded (costArray t) (COST t) 1 (textPos_ + i) ->
  cost_loop cnt t textPos_ pos i k prevC = Ret (t', prevC') ->
  bounded (costArray t') (COST t') 1 (textPos_ + i + Z.of_nat cnt) /\
  List.length (costArray t') = List.length (costArray t) /\
  textPos_ + i + Z.of_nat cnt <= Z.of_nat (List.length (costArray t)).
Proof.
  intros Htp. revert t i k prevC.
  induction cnt as [|cnt IH]; intros t i k prevC Hi Hsz Hle Hb H; cbn [cost_loop] in H.
  - simplify_eq. rewrite Z.add_0_r. auto.
  - inv_ret H.
    destruct (cost_step_bounded _ _ _ _ _ _ _ _ _ Htp Hi Hsz Hle Hb E) as (Hb' & Hlen & Hlt).
    rewrite u32_small in H by lia.
    apply IH in H; [| lia | rewrite Hlen; lia | rewrite Hlen; lia |].
    + destruct H as (Hb'' & Hlen' & Hle').
      replace (textPos_ + i + Z.of_nat (S cnt)) with (textPos_ + (i + 1) + Z.of_nat cnt) by lia.
      split; [exact Hb''|]. split; [congruence|]. rewrite <- Hlen. exact Hle'.
    + replace (textPos_ + (i + 1)) with (textPos_ + i + 1) by lia. exact Hb'.
Qed.

Lemma scan_label_nonneg cnt t W P le j k j' k' :
  0 <= j -> scan_label cnt t W P le j k = Ret (j', k') -> 0 <= j'.
Proof.
  revert j k. induction cnt as [|cnt IH]; intros j k Hj H; cbn [scan_label] in H.
  - destruct (_ && _); [|now simplify_eq]. inv_ret H.
    destruct (bool_decide _); [discriminate | now simplify_eq].
  - destruct (_ && _); [|now simplify_eq]. inv_ret H.
    destruct (bool_decide _); [|now simplify_eq].
    apply IH in H; [exact H|]. unfold dw. apply Z.mod_pos_bound. lia.
Qed.

Lemma ST_FindSubstring_loop_nonneg fuel fuel0 t W P node j cm m :
  0 <= j -> 0 <= match_length cm ->
  ST_FindSubstring_loop fuel fuel0 t W P node j cm = Ret m -> 0 <= match_length m.
Proof.
  revert node j cm.
  induction fuel as [|fuel IH]; intros [p|] j cm Hj Hcm H; cbn [ST_FindSubstring_loop] in H;
    try discriminate; try (now simplify_eq).
  inv_ret H.
  destruct (bool_decide _); [now simplify_eq|].
  destruct (bool_decide _).
  - inv_ret H. destruct (bool_decide_reflect (x1 > match_length cm)); simplify_eq;
      [simpl; lia | exact Hcm].
  - inv_ret H. destruct (bool_decide _); [discriminate|].
    apply scan_label_nonneg in E2; [|exact Hj].
    destruct (bool_decide _); [now simplify_eq|].
    destruct (bool_decide _); [|now simplify_eq].
    inv_ret H. apply IH in H; [exact H | exact E2 | exact E2].
Qed.

Lemma ST_FindSubstring_nonneg fuel t W P m :
  ST_FindSubstring fuel t W P = Ret m -> 0 <= match_length m.
Proof.
  unfold ST_FindSubstring. intros H. inv_ret H.
  apply ST_FindSubstring_loop_nonneg in H; [exact H | lia | simpl; lia].
Qed.

Section CostBound.

Variable cappedMax : list Z -> Z -> Z -> Z -> Z.

Lemma parse_round_bounded fuel t textPos_ prevC t' textPos' prevC' r :
  1 <= textPos_ -> 0 <= COST t ->
  Z.of_nat (List.length (costArray t)) < 2 ^ 32 ->
  textPos_ <= Z.of_nat (List.length (costArray t)) ->
  bounded (costArray t) (COST t) 1 textPos_ ->
  parse_round cappedMax fuel t textPos_ prevC = Ret (t', textPos', prevC', r) ->
  bounded (costArray t') (COST t') 1 textPos' /\
  List.length (costArray t') = List.length (costArray t) /\
  COST t' = COST t /\
  textPos' = textPos_ + match_length (found r) + 1 /\
  0 <= match_length (found r) /\
  textPos' <= Z.of_nat (List.length (costArray t)).
Proof.
  intros Htp HC Hsz Hle Hb H.
  pose proof (static_parse_round _ _ _ _ _ _ _ _ _ H) as Hst.
  apply static_fields in Hst as (_ & _ & HC' & _).
  unfold parse_round in H. inv_ret H.
  pose proof (ST_FindSubstring_nonneg _ _ _ _ _ E) as HL.
  set (L := match_length x) in *.
  pose proof (static_cost_loop _ _ _ _ _ _ _ _ _ E0) as Hst1.
  apply static_fields in Hst1 as (_ & _ & HC1 & _).
  apply cost_loop_bounded in E0; try lia; [| rewrite Z.add_0_r; exact Hb].
  destruct E0 as (Hb1 & Hlen1 & Hle1).
  rewrite Z.add_0_r, Z2Nat.id in Hb1, Hle1 by lia.
  apply wr_Ret in E1 as (Hq & ->).
  rewrite u32_small in Hq by lia. rewrite (u32_small (textPos_ + L)) in * by lia.
  apply erase_propagateAnnotation, erase_fields in E2.
  destruct E2 as (_ & _ & _ & _ & _ & HU3 & _).
  cbn [costArray with_segm with_costArray] in HU3.
  simplify_eq. cbn [found]. fold L.
  rewrite HU3, HC', length_insert, Hlen1.
  rewrite (u32_small (textPos_ + L + 1)) by lia.
  repeat split; try lia.
  apply bounded_extend; [lia | now rewrite <- HC1 | lia | lia].
Qed.

Lemma parse_loop_bounded rounds fuel t textPos_ z prevC log t' z' log' :
  1 <= textPos_ -> 0 <= COST t ->
  Z.of_nat (List.length (costArray t)) < 2 ^ 32 ->
  textPos_ <= Z.of_nat (List.length (costArray t)) ->
  bounded (costArray t) (COST t) 1 textPos_ ->
  parse_loop cappedMax rounds fuel t textPos_ z prevC log = Ret (t', z', log') ->
  bounded (costArray t') (COST t') 1 (length t' + 1).
Proof.
  revert t textPos_ z prevC log.
  induction rounds as [|rounds IH]; intros t textPos_ z prevC log Htp HC Hsz Hle Hb H;
    cbn [parse_loop] in H.
  - destruct (bool_decide_reflect (textPos_ <= length t)); [discriminate|].
    simplify_eq. intros p Hp. apply Hb. lia.
  - destruct (bool_decide_reflect (textPos_ <= length t)).
    + inv_ret H.
      destruct (parse_round_bounded _ _ _ _ _ _ _ _ Htp HC Hsz Hle Hb E)
        as (Hb' & Hlen & HC' & Htp' & HL & Hle').
      apply IH in H; [exact H | lia | congruence | congruence | congruence | exact Hb'].
    + simplify_eq. intros p Hp. apply Hb. lia.
Qed.

(** C2.  When [parseBLZ] returns (it did not call exit), every position
    [i] of the text, terminator included, has [U[i] <= C] in the cost
    array it leaves. *)
Theorem parseBLZ_cost_bound (fuel : nat) (t t' : SUFFIX_TREE) (z : Z) (log : list ROUND) :
  0 <= COST t ->
  0 < Z.of_nat (List.length (costArray t)) < 2 ^ 32 ->
  parseBLZ cappedMax fuel t = Ret (t', z, log) ->
  forall i, 1 <= i <= length t' ->
    exists u, costArray t' !! Z.to_nat i = Some u /\ u <= COST t'.
Proof.
  intros HC Hsz H i Hi. unfold parseBLZ in H.
  apply parse_loop_bounded in H; try assumption; try lia.
  - destruct (H i) as (u & Hu & Hle); [lia|]. exists u. split; [exact Hu | lia].
  - intros p Hp. lia.
Qed.

End CostBound.

Lemma parseBLZ_cost_bound_witness :
  let t := abab_2_ready in
  0 <= COST t /\ 0 < Z.of_nat (List.length (costArray t)) < 2 ^ 32 /\
  exists t' z log,
    parseBLZ cappedMax_spec 64 t = Ret (t', z, log) /\
    length t' = 5 /\ COST t' = 2 /\
    forall i, 1 <= i <= length t' ->
      exists u, costArray t' !! Z.to_nat i = Some u /\ u <= COST t'.
Proof.
  intros t.
  assert (HC : 0 <= COST t) by (vm_compute; discriminate).
  assert (Hsz : 0 < Z.of_nat (List.length (costArray t)) < 2 ^ 32)
    by (vm_compute; split; reflexivity).
  refine (conj HC (conj Hsz _)).
  destruct (parseBLZ cappedMax_spec 64 t) as [[[t' z] log]| | |] eqn:H;
    try (vm_compute in H; discriminate).
  exists t', z, log. split; [reflexivity|].
  split; [vm_compute in H; injection H as <- _ _; reflexivity|].
  split; [vm_compute in H; injection H as <- _ _; reflexivity|].
  exact (parseBLZ_cost_bound cappedMax_spec 64 t t' z log HC Hsz H).
Defined.

(** ** Annotations after the construction *)

(** No node carries an annotation yet: the state of the arena until
    [dfsForInversePointers] runs. *)
Definition bare (t : SUFFIX_TREE) : Prop := Forall (fun n => annot n = None) (heap t).

Lemma bare_node_at t p n : bare t -> node_at t p = Ret n -> annot n = None.
Proof. intros Hb H%node_at_Ret. exact (Forall_lookup_1 _ _ _ _ Hb H). Qed.

Lemma bare_store t p n : bare t -> annot n = None -> bare (store t p n).
Proof. intros Hb Hn. unfold bare, store. simpl. now apply Forall_insert. Qed.

Lemma bare_with_suffixless t s : bare t -> bare (with_suffixless t s).
Proof. exact id. Qed.
Lemma bare_with_e t v : bare t -> bare (with_e t v).
Proof. exact id. Qed.

Lemma bare_create_node t f s e_ p t' q :
  bare t -> create_node t f s e_ p = Ret (t', q) -> bare t'.
Proof.
  unfold create_node. intros Hb H. destruct (avail t); [discriminate|].
  simplify_eq. unfold bare. simpl. apply Forall_app. split; [exact Hb|].
  now constructor.
Qed.

Create HintDb bare.
#[local] Hint Resolve bare_store bare_with_suffixless bare_with_e bare_create_node : bare.
Lemma bare_set_sons n v : annot n = None -> annot (set_sons n v) = None.
Proof. exact id. Qed.
Lemma bare_set_right_sibling n v : annot n = None -> annot (set_right_sibling n v) = None.
Proof. exact id. Qed.
Lemma bare_set_left_sibling n v : annot n = None -> annot (set_left_sibling n v) = None.
Proof. exact id. Qed.
Lemma bare_set_suffix_link n v : annot n = None -> annot (set_suffix_link n v) = None.
Proof. exact id. Qed.
Lemma bare_set_father n v : annot n = None -> annot (set_father n v) = None.
Proof. exact id. Qed.
Lemma bare_set_edge_label_start n v :
  annot n = None -> annot (set_edge_label_start n v) = None.
Proof. exact id. Qed.
#[local] Hint Resolve bare_set_sons bare_set_right_sibling bare_set_left_sibling
  bare_set_suffix_link bare_set_father bare_set_edge_label_start : bare.
#[local] Hint Resolve bare_node_at : bare.

(** Inverts every hypothesis [m = Ret _] along the binds and branches of
    [m]. *)
Ltac inv_step H :=
  match type of H with
  | (_ ≫= _) = Ret _ =>
    let x := fresh "x" in let E := fresh "E" in
    apply bind_Ret in H as (x & E & H)
  | (let '(_, _) := ?p in _) = Ret _ => destruct p
  | (if ?b then _ else _) = Ret _ => destruct b eqn:?
  | (match ?x with _ => _ end) = Ret _ => destruct x eqn:?
  | Ret _ = Ret _ => injection H as H
  | Exit _ = Ret _ => discriminate H
  | Undef = Ret _ => discriminate H
  | Timeout = Ret _ => discriminate H
  end.
Ltac inv_all :=
  repeat match goal with
  | H : _ = Ret _ |- _ => progress (inv_step H)
  end; simplify_eq.

(** Closes a goal [bare _] or [annot _ = None] from facts at hand. *)
Ltac bare_solve :=
  solve [ repeat first
    [ assumption
    | apply bare_store | apply bare_with_suffixless | apply bare_with_e
    | apply bare_set_sons | apply bare_set_right_sibling | apply bare_set_left_sibling
    | apply bare_set_suffix_link | apply bare_set_father
    | apply bare_set_edge_label_start
    | match goal with |- bare (if ?b then _ else _) => destruct b end ] ].

(** Collects, for every node read and every tree returned in the
    hypotheses, that it carries no annotation. *)
Ltac bare_fwd lemmas :=
  repeat match goal with
  | E : node_at ?t _ = Ret ?n |- _ =>
    lazymatch goal with
    | _ : annot n = None |- _ => fail
    | _ => assert (annot n = None) by (eapply bare_node_at; [| exact E]; bare_solve)
    end
  | E : create_node ?t _ _ _ _ = Ret (?t', _) |- _ =>
    lazymatch goal with
    | _ : bare t' |- _ => fail
    | _ => assert (bare t') by (eapply bare_create_node; [| exact E]; bare_solve)
    end
  | E : _ = Ret ?r |- _ =>
    lazymatch r with
    | (?t', _) =>
      lazymatch goal with
      | _ : bare t' |- _ => fail
      | _ => assert (bare t') by (lemmas E; bare_solve)
      end
    | ?t' =>
      lazymatch goal with
      | _ : bare t' |- _ => fail
      | _ => assert (bare t') by (lemmas E; bare_solve)
      end
    end
  end.

Ltac no_lemma E := fail.

Lemma bare_connect_siblings t l r t' :
  bare t -> connect_siblings t l r = Ret t' -> bare t'.
Proof.
  unfold connect_siblings. intros Hb H. inv_all; bare_fwd no_lemma; bare_solve.
Qed.

Lemma bare_create_suffix_link t node link t' :
  bare t -> create_suffix_link t node link = Ret t' -> bare t'.
Proof.
  unfold create_suffix_link. intros Hb H. inv_all; bare_fwd no_lemma; bare_solve.
Qed.

Ltac use_siblings E :=
  first [ eapply bare_connect_siblings; [| exact E]
        | eapply bare_create_suffix_link; [| exact E] ].

Lemma bare_apply_extension_rule_2 fuel t node b e_ pp ep type t' q :
  bare t -> apply_extension_rule_2 fuel t node b e_ pp ep type = Ret (t', q) -> bare t'.
Proof.
  unfold apply_extension_rule_2. intros Hb H.
  inv_all; bare_fwd use_siblings; bare_solve.
Qed.

Ltac use_rule_2 E :=
  first [ eapply bare_connect_siblings; [| exact E]
        | eapply bare_create_suffix_link; [| exact E]
        | eapply bare_apply_extension_rule_2; [| exact E] ].

Lemma bare_SEA fuel t pos str after t' pos' r :
  bare t -> SEA fuel t pos str after = Ret (t', pos', r) -> bare t'.
Proof.
  unfold SEA. intros Hb H. inv_all; bare_fwd use_rule_2; bare_solve.
Qed.

Lemma bare_SPA_loop fuel fuel0 t pos phase ext rep rule t' pos' ext' rep' :
  bare t -> SPA_loop fuel fuel0 t pos phase ext rep rule = Ret (t', pos', ext', rep') ->
  bare t'.
Proof.
  revert t pos ext rep rule.
  induction fuel as [|fuel IH]; intros t pos ext rep rule Hb H; cbn [SPA_loop] in H.
  - destruct (bool_decide _); [discriminate | now simplify_eq].
  - destruct (bool_decide _); [| now simplify_eq].
    inv_ret H. apply bare_SEA in E; [|exact Hb].
    destruct (bool_decide _); [now simplify_eq|]. eapply IH; eassumption.
Qed.

Lemma bare_phases cnt fuel t pos phase ext rep t' :
  bare t -> phases cnt fuel t pos phase ext rep = Ret t' -> bare t'.
Proof.
  revert t pos phase ext rep.
  induction cnt as [|cnt IH]; intros t pos phase ext rep Hb H; cbn [phases] in H.
  - now simplify_eq.
  - inv_ret H. unfold SPA in E. apply bare_SPA_loop in E; [|exact Hb].
    eapply IH; eassumption.
Qed.

(** Every annotation in the arena is as [dfsForInversePointers] writes it:
    both [minMax] and [optimisticMinMax] unset. *)
Definition unset_annot (n : NODE) : Prop :=
  forall a, annot n = Some a -> minMax a = UNSET /\ optimisticMinMax a = UNSET.

Definition fresh (t : SUFFIX_TREE) : Prop := Forall unset_annot (heap t).

Lemma bare_fresh t : bare t -> fresh t.
Proof.
  unfold bare, fresh. intros Hb. eapply Forall_impl; [exact Hb|].
  intros n Hn a Ha. congruence.
Qed.

Lemma fresh_store t p n : fresh t -> unset_annot n -> fresh (store t p n).
Proof. intros Hf Hn. unfold fresh, store. simpl. now apply Forall_insert. Qed.

Lemma fresh_node_at t p n : fresh t -> node_at t p = Ret n -> unset_annot n.
Proof. intros Hf H%node_at_Ret. exact (Forall_lookup_1 _ _ _ _ Hf H). Qed.

Lemma unset_set_strDepth n d : unset_annot n -> unset_annot (set_strDepth n d).
Proof. exact id. Qed.

Lemma unset_set_annot n v p : unset_annot (set_annot n (mkAnnot UNSET v UNSET p)).
Proof. intros a [= <-]. auto. Qed.

Lemma fresh_dfs fuel :
  (forall t node depth t' k,
     fresh t -> dfsForInversePointers fuel t node depth = Ret (t', k) -> fresh t') /\
  (forall t c depth num t' k,
     fresh t -> dfs_children fuel t c depth num = Ret (t', k) -> fresh t').
Proof.
  induction fuel as [|fuel [IH1 IH2]]; split.
  - intros; discriminate.
  - intros t [c|] depth num t' k Hf H; simpl in H; [discriminate | now simplify_eq].
  - intros t node depth t' k Hf H. cbn [dfsForInversePointers] in H.
    apply bind_Ret in H as (n & Hn & H).
    pose proof (fresh_node_at _ _ _ Hf Hn) as Hu.
    assert (Hf1 : fresh (store t node (set_strDepth n depth)))
      by (apply fresh_store; [exact Hf | now apply unset_set_strDepth]).
    destruct (sons n) as [first|].
    + inv_ret H. eapply IH2; [|exact H].
      apply fresh_store; [exact Hf1 | apply unset_set_annot].
    + inv_ret H. simplify_eq. apply fresh_store; [exact Hf1 | apply unset_set_annot].
  - intros t [c|] depth num t' k Hf H; cbn [dfs_children] in H; [|now simplify_eq].
    inv_ret H. eapply IH2; [|exact H]. eapply IH1; [exact Hf | exact E0].
Qed.

(** After [ST_CreateTree] every node that has an annotation has
    [minMax = optimisticMinMax = unset]. *)
Lemma fresh_ST_CreateTree fuel mem_ str len t :
  ST_CreateTree fuel mem_ str len = Ret t -> fresh t.
Proof.
  unfold ST_CreateTree. intros H. destruct mem_ as [|m]; [discriminate|].
  inv_ret H. simplify_eq.
  apply bare_create_node in E; [|constructor].
  apply bare_create_node in E0; [|exact E].
  apply bare_phases in E2;
    [| apply bare_with_suffixless, bare_store;
       [exact E0 | apply bare_set_sons; eapply bare_node_at; eassumption]].
  apply (proj1 (fresh_dfs fuel)) in E3; [exact E3 | now apply bare_fresh].
Qed.

(** ** Optimistic and committed values *)

(** C9, as stated: in every node the optimistic value is at most the
    committed one (the unset sentinel is the largest value). *)
Definition optimistic_below_committed (t : SUFFIX_TREE) : Prop :=
  forall p n a, heap t !! p = Some n -> annot n = Some a ->
    optimisticMinMax a <= minMax a.

Lemma commit_ancestor_optimistic (cappedMax : list Z -> Z -> Z -> Z -> Z)
    t textPos_ finalPos d a a' :
  commit_ancestor cappedMax t textPos_ finalPos d a = Ret a' ->
  optimisticMinMax a' = optimisticMinMax a /\ optimisticTextPos a' = optimisticTextPos a.
Proof.
  unfold commit_ancestor. intros H.
  repeat match type of H with
  | (if ?b then _ else _) = Ret _ => destruct b
  | (_ ≫= _) = Ret _ => apply bind_Ret in H as (? & _ & H)
  end; simplify_eq; auto; now destruct (bool_decide _).
Qed.

Lemma annotate_leaf_equal (minMaxOfRange : Z) (a : Annotation) :
  optimisticMinMax a = minMax a ->
  optimisticMinMax (annotate_leaf minMaxOfRange a) = minMax (annotate_leaf minMaxOfRange a).
Proof. intros H. unfold annotate_leaf. now destruct (_ || _). Qed.

Lemma annotate_ancestor_settled (cappedMax : list Z -> Z -> Z -> Z -> Z) (fuel : nat)
    (t t' : SUFFIX_TREE) (textPos_ finalPos minMaxOfRange : Z) (p : ptr) (pn : NODE)
    (a : Annotation) :
  heap t !! p = Some pn -> annot pn = Some a ->
  optimisticMinMax a <> UNSET -> optimisticMinMax a <> COST t ->
  annotate_ancestor cappedMax fuel t textPos_ finalPos minMaxOfRange p = Ret t' ->
  exists pn' a', heap t' !! p = Some pn' /\ annot pn' = Some a' /\
                 optimisticMinMax a' <= minMax a'.
Proof.
  intros Hp Ha Hu Hc H. unfold annotate_ancestor in H.
  apply bind_Ret in H as (holder & _ & H).
  rewrite (node_at_lookup _ _ _ Hp) in H. cbn [mbind outcome_bind] in H.
  apply bind_Ret in H as (d & _ & H).
  rewrite Ha in H. cbn [mbind outcome_bind deref] in H.
  apply bind_Ret in H as (a1 & H1 & H).
  apply bind_Ret in H as (a2 & H2 & H).
  apply commit_ancestor_optimistic in H1 as (Ho & _).
  exists (set_annot (set_annot pn a1) a2), a2.
  split; [simplify_eq; eapply lookup_store_eq, lookup_store_eq, Hp|].
  split; [reflexivity|].
  unfold optimistic_ancestor in H2.
  rewrite bool_decide_eq_false_2 in H2 by congruence.
  apply bind_Ret in H2 as (h & _ & H2).
  rewrite bool_decide_eq_false_2 in H2 by (cbn [COST store with_heap]; congruence).
  destruct (bool_decide_reflect (optimisticMinMax h < minMax a1)); simplify_eq; simpl; lia.
Qed.

(** What the updates keep of the order between the two values.  After
    [ST_CreateTree] (which ends with
    [dfsForInversePointers]) every annotated node has both values unset,
    so the optimistic value is not above the committed one; the update of
    the leaf in [changeAnnotationFromLeaf] keeps the two equal; and the
    update of an ancestor leaves the optimistic value at most the
    committed one whenever the ancestor's optimistic value before the
    update is neither unset nor the cost bound. *)
Theorem optimistic_vs_committed (cappedMax : list Z -> Z -> Z -> Z -> Z) :
  (forall fuel mem_ str len t,
     ST_CreateTree fuel mem_ str len = Ret t ->
     forall p n a, heap t !! p = Some n -> annot n = Some a ->
       optimisticMinMax a = UNSET /\ minMax a = UNSET) /\
  (forall minMaxOfRange a,
     optimisticMinMax a = minMax a ->
     optimisticMinMax (annotate_leaf minMaxOfRange a)
     = minMax (annotate_leaf minMaxOfRange a)) /\
  (forall fuel t t' textPos_ finalPos minMaxOfRange p pn a,
     heap t !! p = Some pn -> annot pn = Some a ->
     optimisticMinMax a <> UNSET -> optimisticMinMax a <> COST t ->
     annotate_ancestor cappedMax fuel t textPos_ finalPos minMaxOfRange p = Ret t' ->
     exists pn' a', heap t' !! p = Some pn' /\ annot pn' = Some a' /\
                    optimisticMinMax a' <= minMax a').
Proof.
  split; [|split].
  - intros fuel mem_ str len t H p n a Hp Ha.
    apply fresh_ST_CreateTree in H.
    destruct (Forall_lookup_1 _ _ _ _ H Hp a Ha). auto.
  - apply annotate_leaf_equal.
  - intros. eapply annotate_ancestor_settled; eassumption.
Qed.

Lemma optimistic_vs_committed_witness :
  (forall p n a, heap abab_2_ready !! p = Some n -> annot n = Some a ->
     optimisticMinMax a = UNSET /\ minMax a = UNSET) /\
  (exists t' pn' a',
     annotate_ancestor cappedMax_spec 8 abab_2_parsed 3 5 1 3%nat = Ret t' /\
     heap t' !! 3%nat = Some pn' /\ annot pn' = Some a' /\
     optimisticMinMax a' <= minMax a').
Proof.
  destruct (optimistic_vs_committed cappedMax_spec) as (Hdfs & _ & Hanc).
  split.
  - assert (Hb : ST_CreateTree 64 64 (abab ++ [0]) (Z.of_nat (List.length abab))
                 = Ret (with_COST abab_2_ready 0)) by (vm_compute; reflexivity).
    exact (Hdfs _ _ _ _ _ Hb).
  - destruct (annotate_ancestor cappedMax_spec 8 abab_2_parsed 3 5 1 3%nat)
      as [t'| | |] eqn:H; try (vm_compute in H; discriminate).
    pose (a := mkAnnot 0 3 0 3).
    pose (pn := mkNode (Some 1%nat) (Some 5%nat) None (Some 5%nat) (Some 0%nat) 1 1 2
                  (Some 2) (Some a)).
    assert (Hp : heap abab_2_parsed !! 3%nat = Some pn) by reflexivity.
    assert (Hu : optimisticMinMax a <> UNSET) by (vm_compute; discriminate).
    assert (Hc : optimisticMinMax a <> COST abab_2_parsed) by (vm_compute; discriminate).
    destruct (Hanc 8%nat abab_2_parsed t' 3 5 1 3%nat pn a Hp eq_refl Hu Hc H)
      as (pn' & a' & H1 & H2 & H3).
    exists t', pn', a'. auto.
Defined.

(** C9.  Parsing "aababab" with cost bound 1, [cappedMax] answering with a
    position as its call site takes it: after the third round node 9 has
    the committed value 1 and an unset optimistic value, which stands for
    +infinity, so its optimistic value is above its committed one.  The
    update that wrote it is the branch of [changeAnnotationFromLeaf] for
    an ancestor whose optimistic value is the cost bound while that of its
    best son is not, which copies the value of the son whatever it is. *)
Lemma optimistic_unset_above_committed :
  (t ← ready aababab 1; rounds_run cappedMax_at 3 64 t 1 0)
    = Ret (aababab_1_after_3, 6, 4) /\
  COST aababab_1_after_3 = 1 /\
  annot <$> heap aababab_1_after_3 !! 9%nat = Some (Some (mkAnnot 1 2 UNSET 0)) /\
  ~ optimistic_below_committed aababab_1_after_3.
Proof.
  split; [vm_compute; reflexivity|]. split; [reflexivity|]. split; [reflexivity|].
  intros H.
  destruct (heap aababab_1_after_3 !! 9%nat) as [n|] eqn:Hn; [|discriminate].
  specialize (H _ _ (mkAnnot 1 2 UNSET 0) Hn). vm_compute in Hn. injection Hn as <-.
  specialize (H eq_refl). vm_compute in H. apply H. reflexivity.
Qed.

(** ** The tables during the construction *)

(** The arrays and scalars of the tree that the construction phases do not
    write. *)
Definition tables (t : SUFFIX_TREE) :=
  (inversePointers t, costArray t, segm t, maxStrDepth t, D t, length t,
   tree_string t, COST t).

Lemma tables_create_node t f s e_ p t' q :
  create_node t f s e_ p = Ret (t', q) -> tables t' = tables t.
Proof. unfold create_node. intros H. destruct (avail t); now simplify_eq. Qed.

Lemma tables_connect_siblings t l r t' :
  connect_siblings t l r = Ret t' -> tables t' = tables t.
Proof. unfold connect_siblings. intros H. inv_all; reflexivity. Qed.

Lemma tables_create_suffix_link t node link t' :
  create_suffix_link t node link = Ret t' -> tables t' = tables t.
Proof. unfold create_suffix_link. intros H. inv_all; reflexivity. Qed.

(** Collects [tables _ = tables _] for the calls in the hypotheses. *)
Ltac tables_fwd :=
  repeat match goal with
  | E : create_node _ _ _ _ _ = Ret _ |- _ => apply tables_create_node in E
  | E : connect_siblings _ _ _ = Ret _ |- _ => apply tables_connect_siblings in E
  | E : create_suffix_link _ _ _ = Ret _ |- _ => apply tables_create_suffix_link in E
  end.

Lemma tables_store t p n : tables (store t p n) = tables t.
Proof. reflexivity. Qed.
Lemma tables_with_suffixless t s : tables (with_suffixless t s) = tables t.
Proof. reflexivity. Qed.
Lemma tables_with_e t v : tables (with_e t v) = tables t.
Proof. reflexivity. Qed.

Ltac tables_solve :=
  repeat match goal with
  | H : context [tables (store _ _ _)] |- _ => rewrite tables_store in H
  | H : context [tables (with_suffixless _ _)] |- _ => rewrite tables_with_suffixless in H
  | H : context [tables (with_e _ _)] |- _ => rewrite tables_with_e in H
  | H : context [tables (if ?b then _ else _)] |- _ => destruct b
  | |- context [tables (store _ _ _)] => rewrite tables_store
  | |- context [tables (with_suffixless _ _)] => rewrite tables_with_suffixless
  | |- context [tables (with_e _ _)] => rewrite tables_with_e
  | |- context [tables (if ?b then _ else _)] => destruct b
  end;
  congruence.

Lemma tables_apply_extension_rule_2 fuel t node b e_ pp ep type t' q :
  apply_extension_rule_2 fuel t node b e_ pp ep type = Ret (t', q) -> tables t' = tables t.
Proof.
  unfold apply_extension_rule_2. intros H. inv_all; tables_fwd; tables_solve.
Qed.

Lemma tables_SEA fuel t pos str after t' pos' r :
  SEA fuel t pos str after = Ret (t', pos', r) -> tables t' = tables t.
Proof.
  unfold SEA. intros H. inv_all; tables_fwd;
    repeat match goal with
    | E : apply_extension_rule_2 _ _ _ _ _ _ _ _ = Ret _ |- _ =>
      apply tables_apply_extension_rule_2 in E
    end; tables_solve.
Qed.

Lemma tables_SPA_loop fuel fuel0 t pos phase ext rep rule t' pos' ext' rep' :
  SPA_loop fuel fuel0 t pos phase ext rep rule = Ret (t', pos', ext', rep') ->
  tables t' = tables t.
Proof.
  revert t pos ext rep rule.
  induction fuel as [|fuel IH]; intros t pos ext rep rule H; cbn [SPA_loop] in H.
  - destruct (bool_decide _); [discriminate | now injection H as <- _ _ _].
  - destruct (bool_decide _); [| now injection H as <- _ _ _].
    inv_ret H. apply tables_SEA in E.
    destruct (bool_decide _); [now injection H as <- _ _ _|]. apply IH in H. congruence.
Qed.

Lemma tables_phases cnt fuel t pos phase ext rep t' :
  phases cnt fuel t pos phase ext rep = Ret t' -> tables t' = tables t.
Proof.
  revert t pos phase ext rep.
  induction cnt as [|cnt IH]; intros t pos phase ext rep H; cbn [phases] in H.
  - now injection H as <-.
  - inv_ret H. unfold SPA in E. apply tables_SPA_loop in E. apply IH in H.
    rewrite H, E. reflexivity.
Qed.

(** ** Leaves as [dfsForInversePointers] registers them *)

(** A node that a cell [i0] of [inversePointers] may point to: a leaf of
    path position [i0] whose annotation, if any, names that position. *)
Definition leaf_of (i0 : nat) (n : NODE) : Prop :=
  sons n = None /\ path_position n = Z.of_nat i0 /\
  forall a, annot n = Some a ->
    textPos a = u32 (Z.of_nat i0) /\ optimisticTextPos a = u32 (Z.of_nat i0).

Definition registered (t : SUFFIX_TREE) : Prop :=
  forall i0 p n, inversePointers t !! i0 = Some (Some p) -> heap t !! p = Some n ->
    leaf_of i0 n.

Lemma lookup_store (t : SUFFIX_TREE) (p q : ptr) (x n0 m : NODE) :
  heap t !! p = Some n0 -> heap (store t p x) !! q = Some m ->
  (q = p /\ m = x) \/ (q <> p /\ heap t !! q = Some m).
Proof.
  intros Hp Hq. destruct (decide (q = p)) as [->|Hne].
  - left. rewrite (lookup_store_eq _ _ x _ Hp) in Hq. split; congruence.
  - right. rewrite lookup_store_ne in Hq by congruence. auto.
Qed.

Lemma registered_store t p x n0 :
  registered t -> heap t !! p = Some n0 ->
  (forall i0, inversePointers t !! i0 = Some (Some p) -> leaf_of i0 x) ->
  registered (store t p x).
Proof.
  intros Hr Hp Hx i0 q m Hc Hq.
  change (inversePointers (store t p x)) with (inversePointers t) in Hc.
  destruct (lookup_store _ _ _ _ _ _ Hp Hq) as [[-> ->]|[_ Hq']].
  - now apply Hx.
  - exact (Hr _ _ _ Hc Hq').
Qed.

Lemma registered_dfs fuel :
  (forall t node depth t' k,
     registered t -> dfsForInversePointers fuel t node depth = Ret (t', k) ->
     registered t') /\
  (forall t c depth num t' k,
     registered t -> dfs_children fuel t c depth num = Ret (t', k) -> registered t').
Proof.
  induction fuel as [|fuel [IH1 IH2]]; split.
  - intros; discriminate.
  - intros t [c|] depth num t' k Hr H; simpl in H; [discriminate | now simplify_eq].
  - intros t node depth t' k Hr H. cbn [dfsForInversePointers] in H.
    apply bind_Ret in H as (n & Hn & H). apply node_at_Ret in Hn.
    assert (Hr1 : registered (store t node (set_strDepth n depth))).
    { apply (registered_store _ _ _ n Hr Hn). intros i0 Hc.
      exact (Hr _ _ _ Hc Hn). }
    assert (Hn1 : heap (store t node (set_strDepth n depth)) !! node
                  = Some (set_strDepth n depth)) by (eapply lookup_store_eq, Hn).
    destruct (sons n) as [first|] eqn:Hsons.
    + rewrite (node_at_lookup _ _ _ Hn1) in H. cbn [mbind outcome_bind] in H.
      eapply IH2; [|exact H].
      apply (registered_store _ _ _ _ Hr1 Hn1). intros i0 Hc.
      destruct (Hr _ _ _ Hc Hn) as (Hs & _). congruence.
    + apply bind_Ret in H as (ip & Hip & H). apply wr_Ret in Hip as (Hpp & ->).
      cbn [inversePointers store with_heap] in Hpp.
      inv_ret H.
      match goal with
      | E : node_at _ node = Ret _ |- _ =>
        rewrite (node_at_lookup _ _ _ Hn1) in E; injection E as <-
      end.
      subst t'. intros i0 q m Hc Hq.
      cbn [inversePointers store with_heap with_maxStrDepth with_inversePointers] in Hc.
      cbn [heap store with_heap with_maxStrDepth with_inversePointers] in Hq.
      destruct (decide (q = node)) as [->|Hne].
      * rewrite list_lookup_insert_eq in Hq
          by (rewrite length_insert; now apply lookup_lt_Some in Hn).
        injection Hq as <-.
        assert (Hi0 : path_position n = Z.of_nat i0).
        { destruct (decide (i0 = Z.to_nat (path_position n))) as [->|Hi]; [lia|].
          rewrite list_lookup_insert_ne in Hc by congruence.
          destruct (Hr _ _ _ Hc Hn) as (_ & Hpath & _). exact Hpath. }
        split; [exact Hsons|]. split; [exact Hi0|].
        intros a [= <-]. simpl. now rewrite Hi0.
      * rewrite list_lookup_insert_ne in Hq by congruence.
        rewrite list_lookup_insert_ne in Hq by congruence.
        destruct (decide (i0 = Z.to_nat (path_position n))) as [->|Hi].
        -- rewrite list_lookup_insert_eq in Hc by lia. congruence.
        -- rewrite list_lookup_insert_ne in Hc by congruence.
           exact (Hr _ _ _ Hc Hq).
  - intros t [c|] depth num t' k Hr H; cbn [dfs_children] in H; [|now simplify_eq].
    inv_ret H. eapply IH2; [|exact H]. eapply IH1; [exact Hr | exact E0].
Qed.

(** The steps of [ST_CreateTree], named. *)
Lemma ST_CreateTree_steps fuel mem_ str len t :
  ST_CreateTree fuel mem_ str len = Ret t ->
  exists t0 t5 t6 nn msd,
    bare t0 /\
    tables t0 = (replicate (Z.to_nat (len + 2)) None,
                 replicate (Z.to_nat (len + 2)) (u32 (len + 1)),
                 replicate (Z.to_nat (len + 2)) (u32 (len + 1)),
                 replicate (Z.to_nat (len + 2)) None, [], dw (len + 1), str, 0) /\
    phases (Z.to_nat (length t0 - 2)) fuel t0 (mkPos (root t0) 0) 2 2 false = Ret t5 /\
    dfsForInversePointers fuel t5 (root t5) 0 = Ret (t6, nn) /\
    monotone_pass (Z.to_nat (length t6 - 1)) (maxStrDepth t6) 2 = Ret msd /\
    t = with_D (with_maxStrDepth t6 msd) (replicate (Z.to_nat (length t6 + 1)) (-1)).
Proof.
  unfold ST_CreateTree. intros H. destruct mem_ as [|m]; [discriminate|].
  apply bind_Ret in H as ([t1 r] & H1 & H).
  apply bind_Ret in H as ([t3 first] & H3 & H).
  apply bind_Ret in H as (rn & Hrn & H).
  apply bind_Ret in H as (t5 & H5 & H).
  apply bind_Ret in H as ([t6 nn] & H6 & H).
  apply bind_Ret in H as (msd & Hmsd & H).
  injection H as <-.
  pose proof H1 as Hb1. eapply bare_create_node in Hb1; [|constructor].
  assert (Hb3 : bare t3).
  { eapply bare_create_node; [|exact H3]. exact Hb1. }
  pose proof (tables_create_node _ _ _ _ _ _ _ H1) as Ht1.
  pose proof (tables_create_node _ _ _ _ _ _ _ H3) as Ht3.
  eexists _, t5, t6, nn, msd. split; [|split; [|split; [|split; [|split]]]].
  - apply bare_with_suffixless, bare_store;
      [exact Hb3 | eapply bare_set_sons, bare_node_at; [exact Hb3 | exact Hrn]].
  - rewrite tables_with_suffixless, tables_store, Ht3.
    etransitivity; [|exact Ht1]. reflexivity.
  - assert (Hroot : root t3 = r).
    { unfold create_node in H3. destruct (avail _); [discriminate|].
      now injection H3 as <- _. }
    cbn [root with_suffixless store with_heap]. rewrite Hroot. exact H5.
  - exact H6.
  - exact Hmsd.
  - reflexivity.
Qed.

Lemma registered_ST_CreateTree fuel mem_ str len t :
  ST_CreateTree fuel mem_ str len = Ret t -> registered t.
Proof.
  intros H. apply ST_CreateTree_steps in H
    as (t0 & t5 & t6 & nn & msd & _ & Ht0 & H5 & H6 & _ & ->).
  apply tables_phases in H5.
  apply (proj1 (registered_dfs fuel)) in H6.
  - intros i0 p n Hc Hp. exact (H6 i0 p n Hc Hp).
  - intros i0 p n Hc. exfalso.
    assert (Hip : inversePointers t5 = replicate (Z.to_nat (len + 2)) None).
    { rewrite Ht0 in H5.
      apply (f_equal (fun x => fst (fst (fst (fst (fst (fst (fst x)))))))) in H5.
      exact H5. }
    rewrite Hip in Hc. apply lookup_replicate in Hc as [Hc _]. discriminate.
Qed.

(** ** The positions that annotations record *)

(** The positions an annotation records, once its values are set, lie in
    [1..B]. *)
Definition recorded_below (B : Z) (a : Annotation) : Prop :=
  (minMax a = UNSET \/ 1 <= textPos a <= B) /\
  (optimisticMinMax a = UNSET \/ 1 <= optimisticTextPos a <= B).

(** The positions of the annotation of a registered leaf are its own
    position or lie in [1..B]. *)
Definition home_or_below (B : Z) (i0 : nat) (a : Annotation) : Prop :=
  (textPos a = u32 (Z.of_nat i0) \/ 1 <= textPos a <= B) /\
  (optimisticTextPos a = u32 (Z.of_nat i0) \/ 1 <= optimisticTextPos a <= B).

Definition node_ok (ip : list (option ptr)) (B : Z) (p : ptr) (n : NODE) : Prop :=
  forall a, annot n = Some a ->
    recorded_below B a /\
    forall i0, ip !! i0 = Some (Some p) -> sons n = None /\ home_or_below B i0 a.

Definition sources_below (t : SUFFIX_TREE) (B : Z) : Prop :=
  forall p n, heap t !! p = Some n -> node_ok (inversePointers t) B p n.

Lemma sources_below_initial t B : fresh t -> registered t -> sources_below t B.
Proof.
  intros Hf Hr p n Hp a Ha.
  destruct (Forall_lookup_1 _ _ _ _ Hf Hp a Ha) as (Hm & Ho).
  split; [split; now left|].
  intros i0 Hc. destruct (Hr _ _ _ Hc Hp) as (Hs & _ & Hpos).
  destruct (Hpos a Ha) as (Ht & Hot). split; [exact Hs|]. split; now left.
Qed.

Lemma sources_below_mono t B B' : B <= B' -> sources_below t B -> sources_below t B'.
Proof.
  intros HB H p n Hp a Ha. destruct (H p n Hp a Ha) as ((Hm & Ho) & Hk).
  split.
  - split; [destruct Hm | destruct Ho]; auto; right; lia.
  - intros i0 Hc. destruct (Hk i0 Hc) as (Hs & Ht & Hot).
    split; [exact Hs|]. split; [destruct Ht | destruct Hot]; auto; right; lia.
Qed.

Lemma sources_below_store t B p x n0 :
  sources_below t B -> heap t !! p = Some n0 ->
  node_ok (inversePointers t) B p x -> sources_below (store t p x) B.
Proof.
  intros H Hp Hx q m Hq.
  change (inversePointers (store t p x)) with (inversePointers t).
  destruct (lookup_store _ _ _ _ _ _ Hp Hq) as [[-> ->]|[_ Hq']].
  - exact Hx.
  - exact (H _ _ Hq').
Qed.

Lemma sources_below_view t t' B :
  heap t' = heap t -> inversePointers t' = inversePointers t ->
  sources_below t B -> sources_below t' B.
Proof. intros Hh Hi H p n Hp. rewrite Hi. apply H. now rewrite <- Hh. Qed.

Lemma getMinMaxOfChildren_leaf fuel t p n x :
  heap t !! p = Some n -> sons n = None ->
  getMinMaxOfChildren fuel t p = Ret x -> x = None.
Proof.
  intros Hp Hs H. unfold getMinMaxOfChildren in H.
  rewrite (node_at_lookup _ _ _ Hp) in H. cbn [mbind outcome_bind] in H.
  rewrite Hs in H. now injection H as <-.
Qed.

Section Sources.

Variable cappedMax : list Z -> Z -> Z -> Z -> Z.

Lemma commit_ancestor_cases t textPos_ finalPos d a a' :
  commit_ancestor cappedMax t textPos_ finalPos d a = Ret a' ->
  a' = a \/ exists cost, a' = commit a cost textPos_.
Proof.
  unfold commit_ancestor. intros H.
  repeat match type of H with
  | (if ?b then _ else _) = Ret _ => destruct b
  | (_ ≫= _) = Ret _ => apply bind_Ret in H as (? & _ & H)
  end; simplify_eq; eauto.
  all: destruct (bool_decide _); eauto.
Qed.

Lemma optimistic_ancestor_cases t textPos_ mm a holder a' :
  optimistic_ancestor t textPos_ mm a holder = Ret a' ->
  a' = adopt a mm textPos_ \/
  exists h, holder = Ret h /\
    (a' = adopt a (optimisticMinMax h) (optimisticTextPos h) \/
     a' = adopt a (minMax a) (textPos a)).
Proof.
  unfold optimistic_ancestor. intros H.
  destruct (bool_decide _); [left; now simplify_eq|]. right.
  apply bind_Ret in H as (h & Hh & H). exists h. split; [exact Hh|].
  repeat match type of H with
  | (if ?b then _ else _) = Ret _ => destruct b
  | (_ ≫= _) = Ret _ => apply bind_Ret in H as (? & _ & H)
  end; simplify_eq; auto.
  all: destruct (bool_decide _); auto.
Qed.

Lemma sources_below_annotate_ancestor fuel t textPos_ finalPos mm p t' B :
  1 <= textPos_ <= B -> sources_below t B ->
  annotate_ancestor cappedMax fuel t textPos_ finalPos mm p = Ret t' ->
  sources_below t' B.
Proof.
  intros Hi Hinv H. unfold annotate_ancestor in H.
  apply bind_Ret in H as (holder & Hholder & H).
  apply bind_Ret in H as (pn & Hpn & H). apply node_at_Ret in Hpn.
  apply bind_Ret in H as (d & _ & H).
  apply bind_Ret in H as (a & Ha & H). apply deref_Ret in Ha.
  apply bind_Ret in H as (a1 & H1 & H).
  apply bind_Ret in H as (a2 & H2 & H). injection H as <-.
  destruct (Hinv _ _ Hpn a Ha) as ((Jm & Jo) & Hk).
  assert (Hok1 : node_ok (inversePointers t) B p (set_annot pn a1)).
  { intros a' [= <-].
    apply commit_ancestor_cases in H1 as [->|[cost ->]].
    - split; [split; assumption | exact Hk].
    - split; [split; [right; exact Hi | exact Jo]|].
      intros i0 Hc. destruct (Hk i0 Hc) as (Hs & _ & Hot).
      split; [exact Hs|]. split; [right; exact Hi | exact Hot]. }
  pose proof (sources_below_store _ _ _ _ _ Hinv Hpn Hok1) as Hinv1.
  eapply sources_below_store; [exact Hinv1 | eapply lookup_store_eq, Hpn |].
  change (inversePointers (store t p (set_annot pn a1))) with (inversePointers t).
  intros a' [= <-].
  destruct (Hok1 a1 eq_refl) as ((Jm1 & Jo1) & Hk1).
  apply optimistic_ancestor_cases in H2 as [->|(h & Hh & Hcase)].
  - split; [split; [exact Jm1 | right; exact Hi]|].
    intros i0 Hc. destruct (Hk1 i0 Hc) as (Hs & Ht & _).
    split; [exact Hs|]. split; [exact Ht | right; exact Hi].
  - apply bind_Ret in Hh as (hp & Hhp & Hh). apply deref_Ret in Hhp.
    apply bind_Ret in Hh as (hn & Hhn & Hh). apply node_at_Ret in Hhn.
    apply deref_Ret in Hh.
    destruct (Hinv1 _ _ Hhn h Hh) as ((_ & Jho) & _).
    split.
    + destruct Hcase as [->| ->]; split; assumption.
    + intros i0 Hc. destruct (Hk i0 Hc) as (Hs & _).
      rewrite (getMinMaxOfChildren_leaf _ _ _ _ _ Hpn Hs Hholder) in Hhp. discriminate.
Qed.

Lemma sources_below_ancestors_loop fuel fuel0 t textPos_ finalPos len mm parent t' B :
  1 <= textPos_ <= B -> sources_below t B ->
  ancestors_loop cappedMax fuel fuel0 t textPos_ finalPos len mm parent = Ret t' ->
  sources_below t' B.
Proof.
  intros Hi. revert t parent.
  induction fuel as [|fuel IH]; intros t [p|] Hinv H; cbn [ancestors_loop] in H;
    try (now simplify_eq).
  - inv_ret H. destruct (bool_decide _); [discriminate | now simplify_eq].
  - inv_ret H. destruct (bool_decide _); [| now simplify_eq].
    inv_ret H. eapply IH; [|exact H].
    eapply sources_below_annotate_ancestor; eassumption.
Qed.

Lemma sources_below_changeAnnotationFromLeaf fuel t textPos_ finalPos len mm distToC t' B :
  1 <= textPos_ <= B -> textPos_ < 2 ^ 32 -> sources_below t B ->
  changeAnnotationFromLeaf cappedMax fuel t textPos_ finalPos len mm distToC = Ret t' ->
  sources_below t' B.
Proof.
  intros Hi Hlt Hinv H. unfold changeAnnotationFromLeaf in H.
  apply bind_Ret in H as (leaf & Hleaf & H).
  apply bind_Ret in Hleaf as (cell & Hcell & Hleaf). apply deref_Ret in Hleaf. subst cell.
  apply rd_Ret in Hcell as (_ & Hcell).
  apply bind_Ret in H as (ln & Hln & H). apply node_at_Ret in Hln.
  apply bind_Ret in H as (la & Hla & H). apply deref_Ret in Hla.
  eapply sources_below_ancestors_loop; [exact Hi | | exact H].
  eapply sources_below_store; [exact Hinv | exact Hln |].
  intros a' [= <-].
  destruct (Hinv _ _ Hln la Hla) as ((Jm & Jo) & Hk).
  destruct (Hk _ Hcell) as (Hs & Ht & Hot).
  rewrite Z2Nat.id, u32_small in Ht, Hot by lia.
  assert (Ht' : 1 <= textPos la <= B) by (destruct Ht; lia).
  assert (Hot' : 1 <= optimisticTextPos la <= B) by (destruct Hot; lia).
  unfold annotate_leaf. destruct (_ || _).
  - split; [split; right; assumption|].
    intros i0 Hc. destruct (Hk i0 Hc) as (_ & Hk0). split; [exact Hs | exact Hk0].
  - split; [split; assumption | exact Hk].
Qed.

Lemma sources_below_propagate_loop i fuel t textPos_ len cur t' B :
  Z.of_nat i <= B -> Z.of_nat i < 2 ^ 32 -> sources_below t B ->
  propagate_loop cappedMax i fuel t textPos_ len cur = Ret t' ->
  sources_below t' B.
Proof.
  revert t cur. induction i as [|i IH]; intros t cur HB Hlt Hinv H.
  - simpl in H. now simplify_eq.
  - cbn [propagate_loop] in H. inv_ret H.
    destruct (bool_decide _); [now simplify_eq|].
    inv_ret H. eapply IH; [lia | lia | | exact H].
    eapply sources_below_changeAnnotationFromLeaf; [| | exact Hinv | eassumption]; lia.
Qed.

Lemma sources_below_propagateAnnotation fuel t textPos_ len t' B :
  u32 (textPos_ + len) <= B -> sources_below t B ->
  propagateAnnotation cappedMax fuel t textPos_ len = Ret t' ->
  sources_below t' B.
Proof.
  intros HB Hinv H. unfold propagateAnnotation in H.
  pose proof (u32_range (textPos_ + len)).
  eapply sources_below_propagate_loop; [| | exact Hinv | exact H]; lia.
Qed.

End Sources.

(** ** The source of a match lies before the current position *)

Lemma ST_FindSubstring_loop_source fuel fuel0 t W P node j cm m B :
  sources_below t B ->
  cm = mkMatch 0 0 \/ 1 <= match_pos cm <= B ->
  ST_FindSubstring_loop fuel fuel0 t W P node j cm = Ret m ->
  m = mkMatch 0 0 \/ 1 <= match_pos m <= B.
Proof.
  intros Hinv. revert node j cm.
  induction fuel as [|fuel IH]; intros [p|] j cm Hcm H; cbn [ST_FindSubstring_loop] in H;
    try discriminate; try (now simplify_eq).
  apply bind_Ret in H as (n & Hn & H). apply node_at_Ret in Hn.
  apply bind_Ret in H as (a & Ha & H). apply deref_Ret in Ha.
  destruct (Hinv _ _ Hn a Ha) as ((_ & Jo) & _).
  destruct (bool_decide_reflect (optimisticMinMax a = UNSET)) as [|Hu];
    [now simplify_eq|].
  assert (Hpos : 1 <= optimisticTextPos a <= B) by (destruct Jo; [contradiction | assumption]).
  destruct (bool_decide _).
  - apply bind_Ret in H as (d & _ & H).
    destruct (bool_decide _); simplify_eq; [right; exact Hpos | exact Hcm].
  - apply bind_Ret in H as (le & _ & H).
    apply bind_Ret in H as ([j' k'] & _ & H).
    destruct (bool_decide _); [discriminate|].
    destruct (bool_decide _); [simplify_eq; right; exact Hpos|].
    destruct (bool_decide _); [|simplify_eq; right; exact Hpos].
    apply bind_Ret in H as (c & _ & H).
    apply bind_Ret in H as (next & _ & H).
    eapply IH; [|exact H]. right. exact Hpos.
Qed.

Lemma ST_FindSubstring_source fuel t W P m B :
  sources_below t B -> ST_FindSubstring fuel t W P = Ret m ->
  m = mkMatch 0 0 \/ 1 <= match_pos m <= B.
Proof.
  intros Hinv H. unfold ST_FindSubstring in H. inv_ret H.
  eapply ST_FindSubstring_loop_source; [exact Hinv | | exact H]. now left.
Qed.

(** ** The costs a round assigns *)

(** The source offset [k] of the phrase body, as the spec has it: it
    advances by one each step and wraps to 0 whenever [src + k] reaches
    [textPos]. *)
Definition next_offset (src textPos_ k : Z) : Z :=
  if bool_decide (src + (k + 1) = textPos_) then 0 else k + 1.

Definition source_offset (src textPos_ : Z) (i : nat) : Z :=
  Nat.iter i (next_offset src textPos_) 0.

Lemma next_offset_range src textPos_ k :
  src < textPos_ -> 0 <= k -> src + k < textPos_ ->
  0 <= next_offset src textPos_ k /\ src + next_offset src textPos_ k < textPos_.
Proof.
  intros Hs Hk Hlt. unfold next_offset.
  destruct (bool_decide_reflect (src + (k + 1) = textPos_)); lia.
Qed.

Lemma bounded_insert_outside (U : list Z) (C lo hi q v : Z) :
  0 <= lo -> hi <= q -> bounded U C lo hi -> bounded (<[Z.to_nat q := v]> U) C lo hi.
Proof.
  intros Hlo Hq HU p Hp. destruct (HU p Hp) as (u & Hu & Hle).
  exists u. split; [|exact Hle]. rewrite list_lookup_insert_ne by lia. exact Hu.
Qed.

Lemma cost_step_source t textPos_ pos i k prevC t' k' prevC' :
  1 <= pos -> pos < textPos_ -> 0 <= k -> pos + k < textPos_ -> 0 <= i ->
  Z.of_nat (List.length (costArray t)) < 2 ^ 32 ->
  textPos_ + i <= Z.of_nat (List.length (costArray t)) ->
  0 <= COST t < 2 ^ 32 - 1 ->
  bounded (costArray t) (COST t) 1 textPos_ ->
  cost_step t textPos_ pos i k prevC = Ret (t', k', prevC') ->
  exists u,
    costArray t !! Z.to_nat (pos + k) = Some u /\
    costArray t' = <[Z.to_nat (textPos_ + i) := u + 1]> (costArray t) /\
    segm t' = <[Z.to_nat (textPos_ + i) := u + 1]> (segm t) /\
    textPos_ + i < Z.of_nat (List.length (costArray t)) /\
    k' = next_offset pos textPos_ k /\
    heap t' = heap t /\ inversePointers t' = inversePointers t.
Proof.
  intros Hpos Hsrc Hk Hlt Hi Hsz Hle HC Hb H.
  destruct (Hb (pos + k)) as (u & Hu & Hur); [lia|].
  exists u. split; [exact Hu|].
  unfold cost_step in H.
  rewrite (u32_small (pos + k)), (u32_small (textPos_ + i)) in H by lia.
  assert (H0 : 0 <= pos + k) by lia.
  rewrite (rd_lookup _ _ _ H0 Hu) in H. cbn [mbind outcome_bind] in H.
  rewrite (u32_small (u + 1)) in H by lia.
  apply bind_Ret in H as (U' & HU' & H). apply wr_Ret in HU' as (Hq & ->).
  apply bind_Ret in H as ([t2 pc2] & H2 & H).
  destruct (bool_decide (u + 1 > COST t)); [discriminate|].
  rewrite (u32_small (k + 1)), (u32_small (pos + (k + 1))) in H by lia.
  injection H as <- <- <-.
  assert (Ht2 : costArray t2 = <[Z.to_nat (textPos_ + i) := u + 1]> (costArray t) /\
                segm t2 = segm t /\ heap t2 = heap t /\
                inversePointers t2 = inversePointers t).
  { destruct (bool_decide (u + 1 = COST t)); inv_ret H2; simplify_eq; auto. }
  destruct Ht2 as (HU2 & HS2 & Hh2 & Hi2).
  cbn [costArray segm heap inversePointers with_segm].
  rewrite HU2, HS2, Hh2, Hi2. unfold segmUpdate, next_offset.
  destruct (Z.ltb_spec (textPos_ + i) 0); [lia|].
  repeat split; try reflexivity. lia.
Qed.

Lemma cost_loop_sources cnt textPos_ pos :
  1 <= pos -> pos < textPos_ ->
  forall t i k prevC t' prevC',
  0 <= k -> pos + k < textPos_ -> 0 <= i ->
  Z.of_nat (List.length (costArray t)) < 2 ^ 32 ->
  textPos_ + i <= Z.of_nat (List.length (costArray t)) ->
  0 <= COST t < 2 ^ 32 - 1 ->
  bounded (costArray t) (COST t) 1 textPos_ ->
  segm t = costArray t ->
  cost_loop cnt t textPos_ pos i k prevC = Ret (t', prevC') ->
  segm t' = costArray t' /\ heap t' = heap t /\ inversePointers t' = inversePointers t /\
  (forall p, 0 <= p < textPos_ + i ->
     costArray t' !! Z.to_nat p = costArray t !! Z.to_nat p) /\
  (forall j : nat, (j < cnt)%nat ->
     exists u,
       costArray t !! Z.to_nat (pos + Nat.iter j (next_offset pos textPos_) k) = Some u /\
       costArray t' !! Z.to_nat (textPos_ + i + Z.of_nat j) = Some (u + 1)).
Proof.
  intros Hpos Hsrc.
  induction cnt as [|cnt IH]; intros t i k prevC t' prevC' Hk Hlt Hi Hsz Hle HC Hb Hseg H;
    cbn [cost_loop] in H.
  - simplify_eq. repeat split; auto. intros j Hj. lia.
  - apply bind_Ret in H as ([[t1 k1] pc1] & H1 & H).
    pose proof (static_cost_step _ _ _ _ _ _ _ _ _ H1) as Hst.
    apply static_fields in Hst as (_ & _ & HC1 & _).
    destruct (cost_step_source _ _ _ _ _ _ _ _ _ Hpos Hsrc Hk Hlt Hi Hsz Hle HC Hb H1)
      as (u & Hu & HU1 & HS1 & Hin & -> & Hh1 & Hi1).
    destruct (next_offset_range pos textPos_ k Hsrc Hk Hlt) as (Hk1 & Hlt1).
    rewrite (u32_small (i + 1)) in H by lia.
    assert (Hi' : 0 <= i + 1) by lia.
    assert (Hsz1 : Z.of_nat (List.length (costArray t1)) < 2 ^ 32)
      by (rewrite HU1, length_insert; exact Hsz).
    assert (Hle1 : textPos_ + (i + 1) <= Z.of_nat (List.length (costArray t1)))
      by (rewrite HU1, length_insert; lia).
    assert (HC' : 0 <= COST t1 < 2 ^ 32 - 1) by (rewrite HC1; exact HC).
    assert (Hb1 : bounded (costArray t1) (COST t1) 1 textPos_)
      by (rewrite HU1, HC1; apply bounded_insert_outside; [lia | lia | exact Hb]).
    assert (Hseg1 : segm t1 = costArray t1) by (rewrite HS1, HU1, Hseg; reflexivity).
    destruct (IH _ _ _ _ _ _ Hk1 Hlt1 Hi' Hsz1 Hle1 HC' Hb1 Hseg1 H)
      as (Hseg' & Hh' & Hi'' & Hpre & Hbody).
    split; [exact Hseg'|]. split; [congruence|]. split; [congruence|]. split.
    + intros p Hp. rewrite Hpre by lia. rewrite HU1.
      apply list_lookup_insert_ne. lia.
    + intros [|j] Hj.
      * exists u. split; [exact Hu|].
        rewrite Z.add_0_r, Hpre by lia. rewrite HU1.
        apply list_lookup_insert_eq. lia.
      * destruct (Hbody j) as (u' & Hu' & Hw); [lia|].
        exists u'. split.
        -- rewrite Nat.iter_succ_r.
           rewrite HU1 in Hu'. rewrite list_lookup_insert_ne in Hu'; [exact Hu'|].
           assert (Hr : forall n x, 0 <= x -> pos + x < textPos_ ->
                      0 <= Nat.iter n (next_offset pos textPos_) x /\
                      pos + Nat.iter n (next_offset pos textPos_) x < textPos_).
           { induction n as [|n IHn]; intros x Hx Hxl; [simpl; lia|].
             cbn [Nat.iter nat_rect]. destruct (IHn x Hx Hxl) as (A & B).
             now apply next_offset_range. }
           destruct (Hr j _ Hk1 Hlt1). lia.
        -- replace (textPos_ + i + Z.of_nat (S j))
             with (textPos_ + (i + 1) + Z.of_nat j) by lia. exact Hw.
Qed.

Lemma source_offset_range src textPos_ i :
  src < textPos_ ->
  0 <= source_offset src textPos_ i /\ src + source_offset src textPos_ i < textPos_.
Proof.
  intros Hs. unfold source_offset.
  induction i as [|i [IH1 IH2]]; [simpl; lia|].
  cbn [Nat.iter nat_rect]. now apply next_offset_range.
Qed.

(** The depth-first pass writes no cost. *)
Lemma costs_dfs fuel :
  (forall t node depth t' k,
     dfsForInversePointers fuel t node depth = Ret (t', k) ->
     costArray t' = costArray t /\ segm t' = segm t) /\
  (forall t c depth num t' k,
     dfs_children fuel t c depth num = Ret (t', k) ->
     costArray t' = costArray t /\ segm t' = segm t).
Proof.
  induction fuel as [|fuel [IH1 IH2]]; split.
  - intros; discriminate.
  - intros t [c|] depth num t' k H; simpl in H; [discriminate | now simplify_eq].
  - intros t node depth t' k H. cbn [dfsForInversePointers] in H.
    apply bind_Ret in H as (n & Hn & H).
    destruct (sons n) as [first|].
    + inv_ret H. apply IH2 in H. exact H.
    + inv_ret H. simplify_eq. split; reflexivity.
  - intros t [c|] depth num t' k H; cbn [dfs_children] in H; [|now simplify_eq].
    inv_ret H. apply IH2 in H as [-> ->]. apply IH1 in E0. exact E0.
Qed.

Section Rounds.

Variable cappedMax : list Z -> Z -> Z -> Z -> Z.

(** What holds of the tree whenever a round of [parseBLZ] starts at
    [textPos]: the costs before [textPos] are within the bound, the segment
    tree mirrors the cost array, and every recorded position is a source
    before [textPos]. *)
Definition round_ready (t : SUFFIX_TREE) (textPos_ : Z) : Prop :=
  1 <= textPos_ /\ 0 <= COST t < 2 ^ 32 - 1 /\
  Z.of_nat (List.length (costArray t)) < 2 ^ 32 /\
  textPos_ <= Z.of_nat (List.length (costArray t)) /\
  bounded (costArray t) (COST t) 1 textPos_ /\
  segm t = costArray t /\
  sources_below t (textPos_ - 1).

Lemma round_ready_initial fuel mem_ str len C t0 :
  0 <= len -> len + 2 < 2 ^ 32 -> 0 <= C < 2 ^ 32 - 1 ->
  ST_CreateTree fuel mem_ str len = Ret t0 ->
  round_ready (with_COST t0 C) 1.
Proof.
  intros Hlen Hsz HC H.
  pose proof (fresh_ST_CreateTree _ _ _ _ _ H) as Hf.
  pose proof (registered_ST_CreateTree _ _ _ _ _ H) as Hr.
  apply ST_CreateTree_steps in H
    as (t & t5 & t6 & nn & msd & _ & Ht & H5 & H6 & _ & ->).
  apply tables_phases in H5. rewrite Ht in H5.
  apply (proj1 (costs_dfs fuel)) in H6 as (HU6 & HS6).
  assert (HU5 : costArray t5 = replicate (Z.to_nat (len + 2)) (u32 (len + 1)))
    by (unfold tables in H5; congruence).
  assert (HS5 : segm t5 = replicate (Z.to_nat (len + 2)) (u32 (len + 1)))
    by (unfold tables in H5; congruence).
  unfold round_ready.
  cbn [COST costArray segm with_COST with_D with_maxStrDepth].
  rewrite HU6, HS6, HU5, HS5, length_replicate.
  split; [lia|]. split; [exact HC|]. split; [lia|]. split; [lia|].
  split; [intros p Hp; lia|]. split; [reflexivity|].
  eapply sources_below_view; [| | apply (sources_below_initial _ _ Hf Hr)]; reflexivity.
Qed.

(** One round: the invariant carries over, and the costs of the phrase are
    those of its source plus one, a zero for the literal. *)
Lemma parse_round_costs fuel t textPos_ prevC t' textPos' prevC' r :
  round_ready t textPos_ ->
  parse_round cappedMax fuel t textPos_ prevC = Ret (t', textPos', prevC', r) ->
  round_ready t' textPos' /\
  (forall i : nat, Z.of_nat i < match_length (found r) ->
     let s := match_pos (found r) + source_offset (match_pos (found r)) textPos_ i in
     1 <= s < textPos_ /\
     exists u,
       costArray t !! Z.to_nat s = Some u /\
       costArray t' !! Z.to_nat s = Some u /\
       costArray t' !! Z.to_nat (textPos_ + Z.of_nat i) = Some (u + 1)) /\
  costArray t' !! Z.to_nat (textPos_ + match_length (found r)) = Some 0 /\
  segm t' = costArray t'.
Proof.
  intros (Htp & HC & Hsz & Hle & Hb & Hseg & Hsrc) H.
  destruct (parse_round_bounded cappedMax _ _ _ _ _ _ _ _ Htp (proj1 HC) Hsz Hle Hb H)
    as (Hb' & Hlen' & HC' & Htp' & HL & Hle').
  unfold parse_round in H.
  apply bind_Ret in H as (m & Hm & H).
  pose proof (ST_FindSubstring_source _ _ _ _ _ _ Hsrc Hm) as Hpos.
  apply bind_Ret in H as ([t1 pc1] & H1 & H).
  apply bind_Ret in H as (U2 & HU2 & H).
  apply bind_Ret in H as (t3 & H3 & H).
  apply bind_Ret in H as (lit & _ & H).
  injection H as <- <- <- <-. cbn [found] in *.
  set (L := match_length m) in *. set (src := match_pos m) in *.
  assert (F : segm t1 = costArray t1 /\ heap t1 = heap t /\
              inversePointers t1 = inversePointers t /\
              List.length (costArray t1) = List.length (costArray t) /\
              (forall p, 0 <= p < textPos_ ->
                 costArray t1 !! Z.to_nat p = costArray t !! Z.to_nat p) /\
              (forall i : nat, Z.of_nat i < L ->
                 exists u,
                   costArray t !! Z.to_nat (src + source_offset src textPos_ i) = Some u /\
                   costArray t1 !! Z.to_nat (textPos_ + Z.of_nat i) = Some (u + 1) /\
                   src + source_offset src textPos_ i < textPos_ /\
                   1 <= src + source_offset src textPos_ i)).
  { pose proof H1 as Hlen1.
    apply cost_loop_bounded in Hlen1; try lia; [| rewrite Z.add_0_r; exact Hb].
    destruct Hlen1 as (_ & Hlen1 & _).
    destruct Hpos as [-> | Hpos].
    - subst L. cbn [match_length] in *. change (Z.to_nat 0) with 0%nat in H1.
      cbn [cost_loop] in H1. injection H1 as <- <-.
      repeat split; auto. intros i Hi. lia.
    - fold src in Hpos.
      eapply cost_loop_sources in H1; try eassumption; try lia.
      destruct H1 as (Hseg1 & Hh1 & Hi1 & Hpre & Hbody).
      split; [exact Hseg1|]. split; [exact Hh1|]. split; [exact Hi1|].
      split; [exact Hlen1|]. split.
      + intros p Hp. apply Hpre. lia.
      + intros i Hi. destruct (Hbody i) as (u & Hu & Hw); [lia|].
        destruct (source_offset_range src textPos_ i) as (Ho1 & Ho2); [lia|].
        exists u. rewrite Z.add_0_r in Hw. unfold source_offset in *.
        split; [exact Hu|]. split; [exact Hw|]. lia. }
  destruct F as (Hseg1 & Hh1 & Hi1 & Hlen1 & Hpre & Hbody).
  apply wr_Ret in HU2 as (Hq & ->).
  pose proof (u32_range (textPos_ + L)) as Hr.
  assert (Hu : u32 (textPos_ + L) = textPos_ + L).
  { apply u32_small. rewrite Htp' in Hle'. lia. }
  rewrite Hu in *. clear Hr.
  pose proof (erase_propagateAnnotation _ _ _ _ _ _ H3) as He.
  apply erase_fields in He as (_ & _ & _ & _ & _ & HU3 & _ & _ & HS3 & HC3 & _).
  cbn [costArray segm COST with_segm with_costArray] in HU3, HS3, HC3.
  assert (Hsrc3 : sources_below t3 (textPos_ + L)).
  { eapply sources_below_propagateAnnotation; [| | exact H3]; [rewrite Hu; lia|].
    eapply sources_below_view; [| | eapply sources_below_mono; [|exact Hsrc]];
      [exact Hh1 | exact Hi1 | lia]. }
  assert (Hseg3 : segm t3 = costArray t3).
  { rewrite HS3, HU3. unfold segmUpdate.
    destruct (Z.ltb_spec (textPos_ + L) 0); [lia|]. now rewrite Hseg1. }
  split; [|split; [|split]].
  - unfold round_ready. rewrite Hlen', HC'.
    rewrite Htp' in *. replace (textPos_ + L + 1 - 1) with (textPos_ + L) by lia.
    split; [lia|]. split; [exact HC|]. split; [exact Hsz|]. split; [exact Hle'|].
    split; [rewrite <- HC'; exact Hb'|]. split; [exact Hseg3 | exact Hsrc3].
  - intros i Hi. destruct (Hbody i Hi) as (u & Hu0 & Hw & Ho2 & Ho1).
    cbv zeta. split; [lia|].
    exists u. rewrite HU3. split; [exact Hu0|]. split.
    + rewrite list_lookup_insert_ne by lia. rewrite Hpre by lia. exact Hu0.
    + rewrite list_lookup_insert_ne by lia. exact Hw.
  - rewrite HU3. apply list_lookup_insert_eq. lia.
  - exact Hseg3.
Qed.

Lemma round_ready_rounds_run k fuel : forall t textPos_ prevC t' textPos' prevC',
  round_ready t textPos_ ->
  rounds_run cappedMax k fuel t textPos_ prevC = Ret (t', textPos', prevC') ->
  round_ready t' textPos'.
Proof.
  induction k as [|k IH]; intros t textPos_ prevC t' textPos' prevC' Hr H;
    cbn [rounds_run] in H.
  - now simplify_eq.
  - apply bind_Ret in H as ([[[t1 tp1] pc1] r] & H1 & H).
    eapply IH; [|exact H]. eapply parse_round_costs; eassumption.
Qed.

End Rounds.

(** C6.  In every round of [parseBLZ] on a tree that [ST_CreateTree] built,
    run with a positive cost bound, a round that emits a phrase of length
    [L] with source [src] leaves, for every [i] in [0..L-1], the cost at
    [textPos + i] equal to the cost at the source position [src + k] plus
    one, where [k] starts at 0, advances by one each step and wraps to 0
    when [src + k] reaches [textPos]; the source position lies before
    [textPos] and its cost is the same before and after the round.  The
    literal position [textPos + L] gets cost 0, and the segment tree holds
    the cost array the round leaves. *)
Theorem parse_round_cost_recurrence (cappedMax : list Z -> Z -> Z -> Z -> Z)
    (fuel mem_ : nat) (str : list Z) (len C : Z) (k : nat)
    (t0 t t' : SUFFIX_TREE) (textPos_ prevC textPos' prevC' : Z) (r : ROUND) :
  0 <= len -> len + 2 < 2 ^ 32 -> 0 < C < 2 ^ 31 ->
  ST_CreateTree fuel mem_ str len = Ret t0 ->
  rounds_run cappedMax k fuel (with_COST t0 (u32 C)) 1 0 = Ret (t, textPos_, prevC) ->
  parse_round cappedMax fuel t textPos_ prevC = Ret (t', textPos', prevC', r) ->
  let L := match_length (found r) in
  let src := match_pos (found r) in
  (forall i : nat, Z.of_nat i < L ->
     let s := src + source_offset src textPos_ i in
     1 <= s < textPos_ /\
     exists u,
       costArray t !! Z.to_nat s = Some u /\
       costArray t' !! Z.to_nat s = Some u /\
       costArray t' !! Z.to_nat (textPos_ + Z.of_nat i) = Some (u + 1)) /\
  costArray t' !! Z.to_nat (textPos_ + L) = Some 0 /\
  segm t' = costArray t'.
Proof.
  intros Hlen Hsz HC H0 Hk H L src.
  assert (HC' : 0 <= u32 C < 2 ^ 32 - 1) by (rewrite u32_small; lia).
  pose proof (round_ready_initial _ _ _ _ _ _ Hlen Hsz HC' H0) as Hr.
  pose proof (round_ready_rounds_run cappedMax _ _ _ _ _ _ _ _ Hr Hk) as Hr'.
  exact (proj2 (parse_round_costs cappedMax _ _ _ _ _ _ _ _ Hr' H)).
Qed.

Lemma parse_round_cost_recurrence_witness :
  let t := aaaa_2_after_1 in
  let t' := aaaa_2_round_2_tree in
  let r := aaaa_2_round_2 in
  0 <= 4 /\ 4 + 2 < 2 ^ 32 /\ 0 < 2 < 2 ^ 31 /\
  ST_CreateTree 64 64 (aaaa ++ [0]) 4 = Ret aaaa_tree /\
  rounds_run cappedMax_spec 1 64 (with_COST aaaa_tree (u32 2)) 1 0 = Ret (t, 2, 0) /\
  parse_round cappedMax_spec 64 t 2 0 = Ret (t', 6, 0, r) /\
  found r = mkMatch 3 1 /\
  costArray t = [5; 0; 5; 5; 5; 5] /\
  costArray t' = [5; 0; 1; 1; 1; 0] /\
  source_offset 1 2 1 = 0 /\
  (forall i : nat, Z.of_nat i < match_length (found r) ->
     let s := match_pos (found r) + source_offset (match_pos (found r)) 2 i in
     1 <= s < 2 /\
     exists u,
       costArray t !! Z.to_nat s = Some u /\
       costArray t' !! Z.to_nat s = Some u /\
       costArray t' !! Z.to_nat (2 + Z.of_nat i) = Some (u + 1)) /\
  costArray t' !! Z.to_nat (2 + match_length (found r)) = Some 0 /\
  segm t' = costArray t'.
Proof.
  intros t t' r.
  assert (Hlen : 0 <= 4) by lia.
  assert (Hsz : 4 + 2 < 2 ^ 32) by lia.
  assert (HC : 0 < 2 < 2 ^ 31) by lia.
  assert (H0 : ST_CreateTree 64 64 (aaaa ++ [0]) 4 = Ret aaaa_tree)
    by (vm_compute; reflexivity).
  assert (Hk : rounds_run cappedMax_spec 1 64 (with_COST aaaa_tree (u32 2)) 1 0
               = Ret (t, 2, 0)) by (vm_compute; reflexivity).
  assert (H : parse_round cappedMax_spec 64 t 2 0 = Ret (t', 6, 0, r))
    by (vm_compute; reflexivity).
  refine (conj Hlen (conj Hsz (conj HC (conj H0 (conj Hk (conj H _)))))).
  split; [vm_compute; reflexivity|].
  split; [vm_compute; reflexivity|].
  split; [vm_compute; reflexivity|].
  split; [vm_compute; reflexivity|].
  exact (parse_round_cost_recurrence cappedMax_spec 64 64 (aaaa ++ [0]) 4 2 1
           aaaa_tree t t' 2 0 6 0 r Hlen Hsz HC H0 Hk H).
Defined.

(** * Further properties of the code *)

(** ** What the annotation engine and the parser leave alone *)

Lemma skeleton_heap_lookup (t t' : SUFFIX_TREE) :
  skeleton <$> heap t' = skeleton <$> heap t ->
  List.length (heap t') = List.length (heap t) /\
  forall p n n', heap t !! p = Some n -> heap t' !! p = Some n' -> skeleton n' = skeleton n.
Proof.
  intros H. split.
  - apply (f_equal List.length) in H. now rewrite !length_fmap in H.
  - intros p n n' Hn Hn'.
    apply (f_equal (fun l => l !! p)) in H.
    rewrite !list_lookup_fmap, Hn, Hn' in H. simpl in H. congruence.
Qed.

(** The tree [propagateAnnotation] ran on, as the "abab" parse has it in
    its first round: cost 0 written at position 1. *)
Definition abab_2_literal_written : SUFFIX_TREE :=
  Eval vm_compute in
    with_segm (with_costArray abab_2_ready (<[1%nat := 0]> (costArray abab_2_ready)))
      (<[1%nat := 0]> (segm abab_2_ready)).

Definition abab_2_propagated : SUFFIX_TREE :=
  Eval vm_compute in
    match propagateAnnotation cappedMax_spec 64 abab_2_literal_written 1 0 with
    | Ret t => t
    | _ => no_tree
    end.

(** [propagateAnnotation], and with it every [changeAnnotationFromLeaf] it
    calls, writes nothing but annotations: the cost array, the segment
    tree, [D], the leaf pointers, [maxStrDepth], the text, and in every
    node all fields but [annot] are as before, and no node is added. *)
Theorem propagateAnnotation_writes_annotations_only
    (cappedMax : list Z -> Z -> Z -> Z -> Z) (fuel : nat) (t t' : SUFFIX_TREE)
    (textPos_ len : Z) :
  propagateAnnotation cappedMax fuel t textPos_ len = Ret t' ->
  costArray t' = costArray t /\ segm t' = segm t /\ D t' = D t /\
  inversePointers t' = inversePointers t /\ maxStrDepth t' = maxStrDepth t /\
  tree_string t' = tree_string t /\ length t' = length t /\ COST t' = COST t /\
  root t' = root t /\
  List.length (heap t') = List.length (heap t) /\
  forall p n n', heap t !! p = Some n -> heap t' !! p = Some n' -> skeleton n' = skeleton n.
Proof.
  intros H. apply erase_propagateAnnotation, erase_fields in H.
  destruct H as (_ & Hr & Hl & Hs & Hi & HU & Hm & HD & HS & HC & Hh).
  apply skeleton_heap_lookup in Hh as (Hlen & Hsk).
  repeat (split; [assumption|]). exact Hsk.
Qed.

Lemma propagateAnnotation_writes_annotations_only_witness :
  let t := abab_2_literal_written in
  let t' := abab_2_propagated in
  propagateAnnotation cappedMax_spec 64 t 1 0 = Ret t' /\
  t' <> t /\
  costArray t' = costArray t /\ segm t' = segm t /\ D t' = D t /\
  inversePointers t' = inversePointers t /\ maxStrDepth t' = maxStrDepth t /\
  tree_string t' = tree_string t /\ length t' = length t /\ COST t' = COST t /\
  root t' = root t /\
  List.length (heap t') = List.length (heap t) /\
  forall p n n', heap t !! p = Some n -> heap t' !! p = Some n' -> skeleton n' = skeleton n.
Proof.
  intros t t'.
  assert (H : propagateAnnotation cappedMax_spec 64 t 1 0 = Ret t')
    by (vm_compute; reflexivity).
  refine (conj H (conj _ _)).
  - intros E. apply (f_equal heap) in E. vm_compute in E. discriminate.
  - exact (propagateAnnotation_writes_annotations_only cappedMax_spec 64 t t' 1 0 H).
Defined.

(** ** A whole parse *)

Lemma cost_step_writes t textPos_ pos i k prevC t' k' prevC' :
  0 <= textPos_ + i < 2 ^ 32 ->
  cost_step t textPos_ pos i k prevC = Ret (t', k', prevC') ->
  textPos_ + i < Z.of_nat (List.length (costArray t)) /\
  exists v, costArray t' = <[Z.to_nat (textPos_ + i) := v]> (costArray t).
Proof.
  intros Hr H. unfold cost_step in H.
  rewrite (u32_small (textPos_ + i)) in H by exact Hr.
  apply bind_Ret in H as (x & _ & H).
  apply bind_Ret in H as (U' & HU' & H). apply wr_Ret in HU' as (Hq & ->).
  apply bind_Ret in H as ([t2 pc2] & H2 & H).
  destruct (bool_decide (u32 (x + 1) > COST t)); [discriminate|].
  injection H as <- _ _. split; [lia|]. exists (u32 (x + 1)).
  destruct (bool_decide (u32 (x + 1) = COST t)); inv_ret H2; simplify_eq; reflexivity.
Qed.

Lemma cost_loop_prefix cnt textPos_ pos : forall t i k prevC t' prevC',
  1 <= textPos_ -> 0 <= i ->
  Z.of_nat (List.length (costArray t)) < 2 ^ 32 ->
  textPos_ + i <= Z.of_nat (List.length (costArray t)) ->
  cost_loop cnt t textPos_ pos i k prevC = Ret (t', prevC') ->
  forall p, 0 <= p < textPos_ + i ->
    costArray t' !! Z.to_nat p = costArray t !! Z.to_nat p.
Proof.
  induction cnt as [|cnt IH]; intros t i k prevC t' prevC' Htp Hi Hsz Hle H p Hp;
    cbn [cost_loop] in H.
  - now simplify_eq.
  - apply bind_Ret in H as ([[t1 k1] pc1] & H1 & H).
    apply cost_step_writes in H1 as (Hlt & v & HU1); [|lia].
    rewrite (u32_small (i + 1)) in H by lia.
    assert (Hi1 : 0 <= i + 1) by lia.
    assert (Hsz1 : Z.of_nat (List.length (costArray t1)) < 2 ^ 32)
      by (rewrite HU1, length_insert; exact Hsz).
    assert (Hle1 : textPos_ + (i + 1) <= Z.of_nat (List.length (costArray t1)))
      by (rewrite HU1, length_insert; lia).
    assert (Hp1 : 0 <= p < textPos_ + (i + 1)) by lia.
    rewrite (IH _ _ _ _ _ _ Htp Hi1 Hsz1 Hle1 H p Hp1).
    rewrite HU1. apply list_lookup_insert_ne. lia.
Qed.

(** The arrays of costs and the scalars, which the depth-first pass does
    not write. *)
Definition ledger (t : SUFFIX_TREE) :=
  (costArray t, segm t, D t, length t, tree_string t, COST t).

Lemma ledger_dfs fuel :
  (forall t node depth t' k,
     dfsForInversePointers fuel t node depth = Ret (t', k) -> ledger t' = ledger t) /\
  (forall t c depth num t' k,
     dfs_children fuel t c depth num = Ret (t', k) -> ledger t' = ledger t).
Proof.
  induction fuel as [|fuel [IH1 IH2]]; split.
  - intros; discriminate.
  - intros t [c|] depth num t' k H; simpl in H; [discriminate | now simplify_eq].
  - intros t node depth t' k H. cbn [dfsForInversePointers] in H.
    apply bind_Ret in H as (n & Hn & H).
    destruct (sons n) as [first|].
    + inv_ret H. apply IH2 in H. exact H.
    + inv_ret H. simplify_eq. reflexivity.
  - intros t [c|] depth num t' k H; cbn [dfs_children] in H; [|now simplify_eq].
    inv_ret H. apply IH2 in H. apply IH1 in E0. congruence.
Qed.

Lemma ST_CreateTree_ledger fuel mem_ str len t :
  ST_CreateTree fuel mem_ str len = Ret t ->
  length t = dw (len + 1) /\ tree_string t = str /\
  costArray t = replicate (Z.to_nat (len + 2)) (u32 (len + 1)) /\
  segm t = replicate (Z.to_nat (len + 2)) (u32 (len + 1)) /\
  D t = replicate (Z.to_nat (dw (len + 1) + 1)) (-1).
Proof.
  intros H. apply ST_CreateTree_steps in H
    as (t0 & t5 & t6 & nn & msd & _ & Ht & H5 & H6 & _ & ->).
  apply tables_phases in H5. rewrite Ht in H5.
  apply (proj1 (ledger_dfs fuel)) in H6.
  unfold tables in H5. unfold ledger in H6.
  cbn [length tree_string costArray segm D with_D with_maxStrDepth].
  assert (Hl : length t6 = dw (len + 1)) by congruence.
  rewrite Hl. repeat split; congruence.
Qed.

(** The phrases of a log lie one after the other from [start] on: each
    begins where the one before ended, a phrase of length [L] with its
    literal taking [L + 1] positions. *)
Fixpoint consecutive (log : list ROUND) (start : Z) : Prop :=
  match log with
  | [] => True
  | r :: log' =>
    at_textPos r = start /\ 0 <= match_length (found r) /\
    consecutive log' (start + match_length (found r) + 1)
  end.

(** The position after the last phrase of the log. *)
Fixpoint finish (log : list ROUND) (start : Z) : Z :=
  match log with
  | [] => start
  | r :: log' => finish log' (start + match_length (found r) + 1)
  end.

(** The costs of a phrase in a cost array [U]: each byte of the body costs
    one more than its source, which lies before the phrase, and the
    literal costs 0. *)
Definition phrase_costs (U : list Z) (r : ROUND) : Prop :=
  let textPos_ := at_textPos r in
  let L := match_length (found r) in
  let src := match_pos (found r) in
  (forall i : nat, Z.of_nat i < L ->
     let s := src + source_offset src textPos_ i in
     1 <= s < textPos_ /\
     exists u, U !! Z.to_nat s = Some u /\
               U !! Z.to_nat (textPos_ + Z.of_nat i) = Some (u + 1)) /\
  U !! Z.to_nat (textPos_ + L) = Some 0.

(** The line a round prints, against the text [s]: the source as a
    0-based position, printed as an [int] (-1 with an empty body), the
    length, and the byte of the text after the body. *)
Definition phrase_line (s : list Z) (r : ROUND) : Prop :=
  let textPos_ := at_textPos r in
  let L := match_length (found r) in
  let src := match_pos (found r) in
  (found r = mkMatch 0 0 \/ 1 <= src < textPos_) /\
  exists lit, s !! Z.to_nat (textPos_ + L - 1) = Some lit /\
              printed r = (s32 (src - 1), L, lit).

Lemma consecutive_app log1 log2 start :
  consecutive (log1 ++ log2) start <->
  consecutive log1 start /\ consecutive log2 (finish log1 start).
Proof.
  revert start. induction log1 as [|r log1 IH]; intros start; simpl.
  - tauto.
  - rewrite IH. tauto.
Qed.

Lemma finish_app log1 log2 start :
  finish (log1 ++ log2) start = finish log2 (finish log1 start).
Proof.
  revert start. induction log1 as [|r log1 IH]; intros start; simpl; [reflexivity|].
  apply IH.
Qed.

Lemma finish_length log start :
  consecutive log start -> start + Z.of_nat (List.length log) <= finish log start.
Proof.
  revert start. induction log as [|r log IH]; intros start; simpl; [lia|].
  intros (_ & HL & H). apply IH in H. lia.
Qed.

Lemma phrase_costs_prefix (U U' : list Z) (r : ROUND) :
  0 <= match_length (found r) -> 1 <= at_textPos r ->
  (forall p, 0 <= p < at_textPos r + match_length (found r) + 1 ->
     U' !! Z.to_nat p = U !! Z.to_nat p) ->
  phrase_costs U r -> phrase_costs U' r.
Proof.
  intros HL Htp Hpre (Hbody & Hlit). split.
  - intros i Hi. destruct (Hbody i Hi) as (Hs & u & Hu & Hw).
    cbv zeta. split; [exact Hs|]. exists u.
    rewrite !Hpre by lia. auto.
  - rewrite Hpre by lia. exact Hlit.
Qed.

Section ParseRun.

Variable cappedMax : list Z -> Z -> Z -> Z -> Z.

Lemma parse_round_facts fuel t textPos_ prevC t' textPos' prevC' r :
  round_ready t textPos_ ->
  parse_round cappedMax fuel t textPos_ prevC = Ret (t', textPos', prevC', r) ->
  at_textPos r = textPos_ /\
  textPos' = textPos_ + match_length (found r) + 1 /\
  0 <= match_length (found r) /\
  phrase_line (tree_string t) r /\
  (forall p, 0 <= p < textPos_ ->
     costArray t' !! Z.to_nat p = costArray t !! Z.to_nat p) /\
  List.length (costArray t') = List.length (costArray t).
Proof.
  intros Hr H. pose proof Hr as (Htp & HC & Hsz & Hle & Hb & Hseg & Hsrc).
  destruct (parse_round_bounded cappedMax _ _ _ _ _ _ _ _ Htp (proj1 HC) Hsz Hle Hb H)
    as (_ & Hlen' & _ & Htp' & HL & Hle').
  destruct (parse_round_query cappedMax _ _ _ _ _ _ _ _ H) as (Hat & _ & _).
  split; [exact Hat|]. split; [exact Htp'|]. split; [exact HL|].
  unfold parse_round in H.
  apply bind_Ret in H as (m & Hm & H).
  pose proof (ST_FindSubstring_source _ _ _ _ _ _ Hsrc Hm) as Hpos.
  apply bind_Ret in H as ([t1 pc1] & H1 & H).
  apply bind_Ret in H as (U2 & HU2 & H).
  apply bind_Ret in H as (t3 & H3 & H).
  apply bind_Ret in H as (lit & Hlit & H).
  injection H as <- <- <- <-. cbn [found at_textPos printed] in *.
  set (L := match_length m) in *. set (src := match_pos m) in *.
  apply wr_Ret in HU2 as (Hq & ->).
  assert (Hu : u32 (textPos_ + L) = textPos_ + L).
  { apply u32_small. rewrite Htp' in Hle'. lia. }
  rewrite Hu in *.
  pose proof (erase_propagateAnnotation _ _ _ _ _ _ H3) as He.
  apply erase_fields in He as (_ & _ & _ & Hts & _ & HU3 & _).
  cbn [costArray tree_string with_segm with_costArray] in HU3, Hts.
  pose proof (static_cost_loop _ _ _ _ _ _ _ _ _ H1) as Hst1.
  apply static_fields in Hst1 as (_ & Hts1 & _).
  split; [|split].
  - unfold phrase_line. cbn [found at_textPos printed]. fold L src. split.
    + destruct Hpos as [Hpos | Hpos]; [now left | right; lia].
    + exists lit. split.
      * unfold char_at, rd in Hlit. rewrite Htp' in Hlit.
        replace (textPos_ + L + 1 - 1 - 1) with (textPos_ + L - 1) in Hlit by lia.
        destruct (Z.ltb_spec (textPos_ + L - 1) 0); [discriminate|].
        rewrite Hts, Hts1 in Hlit.
        destruct (tree_string t !! Z.to_nat (textPos_ + L - 1)); [|discriminate].
        now injection Hlit as ->.
      * reflexivity.
  - intros p Hp. rewrite HU3. rewrite list_lookup_insert_ne by lia.
    assert (Hle0 : textPos_ + 0 <= Z.of_nat (List.length (costArray t))) by lia.
    assert (Hp0 : 0 <= p < textPos_ + 0) by lia.
    exact (cost_loop_prefix _ _ _ _ _ _ _ _ _ Htp (Z.le_refl 0) Hsz Hle0 H1 p Hp0).
  - exact Hlen'.
Qed.


(** A whole run of the loop of [parseBLZ] from a state in which a round can
    start. *)
Lemma parse_loop_run rounds fuel : forall t textPos_ z prevC log t' z' log',
  round_ready t textPos_ ->
  parse_loop cappedMax rounds fuel t textPos_ z prevC log = Ret (t', z', log') ->
  exists new,
    log' = log ++ new /\ z' = z + Z.of_nat (List.length new) /\
    consecutive new textPos_ /\
    length t < finish new textPos_ /\
    round_ready t' (finish new textPos_) /\
    Forall (phrase_line (tree_string t)) new /\
    Forall (phrase_costs (costArray t')) new /\
    (forall p, 0 <= p < textPos_ ->
       costArray t' !! Z.to_nat p = costArray t !! Z.to_nat p) /\
    List.length (costArray t') = List.length (costArray t).
Proof.
  induction rounds as [|rounds IH]; intros t textPos_ z prevC log t' z' log' Hr H;
    cbn [parse_loop] in H.
  - destruct (bool_decide_reflect (textPos_ <= length t)); [discriminate|].
    injection H as <- <- <-. exists []. rewrite app_nil_r. simpl.
    split; [reflexivity|]. split; [lia|]. split; [exact I|]. split; [lia|].
    split; [exact Hr|]. split; [constructor|]. split; [constructor|]. split; auto.
  - destruct (bool_decide_reflect (textPos_ <= length t)) as [Hin|Hout].
    + apply bind_Ret in H as ([[[t1 tp1] pc1] r] & H1 & H).
      destruct (parse_round_costs cappedMax _ _ _ _ _ _ _ _ Hr H1)
        as (Hr1 & Hbody & Hlit & _).
      destruct (parse_round_facts _ _ _ _ _ _ _ _ Hr H1)
        as (Hat & Htp1 & HL & Hline & Hpre1 & Hlen1).
      pose proof (static_parse_round cappedMax _ _ _ _ _ _ _ _ H1) as Hst.
      apply static_fields in Hst as (Hl1 & Hts1 & _).
      destruct (IH _ _ _ _ _ _ _ _ Hr1 H)
        as (new & -> & -> & Hcons & Hfin & Hr' & Hlines & Hcosts & Hpre & Hlen).
      exists (r :: new). cbn [consecutive finish List.length]. rewrite <- Htp1.
      split; [now rewrite <- app_assoc|]. split; [lia|].
      split; [auto|]. split; [congruence|]. split; [exact Hr'|].
      split; [constructor; [exact Hline | now rewrite <- Hts1]|].
      split; [|split; [|congruence]].
      * constructor; [|exact Hcosts].
        destruct Hr as (Htp & _).
        apply (phrase_costs_prefix (costArray t1)); rewrite ?Hat; try lia.
        -- intros p Hp. apply Hpre. lia.
        -- split; [|rewrite Hat; exact Hlit].
           intros i Hi. rewrite Hat. destruct (Hbody i Hi) as (Hs & u & _ & Hu & Hw).
           cbv zeta. split; [exact Hs|]. exists u. auto.
      * intros p Hp. rewrite Hpre by lia. apply Hpre1. exact Hp.
    + injection H as <- <- <-. exists []. rewrite app_nil_r. simpl.
      split; [reflexivity|]. split; [lia|]. split; [exact I|]. split; [lia|].
      split; [exact Hr|]. split; [constructor|]. split; [constructor|]. split; auto.
Qed.

End ParseRun.

Lemma built_round_ready fuel mem_ str len C t0 :
  0 <= len -> len + 2 < 2 ^ 32 -> 0 < C < 2 ^ 31 ->
  ST_CreateTree fuel mem_ str len = Ret t0 ->
  round_ready (with_COST t0 (u32 C)) 1 /\
  length t0 = len + 1 /\ tree_string t0 = str /\
  Z.of_nat (List.length (costArray t0)) = len + 2.
Proof.
  intros Hlen Hsz HC H.
  assert (HC' : 0 <= u32 C < 2 ^ 32 - 1) by (rewrite u32_small; lia).
  split; [exact (round_ready_initial _ _ _ _ _ _ Hlen Hsz HC' H)|].
  apply ST_CreateTree_ledger in H as (Hl & Hs & HU & _).
  rewrite Hl, HU, length_replicate. unfold dw. rewrite Z.mod_small by lia.
  repeat split; [exact Hs | lia].
Qed.

(** The tree and the log that parsing "aaaa" with cost bound 2 leaves. *)
Definition aaaa_2_log : list ROUND :=
  Eval vm_compute in
    match parseBLZ cappedMax_spec 64 (with_COST aaaa_tree (u32 2)) with
    | Ret (_, _, log) => log
    | _ => []
    end.

(** The phrases of a parse tile the text: [parseBLZ] returns the number of
    phrases it printed, the first phrase begins at position 1, each
    phrase of length [L] takes [L + 1] positions and the next begins right
    after it, and the last ends at position [n + 1], the terminator; so
    there are at most [n + 1] phrases. *)
Theorem parseBLZ_phrases_tile (cappedMax : list Z -> Z -> Z -> Z -> Z)
    (fuel mem_ : nat) (str : list Z) (len C : Z)
    (t0 t' : SUFFIX_TREE) (z : Z) (log : list ROUND) :
  0 <= len -> len + 2 < 2 ^ 32 -> 0 < C < 2 ^ 31 ->
  ST_CreateTree fuel mem_ str len = Ret t0 ->
  parseBLZ cappedMax fuel (with_COST t0 (u32 C)) = Ret (t', z, log) ->
  z = Z.of_nat (List.length log) /\
  consecutive log 1 /\
  finish log 1 = len + 2 /\
  1 <= z <= len + 1.
Proof.
  intros Hlen Hsz HC H0 H.
  destruct (built_round_ready _ _ _ _ _ _ Hlen Hsz HC H0) as (Hr & Hl & _ & HU).
  unfold parseBLZ in H.
  destruct (parse_loop_run cappedMax _ _ _ _ _ _ _ _ _ _ Hr H)
    as (new & -> & -> & Hcons & Hfin & Hr' & _ & _ & _ & Hlen').
  cbn [app COST length costArray with_COST] in *.
  destruct Hr' as (_ & _ & _ & Hle & _).
  rewrite Hlen' in Hle. cbn [costArray with_COST] in Hle.
  pose proof (finish_length _ _ Hcons) as Hz.
  split; [lia|]. split; [exact Hcons|]. split; [lia|].
  destruct new; [simpl in Hfin; lia|]. simpl List.length in *. lia.
Qed.

Lemma parseBLZ_phrases_tile_witness :
  0 <= 4 /\ 4 + 2 < 2 ^ 32 /\ 0 < 2 < 2 ^ 31 /\
  ST_CreateTree 64 64 (aaaa ++ [0]) 4 = Ret aaaa_tree /\
  parseBLZ cappedMax_spec 64 (with_COST aaaa_tree (u32 2))
    = Ret (aaaa_2_round_2_tree, 2, aaaa_2_log) /\
  printed <$> aaaa_2_log = [(-1, 0, 97); (0, 3, 0)] /\
  2 = Z.of_nat (List.length aaaa_2_log) /\
  consecutive aaaa_2_log 1 /\
  finish aaaa_2_log 1 = 4 + 2 /\
  1 <= 2 <= 4 + 1.
Proof.
  assert (Hlen : 0 <= 4) by lia.
  assert (Hsz : 4 + 2 < 2 ^ 32) by lia.
  assert (HC : 0 < 2 < 2 ^ 31) by lia.
  assert (H0 : ST_CreateTree 64 64 (aaaa ++ [0]) 4 = Ret aaaa_tree)
    by (vm_compute; reflexivity).
  assert (H : parseBLZ cappedMax_spec 64 (with_COST aaaa_tree (u32 2))
              = Ret (aaaa_2_round_2_tree, 2, aaaa_2_log)) by (vm_compute; reflexivity).
  refine (conj Hlen (conj Hsz (conj HC (conj H0 (conj H (conj _ _)))))).
  - vm_compute. reflexivity.
  - exact (parseBLZ_phrases_tile cappedMax_spec 64 64 (aaaa ++ [0]) 4 2
             aaaa_tree aaaa_2_round_2_tree 2 aaaa_2_log Hlen Hsz HC H0 H).
Defined.

(** Every phrase of a parse points backward and ends in the next byte of
    the text: its match is empty (length 0, position 0) or its source
    position lies in [1..textPos-1]; the printed line is the source minus
    one as an [int], the length, and the byte of the text at
    [textPos + L]. *)
Theorem parseBLZ_phrase_lines (cappedMax : list Z -> Z -> Z -> Z -> Z)
    (fuel mem_ : nat) (str : list Z) (len C : Z)
    (t0 t' : SUFFIX_TREE) (z : Z) (log : list ROUND) :
  0 <= len -> len + 2 < 2 ^ 32 -> 0 < C < 2 ^ 31 ->
  ST_CreateTree fuel mem_ str len = Ret t0 ->
  parseBLZ cappedMax fuel (with_COST t0 (u32 C)) = Ret (t', z, log) ->
  Forall (phrase_line str) log.
Proof.
  intros Hlen Hsz HC H0 H.
  destruct (built_round_ready _ _ _ _ _ _ Hlen Hsz HC H0) as (Hr & _ & Hs & _).
  unfold parseBLZ in H.
  destruct (parse_loop_run cappedMax _ _ _ _ _ _ _ _ _ _ Hr H)
    as (new & -> & _ & _ & _ & _ & Hlines & _).
  cbn [app tree_string with_COST] in *. now rewrite <- Hs.
Qed.

Lemma parseBLZ_phrase_lines_witness :
  0 <= 4 /\ 4 + 2 < 2 ^ 32 /\ 0 < 2 < 2 ^ 31 /\
  ST_CreateTree 64 64 (aaaa ++ [0]) 4 = Ret aaaa_tree /\
  parseBLZ cappedMax_spec 64 (with_COST aaaa_tree (u32 2))
    = Ret (aaaa_2_round_2_tree, 2, aaaa_2_log) /\
  Forall (phrase_line (aaaa ++ [0])) aaaa_2_log.
Proof.
  assert (Hlen : 0 <= 4) by lia.
  assert (Hsz : 4 + 2 < 2 ^ 32) by lia.
  assert (HC : 0 < 2 < 2 ^ 31) by lia.
  assert (H0 : ST_CreateTree 64 64 (aaaa ++ [0]) 4 = Ret aaaa_tree)
    by (vm_compute; reflexivity).
  assert (H : parseBLZ cappedMax_spec 64 (with_COST aaaa_tree (u32 2))
              = Ret (aaaa_2_round_2_tree, 2, aaaa_2_log)) by (vm_compute; reflexivity).
  refine (conj Hlen (conj Hsz (conj HC (conj H0 (conj H _))))).
  exact (parseBLZ_phrase_lines cappedMax_spec 64 64 (aaaa ++ [0]) 4 2
           aaaa_tree aaaa_2_round_2_tree 2 aaaa_2_log Hlen Hsz HC H0 H).
Defined.

(** The cost array a parse leaves holds the cost recurrence of every
    phrase: costs are written once, so each body byte still costs one more
    than its source and each literal costs 0 when [parseBLZ] returns; cell 0
    still holds the initial [n + 1]. *)
Theorem parseBLZ_final_costs (cappedMax : list Z -> Z -> Z -> Z -> Z)
    (fuel mem_ : nat) (str : list Z) (len C : Z)
    (t0 t' : SUFFIX_TREE) (z : Z) (log : list ROUND) :
  0 <= len -> len + 2 < 2 ^ 32 -> 0 < C < 2 ^ 31 ->
  ST_CreateTree fuel mem_ str len = Ret t0 ->
  parseBLZ cappedMax fuel (with_COST t0 (u32 C)) = Ret (t', z, log) ->
  Forall (phrase_costs (costArray t')) log /\
  costArray t' !! 0%nat = Some (len + 1) /\
  segm t' = costArray t'.
Proof.
  intros Hlen Hsz HC H0 H.
  destruct (built_round_ready _ _ _ _ _ _ Hlen Hsz HC H0) as (Hr & _ & _ & _).
  apply ST_CreateTree_ledger in H0 as (_ & _ & HU & _).
  unfold parseBLZ in H.
  destruct (parse_loop_run cappedMax _ _ _ _ _ _ _ _ _ _ Hr H)
    as (new & -> & _ & _ & _ & Hr' & _ & Hcosts & Hpre & _).
  cbn [app costArray with_COST] in *.
  split; [exact Hcosts|]. split.
  - change 0%nat with (Z.to_nat 0). rewrite (Hpre 0) by lia. rewrite HU.
    rewrite lookup_replicate_2 by lia. now rewrite u32_small by lia.
  - destruct Hr' as (_ & _ & _ & _ & _ & Hseg & _). exact Hseg.
Qed.

Lemma parseBLZ_final_costs_witness :
  0 <= 4 /\ 4 + 2 < 2 ^ 32 /\ 0 < 2 < 2 ^ 31 /\
  ST_CreateTree 64 64 (aaaa ++ [0]) 4 = Ret aaaa_tree /\
  parseBLZ cappedMax_spec 64 (with_COST aaaa_tree (u32 2))
    = Ret (aaaa_2_round_2_tree, 2, aaaa_2_log) /\
  costArray aaaa_2_round_2_tree = [5; 0; 1; 1; 1; 0] /\
  Forall (phrase_costs (costArray aaaa_2_round_2_tree)) aaaa_2_log /\
  costArray aaaa_2_round_2_tree !! 0%nat = Some (4 + 1) /\
  segm aaaa_2_round_2_tree = costArray aaaa_2_round_2_tree.
Proof.
  assert (Hlen : 0 <= 4) by lia.
  assert (Hsz : 4 + 2 < 2 ^ 32) by lia.
  assert (HC : 0 < 2 < 2 ^ 31) by lia.
  assert (H0 : ST_CreateTree 64 64 (aaaa ++ [0]) 4 = Ret aaaa_tree)
    by (vm_compute; reflexivity).
  assert (H : parseBLZ cappedMax_spec 64 (with_COST aaaa_tree (u32 2))
              = Ret (aaaa_2_round_2_tree, 2, aaaa_2_log)) by (vm_compute; reflexivity).
  refine (conj Hlen (conj Hsz (conj HC (conj H0 (conj H (conj _ _)))))).
  - vm_compute. reflexivity.
  - exact (parseBLZ_final_costs cappedMax_spec 64 64 (aaaa ++ [0]) 4 2
             aaaa_tree aaaa_2_round_2_tree 2 aaaa_2_log Hlen Hsz HC H0 H).
Defined.

(** Between rounds every annotation names a parsed position: after any
    number of rounds on a built tree, in every node a committed value that
    is set comes with a [textPos] in [1..textPos-1], and an optimistic
    value that is set with an [optimisticTextPos] in [1..textPos-1]. *)
Theorem annotations_name_parsed_positions (cappedMax : list Z -> Z -> Z -> Z -> Z)
    (fuel mem_ : nat) (str : list Z) (len C : Z) (k : nat)
    (t0 t : SUFFIX_TREE) (textPos_ prevC : Z) :
  0 <= len -> len + 2 < 2 ^ 32 -> 0 < C < 2 ^ 31 ->
  ST_CreateTree fuel mem_ str len = Ret t0 ->
  rounds_run cappedMax k fuel (with_COST t0 (u32 C)) 1 0 = Ret (t, textPos_, prevC) ->
  forall p n a, heap t !! p = Some n -> annot n = Some a ->
    (minMax a = UNSET \/ 1 <= textPos a < textPos_) /\
    (optimisticMinMax a = UNSET \/ 1 <= optimisticTextPos a < textPos_).
Proof.
  intros Hlen Hsz HC H0 Hk p n a Hp Ha.
  destruct (built_round_ready _ _ _ _ _ _ Hlen Hsz HC H0) as (Hr & _).
  pose proof (round_ready_rounds_run cappedMax _ _ _ _ _ _ _ _ Hr Hk)
    as (_ & _ & _ & _ & _ & _ & Hsrc).
  destruct (Hsrc p n Hp a Ha) as ((Hc & Ho) & _).
  split; [destruct Hc | destruct Ho]; auto with lia.
Qed.

Lemma annotations_name_parsed_positions_witness :
  0 <= 4 /\ 4 + 2 < 2 ^ 32 /\ 0 < 2 < 2 ^ 31 /\
  ST_CreateTree 64 64 (aaaa ++ [0]) 4 = Ret aaaa_tree /\
  rounds_run cappedMax_spec 1 64 (with_COST aaaa_tree (u32 2)) 1 0
    = Ret (aaaa_2_after_1, 2, 0) /\
  annot <$> heap aaaa_2_after_1 !! 1%nat = Some (Some (mkAnnot 0 1 0 1)) /\
  forall p n a, heap aaaa_2_after_1 !! p = Some n -> annot n = Some a ->
    (minMax a = UNSET \/ 1 <= textPos a < 2) /\
    (optimisticMinMax a = UNSET \/ 1 <= optimisticTextPos a < 2).
Proof.
  assert (Hlen : 0 <= 4) by lia.
  assert (Hsz : 4 + 2 < 2 ^ 32) by lia.
  assert (HC : 0 < 2 < 2 ^ 31) by lia.
  assert (H0 : ST_CreateTree 64 64 (aaaa ++ [0]) 4 = Ret aaaa_tree)
    by (vm_compute; reflexivity).
  assert (Hk : rounds_run cappedMax_spec 1 64 (with_COST aaaa_tree (u32 2)) 1 0
               = Ret (aaaa_2_after_1, 2, 0)) by (vm_compute; reflexivity).
  refine (conj Hlen (conj Hsz (conj HC (conj H0 (conj Hk (conj _ _)))))).
  - vm_compute. reflexivity.
  - exact (annotations_name_parsed_positions cappedMax_spec 64 64 (aaaa ++ [0]) 4 2 1
             aaaa_tree aaaa_2_after_1 2 0 Hlen Hsz HC H0 Hk).
Defined.

(** The tree [ST_CreateTree] builds for "aababab". *)
Definition aababab_tree : SUFFIX_TREE :=
  Eval vm_compute in match build aababab with Ret t => t | _ => no_tree end.

(** ** [maxStrDepth] after the construction *)

Lemma rd_init_Ret {A : Type} (a : list (option A)) (i : Z) (x : A) :
  rd_init a i = Ret x -> 0 <= i /\ a !! Z.to_nat i = Some (Some x).
Proof.
  unfold rd_init. intros H. apply bind_Ret in H as (o & Ho & H).
  apply rd_Ret in Ho as (Hi & Ho). apply deref_Ret in H. subst o. auto.
Qed.

(** The pass over [maxStrDepth] at the end of [ST_CreateTree] replaces each
    cell by the maximum of the cell before it and itself. *)
Lemma monotone_pass_spec cnt : forall a i a',
  1 <= i -> monotone_pass cnt a i = Ret a' ->
  List.length a' = List.length a /\
  (forall j, 0 <= j < i -> a' !! Z.to_nat j = a !! Z.to_nat j) /\
  (forall j, i <= j < i + Z.of_nat cnt ->
     exists x y, a' !! Z.to_nat (j - 1) = Some (Some x) /\
                 a !! Z.to_nat j = Some (Some y) /\
                 a' !! Z.to_nat j = Some (Some (Z.max x y))).
Proof.
  induction cnt as [|cnt IH]; intros a i a' Hi H; cbn [monotone_pass] in H.
  - injection H as <-. split; [reflexivity|]. split; [reflexivity|]. intros j Hj. lia.
  - apply bind_Ret in H as (x & Hx & H). apply rd_init_Ret in Hx as (_ & Hx).
    apply bind_Ret in H as (y & Hy & H). apply rd_init_Ret in Hy as (_ & Hy).
    apply bind_Ret in H as (a1 & H1 & H).
    assert (F : List.length a1 = List.length a /\
                (forall j, 0 <= j < i -> a1 !! Z.to_nat j = a !! Z.to_nat j) /\
                a1 !! Z.to_nat i = Some (Some (Z.max x y)) /\
                (forall j, i < j -> a1 !! Z.to_nat j = a !! Z.to_nat j)).
    { destruct (bool_decide_reflect (x > y)) as [Hgt|Hle].
      - apply wr_Ret in H1 as (Hr & ->). rewrite length_insert.
        split; [reflexivity|]. split; [|split].
        + intros j Hj. apply list_lookup_insert_ne. lia.
        + rewrite list_lookup_insert_eq by lia. do 2 f_equal. lia.
        + intros j Hj. apply list_lookup_insert_ne. lia.
      - injection H1 as <-. split; [reflexivity|]. split; [auto|]. split; [|auto].
        rewrite Hy. do 2 f_equal. lia. }
    destruct F as (Hlen1 & Hpre1 & Hat1 & Hpost1).
    assert (Hi1 : 1 <= i + 1) by lia.
    destruct (IH _ _ _ Hi1 H) as (Hlen & Hpre & Hbody).
    split; [congruence|]. split.
    + intros j Hj. rewrite Hpre by lia. apply Hpre1. exact Hj.
    + intros j Hj. destruct (decide (j = i)) as [->|Hne].
      * exists x, y. rewrite !Hpre by lia. rewrite Hpre1 by lia.
        replace (i - 1) with (i - 1) by lia. auto.
      * destruct (Hbody j) as (x' & y' & Hx' & Hy' & Hm); [lia|].
        exists x', y'. rewrite Hpost1 in Hy' by lia. auto.
Qed.

(** After [ST_CreateTree], [maxStrDepth] is written and nondecreasing over
    the positions [1..n+1] of the text: the [break] of
    [propagateAnnotation] at the first position whose value is below
    [textPos] leaves out only positions whose value is below it too. *)
Theorem ST_CreateTree_maxStrDepth_monotone (fuel mem_ : nat) (str : list Z) (len : Z)
    (t : SUFFIX_TREE) :
  ST_CreateTree fuel mem_ str len = Ret t ->
  forall i j, 1 <= i -> i < j -> j <= length t ->
    exists x y, maxStrDepth t !! Z.to_nat i = Some (Some x) /\
                maxStrDepth t !! Z.to_nat j = Some (Some y) /\ x <= y.
Proof.
  intros H. apply ST_CreateTree_steps in H
    as (t0 & t5 & t6 & nn & msd & _ & _ & _ & _ & Hm & ->).
  cbn [maxStrDepth length with_D with_maxStrDepth].
  apply monotone_pass_spec in Hm as (_ & _ & Hbody); [|lia].
  assert (Hstep : forall j, 2 <= j <= length t6 ->
            exists x y, msd !! Z.to_nat (j - 1) = Some (Some x) /\
                        msd !! Z.to_nat j = Some (Some y) /\ x <= y).
  { intros j Hj. destruct (Hbody j) as (x & y & Hx & _ & Hy); [lia|].
    exists x, (Z.max x y). auto with lia. }
  intros i j Hi Hij Hj.
  assert (Hn : exists n : nat, j = i + 1 + Z.of_nat n) by (exists (Z.to_nat (j - i - 1)); lia).
  destruct Hn as (n & ->). clear Hij.
  induction n as [|n IHn].
  - rewrite Z.add_0_r in *.
    destruct (Hstep (i + 1)) as (x & y & Hx & Hy & Hxy); [lia|].
    replace (i + 1 - 1) with i in Hx by lia. exists x, y. auto.
  - destruct IHn as (x & y & Hx & Hy & Hxy); [lia|].
    destruct (Hstep (i + 1 + Z.of_nat (S n))) as (y' & z & Hy' & Hz & Hyz); [lia|].
    replace (i + 1 + Z.of_nat (S n) - 1) with (i + 1 + Z.of_nat n) in Hy' by lia.
    exists x, z. split; [exact Hx|]. split; [exact Hz|].
    rewrite Hy in Hy'. injection Hy' as <-. lia.
Qed.

Lemma ST_CreateTree_maxStrDepth_monotone_witness :
  ST_CreateTree 64 64 (aababab ++ [0]) 7 = Ret aababab_tree /\
  maxStrDepth aababab_tree
    = [None; Some 1; Some 5; Some 5; Some 7; Some 7; Some 7; Some 7; Some 7] /\
  forall i j, 1 <= i -> i < j -> j <= length aababab_tree ->
    exists x y, maxStrDepth aababab_tree !! Z.to_nat i = Some (Some x) /\
                maxStrDepth aababab_tree !! Z.to_nat j = Some (Some y) /\ x <= y.
Proof.
  assert (H : ST_CreateTree 64 64 (aababab ++ [0]) 7 = Ret aababab_tree)
    by (vm_compute; reflexivity).
  refine (conj H (conj _ _)).
  - vm_compute. reflexivity.
  - exact (ST_CreateTree_maxStrDepth_monotone 64 64 (aababab ++ [0]) 7 aababab_tree H).
Defined.

(** ** The leaf pointers after the construction *)

(** Every cell of [inversePointers] that is set points to a node of the
    arena that carries an annotation. *)
Definition present (t : SUFFIX_TREE) : Prop :=
  forall i p, inversePointers t !! i = Some (Some p) ->
    exists n a, heap t !! p = Some n /\ annot n = Some a.

Lemma present_store t p x n0 :
  present t -> heap t !! p = Some n0 ->
  (forall a, annot n0 = Some a -> exists a', annot x = Some a') ->
  present (store t p x).
Proof.
  intros Hpr Hp Hx i q Hc.
  change (inversePointers (store t p x)) with (inversePointers t) in Hc.
  destruct (Hpr _ _ Hc) as (n & a & Hn & Ha).
  destruct (decide (q = p)) as [->|Hne].
  - rewrite Hp in Hn. injection Hn as <-. destruct (Hx _ Ha) as (a' & Ha').
    exists x, a'. split; [eapply lookup_store_eq, Hp | exact Ha'].
  - exists n, a. split; [rewrite lookup_store_ne by congruence; exact Hn | exact Ha].
Qed.

Lemma present_dfs fuel :
  (forall t node depth t' k,
     present t -> dfsForInversePointers fuel t node depth = Ret (t', k) -> present t') /\
  (forall t c depth num t' k,
     present t -> dfs_children fuel t c depth num = Ret (t', k) -> present t').
Proof.
  induction fuel as [|fuel [IH1 IH2]]; split.
  - intros; discriminate.
  - intros t [c|] depth num t' k Hr H; simpl in H; [discriminate | now simplify_eq].
  - intros t node depth t' k Hr H. cbn [dfsForInversePointers] in H.
    apply bind_Ret in H as (n & Hn & H). apply node_at_Ret in Hn.
    assert (Hr1 : present (store t node (set_strDepth n depth))).
    { apply (present_store _ _ _ n Hr Hn). intros a Ha. exists a. exact Ha. }
    assert (Hn1 : heap (store t node (set_strDepth n depth)) !! node
                  = Some (set_strDepth n depth)) by (eapply lookup_store_eq, Hn).
    destruct (sons n) as [first|] eqn:Hsons.
    + rewrite (node_at_lookup _ _ _ Hn1) in H. cbn [mbind outcome_bind] in H.
      eapply IH2; [|exact H].
      apply (present_store _ _ _ _ Hr1 Hn1). intros a _. eexists. reflexivity.
    + apply bind_Ret in H as (ip & Hip & H). apply wr_Ret in Hip as (Hpp & ->).
      cbn [inversePointers store with_heap] in Hpp.
      inv_ret H.
      match goal with
      | E : node_at _ node = Ret _ |- _ =>
        rewrite (node_at_lookup _ _ _ Hn1) in E; injection E as <-
      end.
      subst t'. intros i0 q Hc.
      cbn [inversePointers store with_heap with_maxStrDepth with_inversePointers] in Hc.
      cbn [heap store with_heap with_maxStrDepth with_inversePointers].
      assert (Hlt : (node < List.length (heap t))%nat) by now apply lookup_lt_Some in Hn.
      destruct (decide (q = node)) as [->|Hne].
      * eexists _, _. split.
        { apply list_lookup_insert_eq. now rewrite length_insert. }
        reflexivity.
      * rewrite !list_lookup_insert_ne by congruence.
        destruct (decide (i0 = Z.to_nat (path_position n))) as [->|Hi].
        -- rewrite list_lookup_insert_eq in Hc by lia. congruence.
        -- rewrite list_lookup_insert_ne in Hc by congruence.
           exact (Hr _ _ Hc).
  - intros t [c|] depth num t' k Hr H; cbn [dfs_children] in H; [|now simplify_eq].
    inv_ret H. eapply IH2; [|exact H]. eapply IH1; [exact Hr | exact E0].
Qed.

(** After [ST_CreateTree] every cell [i] of [inversePointers] that has been
    written points to a leaf of the tree whose suffix starts at [i]: a
    node without sons, of path position [i], annotated with both values
    unset and both positions [i]. *)
Theorem ST_CreateTree_leaf_pointers (fuel mem_ : nat) (str : list Z) (len : Z)
    (t : SUFFIX_TREE) :
  ST_CreateTree fuel mem_ str len = Ret t ->
  forall (i : nat) (p : nat), inversePointers t !! i = Some (Some p) ->
    exists n, heap t !! p = Some n /\ sons n = None /\
              path_position n = Z.of_nat i /\
              annot n = Some (mkAnnot UNSET (u32 (Z.of_nat i)) UNSET (u32 (Z.of_nat i))).
Proof.
  intros H i p Hc.
  pose proof (fresh_ST_CreateTree _ _ _ _ _ H) as Hf.
  pose proof (registered_ST_CreateTree _ _ _ _ _ H) as Hr.
  assert (Hpr : present t).
  { apply ST_CreateTree_steps in H
      as (t0 & t5 & t6 & nn & msd & _ & Ht0 & H5 & H6 & _ & ->).
    apply tables_phases in H5.
    apply (proj1 (present_dfs fuel)) in H6; [exact H6|].
    intros i0 q Hq. exfalso.
    assert (Hip : inversePointers t5 = replicate (Z.to_nat (len + 2)) None).
    { rewrite Ht0 in H5. unfold tables in H5. congruence. }
    rewrite Hip in Hq. apply lookup_replicate in Hq as [Hq _]. discriminate. }
  destruct (Hpr _ _ Hc) as (n & a & Hn & Ha).
  destruct (Hr _ _ _ Hc Hn) as (Hs & Hpp & Hpos).
  destruct (Hpos _ Ha) as (Htp & Hotp).
  pose proof (Forall_lookup_1 _ _ _ _ Hf Hn) as Hu.
  destruct (Hu _ Ha) as (Hm & Ho).
  exists n. split; [exact Hn|]. split; [exact Hs|]. split; [exact Hpp|].
  rewrite Ha. destruct a; simpl in *. congruence.
Qed.

Lemma ST_CreateTree_leaf_pointers_witness :
  ST_CreateTree 64 64 (aaaa ++ [0]) 4 = Ret aaaa_tree /\
  inversePointers aaaa_tree !! 2%nat = Some (Some 3%nat) /\
  exists n, heap aaaa_tree !! 3%nat = Some n /\ sons n = None /\
            path_position n = Z.of_nat 2 /\
            annot n = Some (mkAnnot UNSET (u32 (Z.of_nat 2)) UNSET (u32 (Z.of_nat 2))).
Proof.
  assert (H : ST_CreateTree 64 64 (aaaa ++ [0]) 4 = Ret aaaa_tree)
    by (vm_compute; reflexivity).
  assert (Hc : inversePointers aaaa_tree !! 2%nat = Some (Some 3%nat))
    by (vm_compute; reflexivity).
  refine (conj H (conj Hc _)).
  exact (ST_CreateTree_leaf_pointers 64 64 (aaaa ++ [0]) 4 aaaa_tree H 2%nat 3%nat Hc).
Defined.

(** ** The end of the leaves *)

Lemma e_create_node t f s e_ p t' q :
  create_node t f s e_ p = Ret (t', q) -> e t' = e t.
Proof. unfold create_node. intros H. destruct (avail t); now simplify_eq. Qed.

Lemma e_connect_siblings t l r t' :
  connect_siblings t l r = Ret t' -> e t' = e t.
Proof. unfold connect_siblings. intros H. inv_all; reflexivity. Qed.

Lemma e_create_suffix_link t node link t' :
  create_suffix_link t node link = Ret t' -> e t' = e t.
Proof. unfold create_suffix_link. intros H. inv_all; reflexivity. Qed.

Ltac e_fwd :=
  repeat match goal with
  | E : create_node _ _ _ _ _ = Ret _ |- _ => apply e_create_node in E
  | E : connect_siblings _ _ _ = Ret _ |- _ => apply e_connect_siblings in E
  | E : create_suffix_link _ _ _ = Ret _ |- _ => apply e_create_suffix_link in E
  end.

Ltac e_solve :=
  cbn [e store with_heap with_suffixless] in *;
  repeat (match goal with
          | H : context [e (if ?b then _ else _)] |- _ => destruct b
          | |- context [e (if ?b then _ else _)] => destruct b
          end; cbn [e store with_heap with_suffixless] in *);
  congruence.

Lemma e_apply_extension_rule_2 fuel t node b e_ pp ep type t' q :
  apply_extension_rule_2 fuel t node b e_ pp ep type = Ret (t', q) -> e t' = e t.
Proof.
  unfold apply_extension_rule_2. intros H. inv_all; e_fwd; e_solve.
Qed.

Lemma e_SEA fuel t pos str after t' pos' r :
  SEA fuel t pos str after = Ret (t', pos', r) -> e t' = e t.
Proof.
  unfold SEA. intros H. inv_all; e_fwd;
    repeat match goal with
    | E : apply_extension_rule_2 _ _ _ _ _ _ _ _ = Ret _ |- _ =>
      apply e_apply_extension_rule_2 in E
    end; e_solve.
Qed.

Lemma e_SPA_loop fuel fuel0 t pos phase ext rep rule t' pos' ext' rep' :
  SPA_loop fuel fuel0 t pos phase ext rep rule = Ret (t', pos', ext', rep') ->
  e t' = e t.
Proof.
  revert t pos ext rep rule.
  induction fuel as [|fuel IH]; intros t pos ext rep rule H; cbn [SPA_loop] in H.
  - destruct (bool_decide _); [discriminate | now injection H as <- _ _ _].
  - destruct (bool_decide _); [| now injection H as <- _ _ _].
    inv_ret H. apply e_SEA in E.
    destruct (bool_decide _); [now injection H as <- _ _ _|]. apply IH in H. congruence.
Qed.

Lemma e_phases cnt fuel : forall t pos phase ext rep t',
  phases (S cnt) fuel t pos phase ext rep = Ret t' ->
  0 <= phase -> phase + Z.of_nat cnt + 1 < 2 ^ 64 ->
  e t' = Some (phase + Z.of_nat cnt + 1).
Proof.
  induction cnt as [|cnt IH]; intros t pos phase ext rep t' H Hp Hlt.
  - cbn [phases] in H. apply bind_Ret in H as ([[[t1 pos1] ext1] rep1] & H1 & H).
    injection H as <-. unfold SPA in H1. apply e_SPA_loop in H1.
    rewrite H1. cbn [e with_e]. unfold dw. rewrite Z.mod_small by lia. f_equal. lia.
  - remember (S cnt) as c. cbn [phases] in H. subst c.
    apply bind_Ret in H as ([[[t1 pos1] ext1] rep1] & _ & H).
    apply IH in H.
    + rewrite H. unfold dw. rewrite Z.mod_small by lia. f_equal. lia.
    + unfold dw. apply Z.mod_pos_bound. lia.
    + unfold dw. rewrite Z.mod_small by lia. lia.
Qed.

Lemma e_dfs fuel :
  (forall t node depth t' k,
     dfsForInversePointers fuel t node depth = Ret (t', k) -> e t' = e t) /\
  (forall t c depth num t' k,
     dfs_children fuel t c depth num = Ret (t', k) -> e t' = e t).
Proof.
  induction fuel as [|fuel [IH1 IH2]]; split.
  - intros; discriminate.
  - intros t [c|] depth num t' k H; simpl in H; [discriminate | now simplify_eq].
  - intros t node depth t' k H. cbn [dfsForInversePointers] in H.
    apply bind_Ret in H as (n & Hn & H).
    destruct (sons n) as [first|].
    + inv_ret H. apply IH2 in H. exact H.
    + inv_ret H. simplify_eq. reflexivity.
  - intros t [c|] depth num t' k H; cbn [dfs_children] in H; [|now simplify_eq].
    inv_ret H. apply IH2 in H. apply IH1 in E0. congruence.
Qed.

(** After [ST_CreateTree] on a text of at least two bytes the virtual end
    [e] of all leaves is [n + 1], the position of the terminator, so
    [get_node_label_end] answers [n + 1] for every node without sons. *)
Theorem ST_CreateTree_leaf_end (fuel mem_ : nat) (str : list Z) (len : Z)
    (t : SUFFIX_TREE) :
  2 <= len -> len + 2 < 2 ^ 32 ->
  ST_CreateTree fuel mem_ str len = Ret t ->
  e t = Some (len + 1) /\
  forall p n, heap t !! p = Some n -> sons n = None ->
    get_node_label_end t p = Ret (len + 1).
Proof.
  intros Hlen Hsz H.
  assert (He : e t = Some (len + 1)).
  { apply ST_CreateTree_steps in H
      as (t0 & t5 & t6 & nn & msd & _ & Ht0 & H5 & H6 & _ & ->).
    apply (proj1 (e_dfs fuel)) in H6. cbn [e with_D with_maxStrDepth]. rewrite H6.
    assert (Hl : length t0 = len + 1).
    { unfold tables in Ht0. injection Ht0 as _ _ _ _ _ Hl _ _.
      rewrite Hl. unfold dw. apply Z.mod_small. lia. }
    rewrite Hl in H5.
    replace (Z.to_nat (len + 1 - 2)) with (S (Z.to_nat (len - 2))) in H5 by lia.
    apply e_phases in H5; [|lia|lia]. rewrite H5. f_equal. lia. }
  split; [exact He|].
  intros p n Hp Hs. unfold get_node_label_end.
  rewrite (node_at_lookup _ _ _ Hp). cbn [mbind outcome_bind]. rewrite Hs, He.
  reflexivity.
Qed.

Lemma ST_CreateTree_leaf_end_witness :
  2 <= 4 /\ 4 + 2 < 2 ^ 32 /\
  ST_CreateTree 64 64 (aaaa ++ [0]) 4 = Ret aaaa_tree /\
  e aaaa_tree = Some (4 + 1) /\
  forall p n, heap aaaa_tree !! p = Some n -> sons n = None ->
    get_node_label_end aaaa_tree p = Ret (4 + 1).
Proof.
  assert (Hlen : 2 <= 4) by lia.
  assert (Hsz : 4 + 2 < 2 ^ 32) by lia.
  assert (H : ST_CreateTree 64 64 (aaaa ++ [0]) 4 = Ret aaaa_tree)
    by (vm_compute; reflexivity).
  refine (conj Hlen (conj Hsz (conj H _))).
  exact (ST_CreateTree_leaf_end 64 64 (aaaa ++ [0]) 4 aaaa_tree Hlen Hsz H).
Defined.

(** The tree [ST_CreateTree] builds for "aabab". *)
Definition aabab_tree : SUFFIX_TREE :=
  Eval vm_compute in match build aabab with Ret t => t | _ => no_tree end.

(** Its root. *)
Definition aabab_root : NODE :=
  Eval vm_compute in
    match heap aabab_tree !! 0%nat with
    | Some n => n
    | None => mkNode None None None None None 0 0 0 None None
    end.

(** The root of "aabab" with cost bound 2 after two rounds. *)
Definition aabab_2_after_2_root : NODE :=
  Eval vm_compute in
    match heap aabab_2_after_2 !! 0%nat with
    | Some n => n
    | None => mkNode None None None None None 0 0 0 None None
    end.

(** ** The arrays after the construction *)

(** [ST_CreateTree] returns the tree with [length = n + 1], the text it was
    given, a cost array and a segment tree of [n + 2] cells that all hold
    [n + 1], and [D] of [n + 2] cells that all hold -1: the suffix-tree
    phases and the depth-first pass write none of them. *)
Theorem ST_CreateTree_initial_arrays (fuel mem_ : nat) (str : list Z) (len : Z)
    (t : SUFFIX_TREE) :
  0 <= len -> len + 2 < 2 ^ 32 ->
  ST_CreateTree fuel mem_ str len = Ret t ->
  length t = len + 1 /\ tree_string t = str /\
  costArray t = replicate (Z.to_nat (len + 2)) (len + 1) /\
  segm t = costArray t /\
  D t = replicate (Z.to_nat (len + 2)) (-1).
Proof.
  intros Hlen Hsz H.
  apply ST_CreateTree_ledger in H as (Hl & Hs & HU & HS & HD).
  unfold dw in *. rewrite Z.mod_small in * by lia.
  rewrite (u32_small (len + 1)) in * by lia.
  rewrite Hl, Hs, HU, HS, HD. repeat split. f_equal. lia.
Qed.

Lemma ST_CreateTree_initial_arrays_witness :
  0 <= 4 /\ 4 + 2 < 2 ^ 32 /\
  ST_CreateTree 64 64 (aaaa ++ [0]) 4 = Ret aaaa_tree /\
  length aaaa_tree = 4 + 1 /\ tree_string aaaa_tree = aaaa ++ [0] /\
  costArray aaaa_tree = replicate (Z.to_nat (4 + 2)) (4 + 1) /\
  segm aaaa_tree = costArray aaaa_tree /\
  D aaaa_tree = replicate (Z.to_nat (4 + 2)) (-1).
Proof.
  assert (Hlen : 0 <= 4) by lia.
  assert (Hsz : 4 + 2 < 2 ^ 32) by lia.
  assert (H : ST_CreateTree 64 64 (aaaa ++ [0]) 4 = Ret aaaa_tree)
    by (vm_compute; reflexivity).
  refine (conj Hlen (conj Hsz (conj H _))).
  exact (ST_CreateTree_initial_arrays 64 64 (aaaa ++ [0]) 4 aaaa_tree Hlen Hsz H).
Defined.

(** ** Walking the sons of a node *)

(** [walk t o l o']: following [right_sibling] from the pointer [o] passes
    the nodes [l], in that order, and arrives at the pointer [o']. *)
Inductive walk (t : SUFFIX_TREE) : option nat -> list nat -> option nat -> Prop :=
  | walk_here o : walk t o [] o
  | walk_next p n l o' :
      heap t !! p = Some n -> walk t (right_sibling n) l o' ->
      walk t (Some p) (p :: l) o'.

(** The first byte of the edge into node [p] is [c]. *)
Definition edge_begins (t : SUFFIX_TREE) (p : nat) (c : Z) : Prop :=
  exists n, heap t !! p = Some n /\ char_at t (edge_label_start n) = Ret c.

Lemma find_son_loop_walk fuel t c : forall o r,
  find_son_loop fuel t o c = Ret r ->
  exists l, walk t o l r /\
            Forall (fun q => exists c', edge_begins t q c' /\ c' <> c) l /\
            forall p, r = Some p -> edge_begins t p c.
Proof.
  induction fuel as [|fuel IH]; intros [p|] r H; cbn [find_son_loop] in H;
    try discriminate.
  - injection H as <-. exists []. split; [constructor|]. split; [constructor|].
    intros p [=].
  - apply bind_Ret in H as (n & Hn & H). apply node_at_Ret in Hn.
    apply bind_Ret in H as (c' & Hc' & H).
    destruct (bool_decide_reflect (c' = c)) as [->|Hne].
    + injection H as <-. exists []. split; [constructor|]. split; [constructor|].
      intros q [= <-]. exists n. auto.
    + destruct (IH _ _ H) as (l & Hw & Hall & Hr).
      exists (p :: l). split; [econstructor; eassumption|]. split; [|exact Hr].
      constructor; [|exact Hall]. exists c'. split; [exists n; auto | exact Hne].
  - injection H as <-. exists []. split; [constructor|]. split; [constructor|].
    intros p [=].
Qed.

Lemma walk_find_son_loop t c : forall l o r fuel,
  walk t o l r ->
  Forall (fun q => exists c', edge_begins t q c' /\ c' <> c) l ->
  (r = None \/ exists p, r = Some p /\ edge_begins t p c) ->
  (List.length l < fuel)%nat ->
  find_son_loop fuel t o c = Ret r.
Proof.
  induction l as [|q l IH]; intros o r fuel Hw Hall Hr Hf.
  - inversion Hw; subst. destruct Hr as [-> | (p & -> & n & Hn & Hc)].
    + destruct fuel; reflexivity.
    + destruct fuel as [|fuel]; [simpl in Hf; lia|]. cbn [find_son_loop].
      rewrite (node_at_lookup _ _ _ Hn). cbn [mbind outcome_bind]. rewrite Hc.
      cbn [mbind outcome_bind]. now rewrite bool_decide_true.
  - inversion Hw as [|p n l' o' Hn Hw']; subst.
    apply Forall_cons in Hall as ((c' & (n' & Hn' & Hc') & Hne) & Hall).
    rewrite Hn in Hn'. injection Hn' as <-.
    destruct fuel as [|fuel]; [simpl in Hf; lia|]. cbn [find_son_loop].
    rewrite (node_at_lookup _ _ _ Hn). cbn [mbind outcome_bind]. rewrite Hc'.
    cbn [mbind outcome_bind]. rewrite bool_decide_false by exact Hne.
    apply IH; [exact Hw' | exact Hall | exact Hr | simpl in Hf; lia].
Qed.

(** [find_son(tree, node, c)] answers the first node, in the order of the
    right-sibling links from [node->sons], whose edge begins with [c]: all
    the nodes passed before it begin with another byte; it answers NULL
    when the links end without such a node.  Conversely, with fuel for
    the nodes passed it returns that answer. *)
Theorem find_son_first_match (fuel : nat) (t : SUFFIX_TREE) (node : nat) (c : Z)
    (n : NODE) :
  heap t !! node = Some n ->
  (forall r, find_son fuel t node c = Ret r ->
     exists l, walk t (sons n) l r /\
               Forall (fun q => exists c', edge_begins t q c' /\ c' <> c) l /\
               forall p, r = Some p -> edge_begins t p c) /\
  (forall l r, walk t (sons n) l r ->
     Forall (fun q => exists c', edge_begins t q c' /\ c' <> c) l ->
     (r = None \/ exists p, r = Some p /\ edge_begins t p c) ->
     (List.length l < fuel)%nat ->
     find_son fuel t node c = Ret r).
Proof.
  intros Hn. unfold find_son. rewrite (node_at_lookup _ _ _ Hn).
  cbn [mbind outcome_bind]. split.
  - intros r H. exact (find_son_loop_walk _ _ _ _ _ H).
  - intros l r Hw Hall Hr Hf. exact (walk_find_son_loop _ _ _ _ _ _ Hw Hall Hr Hf).
Qed.

Lemma find_son_first_match_witness :
  let n := aabab_root in
  heap aabab_tree !! 0%nat = Some n /\
  find_son 64 aabab_tree 0 98 = Ret (Some 7%nat) /\
  (forall r, find_son 64 aabab_tree 0 98 = Ret r ->
     exists l, walk aabab_tree (sons n) l r /\
               Forall (fun q => exists c', edge_begins aabab_tree q c' /\ c' <> 98) l /\
               forall p, r = Some p -> edge_begins aabab_tree p 98) /\
  (forall l r, walk aabab_tree (sons n) l r ->
     Forall (fun q => exists c', edge_begins aabab_tree q c' /\ c' <> 98) l ->
     (r = None \/ exists p, r = Some p /\ edge_begins aabab_tree p 98) ->
     (List.length l < 64)%nat ->
     find_son 64 aabab_tree 0 98 = Ret r).
Proof.
  intros n.
  assert (Hn : heap aabab_tree !! 0%nat = Some n) by (vm_compute; reflexivity).
  refine (conj Hn (conj _ _)); [vm_compute; reflexivity|].
  exact (find_son_first_match 64 aabab_tree 0 98 n Hn).
Defined.

(** ** The son with the least optimistic value *)

(** Node [p] is annotated with optimistic value [v]. *)
Definition optimistic_at (t : SUFFIX_TREE) (p : nat) (v : Z) : Prop :=
  exists n a, heap t !! p = Some n /\ annot n = Some a /\ optimisticMinMax a = v.

Lemma optimistic_at_inj t p v w : optimistic_at t p v -> optimistic_at t p w -> v = w.
Proof. intros (n & a & Hn & Ha & <-) (n' & a' & Hn' & Ha' & <-). congruence. Qed.

Lemma getMinMaxOfChildren_loop_least fuel t : forall res cur r,
  getMinMaxOfChildren_loop fuel t res cur = Ret r ->
  exists l, walk t cur l None /\ (r = res \/ r ∈ l) /\
    (forall v, optimistic_at t res v -> exists vr, optimistic_at t r vr /\ vr <= v) /\
    (forall q, q ∈ l -> exists vq vr,
       optimistic_at t q vq /\ optimistic_at t r vr /\ vr <= vq).
Proof.
  induction fuel as [|fuel IH]; intros res [c|] r H; cbn [getMinMaxOfChildren_loop] in H;
    try discriminate.
  - injection H as <-. exists []. split; [constructor|]. split; [now left|].
    split; [intros v Hv; exists v; auto with lia|]. intros q Hq. inversion Hq.
  - apply bind_Ret in H as (rn & Hrn & H). apply node_at_Ret in Hrn.
    apply bind_Ret in H as (ra & Hra & H). apply deref_Ret in Hra.
    apply bind_Ret in H as (cn & Hcn & H). apply node_at_Ret in Hcn.
    apply bind_Ret in H as (ca & Hca & H). apply deref_Ret in Hca.
    apply bind_Ret in H as (better & Hb & H).
    assert (Hres : optimistic_at t res (optimisticMinMax ra)) by (exists rn, ra; auto).
    assert (Hc : optimistic_at t c (optimisticMinMax ca)) by (exists cn, ca; auto).
    set (res' := if better then c else res) in *.
    assert (Hnew : exists v', optimistic_at t res' v' /\
                     v' <= optimisticMinMax ra /\ v' <= optimisticMinMax ca).
    { subst res'. destruct (bool_decide_reflect (optimisticMinMax ra > optimisticMinMax ca)).
      - injection Hb as <-. exists (optimisticMinMax ca). auto with lia.
      - destruct (bool_decide_reflect (optimisticMinMax ra = optimisticMinMax ca)).
        + apply bind_Ret in Hb as (dr & _ & Hb). apply bind_Ret in Hb as (dc & _ & Hb).
          injection Hb as <-. destruct (bool_decide _).
          * exists (optimisticMinMax ca). auto with lia.
          * exists (optimisticMinMax ra). auto with lia.
        + injection Hb as <-. exists (optimisticMinMax ra). auto with lia. }
    destruct Hnew as (v' & Hv' & Hle1 & Hle2).
    destruct (IH _ _ _ H) as (l & Hw & Hin & Hr & Hall).
    destruct (Hr _ Hv') as (vr & Hvr & Hle).
    exists (c :: l). split; [econstructor; eassumption|]. split; [|split].
    + destruct Hin as [-> | Hin]; [|right; now apply elem_of_cons; right].
      subst res'. destruct better; [right; now apply elem_of_cons; left | now left].
    + intros v Hv. rewrite (optimistic_at_inj _ _ _ _ Hv Hres). exists vr. auto with lia.
    + intros q Hq. apply elem_of_cons in Hq as [-> | Hq]; [|exact (Hall _ Hq)].
      exists (optimisticMinMax ca), vr. auto with lia.
  - injection H as <-. exists []. split; [constructor|]. split; [now left|].
    split; [intros v Hv; exists v; auto with lia|]. intros q Hq. inversion Hq.
Qed.

(** [getMinMaxOfChildren(node)] answers NULL exactly when [node] has no
    sons; otherwise it answers one of the sons, reached by the
    right-sibling links from [node->sons], whose [optimisticMinMax] is
    least among all of them (as unsigned numbers, so a son whose value is
    unset is answered only when every son's is). *)
Theorem getMinMaxOfChildren_least (fuel : nat) (t : SUFFIX_TREE) (node : nat)
    (n : NODE) (o : option nat) :
  heap t !! node = Some n ->
  getMinMaxOfChildren fuel t node = Ret o ->
  (o = None <-> sons n = None) /\
  forall r, o = Some r ->
    exists l, walk t (sons n) l None /\ r ∈ l /\
      forall q, q ∈ l -> exists vq vr,
        optimistic_at t q vq /\ optimistic_at t r vr /\ vr <= vq.
Proof.
  intros Hn H. unfold getMinMaxOfChildren in H.
  rewrite (node_at_lookup _ _ _ Hn) in H. cbn [mbind outcome_bind] in H.
  destruct (sons n) as [s|] eqn:Hs.
  - apply bind_Ret in H as (r & Hr & H). injection H as <-.
    split; [split; discriminate|]. intros r' [= <-].
    destruct (getMinMaxOfChildren_loop_least _ _ _ _ _ Hr) as (l & Hw & Hin & _ & Hall).
    exists l. split; [exact Hw|]. split; [|exact Hall].
    destruct Hin as [-> | Hin]; [|exact Hin].
    inversion Hw; subst. now apply elem_of_cons; left.
  - injection H as <-. split; [tauto|]. intros r [=].
Qed.

Lemma getMinMaxOfChildren_least_witness :
  let t := aabab_2_after_2 in
  let n := aabab_2_after_2_root in
  heap t !! 0%nat = Some n /\
  getMinMaxOfChildren 64 t 0 = Ret (Some 2%nat) /\
  (Some 2%nat = None <-> sons n = None) /\
  forall r, Some 2%nat = Some r ->
    exists l, walk t (sons n) l None /\ r ∈ l /\
      forall q, q ∈ l -> exists vq vr,
        optimistic_at t q vq /\ optimistic_at t r vr /\ vr <= vq.
Proof.
  intros t n.
  assert (Hn : heap t !! 0%nat = Some n) by (vm_compute; reflexivity).
  assert (H : getMinMaxOfChildren 64 t 0 = Ret (Some 2%nat)) by (vm_compute; reflexivity).
  refine (conj Hn (conj H _)).
  exact (getMinMaxOfChildren_least 64 t 0 n (Some 2%nat) Hn H).
Defined.

(** ** The distances to the next position of cost C *)

(** What the parser keeps of [D] and [positionOfPreviousC] while the
    positions below [hi] are parsed: [prevC] is the last position whose
    cost is [C] (0 when there is none), and for every position [q] up to
    it [D[q]] is the distance from [q] to the first position at or after
    [q] whose cost is [C]. *)
Definition D_ok (U D_ : list Z) (C prevC hi : Z) : Prop :=
  0 <= prevC < hi /\
  (forall q, prevC < q < hi -> exists u, U !! Z.to_nat q = Some u /\ u < C) /\
  (forall q, 1 <= q <= prevC ->
     exists d, D_ !! Z.to_nat q = Some d /\ 0 <= d /\ q + d <= prevC /\
               U !! Z.to_nat (q + d) = Some C /\
               forall p, q <= p < q + d -> exists u, U !! Z.to_nat p = Some u /\ u < C).

Lemma fill_D_spec cnt : forall d cur d' x0,
  0 <= cur - Z.of_nat cnt ->
  d !! Z.to_nat (cur + 1) = Some x0 ->
  fill_D cnt d cur = Ret d' ->
  (forall q, cur - Z.of_nat cnt < q <= cur ->
     d' !! Z.to_nat q = Some (x0 + (cur + 1 - q))) /\
  (forall q, 0 <= q -> ~ (cur - Z.of_nat cnt < q <= cur) ->
     d' !! Z.to_nat q = d !! Z.to_nat q).
Proof.
  induction cnt as [|cnt IH]; intros d cur d' x0 Hlo Hx H; cbn [fill_D] in H.
  - injection H as <-. split; [intros q Hq; lia | auto].
  - apply bind_Ret in H as (x & Hrd & H). apply rd_Ret in Hrd as (_ & Hrd).
    rewrite Hx in Hrd. injection Hrd as <-.
    apply bind_Ret in H as (d1 & Hd1 & H). apply wr_Ret in Hd1 as (Hr & ->).
    assert (Hx1 : <[Z.to_nat cur := x0 + 1]> d !! Z.to_nat (cur - 1 + 1) = Some (x0 + 1)).
    { replace (cur - 1 + 1) with cur by lia. apply list_lookup_insert_eq. lia. }
    assert (Hlo1 : 0 <= cur - 1 - Z.of_nat cnt) by lia.
    destruct (IH _ _ _ _ Hlo1 Hx1 H) as (Hin & Hout).
    split.
    + intros q Hq. destruct (decide (q = cur)) as [->|Hne].
      * rewrite Hout by lia. rewrite list_lookup_insert_eq by lia. f_equal. lia.
      * rewrite Hin by lia. f_equal. lia.
    + intros q Hq0 Hq. rewrite Hout by lia. apply list_lookup_insert_ne. lia.
Qed.

Lemma cost_step_D_ok t textPos_ pos i k prevC t' k' prevC' :
  1 <= textPos_ -> 0 <= i ->
  Z.of_nat (List.length (costArray t)) < 2 ^ 32 ->
  textPos_ + i <= Z.of_nat (List.length (costArray t)) ->
  D_ok (costArray t) (D t) (COST t) prevC (textPos_ + i) ->
  cost_step t textPos_ pos i k prevC = Ret (t', k', prevC') ->
  D_ok (costArray t') (D t') (COST t) prevC' (textPos_ + i + 1).
Proof.
  intros Htp Hi Hsz Hle (Hpc & Hlow & Hd) H.
  assert (Hu32 : u32 (textPos_ + i) = textPos_ + i) by (apply u32_small; lia).
  unfold cost_step in H. rewrite !Hu32 in H.
  apply bind_Ret in H as (x & _ & H).
  apply bind_Ret in H as (U' & HU' & H). apply wr_Ret in HU' as (Hq & ->).
  set (w := textPos_ + i) in *. set (v := u32 (x + 1)) in *.
  apply bind_Ret in H as ([t2 pc2] & H2 & H).
  destruct (bool_decide_reflect (v > COST t)) as [|Hv]; [discriminate|].
  injection H as <- _ <-. cbn [costArray D with_segm].
  assert (Hold : forall p, 0 <= p -> p <> w ->
            <[Z.to_nat w := v]> (costArray t) !! Z.to_nat p = costArray t !! Z.to_nat p).
  { intros p Hp Hne. apply list_lookup_insert_ne. lia. }
  assert (Hnew : <[Z.to_nat w := v]> (costArray t) !! Z.to_nat w = Some v)
    by (apply list_lookup_insert_eq; lia).
  destruct (bool_decide_reflect (v = COST t)) as [Hc|Hc].
  - apply bind_Ret in H2 as (d0 & Hd0 & H2). apply wr_Ret in Hd0 as (Hq0 & ->).
    apply bind_Ret in H2 as (d1 & Hd1 & H2). injection H2 as <- <-.
    cbn [costArray D with_D with_costArray] in *.
    assert (Hx0 : <[Z.to_nat w := 0]> (D t) !! Z.to_nat (w - 1 + 1) = Some 0).
    { replace (w - 1 + 1) with w by lia. apply list_lookup_insert_eq. lia. }
    apply (fill_D_spec _ _ _ _ 0) in Hd1 as (Hin & Hout); [|lia|exact Hx0].
    rewrite Z2Nat.id in Hin, Hout by lia.
    split; [lia|]. split; [intros q Hq'; lia|].
    intros q Hq'. destruct (Z_le_gt_dec q prevC) as [Hq1|Hq1].
    + destruct (Hd q) as (d & HDq & Hd0' & Hqd & HUq & Hbelow); [lia|].
      exists d. rewrite Hout by lia. rewrite list_lookup_insert_ne by lia.
      split; [exact HDq|]. split; [exact Hd0'|]. split; [lia|].
      rewrite Hold by lia. split; [exact HUq|].
      intros p Hp. rewrite Hold by lia. apply Hbelow. exact Hp.
    + destruct (decide (q = w)) as [->|Hne].
      * exists 0. rewrite Hout by lia. rewrite list_lookup_insert_eq by lia.
        split; [reflexivity|]. split; [lia|]. split; [lia|].
        rewrite Z.add_0_r, Hnew. split; [now rewrite Hc|]. intros p Hp. lia.
      * exists (w - q). rewrite Hin by lia.
        split; [f_equal; lia|]. split; [lia|]. split; [lia|].
        replace (q + (w - q)) with w by lia. rewrite Hnew.
        split; [now rewrite Hc|].
        intros p Hp. rewrite Hold by lia. apply Hlow. lia.
  - injection H2 as <- <-. cbn [costArray D with_costArray].
    split; [lia|]. split.
    + intros q Hq'. destruct (decide (q = w)) as [->|Hne].
      * exists v. split; [exact Hnew | lia].
      * rewrite Hold by lia. apply Hlow. lia.
    + intros q Hq'. destruct (Hd q Hq') as (d & HDq & Hd0' & Hqd & HUq & Hbelow).
      exists d. split; [exact HDq|]. split; [exact Hd0'|]. split; [exact Hqd|].
      rewrite Hold by lia. split; [exact HUq|].
      intros p Hp. rewrite Hold by lia. apply Hbelow. exact Hp.
Qed.

Lemma cost_loop_D_ok cnt textPos_ pos : forall t i k prevC t' prevC',
  1 <= textPos_ -> 0 <= i ->
  Z.of_nat (List.length (costArray t)) < 2 ^ 32 ->
  textPos_ + i <= Z.of_nat (List.length (costArray t)) ->
  D_ok (costArray t) (D t) (COST t) prevC (textPos_ + i) ->
  cost_loop cnt t textPos_ pos i k prevC = Ret (t', prevC') ->
  D_ok (costArray t') (D t') (COST t) prevC' (textPos_ + i + Z.of_nat cnt).
Proof.
  induction cnt as [|cnt IH]; intros t i k prevC t' prevC' Htp Hi Hsz Hle Hd H;
    cbn [cost_loop] in H.
  - injection H as <- <-. now rewrite Z.add_0_r.
  - apply bind_Ret in H as ([[t1 k1] pc1] & H1 & H).
    pose proof (cost_step_D_ok _ _ _ _ _ _ _ _ _ Htp Hi Hsz Hle Hd H1) as Hd1.
    pose proof (static_cost_step _ _ _ _ _ _ _ _ _ H1) as Hst.
    apply static_fields in Hst as (_ & _ & HC1 & _).
    apply cost_step_writes in H1 as (Hlt & v & HU1); [|lia].
    rewrite (u32_small (i + 1)) in H by lia.
    assert (Hi1 : 0 <= i + 1) by lia.
    assert (Hsz1 : Z.of_nat (List.length (costArray t1)) < 2 ^ 32)
      by (rewrite HU1, length_insert; exact Hsz).
    assert (Hle1 : textPos_ + (i + 1) <= Z.of_nat (List.length (costArray t1)))
      by (rewrite HU1, length_insert; lia).
    replace (textPos_ + i + 1) with (textPos_ + (i + 1)) in Hd1 by lia.
    rewrite <- HC1 in Hd1.
    pose proof (IH _ _ _ _ _ _ Htp Hi1 Hsz1 Hle1 Hd1 H) as Hd'.
    rewrite HC1 in Hd'.
    replace (textPos_ + i + Z.of_nat (S cnt)) with (textPos_ + (i + 1) + Z.of_nat cnt) by lia.
    exact Hd'.
Qed.

Section Distances.

Variable cappedMax : list Z -> Z -> Z -> Z -> Z.

Lemma parse_round_D_ok fuel t textPos_ prevC t' textPos' prevC' r :
  round_ready t textPos_ -> 0 < COST t ->
  D_ok (costArray t) (D t) (COST t) prevC textPos_ ->
  parse_round cappedMax fuel t textPos_ prevC = Ret (t', textPos', prevC', r) ->
  D_ok (costArray t') (D t') (COST t') prevC' textPos'.
Proof.
  intros Hr HC0 Hd H. pose proof Hr as (Htp & HC & Hsz & Hle & Hb & _).
  destruct (parse_round_bounded cappedMax _ _ _ _ _ _ _ _ Htp (proj1 HC) Hsz Hle Hb H)
    as (_ & _ & HC' & Htp' & HL & Hle').
  unfold parse_round in H.
  apply bind_Ret in H as (m & Hm & H).
  apply bind_Ret in H as ([t1 pc1] & H1 & H).
  apply bind_Ret in H as (U2 & HU2 & H).
  apply bind_Ret in H as (t3 & H3 & H).
  apply bind_Ret in H as (lit & _ & H).
  injection H as <- <- <- <-. cbn [found] in *.
  set (L := match_length m) in *.
  assert (Hle0 : textPos_ + 0 <= Z.of_nat (List.length (costArray t))) by lia.
  rewrite <- (Z.add_0_r textPos_) in Hd.
  pose proof (cost_loop_D_ok _ _ _ _ _ _ _ _ _ Htp (Z.le_refl 0) Hsz Hle0 Hd H1) as Hd1.
  rewrite Z.add_0_r, Z2Nat.id in Hd1 by lia.
  apply wr_Ret in HU2 as (Hq & ->).
  assert (Hu : u32 (textPos_ + L) = textPos_ + L).
  { apply u32_small. rewrite Htp' in Hle'. lia. }
  rewrite Hu in *.
  apply erase_propagateAnnotation, erase_fields in H3.
  destruct H3 as (_ & _ & _ & _ & _ & HU3 & _ & HD3 & _).
  cbn [costArray D with_segm with_costArray] in HU3, HD3.
  rewrite HU3, HD3, HC', Htp'.
  destruct Hd1 as (Hpc & Hlow & Hdist).
  set (w := textPos_ + L) in *.
  assert (Hold : forall p, 0 <= p -> p <> w ->
            <[Z.to_nat w := 0]> (costArray t1) !! Z.to_nat p = costArray t1 !! Z.to_nat p).
  { intros p Hp Hne. apply list_lookup_insert_ne. lia. }
  split; [lia|]. split.
  - intros q Hq'. destruct (decide (q = w)) as [->|Hne].
    + exists 0. split; [apply list_lookup_insert_eq; lia | exact HC0].
    + rewrite Hold by lia. apply Hlow. lia.
  - intros q Hq'. destruct (Hdist q Hq') as (d & HDq & Hd0' & Hqd & HUq & Hbelow).
    exists d. split; [exact HDq|]. split; [exact Hd0'|]. split; [exact Hqd|].
    rewrite Hold by lia. split; [exact HUq|].
    intros p Hp. rewrite Hold by lia. apply Hbelow. exact Hp.
Qed.

Lemma rounds_run_D_ok k fuel : forall t textPos_ prevC t' textPos' prevC',
  round_ready t textPos_ -> 0 < COST t ->
  D_ok (costArray t) (D t) (COST t) prevC textPos_ ->
  rounds_run cappedMax k fuel t textPos_ prevC = Ret (t', textPos', prevC') ->
  COST t' = COST t /\ D_ok (costArray t') (D t') (COST t') prevC' textPos'.
Proof.
  induction k as [|k IH]; intros t textPos_ prevC t' textPos' prevC' Hr HC Hd H;
    cbn [rounds_run] in H.
  - injection H as <- <- <-. auto.
  - apply bind_Ret in H as ([[[t1 tp1] pc1] r] & H1 & H).
    pose proof (parse_round_D_ok _ _ _ _ _ _ _ _ Hr HC Hd H1) as Hd1.
    destruct (parse_round_costs cappedMax _ _ _ _ _ _ _ _ Hr H1) as (Hr1 & _).
    pose proof (static_parse_round cappedMax _ _ _ _ _ _ _ _ H1) as Hst.
    apply static_fields in Hst as (_ & _ & HC1 & _).
    destruct (IH _ _ _ _ _ _ Hr1 ltac:(rewrite HC1; exact HC) Hd1 H) as (HC' & Hd').
    split; [congruence | exact Hd'].
Qed.

End Distances.

(** Between rounds [positionOfPreviousC] is the last parsed position of
    cost [C] (0 when there is none yet), and for every position [q] up
    to it [D[q]] is the distance to the next position of cost [C]:
    [U[q + D[q]] = C] and every position from [q] up to there costs less
    than [C].  The parsed positions after it cost less than [C]. *)
Theorem rounds_run_distances (cappedMax : list Z -> Z -> Z -> Z -> Z)
    (fuel mem_ : nat) (str : list Z) (len C : Z) (k : nat)
    (t0 t : SUFFIX_TREE) (textPos_ prevC : Z) :
  0 <= len -> len + 2 < 2 ^ 32 -> 0 < C < 2 ^ 31 ->
  ST_CreateTree fuel mem_ str len = Ret t0 ->
  rounds_run cappedMax k fuel (with_COST t0 (u32 C)) 1 0 = Ret (t, textPos_, prevC) ->
  0 <= prevC < textPos_ /\
  (forall q, prevC < q < textPos_ ->
     exists u, costArray t !! Z.to_nat q = Some u /\ u < C) /\
  (forall q, 1 <= q <= prevC ->
     exists d, D t !! Z.to_nat q = Some d /\ 0 <= d /\ q + d <= prevC /\
               costArray t !! Z.to_nat (q + d) = Some C /\
               forall p, q <= p < q + d ->
                 exists u, costArray t !! Z.to_nat p = Some u /\ u < C).
Proof.
  intros Hlen Hsz HC H0 Hk.
  destruct (built_round_ready _ _ _ _ _ _ Hlen Hsz HC H0) as (Hr & _).
  assert (HC0 : 0 < COST (with_COST t0 (u32 C))) by (cbn; rewrite u32_small; lia).
  assert (Hd0 : D_ok (costArray (with_COST t0 (u32 C))) (D (with_COST t0 (u32 C)))
                  (COST (with_COST t0 (u32 C))) 0 1).
  { split; [lia|]. split; intros q Hq; lia. }
  destruct (rounds_run_D_ok cappedMax _ _ _ _ _ _ _ _ Hr HC0 Hd0 Hk) as (HC' & Hd).
  rewrite HC' in Hd. cbn [COST with_COST] in Hd. rewrite u32_small in Hd by lia.
  exact Hd.
Qed.

Lemma rounds_run_distances_witness :
  0 <= 7 /\ 7 + 2 < 2 ^ 32 /\ 0 < 1 < 2 ^ 31 /\
  ST_CreateTree 64 64 (aababab ++ [0]) 7 = Ret aababab_tree /\
  rounds_run cappedMax_at 3 64 (with_COST aababab_tree (u32 1)) 1 0
    = Ret (aababab_1_after_3, 6, 4) /\
  costArray aababab_1_after_3 = [8; 0; 1; 0; 1; 0; 8; 8; 8] /\
  D aababab_1_after_3 = [-1; 1; 0; 1; 0; -1; -1; -1; -1] /\
  0 <= 4 < 6 /\
  (forall q, 4 < q < 6 ->
     exists u, costArray aababab_1_after_3 !! Z.to_nat q = Some u /\ u < 1) /\
  (forall q, 1 <= q <= 4 ->
     exists d, D aababab_1_after_3 !! Z.to_nat q = Some d /\ 0 <= d /\ q + d <= 4 /\
               costArray aababab_1_after_3 !! Z.to_nat (q + d) = Some 1 /\
               forall p, q <= p < q + d ->
                 exists u, costArray aababab_1_after_3 !! Z.to_nat p = Some u /\ u < 1).
Proof.
  assert (Hlen : 0 <= 7) by lia.
  assert (Hsz : 7 + 2 < 2 ^ 32) by lia.
  assert (HC : 0 < 1 < 2 ^ 31) by lia.
  assert (H0 : ST_CreateTree 64 64 (aababab ++ [0]) 7 = Ret aababab_tree)
    by (vm_compute; reflexivity).
  assert (Hk : rounds_run cappedMax_at 3 64 (with_COST aababab_tree (u32 1)) 1 0
               = Ret (aababab_1_after_3, 6, 4)) by (vm_compute; reflexivity).
  refine (conj Hlen (conj Hsz (conj HC (conj H0 (conj Hk (conj _ (conj _ _))))))).
  - vm_compute. reflexivity.
  - vm_compute. reflexivity.
  - exact (rounds_run_distances cappedMax_at 64 64 (aababab ++ [0]) 7 1 3
             aababab_tree aababab_1_after_3 6 4 Hlen Hsz HC H0 Hk).
Defined.

(** ** The source of a self-overlapping phrase *)

Lemma source_offset_mod (src textPos_ : Z) (i : nat) :
  src < textPos_ -> source_offset src textPos_ i = Z.of_nat i mod (textPos_ - src).
Proof.
  intros Hs. unfold source_offset. induction i as [|i IH].
  - simpl. now rewrite Z.mod_0_l by lia.
  - cbn [Nat.iter nat_rect]. fold (Nat.iter i (next_offset src textPos_) 0). rewrite IH.
    unfold next_offset.
    pose proof (Z.mod_pos_bound (Z.of_nat i) (textPos_ - src) ltac:(lia)) as Hb.
    replace (Z.of_nat (S i)) with (Z.of_nat i + 1) by lia.
    rewrite <- (Zplus_mod_idemp_l (Z.of_nat i)).
    destruct (bool_decide_reflect
                (src + (Z.of_nat i mod (textPos_ - src) + 1) = textPos_)) as [He|Hne].
    + replace (Z.of_nat i mod (textPos_ - src) + 1) with (textPos_ - src) by lia.
      now rewrite Z.mod_same by lia.
    + symmetry. apply Z.mod_small. lia.
Qed.

(** A phrase copies its costs periodically: in a round on a built tree
    that emits a phrase of length [L > 0] with source [src], the source
    lies before [textPos] and the cost at [textPos + i] is one more than
    the cost at [src + i mod (textPos - src)], for every [i] below [L]:
    a phrase that runs into itself repeats the [textPos - src] bytes
    from [src] on. *)
Theorem parse_round_periodic_source (cappedMax : list Z -> Z -> Z -> Z -> Z)
    (fuel mem_ : nat) (str : list Z) (len C : Z) (k : nat)
    (t0 t t' : SUFFIX_TREE) (textPos_ prevC textPos' prevC' : Z) (r : ROUND) :
  0 <= len -> len + 2 < 2 ^ 32 -> 0 < C < 2 ^ 31 ->
  ST_CreateTree fuel mem_ str len = Ret t0 ->
  rounds_run cappedMax k fuel (with_COST t0 (u32 C)) 1 0 = Ret (t, textPos_, prevC) ->
  parse_round cappedMax fuel t textPos_ prevC = Ret (t', textPos', prevC', r) ->
  let L := match_length (found r) in
  let src := match_pos (found r) in
  forall i, 0 <= i < L ->
    1 <= src < textPos_ /\
    exists u, costArray t' !! Z.to_nat (src + i mod (textPos_ - src)) = Some u /\
              costArray t' !! Z.to_nat (textPos_ + i) = Some (u + 1).
Proof.
  intros Hlen Hsz HC H0 Hk H L src i Hi.
  destruct (built_round_ready _ _ _ _ _ _ Hlen Hsz HC H0) as (Hr & _).
  pose proof (round_ready_rounds_run cappedMax _ _ _ _ _ _ _ _ Hr Hk) as Hr'.
  destruct (parse_round_facts cappedMax _ _ _ _ _ _ _ _ Hr' H)
    as (Hat & _ & _ & (Hsrc & _) & _).
  destruct (parse_round_costs cappedMax _ _ _ _ _ _ _ _ Hr' H) as (_ & Hbody & _).
  rewrite Hat in Hsrc. fold L src in Hsrc, Hbody.
  assert (Hs : 1 <= src < textPos_).
  { destruct Hsrc as [Hm | Hs]; [|exact Hs]. subst L. rewrite Hm in Hi. simpl in Hi. lia. }
  split; [exact Hs|].
  destruct (Hbody (Z.to_nat i)) as (_ & u & _ & Hu & Hw); [lia|].
  rewrite source_offset_mod, Z2Nat.id in Hu by lia.
  rewrite Z2Nat.id in Hw by lia. exists u. auto.
Qed.

Lemma parse_round_periodic_source_witness :
  0 <= 4 /\ 4 + 2 < 2 ^ 32 /\ 0 < 2 < 2 ^ 31 /\
  ST_CreateTree 64 64 (aaaa ++ [0]) 4 = Ret aaaa_tree /\
  rounds_run cappedMax_spec 1 64 (with_COST aaaa_tree (u32 2)) 1 0
    = Ret (aaaa_2_after_1, 2, 0) /\
  parse_round cappedMax_spec 64 aaaa_2_after_1 2 0
    = Ret (aaaa_2_round_2_tree, 6, 0, aaaa_2_round_2) /\
  found aaaa_2_round_2 = mkMatch 3 1 /\
  forall i, 0 <= i < match_length (found aaaa_2_round_2) ->
    1 <= match_pos (found aaaa_2_round_2) < 2 /\
    exists u,
      costArray aaaa_2_round_2_tree
        !! Z.to_nat (match_pos (found aaaa_2_round_2)
                     + i mod (2 - match_pos (found aaaa_2_round_2))) = Some u /\
      costArray aaaa_2_round_2_tree !! Z.to_nat (2 + i) = Some (u + 1).
Proof.
  assert (Hlen : 0 <= 4) by lia.
  assert (Hsz : 4 + 2 < 2 ^ 32) by lia.
  assert (HC : 0 < 2 < 2 ^ 31) by lia.
  assert (H0 : ST_CreateTree 64 64 (aaaa ++ [0]) 4 = Ret aaaa_tree)
    by (vm_compute; reflexivity).
  assert (Hk : rounds_run cappedMax_spec 1 64 (with_COST aaaa_tree (u32 2)) 1 0
               = Ret (aaaa_2_after_1, 2, 0)) by (vm_compute; reflexivity).
  assert (H : parse_round cappedMax_spec 64 aaaa_2_after_1 2 0
              = Ret (aaaa_2_round_2_tree, 6, 0, aaaa_2_round_2))
    by (vm_compute; reflexivity).
  refine (conj Hlen (conj Hsz (conj HC (conj H0 (conj Hk (conj H (conj _ _))))))).
  - vm_compute. reflexivity.
  - exact (parse_round_periodic_source cappedMax_spec 64 64 (aaaa ++ [0]) 4 2 1
             aaaa_tree aaaa_2_after_1 aaaa_2_round_2_tree 2 0 6 0 aaaa_2_round_2
             Hlen Hsz HC H0 Hk H).
Defined.

(** ** Texts of no byte and of one byte *)

(** On the empty text [ST_CreateTree] builds the root and the one leaf of
    the terminator without running a phase, and [parseBLZ] prints the
    single phrase (-1, 0, 0) and returns 1, whatever the cost bound and
    [cappedMax] are. *)
Theorem empty_text_parse (cappedMax : list Z -> Z -> Z -> Z -> Z) (C : Z)
    (fuel mem_ : nat) :
  exists t0 t' log,
    ST_CreateTree (S (S (S fuel))) (S (S (S mem_))) [0] 0 = Ret t0 /\
    parseBLZ cappedMax (S (S (S fuel))) (with_COST t0 C) = Ret (t', 1, log) /\
    printed <$> log = [(-1, 0, 0)] /\
    costArray t' = [1; 0].
Proof.
  eexists _, _, _. split; [lazy; reflexivity|]. split; [lazy; reflexivity|].
  split; reflexivity.
Qed.

(** The "abab" tree after [changeAnnotationFromLeaf(1, 1, 0, 0, 0)] in its
    first round. *)
Definition abab_2_leaf_1_annotated : SUFFIX_TREE :=
  Eval vm_compute in
    match changeAnnotationFromLeaf cappedMax_spec 64 abab_2_literal_written 1 1 0 0 0 with
    | Ret t => t
    | _ => no_tree
    end.

(** ** Where [changeAnnotationFromLeaf] writes *)

(** [above t p q]: [q] is [p] or is reached from [p] by [father] links. *)
Inductive above (t : SUFFIX_TREE) : nat -> nat -> Prop :=
  | above_here p : above t p p
  | above_up p n f q :
      heap t !! p = Some n -> father n = Some f -> above t f q -> above t p q.

(** Two arenas with the same nodes but for their annotations. *)
Definition same_skeleton (t t' : SUFFIX_TREE) : Prop :=
  skeleton <$> heap t' = skeleton <$> heap t.

Lemma same_skeleton_lookup t t' p n :
  same_skeleton t t' -> heap t !! p = Some n ->
  exists n', heap t' !! p = Some n' /\ skeleton n' = skeleton n.
Proof.
  intros Hs Hn. apply (f_equal (fun l => l !! p)) in Hs.
  rewrite !list_lookup_fmap, Hn in Hs. simpl in Hs.
  destruct (heap t' !! p) as [n'|]; [|discriminate].
  exists n'. split; [reflexivity|]. simpl in Hs. congruence.
Qed.

Lemma above_same_skeleton t t' p q :
  same_skeleton t t' -> above t' p q -> above t p q.
Proof.
  intros Hs Ha. induction Ha as [p | p n f q Hn Hf _ IH]; [constructor|].
  assert (Hs' : same_skeleton t' t) by (unfold same_skeleton in *; congruence).
  destruct (same_skeleton_lookup _ _ _ _ Hs' Hn) as (n0 & Hn0 & Hsk).
  apply (above_up _ p n0 f q); [exact Hn0 | | exact IH].
  apply (f_equal father) in Hsk. simpl in Hsk. congruence.
Qed.

Lemma same_skeleton_store_annot t p n a :
  heap t !! p = Some n -> same_skeleton t (store t p (set_annot n a)).
Proof.
  intros Hn. unfold same_skeleton, store. simpl.
  rewrite list_fmap_insert. apply list_insert_id.
  rewrite list_lookup_fmap, Hn. reflexivity.
Qed.

Section Locality.

Variable cappedMax : list Z -> Z -> Z -> Z -> Z.

Lemma annotate_ancestor_writes fuel t textPos_ finalPos mm p t' :
  annotate_ancestor cappedMax fuel t textPos_ finalPos mm p = Ret t' ->
  same_skeleton t t' /\ forall q, q <> p -> heap t' !! q = heap t !! q.
Proof.
  intros H. split.
  - apply erase_annotate_ancestor in H. apply erase_fields in H.
    unfold same_skeleton. tauto.
  - unfold annotate_ancestor in H. inv_ret H. subst t'. intros q Hq.
    rewrite !lookup_store_ne by congruence. reflexivity.
Qed.

Lemma ancestors_loop_writes fuel fuel0 textPos_ finalPos len mm : forall t parent t',
  ancestors_loop cappedMax fuel fuel0 t textPos_ finalPos len mm parent = Ret t' ->
  forall q, heap t' !! q <> heap t !! q ->
    exists p n d, parent = Some p /\ above t p q /\
                  heap t !! q = Some n /\ strDepth n = Some d /\ s32 d > len.
Proof.
  induction fuel as [|fuel IH]; intros t [p|] t' H q Hq; cbn [ancestors_loop] in H;
    try (injection H as <-; congruence).
  - apply bind_Ret in H as (pn & Hpn & H). apply bind_Ret in H as (d & Hd & H).
    destruct (bool_decide (s32 d > len)); [discriminate | injection H as <-; congruence].
  - apply bind_Ret in H as (pn & Hpn & H). apply node_at_Ret in Hpn.
    apply bind_Ret in H as (d & Hd & H). apply deref_Ret in Hd.
    destruct (bool_decide_reflect (s32 d > len)) as [Hdeep|];
      [|injection H as <-; congruence].
    apply bind_Ret in H as (t1 & H1 & H).
    apply annotate_ancestor_writes in H1 as (Hsk & Hother).
    apply bind_Ret in H as (pn' & Hpn' & H). apply node_at_Ret in Hpn'.
    destruct (same_skeleton_lookup _ _ _ _ Hsk Hpn) as (pn1 & Hpn1 & Hskp).
    rewrite Hpn' in Hpn1. injection Hpn1 as <-.
    assert (Hf : father pn' = father pn)
      by (apply (f_equal father) in Hskp; exact Hskp).
    exists p. destruct (decide (q = p)) as [->|Hne].
    + exists pn, d. split; [reflexivity|]. split; [constructor|]. auto.
    + assert (Hch : heap t' !! q <> heap t1 !! q)
        by (rewrite Hother by exact Hne; exact Hq).
      destruct (IH _ _ _ H q Hch) as (f & n & d' & Hfp & Hab & Hn & Hdn & Hdeep').
      rewrite Hother in Hn by exact Hne.
      exists n, d'. split; [reflexivity|]. split; [|auto].
      apply (above_up _ p pn f q); [exact Hpn | congruence |].
      exact (above_same_skeleton _ _ _ _ Hsk Hab).
Qed.

End Locality.

(** [changeAnnotationFromLeaf(textPos, .., len, ..)] changes nodes only on
    the way up from the leaf of [textPos]: a node that differs afterwards
    is that leaf, or is reached from the leaf's father by [father] links
    and has [(int)strDepth > len]. *)
Theorem changeAnnotationFromLeaf_writes_upward (cappedMax : list Z -> Z -> Z -> Z -> Z)
    (fuel : nat) (t t' : SUFFIX_TREE) (textPos_ finalPos len minMaxOfRange distToC : Z) :
  changeAnnotationFromLeaf cappedMax fuel t textPos_ finalPos len minMaxOfRange distToC
    = Ret t' ->
  exists leaf ln,
    inversePointers t !! Z.to_nat textPos_ = Some (Some leaf) /\
    heap t !! leaf = Some ln /\
    forall q, heap t' !! q <> heap t !! q ->
      q = leaf \/
      exists f n d, father ln = Some f /\ above t f q /\
                    heap t !! q = Some n /\ strDepth n = Some d /\ s32 d > len.
Proof.
  intros H. unfold changeAnnotationFromLeaf in H.
  apply bind_Ret in H as (leaf & Hleaf & H). apply rd_init_Ret in Hleaf as (_ & Hleaf).
  apply bind_Ret in H as (ln & Hln & H). apply node_at_Ret in Hln.
  apply bind_Ret in H as (la & Hla & H).
  exists leaf, ln. split; [exact Hleaf|]. split; [exact Hln|].
  intros q Hq. destruct (decide (q = leaf)) as [->|Hne]; [now left|right].
  pose proof (same_skeleton_store_annot t leaf ln (annotate_leaf minMaxOfRange la) Hln)
    as Hsk.
  destruct (ancestors_loop_writes cappedMax _ _ _ _ _ _ _ _ _ H q)
    as (f & n & d & Hf & Hab & Hn & Hd & Hdeep).
  - rewrite lookup_store_ne by congruence. exact Hq.
  - rewrite lookup_store_ne in Hn by congruence.
    exists f, n, d. split; [exact Hf|]. split; [|auto].
    exact (above_same_skeleton _ _ _ _ Hsk Hab).
Qed.

Lemma changeAnnotationFromLeaf_writes_upward_witness :
  let t := abab_2_literal_written in
  let t' := abab_2_leaf_1_annotated in
  changeAnnotationFromLeaf cappedMax_spec 64 t 1 1 0 0 0 = Ret t' /\
  heap t' !! 1%nat <> heap t !! 1%nat /\
  exists leaf ln,
    inversePointers t !! Z.to_nat 1 = Some (Some leaf) /\
    heap t !! leaf = Some ln /\
    forall q, heap t' !! q <> heap t !! q ->
      q = leaf \/
      exists f n d, father ln = Some f /\ above t f q /\
                    heap t !! q = Some n /\ strDepth n = Some d /\ s32 d > 0.
Proof.
  intros t t'.
  assert (H : changeAnnotationFromLeaf cappedMax_spec 64 t 1 1 0 0 0 = Ret t')
    by (vm_compute; reflexivity).
  refine (conj H (conj _ _)).
  - vm_compute. discriminate.
  - exact (changeAnnotationFromLeaf_writes_upward cappedMax_spec 64 t t' 1 1 0 0 0 H).
Defined.

(** ** The self test *)

(** The inner loop of [ST_SelfTest], [for(j = ..; j<=k; j++)], over [cnt]
    values of [j]; [true] when no search failed. *)
Fixpoint ST_SelfTest_suffixes (cnt fuel : nat) (t : SUFFIX_TREE) (k j : Z)
    : outcome bool :=
  match cnt with
  | O => Ret true
  | S cnt' =>
    m ← ST_FindSubstring fuel t (drop (Z.to_nat (j - 1)) (tree_string t)) (dw (k - j + 1));
    if bool_decide (match_length m = 0) then Ret false
    else ST_SelfTest_suffixes cnt' fuel t k (dw (j + 1))
  end.

(** The outer loop, [for(k = ..; k<tree->length; k++)], over [cnt] values
    of [k]. *)
Fixpoint ST_SelfTest_prefixes (cnt fuel : nat) (t : SUFFIX_TREE) (k : Z) : outcome Z :=
  match cnt with
  | O => Ret 1
  | S cnt' =>
    ok ← ST_SelfTest_suffixes (Z.to_nat k) fuel t k 1;
    if ok : bool then ST_SelfTest_prefixes cnt' fuel t (dw (k + 1)) else Ret 0
  end.

(** [ST_SelfTest]: 1 for success, 0 for failure. *)
Definition ST_SelfTest (fuel : nat) (t : SUFFIX_TREE) : outcome Z :=
  ST_SelfTest_prefixes (Z.to_nat (length t - 1)) fuel t 1.

Lemma ST_FindSubstring_fresh fuel t W P m :
  fresh t -> ST_FindSubstring fuel t W P = Ret m -> m = mkMatch 0 0.
Proof.
  intros Hf H. unfold ST_FindSubstring in H.
  apply bind_Ret in H as (c & _ & H). apply bind_Ret in H as ([p|] & _ & H).
  - destruct fuel as [|fuel]; cbn [ST_FindSubstring_loop] in H; [discriminate|].
    apply bind_Ret in H as (n & Hn & H). apply node_at_Ret in Hn.
    apply bind_Ret in H as (a & Ha & H). apply deref_Ret in Ha.
    pose proof (Forall_lookup_1 _ _ _ _ Hf Hn) as Hu.
    destruct (Hu _ Ha) as (_ & Ho).
    rewrite bool_decide_true in H by exact Ho. now injection H as <-.
  - destruct fuel; cbn [ST_FindSubstring_loop] in H; now injection H as <-.
Qed.

(** On the tree that [ST_CreateTree] returns for a text of at least one
    byte, where no annotation is set yet, [ST_SelfTest] does not return 1:
    its first search, for the first byte of the text, returns the empty
    match, and the test answers 0. *)
Theorem ST_SelfTest_fails_on_built_tree (fuel mem_ fuel' : nat) (str : list Z) (len : Z)
    (t : SUFFIX_TREE) (v : Z) :
  1 <= len -> len + 2 < 2 ^ 32 ->
  ST_CreateTree fuel mem_ str len = Ret t ->
  ST_SelfTest fuel' t = Ret v -> v = 0.
Proof.
  intros Hlen Hsz H Hv.
  pose proof (fresh_ST_CreateTree _ _ _ _ _ H) as Hf.
  apply ST_CreateTree_ledger in H as (Hl & _).
  unfold dw in Hl. rewrite Z.mod_small in Hl by lia.
  unfold ST_SelfTest in Hv. rewrite Hl in Hv.
  replace (Z.to_nat (len + 1 - 1)) with (S (Z.to_nat (len - 1))) in Hv by lia.
  cbn [ST_SelfTest_prefixes] in Hv.
  apply bind_Ret in Hv as (ok & Hok & Hv).
  change (Z.to_nat 1) with 1%nat in Hok. cbn [ST_SelfTest_suffixes] in Hok.
  apply bind_Ret in Hok as (m & Hm & Hok).
  apply (ST_FindSubstring_fresh _ _ _ _ _ Hf) in Hm. subst m.
  rewrite bool_decide_true in Hok by reflexivity. injection Hok as <-.
  now injection Hv as <-.
Qed.

Lemma ST_SelfTest_fails_on_built_tree_witness :
  1 <= 4 /\ 4 + 2 < 2 ^ 32 /\
  ST_CreateTree 64 64 (aaaa ++ [0]) 4 = Ret aaaa_tree /\
  ST_SelfTest 64 aaaa_tree = Ret 0 /\ 0 = 0.
Proof.
  assert (Hlen : 1 <= 4) by lia.
  assert (Hsz : 4 + 2 < 2 ^ 32) by lia.
  assert (H : ST_CreateTree 64 64 (aaaa ++ [0]) 4 = Ret aaaa_tree)
    by (vm_compute; reflexivity).
  assert (Hv : ST_SelfTest 64 aaaa_tree = Ret 0) by (vm_compute; reflexivity).
  refine (conj Hlen (conj Hsz (conj H (conj Hv _)))).
  exact (ST_SelfTest_fails_on_built_tree 64 64 64 (aaaa ++ [0]) 4 aaaa_tree 0
           Hlen Hsz H Hv).
Defined.

(** "aaba" with cost bound 1 and [cappedMax] as the spec words it: the
    tree, and the state after two rounds, where the third round finds its
    source at position 2, which costs 1. *)
Definition aaba : list Z := [97; 97; 98; 97].

Definition aaba_tree : SUFFIX_TREE :=
  Eval vm_compute in match build aaba with Ret t => t | _ => no_tree end.

Definition aaba_1_after_2 : SUFFIX_TREE :=
  Eval vm_compute in
    match rounds_run cappedMax_spec 2 64 (with_COST aaba_tree (u32 1)) 1 0 with
    | Ret (t, _, _) => t
    | _ => no_tree
    end.

(** ** When the parser ends the process *)

Lemma quiet_ST_FindSubstring_loop_sources fuel fuel0 t W P B :
  sources_below t B ->
  forall node j cm, quiet (ST_FindSubstring_loop fuel fuel0 t W P node j cm).
Proof.
  intros Hinv. induction fuel as [|fuel IH]; intros [p|] j cm;
    cbn [ST_FindSubstring_loop]; auto with quiet.
  apply quiet_bind; [auto with quiet|]. intros n Hn. apply node_at_Ret in Hn.
  apply quiet_bind; [auto with quiet|]. intros a Ha. apply deref_Ret in Ha.
  destruct (Hinv _ _ Hn a Ha) as ((_ & Jo) & _).
  destruct (bool_decide_reflect (optimisticMinMax a = UNSET)) as [|Hu];
    [apply quiet_Ret|].
  destruct (bool_decide _); [quiet_tac|].
  apply quiet_bind; [auto with quiet|]. intros nle _.
  apply quiet_bind; [auto with quiet|]. intros [j' k'] _.
  destruct (bool_decide_reflect (optimisticTextPos a = 0)) as [Hz|Hz].
  - exfalso. destruct Jo as [Jo|Jo]; [contradiction | lia].
  - quiet_tac.
Qed.

Lemma cost_step_exit t textPos_ pos i k prevC c :
  1 <= pos -> pos < textPos_ -> 0 <= k -> pos + k < textPos_ -> textPos_ < 2 ^ 32 ->
  0 <= COST t < 2 ^ 32 - 1 ->
  bounded (costArray t) (COST t) 1 textPos_ ->
  cost_step t textPos_ pos i k prevC = Exit c ->
  c = 1 /\ costArray t !! Z.to_nat (pos + k) = Some (COST t).
Proof.
  intros Hpos Hsrc Hk Hlt Htp HC Hb H.
  destruct (Hb (pos + k)) as (u & Hu & Hur); [lia|].
  unfold cost_step in H.
  rewrite (u32_small (pos + k)) in H by lia.
  assert (H0 : 0 <= pos + k) by lia.
  rewrite (rd_lookup _ _ _ H0 Hu) in H. cbn [mbind outcome_bind] in H.
  rewrite (u32_small (u + 1)) in H by lia.
  apply bind_Exit in H as [H | (U' & _ & H)]; [exfalso; exact (quiet_wr _ _ _ _ H)|].
  apply bind_Exit in H as [H | ([t2 pc2] & _ & H)].
  - exfalso. destruct (bool_decide (u + 1 = COST t)); [|discriminate].
    apply bind_Exit in H as [H | (d0 & _ & H)]; [exact (quiet_wr _ _ _ _ H)|].
    apply bind_Exit in H as [H | (d1 & _ & H)]; [exact (quiet_fill_D _ _ _ _ H)|].
    discriminate.
  - destruct (bool_decide_reflect (u + 1 > COST t)) as [Hgt|]; [|discriminate].
    injection H as <-. split; [reflexivity|]. rewrite Hu. f_equal. lia.
Qed.

Lemma cost_loop_exit cnt textPos_ pos :
  1 <= pos -> pos < textPos_ ->
  forall t i k prevC c,
  0 <= k -> pos + k < textPos_ -> 0 <= i ->
  Z.of_nat (List.length (costArray t)) < 2 ^ 32 ->
  textPos_ + i <= Z.of_nat (List.length (costArray t)) ->
  0 <= COST t < 2 ^ 32 - 1 ->
  bounded (costArray t) (COST t) 1 textPos_ ->
  cost_loop cnt t textPos_ pos i k prevC = Exit c ->
  c = 1 /\
  exists j : nat, (j < cnt)%nat /\
    costArray t !! Z.to_nat (pos + Nat.iter j (next_offset pos textPos_) k)
    = Some (COST t).
Proof.
  intros Hpos Hsrc.
  induction cnt as [|cnt IH]; intros t i k prevC c Hk Hlt Hi Hsz Hle HC Hb H;
    cbn [cost_loop] in H; [discriminate|].
  apply bind_Exit in H as [H | ([[t1 k1] pc1] & H1 & H)].
  - apply cost_step_exit in H as (-> & Hu); try assumption; [|lia].
    split; [reflexivity|]. exists 0%nat. split; [lia | exact Hu].
  - pose proof (static_cost_step _ _ _ _ _ _ _ _ _ H1) as Hst.
    apply static_fields in Hst as (_ & _ & HC1 & _).
    pose proof H1 as H1'.
    apply cost_step_writes in H1' as (Hin & v & HU1); [|lia].
    assert (Hk1 : k1 = next_offset pos textPos_ k).
    { unfold cost_step in H1. inv_ret H1.
      destruct (bool_decide _) in H1; [discriminate|].
      rewrite (u32_small (k + 1)), (u32_small (pos + (k + 1))) in H1 by lia.
      injection H1 as _ <- _. reflexivity. }
    subst k1.
    destruct (next_offset_range pos textPos_ k Hsrc Hk Hlt) as (Hk1 & Hlt1).
    rewrite (u32_small (i + 1)) in H by lia.
    assert (Hi' : 0 <= i + 1) by lia.
    assert (Hsz1 : Z.of_nat (List.length (costArray t1)) < 2 ^ 32)
      by (rewrite HU1, length_insert; exact Hsz).
    assert (Hle1 : textPos_ + (i + 1) <= Z.of_nat (List.length (costArray t1)))
      by (rewrite HU1, length_insert; lia).
    assert (HC' : 0 <= COST t1 < 2 ^ 32 - 1) by (rewrite HC1; exact HC).
    assert (Hb1 : bounded (costArray t1) (COST t1) 1 textPos_)
      by (rewrite HU1, HC1; apply bounded_insert_outside; [lia | lia | exact Hb]).
    destruct (IH _ _ _ _ _ Hk1 Hlt1 Hi' Hsz1 Hle1 HC' Hb1 H) as (-> & j & Hj & Hu).
    split; [reflexivity|]. exists (S j). split; [lia|].
    rewrite Nat.iter_succ_r. rewrite HU1, HC1 in Hu.
    rewrite list_lookup_insert_ne in Hu; [exact Hu|].
    assert (Hr : forall n x, 0 <= x -> pos + x < textPos_ ->
               0 <= Nat.iter n (next_offset pos textPos_) x /\
               pos + Nat.iter n (next_offset pos textPos_) x < textPos_).
    { induction n as [|n IHn]; intros x Hx Hxl; [simpl; lia|].
      cbn [Nat.iter nat_rect]. destruct (IHn x Hx Hxl) as (A & B').
      now apply next_offset_range. }
    destruct (Hr j _ Hk1 Hlt1). lia.
Qed.

Lemma rounds_run_static cappedMax k fuel : forall t textPos_ prevC t' textPos' prevC',
  rounds_run cappedMax k fuel t textPos_ prevC = Ret (t', textPos', prevC') ->
  static t' = static t.
Proof.
  induction k as [|k IH]; intros t textPos_ prevC t' textPos' prevC' H;
    cbn [rounds_run] in H.
  - now injection H as <- _ _.
  - apply bind_Ret in H as ([[[t1 tp1] pc1] r] & H1 & H).
    apply static_parse_round in H1. apply IH in H. congruence.
Qed.

(** On a built tree the search never ends the process (it never meets a
    source position 0 on a node it descends through), and a round of
    [parseBLZ] ends it only with status 1 and only from the cost check:
    then the match the round found has a body byte whose source position
    already costs [C]. *)
Theorem parse_round_exit_cause (cappedMax : list Z -> Z -> Z -> Z -> Z)
    (fuel mem_ : nat) (str : list Z) (len C : Z) (k : nat)
    (t0 t : SUFFIX_TREE) (textPos_ prevC : Z) :
  0 <= len -> len + 2 < 2 ^ 32 -> 0 < C < 2 ^ 31 ->
  ST_CreateTree fuel mem_ str len = Ret t0 ->
  rounds_run cappedMax k fuel (with_COST t0 (u32 C)) 1 0 = Ret (t, textPos_, prevC) ->
  (forall fuel' W P c, ST_FindSubstring fuel' t W P <> Exit c) /\
  forall c, parse_round cappedMax fuel t textPos_ prevC = Exit c ->
    c = 1 /\
    exists m (i : nat),
      ST_FindSubstring fuel t (drop (Z.to_nat (textPos_ - 1)) (tree_string t)) (length t)
        = Ret m /\
      Z.of_nat i < match_length m /\ 1 <= match_pos m < textPos_ /\
      costArray t !! Z.to_nat (match_pos m + source_offset (match_pos m) textPos_ i)
        = Some C.
Proof.
  intros Hlen Hsz HC H0 Hk.
  destruct (built_round_ready _ _ _ _ _ _ Hlen Hsz HC H0) as (Hr & _).
  assert (HCt : COST t = C).
  { apply rounds_run_static, static_fields in Hk as (_ & _ & HCt & _).
    rewrite HCt. cbn [COST with_COST]. apply u32_small. lia. }
  pose proof (round_ready_rounds_run cappedMax _ _ _ _ _ _ _ _ Hr Hk)
    as (Htp & HCr & Hsz' & Hle & Hb & Hseg & Hsrc).
  assert (Hq : forall fuel' W P c, ST_FindSubstring fuel' t W P <> Exit c).
  { intros fuel' W P c H. unfold ST_FindSubstring in H.
    apply bind_Exit in H as [H | (b & _ & H)]; [exact (quiet_rd _ _ _ H)|].
    apply bind_Exit in H as [H | (node & _ & H)]; [exact (quiet_find_son _ _ _ _ _ H)|].
    exact (quiet_ST_FindSubstring_loop_sources _ _ _ _ _ _ Hsrc _ _ _ _ H). }
  split; [exact Hq|].
  intros c H. unfold parse_round in H.
  apply bind_Exit in H as [H | (m & Hm & H)]; [exfalso; exact (Hq _ _ _ _ H)|].
  pose proof (ST_FindSubstring_nonneg _ _ _ _ _ Hm) as HL.
  pose proof (ST_FindSubstring_source _ _ _ _ _ _ Hsrc Hm) as Hpos.
  apply bind_Exit in H as [H | ([t1 pc1] & _ & H)].
  - destruct Hpos as [-> | Hpos].
    + cbn [match_length] in H. change (Z.to_nat 0) with 0%nat in H. discriminate.
    + assert (Hle0 : textPos_ + 0 <= Z.of_nat (List.length (costArray t))) by lia.
      assert (Hp1 : 1 <= match_pos m) by lia.
      assert (Hp2 : match_pos m < textPos_) by lia.
      assert (Hp3 : match_pos m + 0 < textPos_) by lia.
      destruct (cost_loop_exit _ _ _ Hp1 Hp2 _ _ _ _ _
                  (Z.le_refl 0) Hp3 (Z.le_refl 0) Hsz' Hle0 HCr Hb H)
        as (-> & j & Hj & Hu).
      split; [reflexivity|]. exists m, j. split; [exact Hm|].
      split; [lia|]. split; [lia|]. rewrite <- HCt. exact Hu.
  - exfalso.
    apply bind_Exit in H as [H | (U2 & _ & H)]; [exact (quiet_wr _ _ _ _ H)|].
    apply bind_Exit in H as [H | (t3 & _ & H)];
      [exact (quiet_propagateAnnotation _ _ _ _ _ _ H)|].
    apply bind_Exit in H as [H | (lit & _ & H)]; [exact (quiet_char_at _ _ _ H)|].
    discriminate.
Qed.

Lemma parse_round_exit_cause_witness :
  let t := aaba_1_after_2 in
  0 <= 4 /\ 4 + 2 < 2 ^ 32 /\ 0 < 1 < 2 ^ 31 /\
  ST_CreateTree 64 64 (aaba ++ [0]) 4 = Ret aaba_tree /\
  rounds_run cappedMax_spec 2 64 (with_COST aaba_tree (u32 1)) 1 0 = Ret (t, 4, 2) /\
  costArray t = [5; 0; 1; 0; 5; 5] /\
  parse_round cappedMax_spec 64 t 4 2 = Exit 1 /\
  (forall fuel' W P c, ST_FindSubstring fuel' t W P <> Exit c) /\
  forall c, parse_round cappedMax_spec 64 t 4 2 = Exit c ->
    c = 1 /\
    exists m (i : nat),
      ST_FindSubstring 64 t (drop (Z.to_nat (4 - 1)) (tree_string t)) (length t) = Ret m /\
      Z.of_nat i < match_length m /\ 1 <= match_pos m < 4 /\
      costArray t !! Z.to_nat (match_pos m + source_offset (match_pos m) 4 i) = Some 1.
Proof.
  intros t.
  assert (Hlen : 0 <= 4) by lia.
  assert (Hsz : 4 + 2 < 2 ^ 32) by lia.
  assert (HC : 0 < 1 < 2 ^ 31) by lia.
  assert (H0 : ST_CreateTree 64 64 (aaba ++ [0]) 4 = Ret aaba_tree)
    by (vm_compute; reflexivity).
  assert (Hk : rounds_run cappedMax_spec 2 64 (with_COST aaba_tree (u32 1)) 1 0
               = Ret (t, 4, 2)) by (vm_compute; reflexivity).
  refine (conj Hlen (conj Hsz (conj HC (conj H0 (conj Hk (conj _ (conj _ _))))))).
  - vm_compute. reflexivity.
  - vm_compute. reflexivity.
  - exact (parse_round_exit_cause cappedMax_spec 64 64 (aaba ++ [0]) 4 1 2
             aaba_tree t 4 2 Hlen Hsz HC H0 Hk).
Defined.

(** ** The links between the nodes *)

(** The pointer that field [P] of node [p] holds in the arena [h]; [None]
    when the field is NULL (or [p] is no node of [h]). *)
Definition link (P : NODE -> option nat) (h : list NODE) (p : nat) : option nat :=
  h !! p ≫= P.

(** The sibling, son and father links agree with each other: the right
    sibling of a node has the node as its left sibling and the node's
    father as its father; the left sibling of a node has it as its right
    sibling; the first son of a node has the node as its father and no
    left sibling; and no node is its own sibling or father. *)
Definition linked (h : list NODE) : Prop :=
  forall p,
    (forall f, link father h p = Some f -> f <> p /\ (f < List.length h)%nat) /\
    (forall q, link right_sibling h p = Some q ->
       q <> p /\ link left_sibling h q = Some p /\ link father h q = link father h p) /\
    (forall q, link left_sibling h p = Some q ->
       q <> p /\ link right_sibling h q = Some p) /\
    (forall q, link sons h p = Some q ->
       link father h q = Some p /\ link left_sibling h q = None).

Lemma link_Some P h p q : link P h p = Some q -> (p < List.length h)%nat.
Proof.
  unfold link. destruct (h !! p) eqn:E; [|discriminate].
  intros _. now apply lookup_lt_Some in E.
Qed.

Lemma link_lookup P h p n : h !! p = Some n -> link P h p = P n.
Proof. unfold link. now intros ->. Qed.

Lemma link_app_l P h k p : (p < List.length h)%nat -> link P (h ++ k) p = link P h p.
Proof. intros Hp. unfold link. now rewrite lookup_app_l. Qed.

Lemma link_app_new P h m : link P (h ++ [m]) (List.length h) = P m.
Proof. unfold link. now rewrite list_lookup_middle. Qed.

Lemma link_app_beyond P h m p :
  (List.length h < p)%nat -> link P (h ++ [m]) p = None.
Proof.
  intros Hp. unfold link. rewrite lookup_ge_None_2; [reflexivity|].
  rewrite length_app. simpl. lia.
Qed.

Lemma link_alter_other P F h p q :
  (forall m, P (F m) = P m) -> link P (alter F p h) q = link P h q.
Proof.
  intros HF. unfold link. rewrite list_lookup_alter. case_decide; [subst|reflexivity].
  destruct (h !! q); simpl; auto.
Qed.

Lemma link_alter_same P F h p q v :
  (p < List.length h)%nat -> (forall m, P (F m) = v) ->
  link P (alter F p h) q = if decide (q = p) then v else link P h q.
Proof.
  intros Hp HF. unfold link. rewrite list_lookup_alter.
  destruct (decide (p = q)) as [->|Hne].
  - rewrite decide_True by reflexivity.
    destruct (lookup_lt_is_Some_2 _ _ Hp) as (m & Hm). rewrite Hm. simpl. apply HF.
  - rewrite decide_False by congruence. reflexivity.
Qed.

Lemma store_as_alter t p n (F : NODE -> NODE) :
  heap t !! p = Some n -> heap (store t p (F n)) = alter F p (heap t).
Proof.
  intros Hn. unfold store. cbn [heap with_heap]. apply list_eq. intros i.
  rewrite list_lookup_alter. destruct (decide (p = i)) as [->|Hne].
  - rewrite list_lookup_insert_eq by (now apply lookup_lt_Some in Hn). now rewrite Hn.
  - now rewrite list_lookup_insert_ne.
Qed.

Lemma create_node_heap t f s e_ pp t' q :
  create_node t f s e_ pp = Ret (t', q) ->
  q = List.length (heap t) /\
  heap t' = heap t ++ [mkNode None None None None f pp s e_ None None].
Proof.
  unfold create_node. destruct (avail t); [discriminate|].
  intros [= <- <-]. auto.
Qed.

(** [connect_siblings] on the arena. *)
Definition join (l r : option nat) (h : list NODE) : list NODE :=
  let h1 := match l with
            | Some p => alter (fun m => set_right_sibling m r) p h
            | None => h
            end in
  match r with
  | Some q => alter (fun m => set_left_sibling m l) q h1
  | None => h1
  end.

Lemma connect_siblings_heap t l r t' :
  connect_siblings t l r = Ret t' ->
  heap t' = join l r (heap t) /\
  (forall p, l = Some p -> (p < List.length (heap t))%nat) /\
  (forall q, r = Some q -> (q < List.length (heap t))%nat).
Proof.
  unfold connect_siblings, join. intros H.
  apply bind_Ret in H as (t1 & H1 & H).
  assert (F : heap t1 = match l with
                        | Some p => alter (fun m => set_right_sibling m r) p (heap t)
                        | None => heap t
                        end /\
              forall p, l = Some p -> (p < List.length (heap t))%nat).
  { destruct l as [p|].
    - apply bind_Ret in H1 as (n & Hn & H1). apply node_at_Ret in Hn.
      injection H1 as <-. split; [exact (store_as_alter _ _ _ (fun m => _) Hn)|].
      intros p' [= <-]. now apply lookup_lt_Some in Hn.
    - injection H1 as <-. split; [reflexivity | discriminate]. }
  destruct F as (H1' & Hl). split; [|split; [exact Hl|]].
  - destruct r as [q|].
    + apply bind_Ret in H as (n & Hn & H). apply node_at_Ret in Hn.
      injection H as <-. rewrite <- H1'. exact (store_as_alter _ _ _ (fun m => _) Hn).
    + injection H as <-. exact H1'.
  - intros q ->. apply bind_Ret in H as (n & Hn & H). apply node_at_Ret in Hn.
    apply lookup_lt_Some in Hn. rewrite H1' in Hn.
    destruct l; [now rewrite length_alter in Hn | exact Hn].
Qed.

Lemma length_join l r h : List.length (join l r h) = List.length h.
Proof. unfold join. destruct l, r; now rewrite ?length_alter. Qed.

Lemma link_join_right l r h q :
  (forall p, l = Some p -> (p < List.length h)%nat) ->
  link right_sibling (join l r h) q
  = if decide (l = Some q) then r else link right_sibling h q.
Proof.
  intros Hl. unfold join.
  assert (E : link right_sibling
                match l with
                | Some p => alter (fun m => set_right_sibling m r) p h
                | None => h
                end q
              = if decide (l = Some q) then r else link right_sibling h q).
  { destruct l as [p|].
    - rewrite (link_alter_same _ _ _ _ _ r) by (auto; intros; reflexivity).
      destruct (decide (q = p)) as [->|Hne].
      + now rewrite decide_True.
      + rewrite decide_False by congruence. reflexivity.
    - now rewrite decide_False. }
  destruct r as [q'|]; [|exact E].
  rewrite link_alter_other by (intros; reflexivity). exact E.
Qed.

Lemma link_join_left l r h q :
  (forall p, r = Some p -> (p < List.length h)%nat) ->
  link left_sibling (join l r h) q
  = if decide (r = Some q) then l else link left_sibling h q.
Proof.
  intros Hr. unfold join. destruct r as [q'|].
  - rewrite (link_alter_same _ _ _ _ _ l).
    + destruct (decide (q = q')) as [->|Hne].
      * now rewrite decide_True.
      * rewrite decide_False by congruence.
        destruct l; [apply link_alter_other; intros; reflexivity | reflexivity].
    + destruct l; rewrite ?length_alter; auto.
    + intros; reflexivity.
  - rewrite decide_False by discriminate.
    destruct l; [apply link_alter_other; intros; reflexivity | reflexivity].
Qed.

Lemma link_join_other P l r h q :
  (forall m v, P (set_right_sibling m v) = P m) ->
  (forall m v, P (set_left_sibling m v) = P m) ->
  link P (join l r h) q = link P h q.
Proof.
  intros H1 H2. unfold join.
  destruct r; [rewrite link_alter_other by (intros; apply H2)|];
    (destruct l; [apply link_alter_other; intros; apply H1 | reflexivity]).
Qed.

Lemma linked_app_new h m :
  linked h ->
  sons m = None -> right_sibling m = None -> left_sibling m = None ->
  (forall f, father m = Some f -> (f < List.length h)%nat) ->
  linked (h ++ [m]).
Proof.
  intros Hl Hs Hr Hle Hf p.
  destruct (lt_eq_lt_dec p (List.length h)) as [[Hlt | ->] | Hgt].
  - destruct (Hl p) as (H5 & H1 & H2 & H3).
    rewrite !(link_app_l _ h [m] p Hlt).
    split; [intros f Hf'; destruct (H5 f Hf'); rewrite length_app; simpl; lia|].
    split; [|split].
    + intros q Hq. destruct (H1 q Hq) as (Hne & Hlq & Hfq).
      pose proof (link_Some _ _ _ _ Hlq) as Hqb.
      rewrite !(link_app_l _ h [m] q Hqb). auto.
    + intros q Hq. destruct (H2 q Hq) as (Hne & Hrq).
      pose proof (link_Some _ _ _ _ Hrq) as Hqb.
      rewrite !(link_app_l _ h [m] q Hqb). auto.
    + intros q Hq. destruct (H3 q Hq) as (Hfq & Hlq).
      pose proof (link_Some _ _ _ _ Hfq) as Hqb.
      rewrite !(link_app_l _ h [m] q Hqb). auto.
  - rewrite !link_app_new, Hs, Hr, Hle.
    split; [intros f Hf'; specialize (Hf f Hf'); rewrite length_app; simpl; lia|].
    repeat split; discriminate.
  - rewrite !(link_app_beyond _ h m p Hgt). repeat split; discriminate.
Qed.

Lemma last_sibling_spec fuel t h k :
  heap t = h ++ k -> linked h ->
  forall p s, (p < List.length h)%nat -> last_sibling fuel t p = Ret s ->
  (s < List.length h)%nat /\
  link right_sibling h s = None /\
  link father h s = link father h p.
Proof.
  intros Hh Hl.
  induction fuel as [|fuel IH]; intros p s Hp H; cbn [last_sibling] in H; [discriminate|].
  apply bind_Ret in H as (n & Hn & H). apply node_at_Ret in Hn.
  rewrite Hh, lookup_app_l in Hn by exact Hp.
  destruct (right_sibling n) as [r|] eqn:Hr.
  - destruct (Hl p) as (_ & H1 & _).
    destruct (H1 r) as (_ & Hlr & Hfr); [now rewrite (link_lookup _ _ _ _ Hn)|].
    pose proof (link_Some _ _ _ _ Hlr) as Hrb.
    destruct (IH _ _ Hrb H) as (Hb & Hs & Hf). split; [exact Hb|]. split; [exact Hs|].
    congruence.
  - injection H as <-. split; [exact Hp|]. rewrite (link_lookup _ _ _ _ Hn). auto.
Qed.

(** Rule 2 with a new son keeps the links in agreement. *)
Lemma linked_new_son fuel t node b e_ pp ep t' q :
  linked (heap t) ->
  apply_extension_rule_2 fuel t node b e_ pp ep new_son = Ret (t', q) ->
  linked (heap t') /\ (List.length (heap t) <= List.length (heap t'))%nat.
Proof.
  intros Hl H. cbn [apply_extension_rule_2] in H.
  apply bind_Ret in H as ([t1 nl] & H1 & H).
  apply create_node_heap in H1 as (-> & H1).
  apply bind_Ret in H as (n & Hn & H). apply node_at_Ret in Hn.
  apply bind_Ret in H as (first & Hfirst & H). apply deref_Ret in Hfirst.
  apply bind_Ret in H as (s & Hs & H).
  apply bind_Ret in H as (t2 & H2 & H). injection H as <- <-.
  set (h := heap t) in *. set (N := List.length h) in *.
  set (NL := mkNode None None None None (Some node) pp b e_ None None) in *.
  assert (Hnode : (node < N)%nat).
  { apply lookup_lt_Some in Hn as Hb. rewrite H1, length_app in Hb. simpl in Hb.
    destruct (decide (node = N)) as [->|]; [|lia].
    rewrite H1, list_lookup_middle in Hn by reflexivity. injection Hn as <-.
    discriminate Hfirst. }
  rewrite H1, lookup_app_l in Hn by exact Hnode.
  destruct (Hl node) as (_ & _ & _ & H3).
  destruct (H3 first) as (Hff & _); [now rewrite (link_lookup _ _ _ _ Hn)|].
  pose proof (link_Some _ _ _ _ Hff) as Hfb.
  destruct (last_sibling_spec _ _ _ _ H1 Hl _ _ Hfb Hs) as (Hsb & Hsr & Hsf).
  rewrite Hff in Hsf.
  apply connect_siblings_heap in H2 as (H2 & _ & _).
  assert (Hl1 : linked (h ++ [NL])).
  { apply linked_app_new; auto. simpl. intros f [= <-]. exact Hnode. }
  split; [|rewrite H2, length_join, H1, length_app; simpl; lia].
  rewrite H2, H1.
  assert (HlenN : List.length (h ++ [NL]) = S N) by (rewrite length_app; simpl; lia).
  assert (Er : forall p, link right_sibling (join (Some s) (Some N) (h ++ [NL])) p
                 = if decide (p = s) then Some N else link right_sibling (h ++ [NL]) p).
  { intros p. rewrite link_join_right by (intros ? [= <-]; lia).
    destruct (decide (p = s)) as [->|]; [now rewrite decide_True|].
    now rewrite decide_False by congruence. }
  assert (El : forall p, link left_sibling (join (Some s) (Some N) (h ++ [NL])) p
                 = if decide (p = N) then Some s else link left_sibling (h ++ [NL]) p).
  { intros p. rewrite link_join_left by (intros ? [= <-]; lia).
    destruct (decide (p = N)) as [->|]; [now rewrite decide_True|].
    now rewrite decide_False by congruence. }
  assert (Ef : forall p, link father (join (Some s) (Some N) (h ++ [NL])) p
                 = link father (h ++ [NL]) p)
    by (intros p; apply link_join_other; reflexivity).
  assert (Es : forall p, link sons (join (Some s) (Some N) (h ++ [NL])) p
                 = link sons (h ++ [NL]) p)
    by (intros p; apply link_join_other; reflexivity).
  assert (HfN : link father (h ++ [NL]) N = Some node) by apply link_app_new.
  assert (HlN : link left_sibling (h ++ [NL]) N = None) by apply link_app_new.
  assert (HrN : link right_sibling (h ++ [NL]) N = None) by apply link_app_new.
  assert (Hfs1 : link father (h ++ [NL]) s = Some node)
    by (rewrite link_app_l by exact Hsb; exact Hsf).
  assert (Hrs1 : link right_sibling (h ++ [NL]) s = None)
    by (rewrite link_app_l by exact Hsb; exact Hsr).
  assert (Hold : forall p q, (p < N)%nat ->
            (link right_sibling (h ++ [NL]) p = Some q \/
             link left_sibling (h ++ [NL]) p = Some q \/
             link sons (h ++ [NL]) p = Some q) -> (q < N)%nat).
  { intros p q Hp Hq. rewrite !(link_app_l _ h [NL] p Hp) in Hq.
    destruct (Hl p) as (_ & K1 & K2 & K3).
    destruct Hq as [Hq | [Hq | Hq]].
    - destruct (K1 q Hq) as (_ & Hx & _). exact (link_Some _ _ _ _ Hx).
    - destruct (K2 q Hq) as (_ & Hx). exact (link_Some _ _ _ _ Hx).
    - destruct (K3 q Hq) as (Hx & _). exact (link_Some _ _ _ _ Hx). }
  intros p. rewrite Ef, length_join. destruct (Hl1 p) as (K5 & K1 & K2 & K3).
  split; [exact K5|]. split; [|split].
  - intros q. rewrite Er, El, !Ef. destruct (decide (p = s)) as [->|Hps].
    + intros [= <-]. rewrite decide_True by reflexivity.
      split; [lia|]. split; [reflexivity|]. congruence.
    + intros Hq. destruct (K1 q Hq) as (Hne & Hlq & Hfq).
      split; [exact Hne|]. split; [|exact Hfq].
      destruct (decide (q = N)) as [->|]; [|exact Hlq]. congruence.
  - intros q. rewrite El, Er. destruct (decide (p = N)) as [->|HpN].
    + intros [= <-]. rewrite decide_True by reflexivity. split; [lia | reflexivity].
    + intros Hq. destruct (K2 q Hq) as (Hne & Hrq). split; [exact Hne|].
      destruct (decide (q = s)) as [->|]; [congruence | exact Hrq].
  - intros q. rewrite Es, Ef, El. intros Hq. destruct (K3 q Hq) as (Hfq & Hlq).
    split; [exact Hfq|]. destruct (decide (q = N)) as [->|]; [|exact Hlq].
    exfalso. destruct (lt_eq_lt_dec p N) as [[Hlt | ->] | Hgt].
    * assert (N < N)%nat; [|lia]. apply (Hold p N Hlt). auto.
    * rewrite link_app_new in Hq. discriminate.
    * rewrite link_app_beyond in Hq by exact Hgt. discriminate.
Qed.

(** The links after rule 2 has split the edge into node [x]: [N] is the
    new internal node and [S N] the new leaf. *)
Lemma linked_split_logic (h h' : list NODE) (x f : nat) (l0 r0 : option nat) :
  let N := List.length h in
  linked h ->
  link left_sibling h x = l0 -> link right_sibling h x = r0 ->
  link father h x = Some f ->
  (forall q, link right_sibling h' q =
     if decide (q = x) then Some (S N) else if decide (q = N) then r0
     else if decide (l0 = Some q) then Some N else link right_sibling h q) ->
  (forall q, link left_sibling h' q =
     if decide (q = S N) then Some x else if decide (q = x) then None
     else if decide (r0 = Some q) then Some N else if decide (q = N) then l0
     else link left_sibling h q) ->
  (forall q, link sons h' q =
     if decide (q = N) then Some x
     else if decide (q = f /\ link sons h f = Some x) then Some N else link sons h q) ->
  (forall q, link father h' q =
     if decide (q = x) then Some N else if decide (q = S N) then Some N
     else if decide (q = N) then Some f else link father h q) ->
  List.length h' = S (S N) ->
  linked h'.
Proof.
  intros N Hl Hl0 Hr0 Hf0 ER EL ES EF Hlen.
  assert (Hx : (x < N)%nat) by exact (link_Some _ _ _ _ Hf0).
  destruct (Hl x) as (X5 & X1 & X2 & X3).
  destruct (X5 f Hf0) as (Hfx & Hfb). fold N in Hfb.
  assert (Hr0' : forall r, r0 = Some r ->
            r <> x /\ (r < N)%nat /\ link left_sibling h r = Some x /\
            link father h r = Some f).
  { intros r ->. destruct (X1 r Hr0) as (A & B & C).
    split; [exact A|]. split; [exact (link_Some _ _ _ _ B)|]. split; [exact B|]. congruence. }
  assert (Hl0' : forall l, l0 = Some l ->
            l <> x /\ (l < N)%nat /\ link right_sibling h l = Some x /\
            link father h l = Some f).
  { intros l ->. destruct (X2 l Hl0) as (A & B).
    split; [exact A|]. split; [exact (link_Some _ _ _ _ B)|]. split; [exact B|].
    destruct (Hl l) as (_ & K1 & _). destruct (K1 x B) as (_ & _ & C). congruence. }
  assert (Hold : forall P p q, link P h p = Some q -> (p < N)%nat)
    by (intros P p q Hq; exact (link_Some _ _ _ _ Hq)).
  assert (Hin : forall p q,
            link right_sibling h p = Some q \/ link left_sibling h p = Some q \/
            link sons h p = Some q \/ link father h p = Some q -> (q < N)%nat).
  { intros p q Hq. destruct (Hl p) as (K5 & K1 & K2 & K3).
    destruct Hq as [Hq | [Hq | [Hq | Hq]]].
    - destruct (K1 q Hq) as (_ & A & _). exact (link_Some _ _ _ _ A).
    - destruct (K2 q Hq) as (_ & A). exact (link_Some _ _ _ _ A).
    - destruct (K3 q Hq) as (A & _). exact (link_Some _ _ _ _ A).
    - destruct (K5 q Hq) as (_ & A). exact A. }
  intros p. destruct (Hl p) as (K5 & K1 & K2 & K3).
  split; [|split; [|split]].
  - (* father *)
    intros g. rewrite EF, Hlen.
    destruct (decide (p = x)) as [->|Hpx]; [intros [= <-]; lia|].
    destruct (decide (p = S N)) as [->|HpS]; [intros [= <-]; lia|].
    destruct (decide (p = N)) as [->|HpN]; [intros [= <-]; lia|].
    intros Hg. destruct (K5 g Hg). lia.
  - (* right sibling *)
    intros q. rewrite ER.
    destruct (decide (p = x)) as [->|Hpx].
    { intros [= <-]. rewrite EL, !EF.
      rewrite !(decide_True (P := S N = S N)) by reflexivity.
      rewrite !(decide_True (P := x = x)) by reflexivity.
      rewrite !(decide_False (P := S N = x)) by lia. auto with lia. }
    destruct (decide (p = N)) as [->|HpN].
    { intros Hq. destruct (Hr0' q Hq) as (A & B & C & D').
      rewrite EL, !EF.
      rewrite !(decide_False (P := q = S N)) by lia.
      rewrite !(decide_False (P := q = x)) by exact A.
      rewrite !(decide_True (P := r0 = Some q)) by exact Hq.
      rewrite !(decide_False (P := N = x)) by lia.
      rewrite !(decide_False (P := N = S N)) by lia.
      rewrite !(decide_True (P := N = N)) by reflexivity.
      rewrite !(decide_False (P := q = N)) by lia.
      auto with lia. }
    destruct (decide (l0 = Some p)) as [Hlp|Hlp].
    { intros [= <-]. destruct (Hl0' p Hlp) as (A & B & C & D').
      rewrite EL, !EF.
      rewrite !(decide_False (P := N = S N)) by lia.
      rewrite !(decide_False (P := N = x)) by lia.
      assert (Hr0N : r0 <> Some N) by (intros E; destruct (Hr0' N E); lia).
      rewrite !(decide_False (P := r0 = Some N)) by exact Hr0N.
      rewrite !(decide_True (P := N = N)) by reflexivity.
      rewrite !(decide_False (P := p = x)) by exact A.
      rewrite !(decide_False (P := p = S N)) by lia.
      rewrite !(decide_False (P := p = N)) by lia.
      split; [lia|]. split; [exact Hlp|]. congruence. }
    intros Hq. destruct (K1 q Hq) as (A & B & C).
    pose proof (Hold _ _ _ Hq) as Hpb. pose proof (Hold _ _ _ B) as Hqb.
    assert (Hqx : q <> x).
    { intros ->. apply Hlp. rewrite <- Hl0. exact B. }
    assert (Hr0q : r0 <> Some q).
    { intros E. destruct (Hr0' q E) as (_ & _ & E' & _). congruence. }
    rewrite EL, !EF.
    rewrite !(decide_False (P := q = S N)) by lia.
    rewrite !(decide_False (P := q = x)) by exact Hqx.
    rewrite !(decide_False (P := r0 = Some q)) by exact Hr0q.
    rewrite !(decide_False (P := q = N)) by lia.
    rewrite !(decide_False (P := p = x)) by exact Hpx.
    rewrite !(decide_False (P := p = S N)) by lia.
    rewrite !(decide_False (P := p = N)) by lia.
    auto.
  - (* left sibling *)
    intros q. rewrite EL.
    destruct (decide (p = S N)) as [->|HpS].
    { intros [= <-]. rewrite ER. rewrite decide_True by reflexivity. auto with lia. }
    destruct (decide (p = x)) as [->|Hpx]; [discriminate|].
    destruct (decide (r0 = Some p)) as [Hrp|Hrp].
    { intros [= <-]. destruct (Hr0' p Hrp) as (A & B & C & D').
      rewrite ER. rewrite !(decide_False (P := N = x)) by lia.
      rewrite !(decide_True (P := N = N)) by reflexivity. auto with lia. }
    destruct (decide (p = N)) as [->|HpN].
    { intros Hq. destruct (Hl0' q Hq) as (A & B & C & D').
      rewrite ER. rewrite !(decide_False (P := q = x)) by exact A.
      rewrite !(decide_False (P := q = N)) by lia.
      rewrite !(decide_True (P := l0 = Some q)) by exact Hq. auto with lia. }
    intros Hq. destruct (K2 q Hq) as (A & B).
    pose proof (Hold _ _ _ B) as Hqb.
    assert (Hqx : q <> x).
    { intros ->. apply Hrp. rewrite <- Hr0. exact B. }
    assert (Hl0q : l0 <> Some q).
    { intros E. destruct (Hl0' q E) as (_ & _ & E' & _). congruence. }
    rewrite ER. rewrite !(decide_False (P := q = x)) by exact Hqx.
    rewrite !(decide_False (P := q = N)) by lia.
    rewrite !(decide_False (P := l0 = Some q)) by exact Hl0q. auto.
  - (* sons *)
    intros q. rewrite ES.
    destruct (decide (p = N)) as [->|HpN].
    { intros [= <-]. rewrite EF, EL.
      rewrite !(decide_True (P := x = x)) by reflexivity.
      rewrite !(decide_False (P := x = S N)) by lia. auto. }
    destruct (decide (p = f /\ link sons h f = Some x)) as [[-> Hsf]|Hpf].
    { intros [= <-]. rewrite EF, EL.
      rewrite !(decide_False (P := N = x)) by lia.
      rewrite !(decide_False (P := N = S N)) by lia.
      rewrite !(decide_True (P := N = N)) by reflexivity.
      assert (Hr0N : r0 <> Some N) by (intros E; destruct (Hr0' N E); lia).
      rewrite !(decide_False (P := r0 = Some N)) by exact Hr0N.
      split; [reflexivity|].
      destruct (Hl f) as (_ & _ & _ & F3). destruct (F3 x Hsf) as (_ & E). congruence. }
    intros Hq. destruct (K3 q Hq) as (A & B).
    pose proof (Hold _ _ _ A) as Hqb.
    assert (Hqx : q <> x).
    { intros ->. apply Hpf. split; [congruence|]. assert (p = f) by congruence.
      subst p. exact Hq. }
    assert (Hr0q : r0 <> Some q).
    { intros E. destruct (Hr0' q E) as (_ & _ & E' & _). congruence. }
    rewrite EF, EL.
    rewrite !(decide_False (P := q = x)) by exact Hqx.
    rewrite !(decide_False (P := q = S N)) by lia.
    rewrite !(decide_False (P := q = N)) by lia.
    rewrite !(decide_False (P := r0 = Some q)) by exact Hr0q. auto.
Qed.

Lemma decide_Some_eq {A : Type} (a q : nat) (u v : A) :
  (if decide (Some a = Some q) then u else v) = if decide (q = a) then u else v.
Proof. repeat case_decide; congruence. Qed.

Lemma link_app P h m q :
  link P (h ++ [m]) q = if decide (q = List.length h) then P m else link P h q.
Proof.
  destruct (lt_eq_lt_dec q (List.length h)) as [[Hlt | ->] | Hgt].
  - rewrite decide_False by lia. now apply link_app_l.
  - rewrite decide_True by reflexivity. apply link_app_new.
  - rewrite decide_False by lia. rewrite link_app_beyond by exact Hgt.
    unfold link. rewrite lookup_ge_None_2; [reflexivity | lia].
Qed.

Lemma link_None P h q : (List.length h <= q)%nat -> link P h q = None.
Proof. intros Hq. unfold link. now rewrite lookup_ge_None_2. Qed.

(** The links after rule 2 has split the edge into [node]: the new internal
    node takes the place of [node] among the sons of its father, and its
    sons are [node] and the new leaf. *)
Lemma split_links fuel t node b e_ pp ep t' q :
  linked (heap t) ->
  apply_extension_rule_2 fuel t node b e_ pp ep split = Ret (t', q) ->
  exists f,
    link father (heap t) node = Some f /\
    q = List.length (heap t) /\
    List.length (heap t') = S (S (List.length (heap t))) /\
    (forall q, link right_sibling (heap t') q =
       if decide (q = node) then Some (S (List.length (heap t)))
       else if decide (q = List.length (heap t)) then link right_sibling (heap t) node
       else if decide (link left_sibling (heap t) node = Some q)
            then Some (List.length (heap t))
       else link right_sibling (heap t) q) /\
    (forall q, link left_sibling (heap t') q =
       if decide (q = S (List.length (heap t))) then Some node
       else if decide (q = node) then None
       else if decide (link right_sibling (heap t) node = Some q)
            then Some (List.length (heap t))
       else if decide (q = List.length (heap t)) then link left_sibling (heap t) node
       else link left_sibling (heap t) q) /\
    (forall q, link sons (heap t') q =
       if decide (q = List.length (heap t)) then Some node
       else if decide (q = f /\ link sons (heap t) f = Some node)
            then Some (List.length (heap t))
       else link sons (heap t) q) /\
    (forall q, link father (heap t') q =
       if decide (q = node) then Some (List.length (heap t))
       else if decide (q = S (List.length (heap t))) then Some (List.length (heap t))
       else if decide (q = List.length (heap t)) then Some f
       else link father (heap t) q).
Proof.
  intros Hl H. cbn [apply_extension_rule_2] in H.
  apply bind_Ret in H as (n & Hn & H). apply node_at_Ret in Hn.
  apply bind_Ret in H as ([t1 ni_] & H1 & H).
  apply create_node_heap in H1 as (-> & H1).
  apply bind_Ret in H as ([t3 nl] & H3 & H).
  apply create_node_heap in H3 as (-> & H3).
  apply bind_Ret in H as (n3 & Hn3 & H). apply node_at_Ret in Hn3.
  apply bind_Ret in H as (t4 & H4 & H). apply connect_siblings_heap in H4 as (H4 & H4l & _).
  apply bind_Ret in H as (n4 & Hn4 & H). apply node_at_Ret in Hn4.
  apply bind_Ret in H as (t5 & H5 & H). apply connect_siblings_heap in H5 as (H5 & _ & H5r).
  apply bind_Ret in H as (n5 & Hn5 & H). apply node_at_Ret in Hn5.
  apply bind_Ret in H as (ni & Hni & H). apply node_at_Ret in Hni.
  apply bind_Ret in H as (f & Hf & H). apply deref_Ret in Hf.
  apply bind_Ret in H as (fn & Hfn & H). apply node_at_Ret in Hfn.
  apply bind_Ret in H as (ni7 & Hni7 & H). apply node_at_Ret in Hni7.
  apply bind_Ret in H as (n8 & Hn8 & H). apply node_at_Ret in Hn8.
  apply bind_Ret in H as (t10 & H10 & H). apply connect_siblings_heap in H10 as (H10 & _ & _).
  injection H as <- <-.
  set (h := heap t) in *. set (N := List.length h) in *.
  assert (Hx : (node < N)%nat) by (now apply lookup_lt_Some in Hn).
  match type of H1 with _ = _ ++ [?m] => set (NI := m) in * end.
  set (F2 := fun m => set_edge_label_start m (dw (edge_label_start n + (ep + 1)))).
  assert (E2 : heap (store t1 node (F2 n)) = alter F2 node (h ++ [NI])).
  { rewrite <- H1. apply store_as_alter. rewrite H1. now apply lookup_app_l_Some. }
  unfold F2 in E2 at 1. rewrite E2 in H3, H10. clear E2.
  match type of H3 with _ = _ ++ [?m] => set (NL := m) in * end.
  set (h3 := alter F2 node (h ++ [NI]) ++ [NL]) in *.
  assert (Len3 : List.length h3 = S (S N)).
  { unfold h3. rewrite length_app, length_alter, length_app. simpl. unfold N. lia. }
  assert (Len2 : List.length (alter F2 node (h ++ [NI])) = S N).
  { rewrite length_alter, length_app. simpl. unfold N. lia. }
  rewrite Len2 in H10.
  (* the links of [h3] *)
  assert (L3 : forall P, (forall m, P (F2 m) = P m) -> forall q,
            link P h3 q = if decide (q = S N) then P NL
                          else if decide (q = N) then P NI else link P h q).
  { intros P HP q. unfold h3. rewrite link_app, Len2.
    rewrite link_alter_other by exact HP. now rewrite link_app. }
  set (l0 := link left_sibling h node). set (r0 := link right_sibling h node).
  assert (Hfx : link father h node = father n) by exact (link_lookup _ _ _ _ Hn).
  assert (Hl3 : left_sibling n3 = l0).
  { rewrite <- (link_lookup left_sibling _ _ _ Hn3), H3, L3 by reflexivity.
    rewrite !decide_False by lia. reflexivity. }
  rewrite Hl3 in H4, H4l. rewrite H3 in H4, H4l. clear Hn3 Hl3 n3.
  set (h4 := join l0 (Some N) h3) in *.
  assert (Len4 : List.length h4 = S (S N)) by (unfold h4; now rewrite length_join).
  destruct (Hl node) as (X5 & X1 & X2 & X3).
  assert (Hl0x : l0 <> Some node) by (intros E; destruct (X2 _ E); congruence).
  assert (Hr0x : r0 <> Some node) by (intros E; destruct (X1 _ E); congruence).
  assert (Hr4 : right_sibling n4 = r0).
  { rewrite <- (link_lookup right_sibling _ _ _ Hn4), H4. unfold h4.
    rewrite link_join_right by exact H4l.
    rewrite decide_False by exact Hl0x. rewrite L3 by reflexivity.
    rewrite !decide_False by lia. reflexivity. }
  rewrite Hr4 in H5, H5r. rewrite H4 in H5, H5r. clear Hn4 Hr4 n4.
  set (h5 := join (Some N) r0 h4) in *.
  assert (Len5 : List.length h5 = S (S N)) by (unfold h5; now rewrite length_join).
  set (t6 := store t5 node (set_left_sibling n5 None)) in *.
  set (h6 := alter (fun m => set_left_sibling m None) node h5).
  assert (E6 : heap t6 = h6).
  { unfold h6. rewrite <- H5. exact (store_as_alter _ _ _ (fun m => _) Hn5). }
  assert (Len6 : List.length h6 = S (S N)) by (unfold h6; now rewrite length_alter).
  rewrite E6 in Hni, Hfn.
  (* the father of the new internal node is the father of [node] *)
  assert (L5 : forall P, (forall m v, P (set_right_sibling m v) = P m) ->
                 (forall m v, P (set_left_sibling m v) = P m) ->
                 (forall m, P (F2 m) = P m) -> forall q,
            link P h6 q = if decide (q = S N) then P NL
                          else if decide (q = N) then P NI else link P h q).
  { intros P HP1 HP2 HP3 q. unfold h6. rewrite link_alter_other by (intros; apply HP2).
    unfold h5, h4. rewrite !link_join_other by assumption. now apply L3. }
  assert (Hfni : father n = Some f).
  { rewrite <- Hf, <- (link_lookup father _ _ _ Hni), L5 by reflexivity.
    rewrite decide_False by lia. now rewrite decide_True. }
  rewrite Hfni in Hfx. destruct (X5 f Hfx) as (Hfne & Hfb). fold N in Hfb.
  assert (Hsfn : sons fn = link sons h f).
  { rewrite <- (link_lookup sons _ _ _ Hfn), L5 by reflexivity.
    now rewrite !decide_False by lia. }
  rewrite Hsfn in *.
  set (t7 := if bool_decide (link sons h f = Some node)
             then store t6 f (set_sons fn (Some N)) else t6) in *.
  set (h7 := if bool_decide (link sons h f = Some node)
             then alter (fun m => set_sons m (Some N)) f h6 else h6).
  assert (E7 : heap t7 = h7).
  { unfold t7, h7. case_bool_decide; [|exact E6].
    rewrite <- E6. apply (store_as_alter _ _ _ (fun m => _)). now rewrite E6. }
  assert (Len7 : List.length h7 = S (S N)).
  { unfold h7. case_bool_decide; now rewrite ?length_alter. }
  set (t8 := store t7 N (set_sons ni7 (Some node))) in *.
  set (h8 := alter (fun m => set_sons m (Some node)) N h7).
  assert (E8 : heap t8 = h8).
  { unfold h8. rewrite <- E7. exact (store_as_alter _ _ _ (fun m => _) Hni7). }
  assert (Len8 : List.length h8 = S (S N)) by (unfold h8; now rewrite length_alter).
  set (h9 := alter (fun m => set_father m (Some N)) node h8).
  assert (E9 : heap (store t8 node (set_father n8 (Some N))) = h9).
  { unfold h9. rewrite <- E8. exact (store_as_alter _ _ _ (fun m => _) Hn8). }
  assert (Len9 : List.length h9 = S (S N)) by (unfold h9; now rewrite length_alter).
  rewrite E9 in H10.
  exists f. split; [exact Hfx|]. split; [reflexivity|]. rewrite H10.
  split; [rewrite length_join; exact Len9|].
  assert (H7o : forall P, (forall m v, P (set_sons m v) = P m) ->
            forall q, link P h7 q = link P h6 q).
  { intros P HP q. unfold h7. case_bool_decide; [|reflexivity].
    apply link_alter_other. intros; apply HP. }
  fold l0 r0. split; [|split; [|split]].
  - intros q. rewrite link_join_right by (intros ? [= <-]; lia).
    unfold h9. rewrite link_alter_other by reflexivity.
    unfold h8. rewrite link_alter_other by reflexivity.
    rewrite H7o by reflexivity.
    unfold h6. rewrite link_alter_other by reflexivity.
    unfold h5. rewrite link_join_right by (intros ? [= <-]; lia).
    unfold h4. rewrite link_join_right by exact H4l.
    rewrite L3 by reflexivity. rewrite !decide_Some_eq. cbn [right_sibling NL NI].
    repeat case_decide; subst; try congruence; try lia; rewrite ?link_None by lia; auto.
  - intros q. rewrite link_join_left by (intros ? [= <-]; lia).
    unfold h9. rewrite link_alter_other by reflexivity.
    unfold h8. rewrite link_alter_other by reflexivity.
    rewrite H7o by reflexivity.
    unfold h6. rewrite (link_alter_same _ _ _ _ _ None) by (try lia; reflexivity).
    unfold h5. rewrite link_join_left by exact H5r.
    unfold h4. rewrite link_join_left by (intros ? [= <-]; lia).
    rewrite L3 by reflexivity. rewrite !decide_Some_eq. cbn [left_sibling NL NI].
    repeat case_decide; subst; try congruence; try lia; rewrite ?link_None by lia; auto.
  - intros q. rewrite link_join_other by reflexivity.
    unfold h9. rewrite link_alter_other by reflexivity.
    unfold h8. rewrite (link_alter_same _ _ _ _ _ (Some node)) by (try lia; reflexivity).
    assert (E : link sons h7 q
                = if decide (q = f /\ link sons h f = Some node) then Some N
                  else link sons h6 q).
    { unfold h7. case_bool_decide as Hb.
      - rewrite (link_alter_same _ _ _ _ _ (Some N)) by (try lia; reflexivity).
        repeat case_decide; try reflexivity; tauto.
      - rewrite decide_False by tauto. reflexivity. }
    rewrite E, L5 by reflexivity. cbn [sons NL NI].
    repeat case_decide; subst; try congruence; try lia; try tauto;
      rewrite ?link_None by lia; auto.
  - intros q. rewrite link_join_other by reflexivity.
    unfold h9. rewrite (link_alter_same _ _ _ _ _ (Some N)) by (try lia; reflexivity).
    unfold h8. rewrite link_alter_other by reflexivity.
    rewrite H7o by reflexivity. rewrite L5 by reflexivity.
    cbn [father NL NI]. rewrite Hfni.
    repeat case_decide; subst; try congruence; try lia; rewrite ?link_None by lia; auto.
Qed.

(** Rule 2 with a split keeps the links in agreement. *)
Lemma linked_split fuel t node b e_ pp ep t' q :
  linked (heap t) ->
  apply_extension_rule_2 fuel t node b e_ pp ep split = Ret (t', q) ->
  linked (heap t') /\ (List.length (heap t) <= List.length (heap t'))%nat.
Proof.
  intros Hl H.
  destruct (split_links _ _ _ _ _ _ _ _ _ Hl H) as (f & Hf & _ & Hlen & ER & EL & ES & EF).
  split; [|lia].
  exact (linked_split_logic (heap t) _ node f _ _ Hl eq_refl eq_refl Hf ER EL ES EF Hlen).
Qed.

Lemma linked_rule_2 fuel t node b e_ pp ep type t' q :
  linked (heap t) ->
  apply_extension_rule_2 fuel t node b e_ pp ep type = Ret (t', q) ->
  linked (heap t').
Proof.
  intros Hl H. destruct type.
  - now apply linked_new_son in H.
  - now apply linked_split in H.
Qed.

Lemma link_insert_same P h p n n' q :
  h !! p = Some n -> P n' = P n -> link P (<[p := n']> h) q = link P h q.
Proof.
  intros Hn HP. unfold link. destruct (decide (p = q)) as [->|Hne].
  - rewrite list_lookup_insert_eq by (now apply lookup_lt_Some in Hn).
    rewrite Hn. simpl. exact HP.
  - now rewrite list_lookup_insert_ne.
Qed.

(** A store that leaves the four links of the node as they were keeps the
    links in agreement. *)
Lemma linked_store t p n n' :
  heap t !! p = Some n ->
  father n' = father n -> right_sibling n' = right_sibling n ->
  left_sibling n' = left_sibling n -> sons n' = sons n ->
  linked (heap t) -> linked (heap (store t p n')).
Proof.
  intros Hn Hf Hr Hle Hs Hl q. cbn [heap store with_heap].
  rewrite length_insert.
  rewrite (link_insert_same father _ _ _ _ q Hn Hf).
  rewrite (link_insert_same right_sibling _ _ _ _ q Hn Hr).
  rewrite (link_insert_same left_sibling _ _ _ _ q Hn Hle).
  rewrite (link_insert_same sons _ _ _ _ q Hn Hs).
  destruct (Hl q) as (K5 & K1 & K2 & K3).
  split; [exact K5|]. split; [|split].
  - intros r Hq. rewrite (link_insert_same left_sibling _ _ _ _ r Hn Hle).
    rewrite (link_insert_same father _ _ _ _ r Hn Hf). auto.
  - intros r Hq. rewrite (link_insert_same right_sibling _ _ _ _ r Hn Hr). auto.
  - intros r Hq. rewrite (link_insert_same father _ _ _ _ r Hn Hf).
    rewrite (link_insert_same left_sibling _ _ _ _ r Hn Hle). auto.
Qed.

Lemma linked_create_suffix_link t node l t' :
  linked (heap t) -> create_suffix_link t node l = Ret t' -> linked (heap t').
Proof.
  unfold create_suffix_link. intros Hl H.
  apply bind_Ret in H as (n & Hn & H). apply node_at_Ret in Hn. injection H as <-.
  now apply (linked_store _ _ n).
Qed.

Ltac linked_fwd :=
  repeat match goal with
  | E : apply_extension_rule_2 _ ?t _ _ _ _ _ _ = Ret (?t', _), H : linked (heap ?t) |- _ =>
    lazymatch goal with
    | _ : linked (heap t') |- _ => fail
    | _ => pose proof (linked_rule_2 _ _ _ _ _ _ _ _ _ _ H E)
    end
  | E : create_suffix_link ?t _ _ = Ret ?t', H : linked (heap ?t) |- _ =>
    lazymatch goal with
    | _ : linked (heap t') |- _ => fail
    | _ => pose proof (linked_create_suffix_link _ _ _ _ H E)
    end
  end.

Lemma linked_SEA fuel t pos str after t' pos' r :
  linked (heap t) -> SEA fuel t pos str after = Ret (t', pos', r) -> linked (heap t').
Proof.
  unfold SEA. intros Hl H. inv_all; linked_fwd; cbn [heap with_suffixless];
    try assumption;
    (eapply linked_store; [apply node_at_Ret; eassumption | reflexivity.. | assumption]).
Qed.

Lemma linked_SPA_loop fuel fuel0 : forall t pos phase ext rep rule t' pos' ext' rep',
  linked (heap t) ->
  SPA_loop fuel fuel0 t pos phase ext rep rule = Ret (t', pos', ext', rep') ->
  linked (heap t').
Proof.
  induction fuel as [|fuel IH]; intros t pos phase ext rep rule t' pos' ext' rep' Hl H;
    cbn [SPA_loop] in H.
  - destruct (bool_decide _); [discriminate | now injection H as <- _ _ _].
  - destruct (bool_decide _); [| now injection H as <- _ _ _].
    apply bind_Ret in H as ([[t1 pos1] r] & H1 & H).
    apply linked_SEA in H1; [|exact Hl].
    destruct (bool_decide _); [now injection H as <- _ _ _|].
    exact (IH _ _ _ _ _ _ _ _ _ _ H1 H).
Qed.

Lemma linked_phases cnt fuel : forall t pos phase ext rep t',
  linked (heap t) -> phases cnt fuel t pos phase ext rep = Ret t' -> linked (heap t').
Proof.
  induction cnt as [|cnt IH]; intros t pos phase ext rep t' Hl H; cbn [phases] in H.
  - now injection H as <-.
  - apply bind_Ret in H as ([[[t1 pos1] ext1] rep1] & H1 & H).
    unfold SPA in H1. apply linked_SPA_loop in H1; [|exact Hl].
    exact (IH _ _ _ _ _ _ H1 H).
Qed.

Lemma linked_dfs fuel :
  (forall t node depth t' k, linked (heap t) ->
     dfsForInversePointers fuel t node depth = Ret (t', k) -> linked (heap t')) /\
  (forall t c depth num t' k, linked (heap t) ->
     dfs_children fuel t c depth num = Ret (t', k) -> linked (heap t')).
Proof.
  induction fuel as [|fuel [IH1 IH2]]; split.
  - intros; discriminate.
  - intros t [c|] depth num t' k Hl H; simpl in H; [discriminate | now simplify_eq].
  - intros t node depth t' k Hl H. cbn [dfsForInversePointers] in H.
    apply bind_Ret in H as (n & Hn & H). apply node_at_Ret in Hn.
    assert (Hl1 : linked (heap (store t node (set_strDepth n depth))))
      by (now apply (linked_store _ _ n)).
    destruct (sons n) as [first|].
    + apply bind_Ret in H as (n1 & Hn1 & H). apply node_at_Ret in Hn1.
      apply IH2 in H; [exact H|]. now apply (linked_store _ _ n1).
    + apply bind_Ret in H as (ip & _ & H). apply bind_Ret in H as (f & _ & H).
      apply bind_Ret in H as (fn & _ & H). apply bind_Ret in H as (fd & _ & H).
      apply bind_Ret in H as (msd & _ & H).
      apply bind_Ret in H as (n1 & Hn1 & H). apply node_at_Ret in Hn1.
      injection H as <- _.
      apply (linked_store (with_maxStrDepth (with_inversePointers _ ip) msd) _ n1);
        try reflexivity; assumption.
  - intros t [c|] depth num t' k Hl H; cbn [dfs_children] in H; [|now simplify_eq].
    apply bind_Ret in H as (cn & _ & H). apply bind_Ret in H as ([t1 k1] & H1 & H).
    apply bind_Ret in H as (cn' & _ & H).
    apply IH1 in H1; [|exact Hl]. exact (IH2 _ _ _ _ _ _ H1 H).
Qed.

Lemma link_skeleton P h h' q :
  (forall m, P (skeleton m) = P m) ->
  skeleton <$> h' = skeleton <$> h -> link P h' q = link P h q.
Proof.
  intros HP Hs. apply (f_equal (fun l => l !! q)) in Hs.
  rewrite !list_lookup_fmap in Hs. unfold link.
  destruct (h' !! q) as [n'|], (h !! q) as [n|]; simpl in *; try discriminate;
    [|reflexivity].
  assert (Hs' : skeleton n' = skeleton n) by congruence.
  rewrite <- (HP n'), <- (HP n). now rewrite Hs'.
Qed.

Lemma linked_skeleton h h' :
  skeleton <$> h' = skeleton <$> h -> linked h -> linked h'.
Proof.
  intros Hs Hl p.
  assert (Hlen : List.length h' = List.length h).
  { apply (f_equal List.length) in Hs. now rewrite !length_fmap in Hs. }
  assert (E : forall P, (forall m, P (skeleton m) = P m) ->
                forall q, link P h' q = link P h q)
    by (intros P HP q; now apply link_skeleton).
  rewrite Hlen. destruct (Hl p) as (K5 & K1 & K2 & K3).
  rewrite !E by reflexivity.
  split; [exact K5|]. split; [|split]; intros q Hq; rewrite !E by reflexivity; auto.
Qed.

(** The tree that [ST_CreateTree] returns has its pointers in agreement:
    the right sibling of a node points back to it as left sibling and has
    the same father, the left sibling points forward to it, the first son
    of a node has the node as father and no left sibling, the father of a
    node is another node of the tree.  The rounds of [parseBLZ] that
    follow keep it so. *)
Theorem ST_CreateTree_links_agree (cappedMax : list Z -> Z -> Z -> Z -> Z)
    (fuel mem_ : nat) (str : list Z) (len C : Z) (k fuel' : nat)
    (t t' : SUFFIX_TREE) (textPos_ prevC : Z) :
  ST_CreateTree fuel mem_ str len = Ret t ->
  rounds_run cappedMax k fuel' (with_COST t C) 1 0 = Ret (t', textPos_, prevC) ->
  linked (heap t) /\ linked (heap t').
Proof.
  intros H Hr.
  assert (Hl : linked (heap t)).
  { unfold ST_CreateTree in H. destruct mem_ as [|m]; [discriminate|].
    apply bind_Ret in H as ([t1 r] & H1 & H).
    apply create_node_heap in H1 as (-> & H1). cbn [heap] in H1.
    apply bind_Ret in H as ([t3 first] & H3 & H).
    apply create_node_heap in H3 as (-> & H3). cbn [heap] in H3.
    rewrite H1 in H3. cbn [List.length app] in H3.
    apply bind_Ret in H as (rn & Hrn & H). apply node_at_Ret in Hrn.
    rewrite H3 in Hrn. cbn in Hrn. injection Hrn as <-.
    apply bind_Ret in H as (t5 & H5 & H).
    apply bind_Ret in H as ([t6 nn] & H6 & H).
    apply bind_Ret in H as (msd & _ & H). injection H as <-.
    cbn [heap with_D with_maxStrDepth].
    apply (proj1 (linked_dfs fuel)) in H6; [exact H6|].
    apply linked_phases in H5; [exact H5|].
    cbn [heap with_suffixless store with_heap]. rewrite H3, H1.
    intros [|[|p]]; (split; [|split; [|split]]); intros q Hq; try discriminate;
      injection Hq as <-; cbn; auto with lia. }
  split; [exact Hl|].
  apply rounds_run_static, static_fields in Hr as (_ & _ & _ & _ & _ & Hs).
  exact (linked_skeleton _ _ Hs Hl).
Qed.

Lemma ST_CreateTree_links_agree_witness :
  ST_CreateTree 64 64 (aababab ++ [0]) 7 = Ret aababab_tree /\
  rounds_run cappedMax_at 3 64 (with_COST aababab_tree (u32 1)) 1 0
    = Ret (aababab_1_after_3, 6, 4) /\
  linked (heap aababab_tree) /\ linked (heap aababab_1_after_3).
Proof.
  assert (H0 : ST_CreateTree 64 64 (aababab ++ [0]) 7 = Ret aababab_tree)
    by (vm_compute; reflexivity).
  assert (Hk : rounds_run cappedMax_at 3 64 (with_COST aababab_tree (u32 1)) 1 0
               = Ret (aababab_1_after_3, 6, 4)) by (vm_compute; reflexivity).
  refine (conj H0 (conj Hk _)).
  exact (ST_CreateTree_links_agree cappedMax_at 64 64 (aababab ++ [0]) 7 (u32 1) 3 64
           aababab_tree aababab_1_after_3 6 4 H0 Hk).
Defined.

(** ** The number of nodes *)

(** The number of nodes allocated so far. *)
Definition nodes (t : SUFFIX_TREE) : Z := Z.of_nat (List.length (heap t)).

Lemma nodes_create_node t f s e_ pp t' q :
  create_node t f s e_ pp = Ret (t', q) -> nodes t' = nodes t + 1.
Proof.
  intros H. apply create_node_heap in H as (_ & H). unfold nodes.
  rewrite H, length_app. simpl. lia.
Qed.

Lemma nodes_connect_siblings t l r t' :
  connect_siblings t l r = Ret t' -> nodes t' = nodes t.
Proof.
  intros H. apply connect_siblings_heap in H as (H & _). unfold nodes.
  now rewrite H, length_join.
Qed.

Lemma nodes_create_suffix_link t node l t' :
  create_suffix_link t node l = Ret t' -> nodes t' = nodes t.
Proof.
  unfold create_suffix_link. intros H. apply bind_Ret in H as (n & _ & H).
  injection H as <-. unfold nodes. cbn [heap store with_heap]. now rewrite length_insert.
Qed.

Lemma nodes_store t p n : nodes (store t p n) = nodes t.
Proof. unfold nodes. cbn [heap store with_heap]. now rewrite length_insert. Qed.

Lemma nodes_with_suffixless t s : nodes (with_suffixless t s) = nodes t.
Proof. reflexivity. Qed.

Ltac nodes_fwd :=
  repeat match goal with
  | E : create_node _ _ _ _ _ = Ret _ |- _ => apply nodes_create_node in E
  | E : connect_siblings _ _ _ = Ret _ |- _ => apply nodes_connect_siblings in E
  | E : create_suffix_link _ _ _ = Ret _ |- _ => apply nodes_create_suffix_link in E
  end.

Ltac nodes_solve :=
  repeat (first
    [ progress (rewrite ?nodes_store in * )
    | progress (rewrite ?nodes_with_suffixless in * )
    | match goal with
      | H : context [nodes (if ?b then _ else _)] |- _ => destruct b
      | |- context [nodes (if ?b then _ else _)] => destruct b
      end ]);
  try lia.

(** Rule 2 allocates one node for a new son and two for a split. *)
Lemma nodes_rule_2 fuel t node b e_ pp ep type t' q :
  apply_extension_rule_2 fuel t node b e_ pp ep type = Ret (t', q) ->
  nodes t' = nodes t + match type with new_son => 1 | split => 2 end.
Proof.
  unfold apply_extension_rule_2. intros H. destruct type; inv_all; nodes_fwd; nodes_solve.
Qed.

(** One extension allocates nodes only when it applies rule 2, and then
    one or two. *)
Lemma nodes_SEA fuel t pos str after t' pos' r :
  SEA fuel t pos str after = Ret (t', pos', r) ->
  (r = Some 2 /\ nodes t < nodes t' <= nodes t + 2) \/
  (r <> Some 2 /\ (r = None \/ r = Some 3) /\ nodes t' = nodes t).
Proof.
  unfold SEA. intros H. inv_all; nodes_fwd;
    repeat match goal with
    | E : apply_extension_rule_2 _ _ _ _ _ _ _ _ = Ret _ |- _ =>
      apply nodes_rule_2 in E
    end; nodes_solve;
    first [ left; split; [reflexivity | lia]
          | right; split; [discriminate | split; [auto | lia]] ].
Qed.

Lemma nodes_SPA_loop fuel fuel0 : forall t pos phase ext rep rule t' pos' ext' rep',
  0 <= phase -> phase + 2 < 2 ^ 64 -> 0 <= ext ->
  SPA_loop fuel fuel0 t pos phase ext rep rule = Ret (t', pos', ext', rep') ->
  ext <= ext' /\ ext' <= Z.max ext (phase + 2) /\
  nodes t <= nodes t' /\ nodes t' + 2 * ext <= nodes t + 2 * ext'.
Proof.
  induction fuel as [|fuel IH]; intros t pos phase ext rep rule t' pos' ext' rep'
    Hp Hlt He H; cbn [SPA_loop] in H.
  - destruct (bool_decide _); [discriminate|]. injection H as <- _ <- _. lia.
  - destruct (bool_decide_reflect (ext <= dw (phase + 1))) as [Hle|_];
      [|injection H as <- _ <- _; lia].
    unfold dw in Hle. rewrite Z.mod_small in Hle by lia.
    apply bind_Ret in H as ([[t1 pos1] r] & H1 & H).
    apply nodes_SEA in H1.
    destruct (bool_decide_reflect (default rule r = 3)) as [Hr|Hr].
    + injection H as <- _ <- _.
      destruct H1 as [[-> _] | (_ & _ & ->)]; [discriminate Hr | lia].
    + apply IH in H; [|lia|lia|unfold dw; apply Z.mod_pos_bound; lia].
      unfold dw in H. rewrite Z.mod_small in H by lia.
      destruct H1 as [[_ H1] | (_ & _ & H1)]; lia.
Qed.

Lemma nodes_phases cnt fuel : forall t pos phase ext rep t',
  0 <= phase -> phase + Z.of_nat cnt + 2 < 2 ^ 64 -> 0 <= ext <= phase + 1 ->
  phases cnt fuel t pos phase ext rep = Ret t' ->
  nodes t <= nodes t' /\
  nodes t' + 2 * ext <= nodes t + 2 * (phase + Z.of_nat cnt + 1).
Proof.
  induction cnt as [|cnt IH]; intros t pos phase ext rep t' Hp Hlt He H;
    cbn [phases] in H.
  - injection H as <-. lia.
  - apply bind_Ret in H as ([[[t1 pos1] ext1] rep1] & H1 & H).
    unfold SPA in H1. apply nodes_SPA_loop in H1; [|lia|lia|lia].
    change (nodes (with_e t (dw (phase + 1)))) with (nodes t) in H1.
    apply IH in H.
    + unfold dw in H. rewrite Z.mod_small in H by lia. lia.
    + unfold dw. apply Z.mod_pos_bound. lia.
    + unfold dw. rewrite Z.mod_small by lia. lia.
    + unfold dw. rewrite Z.mod_small by lia. lia.
Qed.

Lemma nodes_dfs fuel :
  (forall t node depth t' k,
     dfsForInversePointers fuel t node depth = Ret (t', k) -> nodes t' = nodes t) /\
  (forall t c depth num t' k,
     dfs_children fuel t c depth num = Ret (t', k) -> nodes t' = nodes t).
Proof.
  induction fuel as [|fuel [IH1 IH2]]; split.
  - intros; discriminate.
  - intros t [c|] depth num t' k H; simpl in H; [discriminate | now simplify_eq].
  - intros t node depth t' k H. cbn [dfsForInversePointers] in H.
    apply bind_Ret in H as (n & Hn & H).
    destruct (sons n) as [first|].
    + inv_ret H. apply IH2 in H. now rewrite H, !nodes_store.
    + inv_ret H. simplify_eq. rewrite nodes_store.
      unfold nodes. cbn [heap with_maxStrDepth with_inversePointers].
      fold (nodes (store t node (set_strDepth n depth))). apply nodes_store.
  - intros t [c|] depth num t' k H; cbn [dfs_children] in H; [|now simplify_eq].
    inv_ret H. apply IH2 in H. apply IH1 in E0. congruence.
Qed.

(** [ST_CreateTree] allocates at most [2n + 2] nodes for a text of [n]
    bytes, the root included; [parseBLZ] allocates none. *)
Theorem ST_CreateTree_node_count (cappedMax : list Z -> Z -> Z -> Z -> Z)
    (fuel mem_ : nat) (str : list Z) (len C : Z) (k fuel' : nat)
    (t t' : SUFFIX_TREE) (textPos_ prevC : Z) :
  0 <= len -> len + 2 < 2 ^ 32 ->
  ST_CreateTree fuel mem_ str len = Ret t ->
  rounds_run cappedMax k fuel' (with_COST t C) 1 0 = Ret (t', textPos_, prevC) ->
  2 <= nodes t <= 2 * len + 2 /\ nodes t' = nodes t.
Proof.
  intros Hlen Hsz H Hr.
  assert (Hn : 2 <= nodes t <= 2 * len + 2).
  { unfold ST_CreateTree in H. destruct mem_ as [|m]; [discriminate|].
    apply bind_Ret in H as ([t1 r] & H1 & H).
    pose proof (nodes_create_node _ _ _ _ _ _ _ H1) as N1.
    change (nodes (mkTree _ _ _ _ [] _ _ _ _ _ _ _ _)) with 0 in N1.
    assert (Hl1 : length t1 = len + 1).
    { unfold create_node in H1. cbn [avail] in H1.
      destruct m; [discriminate|]. injection H1 as <- _. cbn.
      unfold dw. apply Z.mod_small. lia. }
    apply bind_Ret in H as ([t3 first] & H3 & H).
    pose proof (nodes_create_node _ _ _ _ _ _ _ H3) as N3.
    change (nodes (mkTree _ _ _ _ (heap t1) _ _ _ _ _ _ _ _)) with (nodes t1) in N3.
    assert (Hl3 : length t3 = len + 1).
    { unfold create_node in H3. cbn [avail] in H3.
      destruct (avail t1); [discriminate|]. injection H3 as <- _. exact Hl1. }
    apply bind_Ret in H as (rn & Hrn & H).
    apply bind_Ret in H as (t5 & H5 & H).
    apply bind_Ret in H as ([t6 nn] & H6 & H).
    apply bind_Ret in H as (msd & _ & H). injection H as <-.
    change (nodes (with_D (with_maxStrDepth t6 msd) _)) with (nodes t6).
    apply (proj1 (nodes_dfs fuel)) in H6. rewrite H6.
    cbn [length with_suffixless store with_heap] in H5. rewrite Hl3 in H5.
    destruct (Z.to_nat (len + 1 - 2)) as [|c] eqn:Hc.
    - cbn [phases] in H5. injection H5 as <-.
      rewrite nodes_with_suffixless, nodes_store. lia.
    - apply nodes_phases in H5; [|lia|lia|lia].
      rewrite nodes_with_suffixless, nodes_store in H5. lia. }
  split; [exact Hn|].
  apply rounds_run_static, static_fields in Hr as (_ & _ & _ & _ & _ & Hs).
  apply (f_equal List.length) in Hs. rewrite !length_fmap in Hs.
  cbn [heap with_COST] in Hs. unfold nodes. now rewrite Hs.
Qed.

Lemma ST_CreateTree_node_count_witness :
  0 <= 7 /\ 7 + 2 < 2 ^ 32 /\
  ST_CreateTree 64 64 (aababab ++ [0]) 7 = Ret aababab_tree /\
  rounds_run cappedMax_at 3 64 (with_COST aababab_tree (u32 1)) 1 0
    = Ret (aababab_1_after_3, 6, 4) /\
  nodes aababab_tree = 14 /\
  2 <= nodes aababab_tree <= 2 * 7 + 2 /\ nodes aababab_1_after_3 = nodes aababab_tree.
Proof.
  assert (Hlen : 0 <= 7) by lia.
  assert (Hsz : 7 + 2 < 2 ^ 32) by lia.
  assert (H0 : ST_CreateTree 64 64 (aababab ++ [0]) 7 = Ret aababab_tree)
    by (vm_compute; reflexivity).
  assert (Hk : rounds_run cappedMax_at 3 64 (with_COST aababab_tree (u32 1)) 1 0
               = Ret (aababab_1_after_3, 6, 4)) by (vm_compute; reflexivity).
  refine (conj Hlen (conj Hsz (conj H0 (conj Hk (conj _ _))))).
  - vm_compute. reflexivity.
  - exact (ST_CreateTree_node_count cappedMax_at 64 64 (aababab ++ [0]) 7 (u32 1) 3 64
             aababab_tree aababab_1_after_3 6 4 Hlen Hsz H0 Hk).
Defined.

(** ** The leaves and the suffixes *)

(** The suffix a node stands for when it is a leaf: its [path_position]
    when it has no sons. *)
Definition leafpos (n : NODE) : option Z :=
  match sons n with
  | None => Some (path_position n)
  | Some _ => None
  end.

(** The arena seen as the list of its leaves' suffixes. *)
Definition marks (t : SUFFIX_TREE) : list (option Z) := leafpos <$> heap t.

(** Every leaf stands for a suffix from 1 up to [ext - 1], and no two
    leaves for the same one. *)
Definition leaves_ok (m : list (option Z)) (ext : Z) : Prop :=
  forall i v, m !! i = Some (Some v) ->
    1 <= v < ext /\ forall j, m !! j = Some (Some v) -> j = i.

Lemma marks_store_same t p n n' :
  heap t !! p = Some n -> leafpos n' = leafpos n -> marks (store t p n') = marks t.
Proof.
  intros Hn Hl. unfold marks. cbn [heap store with_heap].
  rewrite list_fmap_insert, Hl. apply list_insert_id.
  now rewrite list_lookup_fmap, Hn.
Qed.

Lemma marks_create_node t f s e_ pp t' q :
  create_node t f s e_ pp = Ret (t', q) ->
  q = List.length (marks t) /\ marks t' = marks t ++ [Some pp].
Proof.
  intros H. apply create_node_heap in H as (-> & H). unfold marks.
  rewrite H, fmap_app, length_fmap. auto.
Qed.

Lemma marks_connect_siblings t l r t' :
  connect_siblings t l r = Ret t' -> marks t' = marks t.
Proof.
  unfold connect_siblings. intros H.
  apply bind_Ret in H as (t1 & H1 & H).
  assert (E1 : marks t1 = marks t).
  { destruct l as [p|].
    - apply bind_Ret in H1 as (n & Hn & H1). apply node_at_Ret in Hn.
      injection H1 as <-. now apply (marks_store_same _ _ n).
    - now injection H1 as <-. }
  destruct r as [q|].
  - apply bind_Ret in H as (n & Hn & H). apply node_at_Ret in Hn.
    injection H as <-. rewrite <- E1. now apply (marks_store_same _ _ n).
  - now injection H as <-.
Qed.

Lemma marks_create_suffix_link t node l t' :
  create_suffix_link t node l = Ret t' -> marks t' = marks t.
Proof.
  unfold create_suffix_link. intros H.
  apply bind_Ret in H as (n & Hn & H). apply node_at_Ret in Hn.
  injection H as <-. now apply (marks_store_same _ _ n).
Qed.

(** Rule 2 adds one leaf, for the suffix [pp]; a split adds an internal
    node before it. *)
Lemma marks_rule_2 fuel t node b e_ pp ep type t' q :
  apply_extension_rule_2 fuel t node b e_ pp ep type = Ret (t', q) ->
  marks t' = marks t ++ match type with
                        | new_son => [Some pp]
                        | split => [None; Some pp]
                        end.
Proof.
  intros H. destruct type; cbn [apply_extension_rule_2] in H.
  - apply bind_Ret in H as ([t1 nl] & H1 & H).
    apply marks_create_node in H1 as (_ & H1).
    apply bind_Ret in H as (n & _ & H). apply bind_Ret in H as (first & _ & H).
    apply bind_Ret in H as (s & _ & H). apply bind_Ret in H as (t2 & H2 & H).
    apply marks_connect_siblings in H2. injection H as <- _. congruence.
  - apply bind_Ret in H as (n & Hn & H). apply node_at_Ret in Hn.
    apply bind_Ret in H as ([t1 ni_] & H1 & H).
    pose proof (create_node_heap _ _ _ _ _ _ _ H1) as (_ & Hh1).
    apply marks_create_node in H1 as (-> & H1).
    set (t2 := store t1 node _) in *.
    assert (E2 : marks t2 = marks t1).
    { apply (marks_store_same _ _ n); [|reflexivity].
      rewrite Hh1. now apply lookup_app_l_Some. }
    apply bind_Ret in H as ([t3 nl] & H3 & H).
    apply marks_create_node in H3 as (-> & H3).
    apply bind_Ret in H as (n3 & Hn3 & H).
    apply bind_Ret in H as (t4 & H4 & H). apply marks_connect_siblings in H4.
    apply bind_Ret in H as (n4 & Hn4 & H).
    apply bind_Ret in H as (t5 & H5 & H). apply marks_connect_siblings in H5.
    apply bind_Ret in H as (n5 & Hn5 & H). apply node_at_Ret in Hn5.
    set (t6 := store t5 node _) in *.
    assert (E6 : marks t6 = marks t5) by (now apply (marks_store_same _ _ n5)).
    apply bind_Ret in H as (ni & Hni & H).
    apply bind_Ret in H as (f & Hf & H).
    apply bind_Ret in H as (fn & Hfn & H). apply node_at_Ret in Hfn.
    set (t7 := if bool_decide (sons fn = Some node) then _ else _) in *.
    assert (E7 : marks t7 = marks t6).
    { unfold t7. case_bool_decide as Hb; [|reflexivity].
      apply (marks_store_same _ _ fn); [exact Hfn|]. unfold leafpos. now rewrite Hb. }
    apply bind_Ret in H as (ni7 & Hni7 & H).
    set (t8 := store t7 _ _) in *.
    assert (E8 : marks t8 = <[List.length (marks t) := None]> (marks t7)).
    { unfold t8, marks. cbn [heap store with_heap]. now rewrite list_fmap_insert. }
    apply bind_Ret in H as (n8 & Hn8 & H). apply node_at_Ret in Hn8.
    set (t9 := store t8 node _) in *.
    assert (E9 : marks t9 = marks t8) by (now apply (marks_store_same _ _ n8)).
    apply bind_Ret in H as (t10 & H10 & H). apply marks_connect_siblings in H10.
    injection H as <- _.
    rewrite H10, E9, E8, E7, E6, H5, H4, H3, E2, H1.
    rewrite <- app_assoc. cbn [app].
    rewrite insert_app_r_alt by lia. now rewrite Nat.sub_diag.
Qed.

Lemma marks_with_suffixless t s : marks (with_suffixless t s) = marks t.
Proof. reflexivity. Qed.

(** The arena [m'] is [m] with one more leaf, for the suffix [v]. *)
Definition grown (m m' : list (option Z)) (v : Z) : Prop :=
  m' = m ++ [Some v] \/ m' = m ++ [None; Some v].

Ltac marks_fwd :=
  repeat match goal with
  | E : apply_extension_rule_2 _ _ _ _ _ _ _ _ = Ret _ |- _ => apply marks_rule_2 in E
  | E : create_suffix_link _ _ _ = Ret _ |- _ => apply marks_create_suffix_link in E
  end.

Ltac marks_simpl :=
  repeat first
    [ rewrite marks_with_suffixless
    | erewrite marks_store_same by (first [apply node_at_Ret; eassumption | reflexivity]) ].

(** An extension adds a leaf exactly when it applies rule 2, and then the
    leaf of the suffix it extends. *)
Lemma marks_SEA fuel t pos str after t' pos' r :
  SEA fuel t pos str after = Ret (t', pos', r) ->
  (r = Some 2 /\ grown (marks t) (marks t') (path_begin str)) \/
  (r <> Some 2 /\ marks t' = marks t).
Proof.
  unfold SEA. intros H. inv_all; marks_fwd; marks_simpl;
    first [ right; split; [discriminate | congruence]
          | left; split; [reflexivity|]; unfold grown;
            first [left; congruence | right; congruence] ].
Qed.

Lemma leaves_ok_mono m ext ext' : leaves_ok m ext -> ext <= ext' -> leaves_ok m ext'.
Proof. intros H Hle i v Hi. destruct (H i v Hi) as (Hv & Hu). split; [lia | exact Hu]. Qed.

Lemma leaves_ok_app_None m ext : leaves_ok m ext -> leaves_ok (m ++ [None]) ext.
Proof.
  intros H i v Hi.
  assert (Hi' : m !! i = Some (Some v)).
  { apply lookup_app_Some in Hi as [Hi | (_ & Hi)]; [exact Hi|].
    apply list_lookup_singleton_Some in Hi as (_ & Hi). discriminate. }
  destruct (H i v Hi') as (Hv & Hu). split; [exact Hv|].
  intros j Hj. apply Hu.
  apply lookup_app_Some in Hj as [Hj | (_ & Hj)]; [exact Hj|].
  apply list_lookup_singleton_Some in Hj as (_ & Hj). discriminate.
Qed.

Lemma leaves_ok_app_Some m ext :
  leaves_ok m ext -> 1 <= ext -> leaves_ok (m ++ [Some ext]) (ext + 1).
Proof.
  intros H Hext i v Hi.
  apply lookup_app_Some in Hi as [Hi | (Hge & Hi)].
  - destruct (H i v Hi) as (Hv & Hu). split; [lia|].
    intros j Hj. apply lookup_app_Some in Hj as [Hj | (_ & Hj)]; [now apply Hu|].
    apply list_lookup_singleton_Some in Hj as (_ & Hj). injection Hj as <-. lia.
  - apply list_lookup_singleton_Some in Hi as (Hi0 & Hi). injection Hi as <-.
    split; [lia|].
    intros j Hj. apply lookup_app_Some in Hj as [Hj | (Hgj & Hj)].
    + destruct (H j ext Hj) as (Hv & _). lia.
    + apply list_lookup_singleton_Some in Hj as (Hj0 & _). lia.
Qed.

Lemma leaves_ok_grown m m' ext :
  leaves_ok m ext -> 1 <= ext -> grown m m' ext -> leaves_ok m' (ext + 1).
Proof.
  intros H Hext [-> | ->].
  - now apply leaves_ok_app_Some.
  - change (m ++ [None; Some ext]) with (m ++ [None] ++ [Some ext]).
    rewrite app_assoc. apply leaves_ok_app_Some; [|exact Hext].
    now apply leaves_ok_app_None.
Qed.

Lemma leaves_SPA_loop fuel fuel0 : forall t pos phase ext rep rule t' pos' ext' rep',
  0 <= phase -> phase + 2 < 2 ^ 64 -> 1 <= ext ->
  leaves_ok (marks t) ext ->
  SPA_loop fuel fuel0 t pos phase ext rep rule = Ret (t', pos', ext', rep') ->
  ext <= ext' /\ ext' <= Z.max ext (phase + 2) /\ leaves_ok (marks t') ext'.
Proof.
  induction fuel as [|fuel IH]; intros t pos phase ext rep rule t' pos' ext' rep'
    Hp Hlt He Hok H; cbn [SPA_loop] in H.
  - destruct (bool_decide _); [discriminate|]. injection H as <- _ <- _.
    split; [lia|]. split; [lia | exact Hok].
  - destruct (bool_decide_reflect (ext <= dw (phase + 1))) as [Hle|_].
    2: { injection H as <- _ <- _. split; [lia|]. split; [lia | exact Hok]. }
    unfold dw in Hle. rewrite Z.mod_small in Hle by lia.
    apply bind_Ret in H as ([[t1 pos1] r] & H1 & H).
    apply marks_SEA in H1. cbn [path_begin] in H1.
    destruct (bool_decide_reflect (default rule r = 3)) as [Hr|Hr].
    + injection H as <- _ <- _.
      destruct H1 as [[-> _] | (_ & ->)]; [discriminate Hr|].
      split; [lia|]. split; [lia | exact Hok].
    + assert (Hok1 : leaves_ok (marks t1) (dw (ext + 1))).
      { unfold dw. rewrite Z.mod_small by lia.
        destruct H1 as [[_ H1] | (_ & ->)].
        - now apply (leaves_ok_grown (marks t)).
        - apply (leaves_ok_mono _ ext); [exact Hok | lia]. }
      apply IH in H; [|lia|lia|unfold dw; rewrite Z.mod_small by lia; lia|exact Hok1].
      unfold dw in H. rewrite Z.mod_small in H by lia.
      destruct H as (Ha & Hb & Hc). split; [lia|]. split; [lia | exact Hc].
Qed.

Lemma leaves_phases cnt fuel : forall t pos phase ext rep t',
  0 <= phase -> phase + Z.of_nat cnt + 2 < 2 ^ 64 -> 1 <= ext <= phase + 1 ->
  leaves_ok (marks t) ext ->
  phases cnt fuel t pos phase ext rep = Ret t' ->
  leaves_ok (marks t') (phase + Z.of_nat cnt + 1).
Proof.
  induction cnt as [|cnt IH]; intros t pos phase ext rep t' Hp Hlt He Hok H;
    cbn [phases] in H.
  - injection H as <-. apply (leaves_ok_mono _ ext); [exact Hok | lia].
  - apply bind_Ret in H as ([[[t1 pos1] ext1] rep1] & H1 & H).
    unfold SPA in H1. apply leaves_SPA_loop in H1; [|lia|lia|lia|exact Hok].
    destruct H1 as (Ha & Hb & Hok1).
    apply IH in H; [| | | |exact Hok1].
    + unfold dw in H. rewrite Z.mod_small in H by lia.
      replace (phase + Z.of_nat (S cnt) + 1) with (phase + 1 + Z.of_nat cnt + 1) by lia.
      exact H.
    + unfold dw. apply Z.mod_pos_bound. lia.
    + unfold dw. rewrite Z.mod_small by lia. lia.
    + unfold dw. rewrite Z.mod_small by lia. lia.
Qed.

Lemma marks_dfs fuel :
  (forall t node depth t' k,
     dfsForInversePointers fuel t node depth = Ret (t', k) -> marks t' = marks t) /\
  (forall t c depth num t' k,
     dfs_children fuel t c depth num = Ret (t', k) -> marks t' = marks t).
Proof.
  induction fuel as [|fuel [IH1 IH2]]; split.
  - intros; discriminate.
  - intros t [c|] depth num t' k H; simpl in H; [discriminate | now simplify_eq].
  - intros t node depth t' k H. cbn [dfsForInversePointers] in H.
    apply bind_Ret in H as (n & Hn & H). apply node_at_Ret in Hn.
    assert (E1 : marks (store t node (set_strDepth n depth)) = marks t)
      by (now apply (marks_store_same _ _ n)).
    destruct (sons n) as [first|].
    + apply bind_Ret in H as (n1 & Hn1 & H). apply node_at_Ret in Hn1.
      apply IH2 in H. rewrite H, <- E1. now apply (marks_store_same _ _ n1).
    + apply bind_Ret in H as (ip & _ & H). apply bind_Ret in H as (f & _ & H).
      apply bind_Ret in H as (fn & _ & H). apply bind_Ret in H as (fd & _ & H).
      apply bind_Ret in H as (msd & _ & H).
      apply bind_Ret in H as (n1 & Hn1 & H). apply node_at_Ret in Hn1.
      injection H as <- _. rewrite <- E1.
      now apply (marks_store_same
                   (with_maxStrDepth (with_inversePointers _ ip) msd) _ n1).
  - intros t [c|] depth num t' k H; cbn [dfs_children] in H; [|now simplify_eq].
    apply bind_Ret in H as (cn & _ & H). apply bind_Ret in H as ([t1 k1] & H1 & H).
    apply bind_Ret in H as (cn' & _ & H).
    apply IH1 in H1. apply IH2 in H. congruence.
Qed.

(** In the tree that [ST_CreateTree] returns for a text of [n] bytes every
    leaf stands for a suffix from 1 to [n + 1], and no two leaves stand for
    the same suffix. *)
Theorem ST_CreateTree_leaves_distinct (fuel mem_ : nat) (str : list Z) (len : Z)
    (t : SUFFIX_TREE) :
  0 <= len -> len + 2 < 2 ^ 32 ->
  ST_CreateTree fuel mem_ str len = Ret t ->
  forall p n, heap t !! p = Some n -> sons n = None ->
    1 <= path_position n <= len + 1 /\
    forall q m, heap t !! q = Some m -> sons m = None ->
      path_position m = path_position n -> q = p.
Proof.
  intros Hlen Hsz H.
  assert (Hok : leaves_ok (marks t) (len + 2)).
  { unfold ST_CreateTree in H. destruct mem_ as [|m]; [discriminate|].
    apply bind_Ret in H as ([t1 r] & H1 & H).
    assert (Hl1 : length t1 = len + 1).
    { unfold create_node in H1. cbn [avail] in H1.
      destruct m; [discriminate|]. injection H1 as <- _. cbn.
      unfold dw. apply Z.mod_small. lia. }
    pose proof (create_node_heap _ _ _ _ _ _ _ H1) as (-> & Hh1). cbn [heap app] in Hh1.
    apply bind_Ret in H as ([t3 first] & H3 & H).
    assert (Hl3 : length t3 = len + 1).
    { unfold create_node in H3. cbn [avail] in H3.
      destruct (avail t1); [discriminate|]. injection H3 as <- _. exact Hl1. }
    pose proof (create_node_heap _ _ _ _ _ _ _ H3) as (-> & Hh3). cbn [heap] in Hh3.
    rewrite Hh1 in Hh3. cbn [app] in Hh3.
    apply bind_Ret in H as (rn & Hrn & H). apply node_at_Ret in Hrn.
    rewrite Hh3 in Hrn. cbn in Hrn. injection Hrn as <-.
    apply bind_Ret in H as (t5 & H5 & H).
    apply bind_Ret in H as ([t6 nn] & H6 & H).
    apply bind_Ret in H as (msd & _ & H). injection H as <-.
    change (marks (with_D (with_maxStrDepth t6 msd) _)) with (marks t6).
    apply (proj1 (marks_dfs fuel)) in H6. rewrite H6.
    cbn [length with_suffixless store with_heap] in H5. rewrite Hl3 in H5.
    set (t4 := with_suffixless _ None) in *.
    assert (E4 : marks t4 = [None; Some 1]).
    { unfold t4, marks. cbn [heap with_suffixless store with_heap].
      rewrite Hh3. reflexivity. }
    assert (Hok4 : leaves_ok (marks t4) 2).
    { rewrite E4. intros [|[|i]] v Hi; cbn in Hi; try discriminate.
      injection Hi as <-. split; [lia|].
      intros [|[|j]] Hj; cbn in Hj; try discriminate. reflexivity. }
    destruct (Z.to_nat (len + 1 - 2)) as [|c] eqn:Hc.
    - cbn [phases] in H5. injection H5 as <-.
      apply (leaves_ok_mono _ 2); [exact Hok4 | lia].
    - apply leaves_phases with (ext := 2) in H5; [|lia|lia|lia|exact Hok4].
      apply (leaves_ok_mono _ _ _ H5). lia. }
  intros p n Hp Hs.
  assert (Hm : marks t !! p = Some (Some (path_position n))).
  { unfold marks. rewrite list_lookup_fmap, Hp. cbn. unfold leafpos. now rewrite Hs. }
  destruct (Hok _ _ Hm) as (Hv & Hu). split; [lia|].
  intros q m Hq Hsm Hpp. apply Hu.
  unfold marks. rewrite list_lookup_fmap, Hq. cbn. unfold leafpos. now rewrite Hsm, Hpp.
Qed.

Lemma ST_CreateTree_leaves_distinct_witness :
  0 <= 7 /\ 7 + 2 < 2 ^ 32 /\
  ST_CreateTree 64 64 (aababab ++ [0]) 7 = Ret aababab_tree /\
  marks aababab_tree
    = [None; Some 1; None; Some 2; Some 3; None; Some 4; None; Some 5; None;
       Some 6; None; Some 7; Some 8] /\
  forall p n, heap aababab_tree !! p = Some n -> sons n = None ->
    1 <= path_position n <= 7 + 1 /\
    forall q m, heap aababab_tree !! q = Some m -> sons m = None ->
      path_position m = path_position n -> q = p.
Proof.
  assert (Hlen : 0 <= 7) by lia.
  assert (Hsz : 7 + 2 < 2 ^ 32) by lia.
  assert (H0 : ST_CreateTree 64 64 (aababab ++ [0]) 7 = Ret aababab_tree)
    by (vm_compute; reflexivity).
  refine (conj Hlen (conj Hsz (conj H0 (conj _ _)))).
  - vm_compute. reflexivity.
  - exact (ST_CreateTree_leaves_distinct 64 64 (aababab ++ [0]) 7 aababab_tree
             Hlen Hsz H0).
Defined.

(** ** The way up to the root *)

(** The arena seen as the list of its nodes' [father] pointers. *)
Definition fathers (t : SUFFIX_TREE) : list (option nat) := father <$> heap t.

(** [reaches F r p]: following the father pointers [F] from node [p]
    arrives at node [r]. *)
Inductive reaches (F : list (option nat)) (r : nat) : nat -> Prop :=
  | reaches_here : reaches F r r
  | reaches_up p f : F !! p = Some (Some f) -> reaches F r f -> reaches F r p.

(** Node 0 has no father and every node reaches it. *)
Definition rooted (F : list (option nat)) : Prop :=
  F !! 0%nat = Some None /\
  forall p, (p < List.length F)%nat -> reaches F 0%nat p.

Lemma fathers_store_same t p n n' :
  heap t !! p = Some n -> father n' = father n -> fathers (store t p n') = fathers t.
Proof.
  intros Hn Hl. unfold fathers. cbn [heap store with_heap].
  rewrite list_fmap_insert, Hl. apply list_insert_id.
  now rewrite list_lookup_fmap, Hn.
Qed.

Lemma fathers_create_node t f s e_ pp t' q :
  create_node t f s e_ pp = Ret (t', q) ->
  q = List.length (fathers t) /\ fathers t' = fathers t ++ [f].
Proof.
  intros H. apply create_node_heap in H as (-> & H). unfold fathers.
  rewrite H, fmap_app, length_fmap. auto.
Qed.

Lemma fathers_connect_siblings t l r t' :
  connect_siblings t l r = Ret t' -> fathers t' = fathers t.
Proof.
  unfold connect_siblings. intros H.
  apply bind_Ret in H as (t1 & H1 & H).
  assert (E1 : fathers t1 = fathers t).
  { destruct l as [p|].
    - apply bind_Ret in H1 as (n & Hn & H1). apply node_at_Ret in Hn.
      injection H1 as <-. now apply (fathers_store_same _ _ n).
    - now injection H1 as <-. }
  destruct r as [q|].
  - apply bind_Ret in H as (n & Hn & H). apply node_at_Ret in Hn.
    injection H as <-. rewrite <- E1. now apply (fathers_store_same _ _ n).
  - now injection H as <-.
Qed.

Lemma fathers_create_suffix_link t node l t' :
  create_suffix_link t node l = Ret t' -> fathers t' = fathers t.
Proof.
  unfold create_suffix_link. intros H.
  apply bind_Ret in H as (n & Hn & H). apply node_at_Ret in Hn.
  injection H as <-. now apply (fathers_store_same _ _ n).
Qed.

Lemma fathers_with_suffixless t s : fathers (with_suffixless t s) = fathers t.
Proof. reflexivity. Qed.

(** How rule 2 hangs the new nodes in: a new son under [node]; a split
    puts the new internal node between [node] and its father and the new
    leaf under the new internal node. *)
Definition hung (F F' : list (option nat)) (node : nat) : Prop :=
  ((node < List.length F)%nat /\ F' = F ++ [Some node]) \/
  (exists f, F !! node = Some (Some f) /\
             F' = <[node := Some (List.length F)]> F ++ [Some f; Some (List.length F)]).

Lemma fathers_rule_2 fuel t node b e_ pp ep type t' q :
  apply_extension_rule_2 fuel t node b e_ pp ep type = Ret (t', q) ->
  hung (fathers t) (fathers t') node.
Proof.
  intros H. destruct type; cbn [apply_extension_rule_2] in H.
  - left.
    apply bind_Ret in H as ([t1 nl] & H1 & H).
    pose proof (create_node_heap _ _ _ _ _ _ _ H1) as (_ & Hh1).
    apply fathers_create_node in H1 as (_ & H1).
    apply bind_Ret in H as (n & Hn & H). apply node_at_Ret in Hn.
    apply bind_Ret in H as (first & Hfirst & H). apply deref_Ret in Hfirst.
    apply bind_Ret in H as (s & _ & H). apply bind_Ret in H as (t2 & H2 & H).
    apply fathers_connect_siblings in H2. injection H as <- _.
    split; [|congruence].
    unfold fathers. rewrite length_fmap.
    apply lookup_lt_Some in Hn as Hb. rewrite Hh1, length_app in Hb. simpl in Hb.
    destruct (decide (node = List.length (heap t))) as [->|]; [|lia].
    rewrite Hh1, list_lookup_middle in Hn by reflexivity. injection Hn as <-.
    discriminate Hfirst.
  - right.
    apply bind_Ret in H as (n & Hn & H). apply node_at_Ret in Hn.
    apply bind_Ret in H as ([t1 ni_] & H1 & H).
    pose proof (create_node_heap _ _ _ _ _ _ _ H1) as (_ & Hh1).
    apply fathers_create_node in H1 as (-> & H1).
    set (t2 := store t1 node _) in *.
    assert (E2 : fathers t2 = fathers t1).
    { apply (fathers_store_same _ _ n); [|reflexivity].
      rewrite Hh1. now apply lookup_app_l_Some. }
    apply bind_Ret in H as ([t3 nl] & H3 & H).
    apply fathers_create_node in H3 as (-> & H3).
    apply bind_Ret in H as (n3 & Hn3 & H).
    apply bind_Ret in H as (t4 & H4 & H). apply fathers_connect_siblings in H4.
    apply bind_Ret in H as (n4 & Hn4 & H).
    apply bind_Ret in H as (t5 & H5 & H). apply fathers_connect_siblings in H5.
    apply bind_Ret in H as (n5 & Hn5 & H). apply node_at_Ret in Hn5.
    set (t6 := store t5 node _) in *.
    assert (E6 : fathers t6 = fathers t5) by (now apply (fathers_store_same _ _ n5)).
    assert (F6 : fathers t6 = fathers t ++ [father n; Some (List.length (fathers t))]).
    { rewrite E6, H5, H4, H3, E2, H1, <- app_assoc. reflexivity. }
    apply bind_Ret in H as (ni & Hni & H). apply node_at_Ret in Hni.
    apply bind_Ret in H as (f & Hf & H). apply deref_Ret in Hf.
    assert (Hfn' : father n = Some f).
    { assert (E : fathers t6 !! List.length (fathers t) = Some (father ni))
        by (change (fathers t6) with (father <$> heap t6);
            now rewrite list_lookup_fmap, Hni).
      rewrite F6, lookup_app_r, Nat.sub_diag in E by lia. cbn in E. congruence. }
    apply bind_Ret in H as (fn & Hfn & H). apply node_at_Ret in Hfn.
    set (t7 := if bool_decide (sons fn = Some node) then _ else _) in *.
    assert (E7 : fathers t7 = fathers t6).
    { unfold t7. case_bool_decide as Hb; [|reflexivity].
      now apply (fathers_store_same _ _ fn). }
    apply bind_Ret in H as (ni7 & Hni7 & H). apply node_at_Ret in Hni7.
    set (t8 := store t7 _ _) in *.
    assert (E8 : fathers t8 = fathers t7) by (now apply (fathers_store_same _ _ ni7)).
    apply bind_Ret in H as (n8 & Hn8 & H).
    set (t9 := store t8 node _) in *.
    assert (E9 : fathers t9 = <[node := Some (List.length (fathers t))]> (fathers t8)).
    { unfold t9, fathers. cbn [heap store with_heap]. now rewrite list_fmap_insert. }
    apply bind_Ret in H as (t10 & H10 & H). apply fathers_connect_siblings in H10.
    injection H as <- _.
    assert (Hx : fathers t !! node = Some (Some f)).
    { unfold fathers. now rewrite list_lookup_fmap, Hn, <- Hfn'. }
    exists f. split; [exact Hx|].
    rewrite H10, E9, E8, E7, F6, Hfn'.
    apply lookup_lt_Some in Hx. now rewrite insert_app_l.
Qed.

Lemma reaches_app F k r p : reaches F r p -> reaches (F ++ k) r p.
Proof.
  induction 1 as [|p f Hp _ IH]; [constructor|].
  apply (reaches_up _ _ p f); [now apply lookup_app_l_Some | exact IH].
Qed.

Lemma rooted_hung F F' node : rooted F -> hung F F' node -> rooted F'.
Proof.
  intros [H0 Hall] [[Hn ->] | (f & Hx & ->)].
  - split; [now apply lookup_app_l_Some|].
    intros p Hp. rewrite length_app in Hp. simpl in Hp.
    destruct (decide (p = List.length F)) as [->|Hne].
    + apply (reaches_up _ _ _ node); [now rewrite list_lookup_middle|].
      apply reaches_app, Hall, Hn.
    + apply reaches_app, Hall. lia.
  - set (N := List.length F). set (F' := <[node := Some N]> F ++ [Some f; Some N]).
    assert (Hxb : (node < N)%nat) by (now apply lookup_lt_Some in Hx).
    assert (Hx0 : node <> 0%nat) by (intros ->; congruence).
    assert (Hlen : List.length (<[node := Some N]> F) = N) by apply length_insert.
    assert (HN : F' !! N = Some (Some f)).
    { unfold F'. rewrite lookup_app_r by lia. rewrite Hlen, Nat.sub_diag. reflexivity. }
    assert (HS : F' !! S N = Some (Some N)).
    { unfold F'. rewrite lookup_app_r by lia. rewrite Hlen.
      replace (S N - N)%nat with 1%nat by lia. reflexivity. }
    assert (Hx' : F' !! node = Some (Some N)).
    { unfold F'. rewrite lookup_app_l by lia. now apply list_lookup_insert_eq. }
    assert (Hold : forall p v, p <> node -> F !! p = Some v -> F' !! p = Some v).
    { intros p v Hne Hp. unfold F'. apply lookup_app_l_Some.
      now rewrite list_lookup_insert_ne. }
    assert (Hup : forall p, reaches F 0%nat p -> reaches F' 0%nat p).
    { induction 1 as [|p g Hp _ IH]; [constructor|].
      destruct (decide (p = node)) as [->|Hne].
      - assert (g = f) by congruence. subst g.
        apply (reaches_up _ _ _ N); [exact Hx'|].
        apply (reaches_up _ _ _ f); [exact HN | exact IH].
      - apply (reaches_up _ _ _ g); [now apply Hold | exact IH]. }
    assert (Hf : reaches F' 0%nat f).
    { apply Hup. pose proof (Hall node Hxb) as Hr. inversion Hr as [E | p g Hp Hg E].
      - congruence.
      - assert (g = f) by congruence. now subst g. }
    split; [now apply Hold|].
    intros p Hp. unfold F' in Hp. rewrite length_app, Hlen in Hp. simpl in Hp.
    destruct (decide (p = N)) as [->|HpN];
      [exact (reaches_up _ _ _ _ HN Hf)|].
    destruct (decide (p = S N)) as [->|HpS].
    + exact (reaches_up _ _ _ _ HS (reaches_up _ _ _ _ HN Hf)).
    + apply Hup, Hall. lia.
Qed.

Ltac fathers_fwd :=
  repeat match goal with
  | E : apply_extension_rule_2 _ _ _ _ _ _ _ _ = Ret _ |- _ => apply fathers_rule_2 in E
  | E : create_suffix_link _ _ _ = Ret _ |- _ => apply fathers_create_suffix_link in E
  end.

Ltac fathers_simpl :=
  repeat first
    [ rewrite fathers_with_suffixless
    | erewrite fathers_store_same by (first [apply node_at_Ret; eassumption | reflexivity]) ].

Lemma rooted_SEA fuel t pos str after t' pos' r :
  rooted (fathers t) -> SEA fuel t pos str after = Ret (t', pos', r) ->
  rooted (fathers t').
Proof.
  unfold SEA. intros Hr H. inv_all; fathers_fwd; fathers_simpl;
    repeat match goal with
    | E : fathers ?a = fathers ?b |- _ => rewrite E in *; clear E
    end;
    first [ assumption | eapply rooted_hung; eassumption ].
Qed.

Lemma rooted_SPA_loop fuel fuel0 : forall t pos phase ext rep rule t' pos' ext' rep',
  rooted (fathers t) ->
  SPA_loop fuel fuel0 t pos phase ext rep rule = Ret (t', pos', ext', rep') ->
  rooted (fathers t').
Proof.
  induction fuel as [|fuel IH]; intros t pos phase ext rep rule t' pos' ext' rep' Hl H;
    cbn [SPA_loop] in H.
  - destruct (bool_decide _); [discriminate | now injection H as <- _ _ _].
  - destruct (bool_decide _); [| now injection H as <- _ _ _].
    apply bind_Ret in H as ([[t1 pos1] r] & H1 & H).
    apply rooted_SEA in H1; [|exact Hl].
    destruct (bool_decide _); [now injection H as <- _ _ _|].
    exact (IH _ _ _ _ _ _ _ _ _ _ H1 H).
Qed.

Lemma rooted_phases cnt fuel : forall t pos phase ext rep t',
  rooted (fathers t) -> phases cnt fuel t pos phase ext rep = Ret t' ->
  rooted (fathers t').
Proof.
  induction cnt as [|cnt IH]; intros t pos phase ext rep t' Hl H; cbn [phases] in H.
  - now injection H as <-.
  - apply bind_Ret in H as ([[[t1 pos1] ext1] rep1] & H1 & H).
    unfold SPA in H1. apply rooted_SPA_loop in H1; [|exact Hl].
    exact (IH _ _ _ _ _ _ H1 H).
Qed.

Lemma fathers_dfs fuel :
  (forall t node depth t' k,
     dfsForInversePointers fuel t node depth = Ret (t', k) -> fathers t' = fathers t) /\
  (forall t c depth num t' k,
     dfs_children fuel t c depth num = Ret (t', k) -> fathers t' = fathers t).
Proof.
  induction fuel as [|fuel [IH1 IH2]]; split.
  - intros; discriminate.
  - intros t [c|] depth num t' k H; simpl in H; [discriminate | now simplify_eq].
  - intros t node depth t' k H. cbn [dfsForInversePointers] in H.
    apply bind_Ret in H as (n & Hn & H). apply node_at_Ret in Hn.
    assert (E1 : fathers (store t node (set_strDepth n depth)) = fathers t)
      by (now apply (fathers_store_same _ _ n)).
    destruct (sons n) as [first|].
    + apply bind_Ret in H as (n1 & Hn1 & H). apply node_at_Ret in Hn1.
      apply IH2 in H. rewrite H, <- E1. now apply (fathers_store_same _ _ n1).
    + apply bind_Ret in H as (ip & _ & H). apply bind_Ret in H as (f & _ & H).
      apply bind_Ret in H as (fn & _ & H). apply bind_Ret in H as (fd & _ & H).
      apply bind_Ret in H as (msd & _ & H).
      apply bind_Ret in H as (n1 & Hn1 & H). apply node_at_Ret in Hn1.
      injection H as <- _. rewrite <- E1.
      now apply (fathers_store_same
                   (with_maxStrDepth (with_inversePointers _ ip) msd) _ n1).
  - intros t [c|] depth num t' k H; cbn [dfs_children] in H; [|now simplify_eq].
    apply bind_Ret in H as (cn & _ & H). apply bind_Ret in H as ([t1 k1] & H1 & H).
    apply bind_Ret in H as (cn' & _ & H).
    apply IH1 in H1. apply IH2 in H. congruence.
Qed.

(** The construction never moves [tree->root]. *)
Lemma root_create_node t f s e_ p t' q :
  create_node t f s e_ p = Ret (t', q) -> root t' = root t.
Proof. unfold create_node. intros H. destruct (avail t); now simplify_eq. Qed.

Lemma root_connect_siblings t l r t' :
  connect_siblings t l r = Ret t' -> root t' = root t.
Proof. unfold connect_siblings. intros H. inv_all; reflexivity. Qed.

Lemma root_create_suffix_link t node link t' :
  create_suffix_link t node link = Ret t' -> root t' = root t.
Proof. unfold create_suffix_link. intros H. inv_all; reflexivity. Qed.

Ltac root_fwd :=
  repeat match goal with
  | E : create_node _ _ _ _ _ = Ret _ |- _ => apply root_create_node in E
  | E : connect_siblings _ _ _ = Ret _ |- _ => apply root_connect_siblings in E
  | E : create_suffix_link _ _ _ = Ret _ |- _ => apply root_create_suffix_link in E
  end.

Ltac root_solve :=
  cbn [root store with_heap with_suffixless] in *;
  repeat (match goal with
          | H : context [root (if ?b then _ else _)] |- _ => destruct b
          | |- context [root (if ?b then _ else _)] => destruct b
          end; cbn [root store with_heap with_suffixless] in *);
  congruence.

Lemma root_apply_extension_rule_2 fuel t node b e_ pp ep type t' q :
  apply_extension_rule_2 fuel t node b e_ pp ep type = Ret (t', q) -> root t' = root t.
Proof.
  unfold apply_extension_rule_2. intros H. inv_all; root_fwd; root_solve.
Qed.

Lemma root_SEA fuel t pos str after t' pos' r :
  SEA fuel t pos str after = Ret (t', pos', r) -> root t' = root t.
Proof.
  unfold SEA. intros H. inv_all; root_fwd;
    repeat match goal with
    | E : apply_extension_rule_2 _ _ _ _ _ _ _ _ = Ret _ |- _ =>
      apply root_apply_extension_rule_2 in E
    end; root_solve.
Qed.

Lemma root_SPA_loop fuel fuel0 t pos phase ext rep rule t' pos' ext' rep' :
  SPA_loop fuel fuel0 t pos phase ext rep rule = Ret (t', pos', ext', rep') ->
  root t' = root t.
Proof.
  revert t pos ext rep rule.
  induction fuel as [|fuel IH]; intros t pos ext rep rule H; cbn [SPA_loop] in H.
  - destruct (bool_decide _); [discriminate | now injection H as <- _ _ _].
  - destruct (bool_decide _); [| now injection H as <- _ _ _].
    inv_ret H. apply root_SEA in E.
    destruct (bool_decide _); [now injection H as <- _ _ _|]. apply IH in H. congruence.
Qed.

Lemma root_phases cnt fuel : forall t pos phase ext rep t',
  phases cnt fuel t pos phase ext rep = Ret t' -> root t' = root t.
Proof.
  induction cnt as [|cnt IH]; intros t pos phase ext rep t' H; cbn [phases] in H.
  - now injection H as <-.
  - apply bind_Ret in H as ([[[t1 pos1] ext1] rep1] & H1 & H).
    unfold SPA in H1. apply root_SPA_loop in H1. apply IH in H.
    rewrite H, H1. reflexivity.
Qed.

Lemma root_dfs fuel :
  (forall t node depth t' k,
     dfsForInversePointers fuel t node depth = Ret (t', k) -> root t' = root t) /\
  (forall t c depth num t' k,
     dfs_children fuel t c depth num = Ret (t', k) -> root t' = root t).
Proof.
  induction fuel as [|fuel [IH1 IH2]]; split.
  - intros; discriminate.
  - intros t [c|] depth num t' k H; simpl in H; [discriminate | now simplify_eq].
  - intros t node depth t' k H. cbn [dfsForInversePointers] in H.
    apply bind_Ret in H as (n & Hn & H).
    destruct (sons n) as [first|].
    + inv_ret H. apply IH2 in H. exact H.
    + inv_ret H. simplify_eq. reflexivity.
  - intros t [c|] depth num t' k H; cbn [dfs_children] in H; [|now simplify_eq].
    inv_ret H. apply IH2 in H. apply IH1 in E0. congruence.
Qed.

(** In the tree that [ST_CreateTree] returns the root is the first node
    of the arena and has no father, and from every node the father
    pointers lead up to the root. *)
Theorem ST_CreateTree_fathers_reach_root (fuel mem_ : nat) (str : list Z) (len : Z)
    (t : SUFFIX_TREE) :
  ST_CreateTree fuel mem_ str len = Ret t ->
  root t = 0%nat /\
  (exists n, heap t !! root t = Some n /\ father n = None) /\
  forall p n, heap t !! p = Some n -> reaches (fathers t) (root t) p.
Proof.
  intros H.
  unfold ST_CreateTree in H. destruct mem_ as [|m]; [discriminate|].
  apply bind_Ret in H as ([t1 r] & H1 & H).
  pose proof (create_node_heap _ _ _ _ _ _ _ H1) as (-> & Hh1). cbn [heap app] in Hh1.
  apply bind_Ret in H as ([t3 first] & H3 & H).
  pose proof (create_node_heap _ _ _ _ _ _ _ H3) as (-> & Hh3). cbn [heap] in Hh3.
  apply root_create_node in H3. cbn [root] in H3.
  rewrite Hh1 in Hh3. cbn [app] in Hh3.
  apply bind_Ret in H as (rn & Hrn & H). apply node_at_Ret in Hrn.
  rewrite Hh3 in Hrn. cbn in Hrn. injection Hrn as <-.
  apply bind_Ret in H as (t5 & H5 & H).
  apply bind_Ret in H as ([t6 nn] & H6 & H).
  apply bind_Ret in H as (msd & _ & H). injection H as <-.
  cbn [root heap with_D with_maxStrDepth].
  change (fathers (with_D (with_maxStrDepth t6 msd) _)) with (fathers t6).
  set (t4 := with_suffixless _ None) in *.
  assert (Hr4 : root t4 = 0%nat) by exact H3.
  assert (E4 : fathers t4 = [None; Some 0%nat]).
  { unfold t4, fathers. cbn [heap with_suffixless store with_heap].
    rewrite Hh3. reflexivity. }
  assert (Hok4 : rooted (fathers t4)).
  { rewrite E4. split; [reflexivity|].
    intros [|[|p]] Hp; [constructor | | simpl in Hp; lia].
    apply (reaches_up _ _ _ 0%nat); [reflexivity | constructor]. }
  apply rooted_phases in H5 as Hok5; [|exact Hok4].
  apply root_phases in H5.
  apply (proj1 (root_dfs fuel)) in H6 as Hr6.
  apply (proj1 (fathers_dfs fuel)) in H6.
  assert (Hroot : root t6 = 0%nat) by congruence.
  rewrite Hroot, H6. destruct Hok5 as (H0 & Hall).
  split; [reflexivity|]. split.
  - rewrite <- H6 in H0. unfold fathers in H0. rewrite list_lookup_fmap in H0.
    destruct (heap t6 !! 0%nat) as [n|]; [|discriminate].
    exists n. split; [reflexivity|]. cbn in H0. congruence.
  - intros p n Hp. apply Hall. rewrite <- H6. unfold fathers. rewrite length_fmap.
    now apply lookup_lt_Some in Hp.
Qed.

Lemma ST_CreateTree_fathers_reach_root_witness :
  ST_CreateTree 64 64 (aababab ++ [0]) 7 = Ret aababab_tree /\
  fathers aababab_tree
    = [None; Some 2%nat; Some 0%nat; Some 5%nat; Some 7%nat; Some 9%nat;
       Some 5%nat; Some 11%nat; Some 7%nat; Some 2%nat; Some 9%nat;
       Some 0%nat; Some 11%nat; Some 0%nat] /\
  root aababab_tree = 0%nat /\
  (exists n, heap aababab_tree !! root aababab_tree = Some n /\ father n = None) /\
  forall p n, heap aababab_tree !! p = Some n ->
    reaches (fathers aababab_tree) (root aababab_tree) p.
Proof.
  assert (H0 : ST_CreateTree 64 64 (aababab ++ [0]) 7 = Ret aababab_tree)
    by (vm_compute; reflexivity).
  refine (conj H0 (conj _ _)).
  - vm_compute. reflexivity.
  - exact (ST_CreateTree_fathers_reach_root 64 64 (aababab ++ [0]) 7 aababab_tree H0).
Defined.

(** ** Tracing a string along one edge *)

(** The text has the same byte at the positions [a] and [b]. *)
Definition agree (t : SUFFIX_TREE) (a b : Z) : Prop :=
  exists x, char_at t (dw a) = Ret x /\ char_at t (dw b) = Ret x.

(** The text has different bytes at the positions [a] and [b]. *)
Definition differ (t : SUFFIX_TREE) (a b : Z) : Prop :=
  exists x y, char_at t (dw a) = Ret x /\ char_at t (dw b) = Ret y /\ x <> y.

Lemma scan_edge_spec cnt t start sb len : forall ep r,
  0 <= ep -> len < 2 ^ 64 ->
  scan_edge cnt t start sb len ep ep = Ret r ->
  match r with
  | inl (ep', cf) =>
      ep <= cf < len /\ ep' = dw (cf - 1) /\
      (forall i, ep <= i < cf -> agree t (start + i) (sb + i)) /\
      differ t (start + cf) (sb + cf)
  | inr (ep', cf) =>
      ep' = cf /\ cf = Z.max ep len /\
      (forall i, ep <= i < cf -> agree t (start + i) (sb + i))
  end.
Proof.
  induction cnt as [|cnt IH]; intros ep r Hep Hlen H; cbn [scan_edge] in H.
  - destruct (bool_decide_reflect (ep < len)) as [Hlt|Hge]; [discriminate|].
    injection H as <-. split; [reflexivity|]. split; [lia|]. intros i Hi. lia.
  - destruct (bool_decide_reflect (ep < len)) as [Hlt|Hge].
    2: { injection H as <-. split; [reflexivity|]. split; [lia|]. intros i Hi. lia. }
    apply bind_Ret in H as (a & Ha & H). apply bind_Ret in H as (b & Hb & H).
    destruct (bool_decide_reflect (a = b)) as [->|Hne].
    + assert (E : dw (ep + 1) = ep + 1) by (unfold dw; apply Z.mod_small; lia).
      rewrite E in H. apply IH in H; [|lia|exact Hlen].
      assert (Hag : agree t (start + ep) (sb + ep)) by (exists b; auto).
      destruct r as [[ep' cf] | [ep' cf]].
      * destruct H as (H1 & H2 & H3 & H4). split; [lia|]. split; [exact H2|].
        split; [|exact H4]. intros i Hi.
        destruct (decide (i = ep)) as [->|]; [exact Hag | apply H3; lia].
      * destruct H as (H1 & H2 & H3). split; [exact H1|]. split; [lia|].
        intros i Hi. destruct (decide (i = ep)) as [->|]; [exact Hag | apply H3; lia].
    + injection H as <-. split; [lia|]. split; [reflexivity|].
      split; [intros i Hi; lia|]. exists a, b. auto.
Qed.

(** [trace_single_edge] in [no_skip] mode.  When no edge out of [node]
    begins with the first byte of the string it stays at [node] and finds
    nothing.  Otherwise it enters the edge into the son [find_son] gives,
    and [chars_found] is the length of the longest common prefix of the
    string and the edge label: at least 1, at most the shorter of the two
    lengths, the bytes before it agree, and when it is less than both
    lengths the next bytes differ.  [edge_pos] is [chars_found - 1], and
    the search goes on exactly when the comparison ran to the end of the
    edge and the string is longer. *)
Theorem trace_single_edge_no_skip (fuel : nat) (t : SUFFIX_TREE) (node : nat)
    (str : PATH) (node' : nat) (ep cf : Z) (done : bool) :
  trace_single_edge fuel t node str no_skip = Ret (node', ep, cf, done) ->
  exists c, char_at t (path_begin str) = Ret c /\
  ((find_son fuel t node c = Ret None /\
    node' = node /\ cf = 0 /\ done = true) \/
   (exists n len,
      find_son fuel t node c = Ret (Some node') /\
      heap t !! node' = Some n /\
      get_node_label_length t node' = Ret len /\
      let str_len := dw (path_end str - path_begin str + 1) in
      let L := Z.min str_len len in
      1 <= cf <= Z.max 1 L /\ ep = dw (cf - 1) /\
      (forall i, 1 <= i < cf ->
         agree t (edge_label_start n + i) (path_begin str + i)) /\
      (cf < L ->
         done = true /\ differ t (edge_label_start n + cf) (path_begin str + cf)) /\
      (L <= cf -> done = negb (bool_decide (cf < str_len))))).
Proof.
  unfold trace_single_edge. intros H.
  apply bind_Ret in H as (c & Hc & H). exists c. split; [exact Hc|].
  apply bind_Ret in H as (cont & Hcont & H).
  destruct cont as [q|].
  - right.
    apply bind_Ret in H as (len & Hlen & H).
    apply bind_Ret in H as (n & Hn & H). apply node_at_Ret in Hn.
    apply bind_Ret in H as (r & Hr & H).
    set (str_len := dw (path_end str - path_begin str + 1)) in *.
    assert (Hsl : 0 <= str_len < 2 ^ 64) by (apply Z.mod_pos_bound; lia).
    assert (Hl : 0 <= len < 2 ^ 64).
    { unfold get_node_label_length in Hlen.
      apply bind_Ret in Hlen as (n0 & _ & Hlen). apply bind_Ret in Hlen as (e0 & _ & Hlen).
      injection Hlen as <-. apply Z.mod_pos_bound. lia. }
    assert (EL : (if bool_decide (str_len < len) then str_len else len)
                 = Z.min str_len len).
    { case_bool_decide; lia. }
    rewrite EL in Hr. set (L := Z.min str_len len) in *.
    apply scan_edge_spec in Hr; [|lia|lia].
    destruct r as [[ep' cf'] | [ep' cf']].
    + injection H as <- <- <- <-. destruct Hr as (H1 & H2 & H3 & H4).
      exists n, len. split; [exact Hcont|]. split; [exact Hn|]. split; [exact Hlen|].
      cbn zeta. fold str_len. fold L.
      split; [lia|]. split; [exact H2|]. split; [exact H3|].
      split; [intros _; split; [reflexivity | exact H4]|]. intros Hge. lia.
    + injection H as <- <- <- <-. destruct Hr as (-> & H2 & H3).
      exists n, len. split; [exact Hcont|]. split; [exact Hn|]. split; [exact Hlen|].
      cbn zeta. fold str_len. fold L.
      split; [lia|]. split; [reflexivity|]. split; [exact H3|].
      split; [intros Hlt; lia|]. intros _. reflexivity.
  - left. apply bind_Ret in H as (len & Hlen & H). injection H as <- _ <- <-.
    auto.
Qed.

Lemma trace_single_edge_no_skip_witness :
  let t := aababab_tree in
  let str := mkPath 4 8 in
  trace_single_edge 64 t 2 str no_skip = Ret (1%nat, 3, 4, true) /\
  exists c, char_at t (path_begin str) = Ret c /\
  ((find_son 64 t 2 c = Ret None /\ 1%nat = 2%nat /\ 4 = 0 /\ true = true) \/
   (exists n len,
      find_son 64 t 2 c = Ret (Some 1%nat) /\
      heap t !! 1%nat = Some n /\
      get_node_label_length t 1 = Ret len /\
      let str_len := dw (path_end str - path_begin str + 1) in
      let L := Z.min str_len len in
      1 <= 4 <= Z.max 1 L /\ 3 = dw (4 - 1) /\
      (forall i, 1 <= i < 4 ->
         agree t (edge_label_start n + i) (path_begin str + i)) /\
      (4 < L ->
         true = true /\ differ t (edge_label_start n + 4) (path_begin str + 4)) /\
      (L <= 4 -> true = negb (bool_decide (4 < str_len))))).
Proof.
  intros t str.
  assert (H : trace_single_edge 64 t 2 str no_skip = Ret (1%nat, 3, 4, true))
    by (vm_compute; reflexivity).
  refine (conj H _).
  exact (trace_single_edge_no_skip 64 t 2 str 1 3 4 true H).
Defined.

(** ** The edge labels lie inside the text *)

(** What the label bounds of a node depend on: [edge_label_start],
    [edge_label_end], whether it has sons, and whether it has a father. *)
Definition tag (n : NODE) : Z * Z * bool * bool :=
  (edge_label_start n, edge_label_end n, bool_decide (sons n <> None),
   bool_decide (father n <> None)).

Definition tags (t : SUFFIX_TREE) : list (Z * Z * bool * bool) := tag <$> heap t.

Lemma tags_store_same t p n n' :
  heap t !! p = Some n -> tag n' = tag n -> tags (store t p n') = tags t.
Proof.
  intros Hn Hl. unfold tags. cbn [heap store with_heap].
  rewrite list_fmap_insert, Hl. apply list_insert_id.
  now rewrite list_lookup_fmap, Hn.
Qed.

Lemma tags_store t p n' : tags (store t p n') = <[p := tag n']> (tags t).
Proof. unfold tags. cbn [heap store with_heap]. apply list_fmap_insert. Qed.

Lemma tags_lookup t p n : heap t !! p = Some n -> tags t !! p = Some (tag n).
Proof. intros H. unfold tags. now rewrite list_lookup_fmap, H. Qed.

Lemma tags_lookup_inv t p x :
  tags t !! p = Some x -> exists n, heap t !! p = Some n /\ tag n = x.
Proof.
  unfold tags. rewrite list_lookup_fmap. destruct (heap t !! p) as [n|]; [|discriminate].
  intros [= <-]. eauto.
Qed.

Lemma tags_create_node t f s e_ pp t' q :
  create_node t f s e_ pp = Ret (t', q) ->
  q = List.length (tags t) /\
  tags t' = tags t ++ [(s, e_, false, bool_decide (f <> None))].
Proof.
  intros H. apply create_node_heap in H as (-> & H). unfold tags.
  rewrite H, fmap_app, length_fmap. auto.
Qed.

Lemma tags_connect_siblings t l r t' :
  connect_siblings t l r = Ret t' -> tags t' = tags t.
Proof.
  unfold connect_siblings. intros H.
  apply bind_Ret in H as (t1 & H1 & H).
  assert (E1 : tags t1 = tags t).
  { destruct l as [p|].
    - apply bind_Ret in H1 as (n & Hn & H1). apply node_at_Ret in Hn.
      injection H1 as <-. now apply (tags_store_same _ _ n).
    - now injection H1 as <-. }
  destruct r as [q|].
  - apply bind_Ret in H as (n & Hn & H). apply node_at_Ret in Hn.
    injection H as <-. rewrite <- E1. now apply (tags_store_same _ _ n).
  - now injection H as <-.
Qed.

Lemma tags_create_suffix_link t node l t' :
  create_suffix_link t node l = Ret t' -> tags t' = tags t.
Proof.
  unfold create_suffix_link. intros H.
  apply bind_Ret in H as (n & Hn & H). apply node_at_Ret in Hn.
  injection H as <-. now apply (tags_store_same _ _ n).
Qed.

Lemma tags_with_suffixless t s : tags (with_suffixless t s) = tags t.
Proof. reflexivity. Qed.

(** What rule 2 does to the labels: a new son is a leaf with the label it
    is given; a split cuts the label of [node] after [ep + 1] bytes, gives
    the head to the new internal node and leaves the tail with [node]. *)
Definition cut (T T' : list (Z * Z * bool * bool)) (node : nat) (b e_ ep : Z)
    (type : RULE_2_TYPE) : Prop :=
  match type with
  | new_son => T' = T ++ [(b, e_, false, true)]
  | split =>
    exists s en so,
      T !! node = Some (s, en, so, true) /\
      T' = <[node := (dw (s + (ep + 1)), en, so, true)]> T
             ++ [(s, dw (s + ep), true, true); (b, e_, false, true)]
  end.

Lemma tags_rule_2 fuel t node b e_ pp ep type t' q :
  apply_extension_rule_2 fuel t node b e_ pp ep type = Ret (t', q) ->
  cut (tags t) (tags t') node b e_ ep type /\
  (type = split -> q = List.length (tags t)).
Proof.
  intros H. destruct type; cbn [apply_extension_rule_2] in H.
  - split; [|discriminate]. cbn [cut].
    apply bind_Ret in H as ([t1 nl] & H1 & H).
    apply tags_create_node in H1 as (_ & H1).
    apply bind_Ret in H as (n & Hn & H).
    apply bind_Ret in H as (first & Hfirst & H).
    apply bind_Ret in H as (s & _ & H). apply bind_Ret in H as (t2 & H2 & H).
    apply tags_connect_siblings in H2. injection H as <- _. rewrite H2, H1.
    now rewrite bool_decide_eq_true_2 by discriminate.
  - apply bind_Ret in H as (n & Hn & H). apply node_at_Ret in Hn.
    apply bind_Ret in H as ([t1 ni_] & H1 & H).
    pose proof (create_node_heap _ _ _ _ _ _ _ H1) as (_ & Hh1).
    apply tags_create_node in H1 as (-> & H1).
    set (N := List.length (tags t)) in *.
    set (t2 := store t1 node _) in *.
    assert (E2 : tags t2 = <[node := (dw (edge_label_start n + (ep + 1)),
                                       edge_label_end n, bool_decide (sons n <> None),
                                       bool_decide (father n <> None))]> (tags t1))
      by apply tags_store.
    apply bind_Ret in H as ([t3 nl] & H3 & H).
    apply tags_create_node in H3 as (-> & H3).
    apply bind_Ret in H as (n3 & Hn3 & H).
    apply bind_Ret in H as (t4 & H4 & H). apply tags_connect_siblings in H4.
    apply bind_Ret in H as (n4 & Hn4 & H).
    apply bind_Ret in H as (t5 & H5 & H). apply tags_connect_siblings in H5.
    apply bind_Ret in H as (n5 & Hn5 & H). apply node_at_Ret in Hn5.
    set (t6 := store t5 node _) in *.
    assert (E6 : tags t6 = tags t5) by (now apply (tags_store_same _ _ n5)).
    apply bind_Ret in H as (ni & Hni & H). apply node_at_Ret in Hni.
    apply bind_Ret in H as (f & Hf & H). apply deref_Ret in Hf.
    assert (Hxb : (node < N)%nat).
    { unfold N, tags. rewrite length_fmap. now apply lookup_lt_Some in Hn. }
    assert (F6 : tags t6 = <[node := (dw (edge_label_start n + (ep + 1)),
                                       edge_label_end n, bool_decide (sons n <> None),
                                       bool_decide (father n <> None))]> (tags t)
                           ++ [(edge_label_start n, dw (edge_label_start n + ep), false,
                                bool_decide (father n <> None));
                               (b, e_, false, true)]).
    { rewrite E6, H5, H4, H3, E2, H1, insert_app_l by exact Hxb.
      rewrite <- app_assoc. reflexivity. }
    assert (Hfn' : bool_decide (father n <> None) = true).
    { apply tags_lookup in Hni. rewrite F6 in Hni.
      rewrite lookup_app_r in Hni by (rewrite length_insert; fold N; lia).
      rewrite length_insert in Hni. fold N in Hni. rewrite Nat.sub_diag in Hni.
      cbn [lookup list_lookup] in Hni. unfold tag in Hni.
      injection Hni as _ _ _ Hni. rewrite Hni.
      apply bool_decide_eq_true. congruence. }
    apply bind_Ret in H as (fn & Hfn & H). apply node_at_Ret in Hfn.
    set (t7 := if bool_decide (sons fn = Some node) then _ else _) in *.
    assert (E7 : tags t7 = tags t6).
    { unfold t7. destruct (bool_decide_reflect (sons fn = Some node)) as [Hb|Hb];
        [|reflexivity].
      apply (tags_store_same _ _ fn); [exact Hfn|].
      unfold tag. cbn. rewrite Hb. reflexivity. }
    apply bind_Ret in H as (ni7 & Hni7 & H). apply node_at_Ret in Hni7.
    set (t8 := store t7 _ _) in *.
    assert (E8 : tags t8 = <[N := (edge_label_start n, dw (edge_label_start n + ep),
                                    true, true)]> (tags t7)).
    { unfold t8. rewrite tags_store. f_equal.
      apply tags_lookup in Hni7. rewrite E7, F6 in Hni7.
      rewrite lookup_app_r in Hni7 by (rewrite length_insert; fold N; lia).
      rewrite length_insert in Hni7. fold N in Hni7. rewrite Nat.sub_diag in Hni7.
      cbn [lookup list_lookup] in Hni7. rewrite Hfn' in Hni7.
      unfold tag in *. cbn [sons father edge_label_start edge_label_end set_sons].
      injection Hni7 as E1 E2' _ E4. rewrite <- E1, <- E2', <- E4.
      now rewrite bool_decide_eq_true_2 by discriminate. }
    apply bind_Ret in H as (n8 & Hn8 & H). apply node_at_Ret in Hn8.
    set (t9 := store t8 node _) in *.
    assert (E9 : tags t9 = tags t8).
    { apply (tags_store_same _ _ n8); [exact Hn8|].
      assert (Hf8 : bool_decide (father n8 <> None) = true).
      { apply tags_lookup in Hn8. rewrite E8, E7, F6 in Hn8.
        rewrite list_lookup_insert_ne in Hn8 by lia.
        rewrite lookup_app_l in Hn8 by (rewrite length_insert; fold N; lia).
        rewrite list_lookup_insert_eq in Hn8 by (fold N; lia).
        unfold tag in Hn8. injection Hn8 as _ _ _ Hn8. now rewrite <- Hn8. }
      unfold tag. cbn. now rewrite Hf8. }
    apply bind_Ret in H as (t10 & H10 & H). apply tags_connect_siblings in H10.
    injection H as <- <-. split; [|reflexivity]. cbn [cut].
    exists (edge_label_start n), (edge_label_end n), (bool_decide (sons n <> None)).
    split.
    + apply tags_lookup in Hn. unfold tag in Hn. now rewrite Hfn' in Hn.
    + rewrite H10, E9, E8, E7, F6, Hfn'. fold N.
      rewrite insert_app_r_alt by (rewrite length_insert; fold N; lia).
      rewrite length_insert. fold N. now rewrite Nat.sub_diag.
Qed.

(** The last position of the label of a node with the tag [x], when the
    leaves end at [E]. *)
Definition eff_end (E : Z) (x : Z * Z * bool * bool) : Z :=
  if x.1.2 then x.1.1.2 else E.

(** The label of node [p] is a range of positions up to [E]; the root,
    node 0, has no father and every other node a label from 1 on. *)
Definition span (E : Z) (p : nat) (x : Z * Z * bool * bool) : Prop :=
  0 <= x.1.1.1 <= eff_end E x /\ eff_end E x <= E /\
  match p with
  | O => x.2 = false
  | S _ => 1 <= x.1.1.1
  end.

Definition spans (T : list (Z * Z * bool * bool)) (E : Z) : Prop :=
  forall p x, T !! p = Some x -> span E p x.

(** The position [pos] is on the label of its node. *)
Definition pos_ok (T : list (Z * Z * bool * bool)) (E : Z) (pos : POS) : Prop :=
  exists x, T !! pos_node pos = Some x /\
            0 <= edge_pos pos <= eff_end E x - x.1.1.1.

Lemma spans_mono T E E' : spans T E -> E <= E' -> spans T E'.
Proof.
  intros H Hle p [[[s en] so] fa] Hp. specialize (H p _ Hp).
  unfold span, eff_end in *. cbn in *. destruct so, p; intuition lia.
Qed.

Lemma pos_ok_mono T E E' pos : pos_ok T E pos -> E <= E' -> pos_ok T E' pos.
Proof.
  intros ([[[s en] so] fa] & Hp & Hb) Hle. exists (s, en, so, fa). split; [exact Hp|].
  unfold eff_end in *. cbn in *. destruct so; lia.
Qed.

Section Labels.
Variable t : SUFFIX_TREE.
Variable E : Z.
Hypothesis He : e t = Some E.
Hypothesis Hsp : spans (tags t) E.
Hypothesis HE : E + 2 < 2 ^ 64.

Lemma label_end_spec p en :
  get_node_label_end t p = Ret en ->
  exists x, tags t !! p = Some x /\ en = eff_end E x.
Proof.
  unfold get_node_label_end. intros H.
  apply bind_Ret in H as (n & Hn & H). apply node_at_Ret in Hn.
  exists (tag n). split; [now apply tags_lookup|].
  unfold eff_end, tag. cbn.
  destruct (sons n) as [s|].
  - injection H as <-. now rewrite bool_decide_eq_true_2 by discriminate.
  - rewrite He in H. injection H as <-.
    rewrite bool_decide_eq_false_2; [reflexivity|]. intros Hc. now apply Hc.
Qed.

Lemma label_length_spec p len :
  get_node_label_length t p = Ret len ->
  exists x, tags t !! p = Some x /\
            len = eff_end E x - x.1.1.1 + 1 /\ 1 <= len <= E + 1.
Proof.
  unfold get_node_label_length. intros H.
  apply bind_Ret in H as (n & Hn & H). apply node_at_Ret in Hn.
  apply bind_Ret in H as (en & Hen & H). injection H as <-.
  apply label_end_spec in Hen as (x & Hx & ->).
  apply tags_lookup in Hn. assert (x = tag n) by congruence. subst x.
  exists (tag n). split; [exact Hx|].
  pose proof (Hsp _ _ Hx) as (H1 & H2 & _).
  change (edge_label_start n) with (tag n).1.1.1.
  unfold dw. rewrite Z.mod_small by lia. lia.
Qed.

Lemma last_char_spec p ep b :
  is_last_char_in_edge t p ep = Ret b ->
  exists x, tags t !! p = Some x /\ b = bool_decide (ep = eff_end E x - x.1.1.1).
Proof.
  unfold is_last_char_in_edge. intros H.
  apply bind_Ret in H as (len & Hlen & H). injection H as <-.
  apply label_length_spec in Hlen as (x & Hx & -> & Hb).
  exists x. split; [exact Hx|].
  replace (dw (eff_end E x - x.1.1.1 + 1 - 1)) with (eff_end E x - x.1.1.1);
    [reflexivity|].
  unfold dw. rewrite Z.mod_small by lia. lia.
Qed.

Lemma trace_single_edge_pos fuel node str type node' ep cf done :
  0 <= path_begin str <= path_end str -> path_end str <= E ->
  trace_single_edge fuel t node str type = Ret (node', ep, cf, done) ->
  pos_ok (tags t) E (mkPos node' ep) /\
  0 <= cf <= path_end str - path_begin str + 1 /\
  (done = false -> 1 <= cf < path_end str - path_begin str + 1).
Proof.
  intros Hb Hpe H. unfold trace_single_edge in H.
  apply bind_Ret in H as (c & Hc & H).
  apply bind_Ret in H as (cont & Hcont & H).
  assert (Hsl : dw (path_end str - path_begin str + 1)
                = path_end str - path_begin str + 1)
    by (unfold dw; apply Z.mod_small; lia).
  rewrite Hsl in H. set (sl := path_end str - path_begin str + 1) in *.
  destruct cont as [q|].
  - apply bind_Ret in H as (len & Hlen & H).
    apply label_length_spec in Hlen as (x & Hx & Hl & Hlb).
    assert (Hm1 : forall v, 1 <= v <= E + 1 -> dw (v - 1) = v - 1)
      by (intros v Hv; unfold dw; apply Z.mod_small; lia).
    destruct type.
    + destruct (bool_decide_reflect (len <= sl)) as [Hle|Hgt].
      * injection H as <- <- <- <-. split; [|split].
        -- exists x. split; [exact Hx|]. cbn. rewrite Hm1 by lia. lia.
        -- lia.
        -- intros Hd. apply negb_false_iff, bool_decide_eq_true in Hd. lia.
      * injection H as <- <- <- <-. split; [|split].
        -- exists x. split; [exact Hx|]. cbn. rewrite Hm1 by lia. lia.
        -- lia.
        -- discriminate.
    + apply bind_Ret in H as (n & Hn & H). apply bind_Ret in H as (r & Hr & H).
      assert (EL : (if bool_decide (sl < len) then sl else len) = Z.min sl len)
        by (case_bool_decide; lia).
      rewrite EL in Hr. apply scan_edge_spec in Hr; [|lia|lia].
      destruct r as [[ep' cf'] | [ep' cf']].
      * injection H as <- <- <- <-. destruct Hr as (H1 & -> & _).
        split; [|split].
        -- exists x. split; [exact Hx|]. cbn. rewrite Hm1 by lia. lia.
        -- lia.
        -- discriminate.
      * injection H as <- <- <- <-. destruct Hr as (-> & H2 & _).
        split; [|split].
        -- exists x. split; [exact Hx|]. cbn. rewrite Hm1 by lia. lia.
        -- lia.
        -- intros Hd. apply negb_false_iff, bool_decide_eq_true in Hd. lia.
  - apply bind_Ret in H as (len & Hlen & H). injection H as <- <- <- <-.
    apply label_length_spec in Hlen as (x & Hx & Hl & Hlb).
    split; [|split].
    + exists x. split; [exact Hx|]. cbn. unfold dw. rewrite Z.mod_small by lia. lia.
    + lia.
    + discriminate.
Qed.

Lemma trace_string_loop_pos fuel fuel0 type : forall node str cf0 node' ep cf,
  0 <= path_begin str <= path_end str -> path_end str <= E ->
  0 <= cf0 -> cf0 + (path_end str - path_begin str + 1) <= E + 1 ->
  trace_string_loop fuel fuel0 t node str cf0 type = Ret (node', ep, cf) ->
  pos_ok (tags t) E (mkPos node' ep) /\
  cf0 <= cf <= cf0 + (path_end str - path_begin str + 1).
Proof.
  induction fuel as [|fuel IH]; intros node str cf0 node' ep cf Hb Hpe Hc0 Hsum H;
    cbn [trace_string_loop] in H; [discriminate|].
  apply bind_Ret in H as ([[[n1 ep1] ecf] done] & H1 & H).
  apply trace_single_edge_pos in H1 as (Hpos & Hcf & Hdone); [|exact Hb|exact Hpe].
  assert (E1 : dw (cf0 + ecf) = cf0 + ecf) by (unfold dw; apply Z.mod_small; lia).
  rewrite E1 in H. destruct done.
  - injection H as <- <- <-. split; [exact Hpos | lia].
  - specialize (Hdone eq_refl).
    assert (E2 : dw (path_begin str + ecf) = path_begin str + ecf)
      by (unfold dw; apply Z.mod_small; lia).
    rewrite E2 in H. apply IH in H; cbn [path_begin path_end] in *; try lia.
    destruct H as (Hp & Hc). split; [exact Hp | lia].
Qed.

Lemma follow_suffix_link_pos fuel pos pos1 :
  pos_node pos = root t \/ pos_ok (tags t) E pos ->
  follow_suffix_link fuel t pos = Ret pos1 ->
  pos_node pos1 = root t \/ pos_ok (tags t) E pos1.
Proof.
  intros Hpos H. unfold follow_suffix_link in H.
  destruct (bool_decide_reflect (pos_node pos = root t)) as [Hr|Hr].
  - injection H as <-. now left.
  - destruct Hpos as [Hpos|Hpos]; [contradiction|].
    apply bind_Ret in H as (n & Hn & H). apply node_at_Ret in Hn.
    apply bind_Ret in H as (last & Hlast & H).
    assert (Hjump : forall link,
              get_node_label_length t link ≫= (fun len => Ret (mkPos link (dw (len - 1))))
                = Ret pos1 -> pos_ok (tags t) E pos1).
    { intros link Hj. apply bind_Ret in Hj as (len & Hlen & Hj). injection Hj as <-.
      apply label_length_spec in Hlen as (x & Hx & Hl & Hlb).
      exists x. split; [exact Hx|]. cbn. unfold dw. rewrite Z.mod_small by lia. lia. }
    assert (Hslow : (if bool_decide (father n = Some (root t))
                     then Ret (mkPos (root t) (edge_pos pos))
                     else
                       let gama := mkPath (edge_label_start n)
                                     (dw (edge_label_start n + edge_pos pos)) in
                       f ← deref (father n);
                       fn ← node_at t f;
                       link ← deref (suffix_link fn);
                       '(node', ep, _) ← trace_string fuel t link gama skip;
                       Ret (mkPos node' ep)) = Ret pos1 ->
                    pos_node pos1 = root t \/ pos_ok (tags t) E pos1).
    { intros Hs. destruct (bool_decide (father n = Some (root t))).
      - injection Hs as <-. now left.
      - right. cbn zeta in Hs.
        apply bind_Ret in Hs as (f & _ & Hs). apply bind_Ret in Hs as (fn & _ & Hs).
        apply bind_Ret in Hs as (link & _ & Hs).
        apply bind_Ret in Hs as ([[node' ep] cf] & Htr & Hs). injection Hs as <-.
        destruct Hpos as (x & Hx & Hep).
        apply tags_lookup in Hn. assert (x = tag n) by congruence. subst x.
        pose proof (Hsp _ _ Hx) as (S1 & S2 & _).
        change (tag n).1.1.1 with (edge_label_start n) in *.
        assert (Ed : dw (edge_label_start n + edge_pos pos)
                     = edge_label_start n + edge_pos pos)
          by (unfold dw; apply Z.mod_small; lia).
        rewrite Ed in Htr. unfold trace_string in Htr.
        apply trace_string_loop_pos in Htr; cbn [path_begin path_end]; try lia.
        exact (proj1 Htr). }
    destruct (suffix_link n) as [link|]; [destruct last|].
    + right. apply (Hjump link). exact H.
    + apply Hslow. exact H.
    + apply Hslow. exact H.
Qed.

End Labels.

Lemma spans_new_leaf T E b e_ :
  spans T E -> (0 < List.length T)%nat -> 1 <= b <= E ->
  spans (T ++ [(b, e_, false, true)]) E.
Proof.
  intros Hsp Hlen Hb p x Hp.
  apply lookup_app_Some in Hp as [Hp | (Hge & Hp)]; [now apply Hsp|].
  apply list_lookup_singleton_Some in Hp as (Hp0 & <-).
  unfold span, eff_end. cbn. destruct p; [lia|]. lia.
Qed.

Lemma spans_cut T T' node b e_ ep E :
  spans T E -> cut T T' node b e_ ep split -> 1 <= b <= E -> E + 2 < 2 ^ 64 ->
  node <> 0%nat ->
  (forall x, T !! node = Some x -> 0 <= ep < eff_end E x - x.1.1.1) ->
  spans T' E /\
  pos_ok T' E (mkPos (List.length T) ep).
Proof.
  intros Hsp (s & en & so & Hx & ->) Hb HE Hn0 Hep.
  specialize (Hep _ Hx). pose proof (Hsp _ _ Hx) as (S1 & S2 & S3).
  unfold eff_end in *. cbn in *.
  destruct node as [|node']; [contradiction|].
  assert (Hxb : (S node' < List.length T)%nat) by (now apply lookup_lt_Some in Hx).
  assert (E1 : dw (s + (ep + 1)) = s + ep + 1)
    by (unfold dw; rewrite Z.mod_small; destruct so; lia).
  assert (E2 : dw (s + ep) = s + ep)
    by (unfold dw; rewrite Z.mod_small; destruct so; lia).
  rewrite E1, E2.
  set (T1 := <[S node' := (s + ep + 1, en, so, true)]> T).
  assert (Hl1 : List.length T1 = List.length T) by apply length_insert.
  split.
  - intros p x Hp.
    apply lookup_app_Some in Hp as [Hp | (Hge & Hp)].
    + unfold T1 in Hp. destruct (decide (p = S node')) as [->|Hne].
      * rewrite list_lookup_insert_eq in Hp by exact Hxb. injection Hp as <-.
        unfold span, eff_end. cbn. destruct so; lia.
      * rewrite list_lookup_insert_ne in Hp by congruence. now apply Hsp.
    + rewrite Hl1 in Hge, Hp.
      destruct (p - List.length T)%nat as [|[|k]] eqn:Hk; cbn in Hp; try discriminate.
      * injection Hp as <-. unfold span, eff_end. cbn.
        destruct p; [lia|]. destruct so; lia.
      * injection Hp as <-. unfold span, eff_end. cbn. destruct p; lia.
  - exists (s, s + ep, true, true). split.
    + cbn [pos_node]. rewrite lookup_app_r by lia. now rewrite Hl1, Nat.sub_diag.
    + unfold eff_end. cbn. lia.
Qed.

Lemma pos_ok_app T k E pos : pos_ok T E pos -> pos_ok (T ++ k) E pos.
Proof.
  intros (x & Hx & Hb). exists x. split; [now apply lookup_app_l_Some | exact Hb].
Qed.

Lemma find_son_loop_valid fuel t c q : forall o,
  find_son_loop fuel t o c = Ret (Some q) -> exists n, heap t !! q = Some n.
Proof.
  induction fuel as [|fuel IH]; intros [p|] H; cbn [find_son_loop] in H;
    try discriminate.
  apply bind_Ret in H as (n & Hn & H). apply node_at_Ret in Hn.
  apply bind_Ret in H as (c' & _ & H).
  destruct (bool_decide (c' = c)); [|exact (IH _ H)].
  injection H as <-. eauto.
Qed.

Lemma find_son_valid fuel t node c q :
  find_son fuel t node c = Ret (Some q) -> exists n, heap t !! q = Some n.
Proof.
  unfold find_son. intros H. apply bind_Ret in H as (n & _ & H).
  exact (find_son_loop_valid _ _ _ _ _ H).
Qed.

(** One extension keeps the labels inside the text and returns a position
    on the label of its node. *)
Lemma spans_SEA fuel t E pos str after t' pos' r :
  e t = Some E -> root t = 0%nat -> spans (tags t) E -> E + 2 < 2 ^ 64 ->
  pos_node pos = root t \/ pos_ok (tags t) E pos ->
  1 <= path_begin str <= path_end str -> path_end str = E ->
  SEA fuel t pos str after = Ret (t', pos', r) ->
  spans (tags t') E /\ pos_ok (tags t') E pos'.
Proof.
  intros He Hroot Hsp HE Hpos Hstr Hpe H. unfold SEA in H.
  apply bind_Ret in H as (pos1 & H1 & H).
  assert (Hpos1 : pos_node pos1 = root t \/ pos_ok (tags t) E pos1).
  { destruct after; [now injection H1 as <-|].
    exact (follow_suffix_link_pos t E He Hsp HE _ _ _ Hpos H1). }
  clear H1 Hpos.
  apply bind_Ret in H as ([[pos2 str2] cf] & H2 & H).
  assert (HB : pos_ok (tags t) E pos2 /\
               1 <= path_begin str2 <= path_end str2 /\ path_end str2 = E /\
               0 <= cf <= path_end str2 - path_begin str2 + 1).
  { destruct (bool_decide_reflect (pos_node pos1 = root t)) as [Hr|Hr].
    - apply bind_Ret in H2 as ([[node' ep] cf'] & Htr & H2). injection H2 as <- <- <-.
      unfold trace_string in Htr.
      apply (trace_string_loop_pos t E He Hsp HE) in Htr; try lia.
      destruct Htr as (Hp & Hc). split; [exact Hp|]. split; [lia|]. split; [exact Hpe|lia].
    - destruct Hpos1 as [Hc|Hpos1]; [contradiction|].
      apply bind_Ret in H2 as (last & Hlast & H2).
      apply (last_char_spec t E He Hsp HE) in Hlast as (x & Hx & ->).
      cbn [path_end path_begin] in H2.
      destruct (bool_decide_reflect (edge_pos pos1 = eff_end E x - x.1.1.1)) as [Hl|Hl].
      + apply bind_Ret in H2 as (c & _ & H2). apply bind_Ret in H2 as (tmp & Htmp & H2).
        destruct tmp as [q|]; injection H2 as <- <- <-; cbn [path_begin path_end].
        * split; [|lia]. apply find_son_valid in Htmp as (n & Hn).
          apply tags_lookup in Hn. exists (tag n). split; [exact Hn|].
          pose proof (Hsp _ _ Hn) as (S1 & _). cbn [edge_pos]. lia.
        * split; [exact Hpos1 | lia].
      + apply bind_Ret in H2 as (n & _ & H2). apply bind_Ret in H2 as (a & _ & H2).
        apply bind_Ret in H2 as (b & _ & H2).
        destruct (bool_decide (a = b)); injection H2 as <- <- <-;
          cbn [path_begin path_end]; (split; [|lia]); [|exact Hpos1].
        destruct Hpos1 as (x' & Hx' & Hb'). assert (x' = x) by congruence. subst x'.
        exists x. split; [exact Hx|]. cbn. unfold dw. rewrite Z.mod_small; [lia|].
        pose proof (Hsp _ _ Hx) as (S1 & S2 & _). lia. }
  clear H2 Hpos1. destruct HB as (Hpos2 & Hstr2 & Hpe2 & Hcf).
  assert (Esl : dw (path_end str2 - path_begin str2 + 1)
                = path_end str2 - path_begin str2 + 1)
    by (unfold dw; apply Z.mod_small; lia).
  rewrite Esl in H.
  destruct (bool_decide_reflect (cf = path_end str2 - path_begin str2 + 1)) as [Hfull|Hfull].
  { (* rule 3 *)
    apply bind_Ret in H as (t1 & Ht1 & H). injection H as <- <- _.
    assert (Et : tags t1 = tags t).
    { destruct (suffixless t) as [s|]; [|now injection Ht1 as <-].
      apply bind_Ret in Ht1 as (n & _ & Ht1). apply bind_Ret in Ht1 as (t2 & Ht2 & Ht1).
      injection Ht1 as <-. apply tags_create_suffix_link in Ht2.
      now rewrite tags_with_suffixless. }
    rewrite Et. auto. }
  assert (Eb : dw (path_begin str2 + cf) = path_begin str2 + cf)
    by (unfold dw; apply Z.mod_small; lia).
  rewrite Eb in H.
  assert (Hb : 1 <= path_begin str2 + cf <= E) by lia.
  apply bind_Ret in H as (last & Hlast & H).
  apply (last_char_spec t E He Hsp HE) in Hlast as (x & Hx & ->).
  assert (Hlen : (0 < List.length (tags t))%nat).
  { apply lookup_lt_Some in Hx. lia. }
  destruct (bool_decide (edge_pos pos2 = eff_end E x - x.1.1.1)
            || bool_decide (pos_node pos2 = root t)) eqn:Hor.
  - (* a new son, or nothing *)
    apply bind_Ret in H as (n & _ & H). destruct (sons n) as [first|].
    2: { injection H as <- <- _. auto. }
    apply bind_Ret in H as ([t1 q] & Ht1 & H).
    apply tags_rule_2 in Ht1 as (Hcut & _). cbn [cut] in Hcut.
    apply bind_Ret in H as (t2 & Ht2 & H). injection H as <- <- _.
    assert (Et : tags t2 = tags t1).
    { destruct (suffixless t1) as [s|]; [|now injection Ht2 as <-].
      apply bind_Ret in Ht2 as (t3 & Ht3 & Ht2). injection Ht2 as <-.
      apply tags_create_suffix_link in Ht3. now rewrite tags_with_suffixless. }
    rewrite Et, Hcut. split; [now apply spans_new_leaf | now apply pos_ok_app].
  - (* a split *)
    apply orb_false_iff in Hor as [Hnl Hnr].
    apply bool_decide_eq_false in Hnl, Hnr.
    apply bind_Ret in H as ([t1 tmp] & Ht1 & H).
    apply tags_rule_2 in Ht1 as (Hcut & Htmp). specialize (Htmp eq_refl). subst tmp.
    destruct (spans_cut _ _ _ _ _ _ _ Hsp Hcut Hb HE) as (Hsp1 & Hpos1).
    { congruence. }
    { intros x' Hx'. assert (x' = x) by congruence. subst x'.
      destruct Hpos2 as (x' & Hx'' & Hb'). assert (x' = x) by congruence. subst x'.
      lia. }
    apply bind_Ret in H as (t2 & Ht2 & H).
    assert (Et2 : tags t2 = tags t1).
    { destruct (suffixless t1) as [s|]; [|now injection Ht2 as <-].
      now apply tags_create_suffix_link in Ht2. }
    apply bind_Ret in H as (len & _ & H).
    apply bind_Ret in H as (tn & Htn & H). apply node_at_Ret in Htn.
    apply bind_Ret in H as (t3 & Ht3 & H). injection H as <- <- _.
    assert (Et3 : tags t3 = tags t2).
    { destruct (_ && _); injection Ht3 as <-; rewrite tags_with_suffixless;
        [|reflexivity].
      now apply (tags_store_same _ _ tn). }
    rewrite Et3, Et2. split; [exact Hsp1 | exact Hpos1].
Qed.

Lemma spans_SPA_loop fuel fuel0 : forall t pos phase ext rep rule t' pos' ext' rep',
  0 <= phase -> phase + 3 < 2 ^ 64 ->
  e t = Some (phase + 1) -> root t = 0%nat -> spans (tags t) (phase + 1) ->
  pos_node pos = root t \/ pos_ok (tags t) (phase + 1) pos ->
  1 <= ext ->
  SPA_loop fuel fuel0 t pos phase ext rep rule = Ret (t', pos', ext', rep') ->
  root t' = 0%nat /\ spans (tags t') (phase + 1) /\
  (pos_node pos' = root t' \/ pos_ok (tags t') (phase + 1) pos') /\ 1 <= ext'.
Proof.
  induction fuel as [|fuel IH]; intros t pos phase ext rep rule t' pos' ext' rep'
    Hp Hlt He Hroot Hsp Hpos Hext H; cbn [SPA_loop] in H.
  - destruct (bool_decide _); [discriminate|]. injection H as <- <- <- _. auto.
  - destruct (bool_decide_reflect (ext <= dw (phase + 1))) as [Hle|_].
    2: { injection H as <- <- <- _. auto. }
    assert (Ed : dw (phase + 1) = phase + 1) by (unfold dw; apply Z.mod_small; lia).
    rewrite Ed in Hle, H.
    apply bind_Ret in H as ([[t1 pos1] r] & H1 & H).
    pose proof (e_SEA _ _ _ _ _ _ _ _ H1) as He1.
    pose proof (root_SEA _ _ _ _ _ _ _ _ H1) as Hr1.
    apply (spans_SEA _ _ (phase + 1)) in H1; cbn [path_begin path_end];
      try assumption; try lia.
    destruct H1 as (Hsp1 & Hpos1).
    destruct (bool_decide (default rule r = 3)).
    + injection H as <- <- <- _. split; [congruence|]. auto.
    + apply IH in H; try assumption; try congruence; try lia; [now right|].
      unfold dw. rewrite Z.mod_small by lia. lia.
Qed.

Lemma spans_phases cnt fuel : forall t pos phase ext rep t',
  1 <= phase -> phase + Z.of_nat cnt + 3 < 2 ^ 64 ->
  root t = 0%nat -> spans (tags t) phase ->
  pos_node pos = root t \/ pos_ok (tags t) phase pos ->
  1 <= ext ->
  phases cnt fuel t pos phase ext rep = Ret t' ->
  root t' = 0%nat /\ spans (tags t') (phase + Z.of_nat cnt).
Proof.
  induction cnt as [|cnt IH]; intros t pos phase ext rep t' Hp Hlt Hroot Hsp Hpos Hext H;
    cbn [phases] in H.
  - injection H as <-. split; [exact Hroot|]. now rewrite Z.add_0_r.
  - apply bind_Ret in H as ([[[t1 pos1] ext1] rep1] & H1 & H).
    unfold SPA in H1.
    assert (Ed : dw (phase + 1) = phase + 1) by (unfold dw; apply Z.mod_small; lia).
    rewrite Ed in H1, H.
    apply spans_SPA_loop in H1; try lia.
    + destruct H1 as (Hr1 & Hsp1 & Hpos1 & Hext1).
      apply IH in H; try assumption; try lia.
      replace (phase + Z.of_nat (S cnt)) with (phase + 1 + Z.of_nat cnt) by lia.
      exact H.
    + reflexivity.
    + exact Hroot.
    + change (tags (with_e t (phase + 1))) with (tags t).
      apply (spans_mono _ phase); [exact Hsp | lia].
    + change (tags (with_e t (phase + 1))) with (tags t).
      change (root (with_e t (phase + 1))) with (root t).
      destruct Hpos as [Hpos|Hpos]; [now left | right].
      apply (pos_ok_mono _ phase); [exact Hpos | lia].
Qed.

Lemma tags_dfs fuel :
  (forall t node depth t' k,
     dfsForInversePointers fuel t node depth = Ret (t', k) -> tags t' = tags t) /\
  (forall t c depth num t' k,
     dfs_children fuel t c depth num = Ret (t', k) -> tags t' = tags t).
Proof.
  induction fuel as [|fuel [IH1 IH2]]; split.
  - intros; discriminate.
  - intros t [c|] depth num t' k H; simpl in H; [discriminate | now simplify_eq].
  - intros t node depth t' k H. cbn [dfsForInversePointers] in H.
    apply bind_Ret in H as (n & Hn & H). apply node_at_Ret in Hn.
    assert (E1 : tags (store t node (set_strDepth n depth)) = tags t)
      by (now apply (tags_store_same _ _ n)).
    destruct (sons n) as [first|].
    + apply bind_Ret in H as (n1 & Hn1 & H). apply node_at_Ret in Hn1.
      apply IH2 in H. rewrite H, <- E1. now apply (tags_store_same _ _ n1).
    + apply bind_Ret in H as (ip & _ & H). apply bind_Ret in H as (f & _ & H).
      apply bind_Ret in H as (fn & _ & H). apply bind_Ret in H as (fd & _ & H).
      apply bind_Ret in H as (msd & _ & H).
      apply bind_Ret in H as (n1 & Hn1 & H). apply node_at_Ret in Hn1.
      injection H as <- _. rewrite <- E1.
      now apply (tags_store_same
                   (with_maxStrDepth (with_inversePointers _ ip) msd) _ n1).
  - intros t [c|] depth num t' k H; cbn [dfs_children] in H; [|now simplify_eq].
    apply bind_Ret in H as (cn & _ & H). apply bind_Ret in H as ([t1 k1] & H1 & H).
    apply bind_Ret in H as (cn' & _ & H).
    apply IH1 in H1. apply IH2 in H. congruence.
Qed.

(** In the tree that [ST_CreateTree] returns for a text of [n >= 2] bytes
    every edge label is a range of positions of the text: the label of a
    node runs from [edge_label_start] to the end [get_node_label_end]
    gives, it is not empty, it ends at [n + 1], the terminator, at the
    latest, and but for the root, whose label is unused, it begins at 1
    or later. *)
Theorem ST_CreateTree_labels_in_text (fuel mem_ : nat) (str : list Z) (len : Z)
    (t : SUFFIX_TREE) :
  2 <= len -> len + 2 < 2 ^ 32 ->
  ST_CreateTree fuel mem_ str len = Ret t ->
  forall p n, heap t !! p = Some n ->
    exists en, get_node_label_end t p = Ret en /\
               0 <= edge_label_start n <= en /\ en <= len + 1 /\
               (p <> root t -> 1 <= edge_label_start n) /\
               get_node_label_length t p = Ret (en - edge_label_start n + 1).
Proof.
  intros Hlen Hsz H.
  assert (He : e t = Some (len + 1)).
  { apply ST_CreateTree_steps in H
      as (t0 & t5 & t6 & nn & msd & _ & Ht0 & H5 & H6 & _ & ->).
    apply (proj1 (e_dfs fuel)) in H6. cbn [e with_D with_maxStrDepth]. rewrite H6.
    assert (Hl : length t0 = len + 1).
    { unfold tables in Ht0. injection Ht0 as _ _ _ _ _ Hl _ _.
      rewrite Hl. unfold dw. apply Z.mod_small. lia. }
    rewrite Hl in H5.
    replace (Z.to_nat (len + 1 - 2)) with (S (Z.to_nat (len - 2))) in H5 by lia.
    apply e_phases in H5; [|lia|lia]. rewrite H5. f_equal. lia. }
  assert (Hok : root t = 0%nat /\ spans (tags t) (len + 1)).
  { unfold ST_CreateTree in H. destruct mem_ as [|m]; [discriminate|].
    apply bind_Ret in H as ([t1 r] & H1 & H).
    assert (Hl1 : length t1 = len + 1).
    { unfold create_node in H1. cbn [avail] in H1.
      destruct m; [discriminate|]. injection H1 as <- _. cbn.
      unfold dw. apply Z.mod_small. lia. }
    pose proof (create_node_heap _ _ _ _ _ _ _ H1) as (-> & Hh1). cbn [heap app] in Hh1.
    apply bind_Ret in H as ([t3 first] & H3 & H).
    assert (Hl3 : length t3 = len + 1).
    { unfold create_node in H3. cbn [avail] in H3.
      destruct (avail t1); [discriminate|]. injection H3 as <- _. exact Hl1. }
    pose proof (create_node_heap _ _ _ _ _ _ _ H3) as (-> & Hh3). cbn [heap] in Hh3.
    apply root_create_node in H3. cbn [root] in H3.
    rewrite Hh1 in Hh3. cbn [app] in Hh3.
    apply bind_Ret in H as (rn & Hrn & H). apply node_at_Ret in Hrn.
    rewrite Hh3 in Hrn. cbn in Hrn. injection Hrn as <-.
    apply bind_Ret in H as (t5 & H5 & H).
    apply bind_Ret in H as ([t6 nn] & H6 & H).
    apply bind_Ret in H as (msd & _ & H). injection H as <-.
    change (tags (with_D (with_maxStrDepth t6 msd) _)) with (tags t6).
    cbn [root with_D with_maxStrDepth].
    apply (proj1 (tags_dfs fuel)) in H6 as Ht6.
    apply (proj1 (root_dfs fuel)) in H6. rewrite H6, Ht6.
    cbn [length with_suffixless store with_heap] in H5. rewrite Hl3 in H5.
    set (t4 := with_suffixless _ None) in *.
    assert (E4 : tags t4 = [(0, 0, true, false); (1, length t1, false, true)]).
    { unfold t4, tags. cbn [heap with_suffixless store with_heap].
      rewrite Hh3. reflexivity. }
    apply spans_phases in H5; try lia.
    + destruct H5 as (Hr5 & Hsp5). split; [exact Hr5|].
      replace (len + 1) with (2 + Z.of_nat (Z.to_nat (len + 1 - 2))) by lia.
      exact Hsp5.
    + exact H3.
    + rewrite E4. intros [|[|p]] x Hp; cbn in Hp; try discriminate;
        injection Hp as <-; unfold span, eff_end; cbn; lia.
    + left. symmetry. exact H3. }
  destruct Hok as (Hroot & Hsp).
  intros p n Hp.
  pose proof (tags_lookup _ _ _ Hp) as Hx. pose proof (Hsp _ _ Hx) as (S1 & S2 & S3).
  assert (Hen : get_node_label_end t p = Ret (eff_end (len + 1) (tag n))).
  { unfold get_node_label_end. rewrite (node_at_lookup _ _ _ Hp).
    cbn [mbind outcome_bind]. rewrite He. unfold eff_end, tag. cbn [fst snd].
    destruct (sons n) as [s|].
    - now rewrite bool_decide_eq_true_2 by discriminate.
    - rewrite bool_decide_eq_false_2; [reflexivity|]. intros Hc. now apply Hc. }
  exists (eff_end (len + 1) (tag n)). split; [exact Hen|].
  change (tag n).1.1.1 with (edge_label_start n) in *.
  split; [lia|]. split; [lia|]. split.
  - intros Hne. rewrite Hroot in Hne. destruct p; [contradiction | exact S3].
  - unfold get_node_label_length. rewrite (node_at_lookup _ _ _ Hp).
    cbn [mbind outcome_bind]. rewrite Hen. cbn [mbind outcome_bind].
    unfold dw. rewrite Z.mod_small by lia. reflexivity.
Qed.

Lemma ST_CreateTree_labels_in_text_witness :
  2 <= 7 /\ 7 + 2 < 2 ^ 32 /\
  ST_CreateTree 64 64 (aababab ++ [0]) 7 = Ret aababab_tree /\
  (fun x : Z * Z * bool * bool => (x.1.1.1, eff_end 8 x)) <$> tags aababab_tree
    = [(0, 0); (2, 8); (1, 1); (6, 8); (6, 8); (4, 5); (8, 8); (4, 5); (8, 8);
       (3, 3); (8, 8); (3, 3); (8, 8); (8, 8)] /\
  forall p n, heap aababab_tree !! p = Some n ->
    exists en, get_node_label_end aababab_tree p = Ret en /\
               0 <= edge_label_start n <= en /\ en <= 7 + 1 /\
               (p <> root aababab_tree -> 1 <= edge_label_start n) /\
               get_node_label_length aababab_tree p = Ret (en - edge_label_start n + 1).
Proof.
  assert (Hlen : 2 <= 7) by lia.
  assert (Hsz : 7 + 2 < 2 ^ 32) by lia.
  assert (H0 : ST_CreateTree 64 64 (aababab ++ [0]) 7 = Ret aababab_tree)
    by (vm_compute; reflexivity).
  refine (conj Hlen (conj Hsz (conj H0 (conj _ _)))).
  - vm_compute. reflexivity.
  - exact (ST_CreateTree_labels_in_text 64 64 (aababab ++ [0]) 7 aababab_tree
             Hlen Hsz H0).
Defined.

(** ** The sons of a node begin with different bytes *)

(** [chain h o l]: following [right_sibling] from the pointer [o] passes
    the nodes [l], in that order, and ends at NULL. *)
Inductive chain (h : list NODE) : option nat -> list nat -> Prop :=
  | chain_end : chain h None []
  | chain_next p l :
      (p < List.length h)%nat -> chain h (link right_sibling h p) l ->
      chain h (Some p) (p :: l).

Lemma chain_unique h o l : chain h o l -> forall l', chain h o l' -> l' = l.
Proof.
  induction 1 as [|p l Hp _ IH]; intros l' H'; inversion H'; subst; [reflexivity|].
  f_equal. now apply IH.
Qed.

(** The nodes of a chain have the father of its first node. *)
Lemma chain_father h o l :
  linked h -> chain h o l ->
  forall p q, o = Some p -> q ∈ l -> link father h q = link father h p.
Proof.
  intros Hl. induction 1 as [|p0 l Hp Hc IH]; intros p q Ho Hq; [discriminate|].
  injection Ho as ->. apply elem_of_cons in Hq as [->|Hq]; [reflexivity|].
  destruct (link right_sibling h p) as [r|] eqn:Hr.
  - destruct (Hl p) as (_ & K1 & _). destruct (K1 r Hr) as (_ & _ & Hf).
    rewrite <- Hf. now apply IH.
  - inversion Hc; subst. now apply elem_of_nil in Hq.
Qed.

(** The sons of [f]: the chain from [f->sons]; all of them have [f] as
    father. *)
Lemma sons_father h f l :
  linked h -> chain h (link sons h f) l -> forall q, q ∈ l -> link father h q = Some f.
Proof.
  intros Hl Hc q Hq. destruct (link sons h f) as [s|] eqn:Hs.
  - destruct (Hl f) as (_ & _ & _ & K3). destruct (K3 s Hs) as (Hf & _).
    rewrite <- Hf. exact (chain_father _ _ _ Hl Hc s q eq_refl Hq).
  - inversion Hc; subst. now apply elem_of_nil in Hq.
Qed.

(** A chain only depends on the [right_sibling] fields of its nodes. *)
Lemma chain_ext h h' o l :
  chain h o l ->
  (forall p, p ∈ l -> (p < List.length h')%nat /\
                      link right_sibling h' p = link right_sibling h p) ->
  chain h' o l.
Proof.
  induction 1 as [|p l Hp Hc IH]; intros He; [constructor|].
  destruct (He p) as (Hb & Hr); [apply elem_of_cons; auto|].
  constructor; [exact Hb|]. rewrite Hr. apply IH.
  intros q Hq. apply He. apply elem_of_cons. auto.
Qed.

Lemma last_sibling_chain fuel t h k :
  heap t = h ++ k -> linked h ->
  forall p s, (p < List.length h)%nat -> last_sibling fuel t p = Ret s ->
  exists l, chain h (Some p) (l ++ [s]) /\ (s < List.length h)%nat /\
            link right_sibling h s = None.
Proof.
  intros Hh Hl.
  induction fuel as [|fuel IH]; intros p s Hp H; cbn [last_sibling] in H; [discriminate|].
  apply bind_Ret in H as (n & Hn & H). apply node_at_Ret in Hn.
  rewrite Hh, lookup_app_l in Hn by exact Hp.
  destruct (right_sibling n) as [r|] eqn:Hr.
  - destruct (Hl p) as (_ & H1 & _).
    destruct (H1 r) as (_ & Hlr & _); [now rewrite (link_lookup _ _ _ _ Hn)|].
    pose proof (link_Some _ _ _ _ Hlr) as Hrb.
    destruct (IH _ _ Hrb H) as (l & Hc & Hb & Hs). exists (p :: l).
    split; [|auto]. cbn [app]. constructor; [exact Hp|].
    now rewrite (link_lookup _ _ _ _ Hn), Hr.
  - injection H as <-. exists []. split; [|split; [exact Hp|]].
    + cbn [app]. constructor; [exact Hp|].
      rewrite (link_lookup _ _ _ _ Hn), Hr. constructor.
    + now rewrite (link_lookup _ _ _ _ Hn).
Qed.

(** The start of the label of node [p]. *)
Definition start_of (h : list NODE) (p : nat) : option Z :=
  edge_label_start <$> h !! p.

Lemma start_of_tags t p :
  start_of (heap t) p = (fun x : Z * Z * bool * bool => x.1.1.1) <$> tags t !! p.
Proof.
  unfold start_of, tags. rewrite list_lookup_fmap. now destruct (heap t !! p).
Qed.

(** The links after rule 2 has added a son to [node]: the new leaf [N]
    comes after the last of the sons. *)
Lemma new_son_links fuel t node b e_ pp ep t' q :
  linked (heap t) ->
  apply_extension_rule_2 fuel t node b e_ pp ep new_son = Ret (t', q) ->
  exists l s,
    chain (heap t) (link sons (heap t) node) (l ++ [s]) /\
    (node < List.length (heap t))%nat /\
    q = List.length (heap t) /\
    List.length (heap t') = S (List.length (heap t)) /\
    (forall p, link right_sibling (heap t') p =
       if decide (p = s) then Some (List.length (heap t))
       else link right_sibling (heap t) p) /\
    (forall p, link sons (heap t') p = link sons (heap t) p) /\
    (forall p, start_of (heap t') p =
       if decide (p = List.length (heap t)) then Some b else start_of (heap t) p).
Proof.
  intros Hl H.
  pose proof (tags_rule_2 _ _ _ _ _ _ _ _ _ _ H) as (Hcut & _). cbn [cut] in Hcut.
  assert (Hst : forall p, start_of (heap t') p =
            if decide (p = List.length (heap t)) then Some b else start_of (heap t) p).
  { intros p. rewrite !start_of_tags, Hcut.
    assert (Hlen : List.length (tags t) = List.length (heap t))
      by (unfold tags; apply length_fmap).
    destruct (decide (p = List.length (heap t))) as [->|Hne].
    - rewrite <- Hlen. now rewrite list_lookup_middle.
    - destruct (lt_dec p (List.length (heap t))) as [Hlt|Hge].
      + rewrite lookup_app_l by lia. reflexivity.
      + rewrite !lookup_ge_None_2; [reflexivity| |]; rewrite ?length_app; simpl; lia. }
  clear Hcut.
  cbn [apply_extension_rule_2] in H.
  apply bind_Ret in H as ([t1 nl] & H1 & H).
  apply create_node_heap in H1 as (-> & H1).
  apply bind_Ret in H as (n & Hn & H). apply node_at_Ret in Hn.
  apply bind_Ret in H as (first & Hfirst & H). apply deref_Ret in Hfirst.
  apply bind_Ret in H as (s & Hs & H).
  apply bind_Ret in H as (t2 & H2 & H). injection H as <- <-.
  set (h := heap t) in *. set (N := List.length h) in *.
  match type of H1 with _ = _ ++ [?m] => set (NL := m) in * end.
  assert (Hnode : (node < N)%nat).
  { apply lookup_lt_Some in Hn as Hb. rewrite H1, length_app in Hb. simpl in Hb.
    destruct (decide (node = N)) as [->|]; [|lia].
    rewrite H1, list_lookup_middle in Hn by reflexivity. injection Hn as <-.
    discriminate Hfirst. }
  rewrite H1, lookup_app_l in Hn by exact Hnode.
  assert (Hsn : link sons h node = Some first) by (now rewrite (link_lookup _ _ _ _ Hn)).
  destruct (Hl node) as (_ & _ & _ & H3). destruct (H3 first Hsn) as (Hff & _).
  pose proof (link_Some _ _ _ _ Hff) as Hfb.
  destruct (last_sibling_chain _ _ _ _ H1 Hl _ _ Hfb Hs) as (l & Hc & Hsb & Hsr).
  apply connect_siblings_heap in H2 as (H2 & _ & _).
  exists l, s. rewrite Hsn. split; [exact Hc|]. split; [exact Hnode|].
  split; [reflexivity|]. split; [|split; [|split; [|exact Hst]]]; rewrite H2, H1.
  - rewrite length_join, length_app. simpl. lia.
  - intros p. rewrite link_join_right by (intros ? [= <-]; rewrite length_app; simpl; lia).
    rewrite decide_Some_eq, link_app. cbn [right_sibling NL].
    repeat case_decide; subst; try lia; try reflexivity.
    symmetry. apply link_None. lia.
  - intros p. rewrite link_join_other by reflexivity. rewrite link_app. cbn [sons NL].
    case_decide; [|reflexivity]. subst. symmetry. apply link_None. lia.
Qed.

(** The byte of the text at position [k]: what [char_at] reads. *)
Definition text_at (str : list Z) (k : Z) : option Z :=
  if bool_decide (1 <= k) then str !! Z.to_nat (k - 1) else None.

Lemma char_at_text t k c : char_at t k = Ret c <-> text_at (tree_string t) k = Some c.
Proof.
  unfold char_at, rd, text_at. destruct (Z.ltb_spec (k - 1) 0) as [Hlt|Hge].
  - rewrite bool_decide_eq_false_2 by lia. split; discriminate.
  - rewrite bool_decide_eq_true_2 by lia.
    destruct (tree_string t !! Z.to_nat (k - 1)); cbn; split; congruence.
Qed.

(** The first byte of the label of node [p]. *)
Definition byte (h : list NODE) (str : list Z) (p : nat) : option Z :=
  start_of h p ≫= text_at str.

(** No two sons of a node begin with the same byte. *)
Definition distinct (h : list NODE) (str : list Z) : Prop :=
  forall f l, chain h (link sons h f) l ->
    forall i j p q c, l !! i = Some p -> l !! j = Some q ->
      byte h str p = Some c -> byte h str q = Some c -> i = j.

(** A chain of sons of [g] that the change from [h] to [h'] leaves alone. *)
Lemma chain_back h h' g :
  linked h ->
  (forall p, (p < List.length h)%nat -> link father h p = Some g ->
     link right_sibling h' p = link right_sibling h p) ->
  forall o l, chain h' o l ->
    (forall p, o = Some p -> (p < List.length h)%nat /\ link father h p = Some g) ->
    chain h o l /\
    forall p, p ∈ l -> (p < List.length h)%nat /\ link father h p = Some g.
Proof.
  intros Hl HR o l Hc. induction Hc as [|p l Hp Hc IH]; intros Ho.
  - split; [constructor|]. intros p Hp. now apply elem_of_nil in Hp.
  - destruct (Ho p eq_refl) as (Hb & Hf).
    rewrite (HR p Hb Hf) in Hc, IH.
    destruct IH as (Hc' & Hall).
    { intros r Hr. destruct (Hl p) as (_ & K1 & _). destruct (K1 r Hr) as (_ & Hlr & Hfr).
      split; [exact (link_Some _ _ _ _ Hlr) | congruence]. }
    split; [constructor; assumption|].
    intros q Hq. apply elem_of_cons in Hq as [->|Hq]; [auto | now apply Hall].
Qed.

(** The first son of a node is a node with that father. *)
Lemma sons_start h f p :
  linked h -> link sons h f = Some p ->
  (p < List.length h)%nat /\ link father h p = Some f.
Proof.
  intros Hl Hs. destruct (Hl f) as (_ & _ & _ & K3). destruct (K3 p Hs) as (Hf & _).
  split; [exact (link_Some _ _ _ _ Hf) | exact Hf].
Qed.

(** A chain that ends in [s], seen after [N] has been hung behind [s]. *)
Lemma chain_snoc h h' s N :
  link right_sibling h s = None ->
  (N < List.length h')%nat -> (List.length h <= List.length h')%nat ->
  link right_sibling h' N = None ->
  (forall p, link right_sibling h' p =
     if decide (p = s) then Some N else link right_sibling h p) ->
  forall o l, chain h o (l ++ [s]) -> chain h' o (l ++ [s; N]).
Proof.
  intros Hs HN Hle HRN HR o l. revert o.
  induction l as [|a l IH]; intros o Hc; cbn [app] in *.
  - inversion Hc as [|p l0 Hp Hc' E1 E2]; subst.
    constructor; [lia|]. rewrite HR, decide_True by reflexivity.
    constructor; [exact HN|]. rewrite HRN. constructor.
  - inversion Hc as [|p l0 Hp Hc' E1 E2]; subst.
    assert (Has : a <> s).
    { intros ->. rewrite Hs in Hc'. inversion Hc' as [E|]. now destruct l. }
    constructor; [lia|]. rewrite HR, decide_False by exact Has. now apply IH.
Qed.

Lemma chain_last h : forall l o s, chain h o (l ++ [s]) -> link right_sibling h s = None.
Proof.
  induction l as [|a l IH]; intros o s Hc; cbn [app] in Hc;
    inversion Hc as [|p l0 Hp Hc' E1 E2]; subst.
  - inversion Hc' as [E|]. reflexivity.
  - exact (IH _ _ Hc').
Qed.

Lemma chain_bound h o l : chain h o l -> forall p, p ∈ l -> (p < List.length h)%nat.
Proof.
  induction 1 as [|p l Hp _ IH]; intros q Hq; [now apply elem_of_nil in Hq|].
  apply elem_of_cons in Hq as [->|Hq]; auto.
Qed.

(** Rule 2 with a new son keeps the sons distinct when no son of [node]
    begins with the byte at [b], where the new leaf begins. *)
Lemma distinct_new_son h h' str node l s b :
  linked h -> distinct h str ->
  chain h (link sons h node) (l ++ [s]) ->
  List.length h' = S (List.length h) ->
  (forall p, link right_sibling h' p =
     if decide (p = s) then Some (List.length h) else link right_sibling h p) ->
  (forall p, link sons h' p = link sons h p) ->
  (forall p, start_of h' p =
     if decide (p = List.length h) then Some b else start_of h p) ->
  (forall p c, p ∈ l ++ [s] -> byte h str p = Some c -> text_at str b <> Some c) ->
  distinct h' str.
Proof.
  intros Hl Hd Hc Hlen HR HS Hst Hev. set (N := List.length h) in *.
  assert (Hold : forall p, p <> N -> byte h' str p = byte h str p).
  { intros p Hp. unfold byte. now rewrite Hst, decide_False. }
  assert (HbN : byte h' str N = text_at str b).
  { unfold byte. now rewrite Hst, decide_True. }
  pose proof (chain_bound _ _ _ Hc) as Hb.
  intros f l' Hc'. rewrite HS in Hc'.
  destruct (decide (f = node)) as [->|Hne].
  - assert (Hsb : (s < N)%nat) by (apply Hb, elem_of_app; right; now apply list_elem_of_singleton).
    assert (Hc2 : chain h' (link sons h node) (l ++ [s; N])).
    { apply (chain_snoc h h' s N); try assumption; try lia.
      - exact (chain_last _ _ _ _ Hc).
      - rewrite HR, decide_False by lia. apply link_None. lia. }
    rewrite (chain_unique _ _ _ Hc2 _ Hc').
    change (l ++ [s; N]) with (l ++ [s] ++ [N]). rewrite app_assoc.
    intros i j p q c Hi Hj Hbp Hbq.
    apply lookup_app_Some in Hi as [Hi | (Hgi & Hi)];
      apply lookup_app_Some in Hj as [Hj | (Hgj & Hj)].
    + assert (Hp : (p < N)%nat) by (apply Hb; eapply list_elem_of_lookup_2; eassumption).
      assert (Hq : (q < N)%nat) by (apply Hb; eapply list_elem_of_lookup_2; eassumption).
      rewrite Hold in Hbp, Hbq by lia.
      exact (Hd _ _ Hc _ _ _ _ _ Hi Hj Hbp Hbq).
    + apply list_lookup_singleton_Some in Hj as (_ & <-).
      assert (Hp : (p < N)%nat) by (apply Hb; eapply list_elem_of_lookup_2; eassumption).
      rewrite Hold in Hbp by lia. rewrite HbN in Hbq.
      exfalso. eapply Hev; [|exact Hbp|exact Hbq]. eapply list_elem_of_lookup_2; eassumption.
    + apply list_lookup_singleton_Some in Hi as (_ & <-).
      assert (Hq : (q < N)%nat) by (apply Hb; eapply list_elem_of_lookup_2; eassumption).
      rewrite Hold in Hbq by lia. rewrite HbN in Hbp.
      exfalso. eapply Hev; [|exact Hbq|exact Hbp]. eapply list_elem_of_lookup_2; eassumption.
    + apply list_lookup_singleton_Some in Hi as (Hi & _).
      apply list_lookup_singleton_Some in Hj as (Hj & _). lia.
  - assert (Hs_f : link father h s = Some node).
    { apply (sons_father _ _ _ Hl Hc). apply elem_of_app. right.
      now apply list_elem_of_singleton. }
    destruct (chain_back h h' f Hl) with (o := link sons h f) (l := l')
      as (Hc0 & Hall); [| exact Hc' | |].
    + intros p Hp Hf. rewrite HR. rewrite decide_False; [reflexivity|].
      intros ->. congruence.
    + intros p Hp. now apply sons_start.
    + intros i j p q c Hi Hj Hbp Hbq.
      assert (Hp : (p < N)%nat) by (apply Hall; eapply list_elem_of_lookup_2; eassumption).
      assert (Hq : (q < N)%nat) by (apply Hall; eapply list_elem_of_lookup_2; eassumption).
      rewrite Hold in Hbp, Hbq by lia.
      exact (Hd _ _ Hc0 _ _ _ _ _ Hi Hj Hbp Hbq).
Qed.

Section Split.
Variables (h h' : list NODE) (str : list Z) (x f : nat) (s1 b : Z).
Let N := List.length h.
Hypothesis Hl : linked h.
Hypothesis Hf : link father h x = Some f.
Hypothesis Hlen : List.length h' = S (S N).
Hypothesis ER : forall q, link right_sibling h' q =
  if decide (q = x) then Some (S N)
  else if decide (q = N) then link right_sibling h x
  else if decide (link left_sibling h x = Some q) then Some N
  else link right_sibling h q.
Hypothesis ES : forall q, link sons h' q =
  if decide (q = N) then Some x
  else if decide (q = f /\ link sons h f = Some x) then Some N
  else link sons h q.
Hypothesis Hst : forall p, start_of h' p =
  if decide (p = x) then Some s1
  else if decide (p = N) then start_of h x
  else if decide (p = S N) then Some b
  else start_of h p.

(** The node that stood where [p] stands after the split. *)
Definition before_split (p : nat) : nat := if decide (p = N) then x else p.

Lemma split_x_bound : (x < N)%nat.
Proof. exact (link_Some _ _ _ _ Hf). Qed.

Lemma chain_map : forall o' l', chain h' o' l' ->
  (forall p, o' = Some p ->
     p = N \/ ((p < N)%nat /\ p <> x /\ link father h p = Some f)) ->
  chain h (before_split <$> o') (before_split <$> l') /\
  forall p, p ∈ l' ->
    p = N \/ ((p < N)%nat /\ p <> x /\ link father h p = Some f).
Proof.
  pose proof split_x_bound as Hx.
  intros o' l' Hc. induction Hc as [|p l' Hp Hc IH]; intros Ho.
  - split; [constructor|]. intros p Hp. now apply elem_of_nil in Hp.
  - assert (Hafter : forall r, link right_sibling h x = Some r ->
              (r < N)%nat /\ r <> x /\ link father h r = Some f).
    { intros r Hr. destruct (Hl x) as (_ & K1 & _).
      destruct (K1 r Hr) as (Hne & Hlr & Hfr).
      split; [exact (link_Some _ _ _ _ Hlr)|]. split; [exact Hne | congruence]. }
    destruct (Ho p eq_refl) as [->|(Hb & Hne & Hfp)].
    + (* the new internal node stands for the split node *)
      rewrite ER in Hc, IH. rewrite decide_False in Hc, IH by lia.
      rewrite decide_True in Hc, IH by reflexivity.
      destruct IH as (Hc0 & Hall).
      { intros r Hr. right. now apply Hafter. }
      cbn [fmap option_fmap option_map list_fmap].
      unfold before_split at 1 2. rewrite decide_True by reflexivity.
      split.
      * constructor; [exact Hx|].
        destruct (link right_sibling h x) as [r|] eqn:Hr; [|exact Hc0].
        cbn in Hc0. unfold before_split in Hc0 at 1.
        destruct (Hafter r eq_refl) as (Hrb & _).
        now rewrite decide_False in Hc0 by lia.
      * intros q Hq. apply elem_of_cons in Hq as [->|Hq]; [now left | now apply Hall].
    + rewrite ER in Hc, IH. rewrite !decide_False in Hc, IH by lia.
      cbn [fmap option_fmap option_map list_fmap].
      unfold before_split at 1 2. rewrite decide_False by lia.
      destruct (decide (link left_sibling h x = Some p)) as [Hlx|Hlx].
      * destruct IH as (Hc0 & Hall); [intros r [= <-]; now left|].
        cbn in Hc0. unfold before_split in Hc0 at 1.
        rewrite decide_True in Hc0 by reflexivity.
        destruct (Hl x) as (_ & _ & K2 & _). destruct (K2 p Hlx) as (_ & Hrp).
        split.
        -- constructor; [exact Hb|]. now rewrite Hrp.
        -- intros q Hq. apply elem_of_cons in Hq as [->|Hq]; [right; auto | now apply Hall].
      * assert (Hnext : forall r, link right_sibling h p = Some r ->
                  (r < N)%nat /\ r <> x /\ link father h r = Some f).
        { intros r Hr. destruct (Hl p) as (_ & K1 & _).
          destruct (K1 r Hr) as (_ & Hlr & Hfr).
          split; [exact (link_Some _ _ _ _ Hlr)|]. split; [|congruence].
          intros ->. contradiction. }
        destruct IH as (Hc0 & Hall); [intros r Hr; right; now apply Hnext|].
        split.
        -- constructor; [exact Hb|].
           destruct (link right_sibling h p) as [r|] eqn:Hr; [|exact Hc0].
           cbn in Hc0. unfold before_split in Hc0 at 1.
           destruct (Hnext r eq_refl) as (Hrb & _).
           now rewrite decide_False in Hc0 by lia.
        -- intros q Hq. apply elem_of_cons in Hq as [->|Hq]; [right; auto | now apply Hall].
Qed.

(** Rule 2 with a split keeps the sons distinct when the byte after the
    cut differs from the byte at [b], where the new leaf begins. *)
Lemma distinct_split :
  distinct h str ->
  (forall a c, text_at str s1 = Some a -> text_at str b = Some c -> a <> c) ->
  distinct h' str.
Proof.
  pose proof split_x_bound as Hx.
  intros Hd Hev.
  destruct (Hl x) as (X5 & X1 & X2 & X3). destruct (X5 f Hf) as (Hfx & Hfb). fold N in Hfb.
  assert (Hlb : forall q, link left_sibling h x = Some q -> (q < N)%nat).
  { intros q Hq. destruct (X2 q Hq) as (_ & Hr). exact (link_Some _ _ _ _ Hr). }
  assert (HbN : byte h' str N = byte h str x).
  { unfold byte. rewrite Hst. rewrite decide_False by lia. now rewrite decide_True. }
  assert (Hbx : byte h' str x = text_at str s1).
  { unfold byte. rewrite Hst. now rewrite decide_True. }
  assert (HbS : byte h' str (S N) = text_at str b).
  { unfold byte. rewrite Hst. rewrite !decide_False by lia. now rewrite decide_True. }
  assert (Hold : forall p, (p < N)%nat -> p <> x -> byte h' str p = byte h str p).
  { intros p Hp Hne. unfold byte. rewrite Hst. now rewrite !decide_False by lia. }
  intros f' l' Hc'. rewrite ES in Hc'.
  destruct (decide (f' = N)) as [->|HfN].
  - (* the sons of the new internal node *)
    assert (Hc2 : chain h' (Some x) [x; S N]).
    { constructor; [lia|]. rewrite ER, decide_True by reflexivity.
      constructor; [lia|]. rewrite ER. rewrite !decide_False by lia.
      rewrite decide_False.
      - rewrite link_None by lia. constructor.
      - intros Hq. apply Hlb in Hq. lia. }
    rewrite (chain_unique _ _ _ Hc2 _ Hc').
    intros [|[|i]] [|[|j]] p q c Hi Hj Hbp Hbq; cbn in Hi, Hj; try discriminate;
      try reflexivity; injection Hi as <-; injection Hj as <-; exfalso.
    + rewrite Hbx in Hbp. rewrite HbS in Hbq. exact (Hev _ _ Hbp Hbq eq_refl).
    + rewrite Hbx in Hbq. rewrite HbS in Hbp. exact (Hev _ _ Hbq Hbp eq_refl).
  - destruct (decide (f' = f)) as [->|Hff].
    + (* the sons of the father: the new internal node for the split node *)
      set (o' := if decide (f = f /\ link sons h f = Some x) then Some N
                 else link sons h f) in *.
      assert (Ho : before_split <$> o' = link sons h f /\
                   forall p, o' = Some p ->
                     p = N \/ ((p < N)%nat /\ p <> x /\ link father h p = Some f)).
      { unfold o'. destruct (decide (f = f /\ link sons h f = Some x)) as [[_ Hs]|Hn].
        - split; [|intros p [= <-]; now left].
          cbn. unfold before_split. now rewrite decide_True.
        - destruct (link sons h f) as [p|] eqn:Hs; [|split; [reflexivity | discriminate]].
          destruct (sons_start _ _ _ Hl Hs) as (Hpb & Hpf).
          assert (Hpx : p <> x) by (intros ->; apply Hn; auto).
          split; [|intros p' [= <-]; right; auto].
          cbn. unfold before_split. rewrite decide_False by lia. reflexivity. }
      destruct Ho as (Ho1 & Ho2).
      destruct (chain_map o' l' Hc' Ho2) as (Hc0 & Hall). rewrite Ho1 in Hc0.
      assert (Hbyte : forall p, p ∈ l' -> byte h' str p = byte h str (before_split p)).
      { intros p Hp. unfold before_split.
        destruct (Hall p Hp) as [->|(Hb & Hne & _)].
        - now rewrite decide_True.
        - rewrite decide_False by lia. now apply Hold. }
      intros i j p q c Hi Hj Hbp Hbq.
      rewrite Hbyte in Hbp by (eapply list_elem_of_lookup_2; eassumption).
      rewrite Hbyte in Hbq by (eapply list_elem_of_lookup_2; eassumption).
      apply (Hd _ _ Hc0 i j (before_split p) (before_split q) c);
        first [ assumption
              | rewrite list_lookup_fmap; first [now rewrite Hi | now rewrite Hj] ].
    + (* the sons of any other node *)
      rewrite decide_False in Hc' by tauto.
      destruct (chain_back h h' f' Hl) with (o := link sons h f') (l := l')
        as (Hc0 & Hall); [| exact Hc' | |].
      * intros p Hp Hfp. rewrite ER.
        rewrite decide_False by (intros ->; congruence).
        rewrite decide_False by (fold N in Hp; lia).
        rewrite decide_False; [reflexivity|].
        intros Hq. destruct (X2 p Hq) as (_ & Hr).
        destruct (Hl p) as (_ & K1 & _). destruct (K1 x Hr) as (_ & _ & E).
        congruence.
      * intros p Hp. now apply sons_start.
      * intros i j p q c Hi Hj Hbp Hbq.
        assert (Hp : (p < N)%nat /\ link father h p = Some f')
          by (apply Hall; eapply list_elem_of_lookup_2; eassumption).
        assert (Hq : (q < N)%nat /\ link father h q = Some f')
          by (apply Hall; eapply list_elem_of_lookup_2; eassumption).
        destruct Hp as (Hp1 & Hp2). destruct Hq as (Hq1 & Hq2).
        rewrite Hold in Hbp by (first [assumption | congruence]).
        rewrite Hold in Hbq by (first [assumption | congruence]).
        exact (Hd _ _ Hc0 _ _ _ _ _ Hi Hj Hbp Hbq).
Qed.

End Split.

(** What [find_son] answers is a son: a node whose father is [node]. *)
Lemma find_son_loop_father fuel t c nd q : linked (heap t) -> forall o,
  (forall p, o = Some p -> link father (heap t) p = Some nd) ->
  find_son_loop fuel t o c = Ret (Some q) -> link father (heap t) q = Some nd.
Proof.
  intros Hl. induction fuel as [|fuel IH]; intros [p|] Ho H; cbn [find_son_loop] in H;
    try discriminate.
  apply bind_Ret in H as (n & Hn & H). apply node_at_Ret in Hn.
  apply bind_Ret in H as (c' & _ & H).
  destruct (bool_decide (c' = c)); [injection H as <-; now apply Ho|].
  apply (IH (right_sibling n)); [|exact H].
  intros r Hr. destruct (Hl p) as (_ & K1 & _).
  destruct (K1 r) as (_ & _ & Hf); [now rewrite (link_lookup _ _ _ _ Hn)|].
  rewrite Hf. now apply Ho.
Qed.

Lemma find_son_father fuel t nd c q :
  linked (heap t) -> find_son fuel t nd c = Ret (Some q) ->
  link father (heap t) q = Some nd.
Proof.
  intros Hl H. unfold find_son in H. apply bind_Ret in H as (n & Hn & H).
  apply node_at_Ret in Hn.
  apply (find_son_loop_father fuel t c nd q Hl (sons n)); [|exact H].
  intros p Hp. destruct (Hl nd) as (_ & _ & _ & K3).
  destruct (K3 p) as (Hf & _); [now rewrite (link_lookup _ _ _ _ Hn)|]. exact Hf.
Qed.

(** When [find_son] finds nothing, no son on the chain begins with the
    byte. *)
Lemma find_son_loop_none fuel t c : forall o,
  find_son_loop fuel t o c = Ret None ->
  exists l, chain (heap t) o l /\
            forall p c', p ∈ l -> byte (heap t) (tree_string t) p = Some c' -> c' <> c.
Proof.
  induction fuel as [|fuel IH]; intros [p|] H; cbn [find_son_loop] in H;
    try discriminate.
  - exists []. split; [constructor|]. intros p c' Hp. now apply elem_of_nil in Hp.
  - apply bind_Ret in H as (n & Hn & H). apply node_at_Ret in Hn.
    apply bind_Ret in H as (c' & Hc' & H).
    destruct (bool_decide_reflect (c' = c)) as [->|Hne]; [discriminate|].
    destruct (IH _ H) as (l & Hc & Hall). exists (p :: l). split.
    + constructor; [now apply lookup_lt_Some in Hn|].
      now rewrite (link_lookup _ _ _ _ Hn).
    + intros q c0 Hq Hb. apply elem_of_cons in Hq as [->|Hq]; [|now apply (Hall q)].
      unfold byte, start_of in Hb. rewrite Hn in Hb. cbn in Hb.
      apply char_at_text in Hc'. congruence.
  - exists []. split; [constructor|]. intros p c' Hp. now apply elem_of_nil in Hp.
Qed.

Lemma find_son_none fuel t nd c :
  find_son fuel t nd c = Ret None ->
  exists l, chain (heap t) (link sons (heap t) nd) l /\
            forall p c', p ∈ l -> byte (heap t) (tree_string t) p = Some c' -> c' <> c.
Proof.
  unfold find_son. intros H. apply bind_Ret in H as (n & Hn & H).
  apply node_at_Ret in Hn. rewrite (link_lookup _ _ _ _ Hn).
  exact (find_son_loop_none _ _ _ _ H).
Qed.

(** How a trace in [no_skip] mode has ended at [pos], with [cf] bytes of
    the string [pb..pe] found: the whole string was found, or the trace is
    stuck at the end of a label where no son begins with the next byte,
    or the next byte of the label differs from the next byte of the
    string. *)
Definition ended (fuel : nat) (t : SUFFIX_TREE) (E : Z) (pos : POS) (pb pe cf : Z)
    : Prop :=
  cf = pe - pb + 1 \/
  (exists x c, tags t !! pos_node pos = Some x /\
               edge_pos pos = eff_end E x - x.1.1.1 /\
               char_at t (pb + cf) = Ret c /\
               find_son fuel t (pos_node pos) c = Ret None) \/
  (exists x, tags t !! pos_node pos = Some x /\
             edge_pos pos < eff_end E x - x.1.1.1 /\
             differ t (x.1.1.1 + edge_pos pos + 1) (pb + cf) /\
             pos_node pos <> root t).

Section Evidence.
Variable t : SUFFIX_TREE.
Variable E : Z.
Hypothesis He : e t = Some E.
Hypothesis Hroot : root t = 0%nat.
Hypothesis Hsp : spans (tags t) E.
Hypothesis HE : E + 2 < 2 ^ 64.
Hypothesis Hl : linked (heap t).

Lemma found_son_not_root fuel nd c q :
  find_son fuel t nd c = Ret (Some q) -> q <> root t.
Proof.
  intros H Hq. apply (find_son_father _ _ _ _ _ Hl) in H.
  rewrite Hq, Hroot in H.
  unfold link in H. destruct (heap t !! 0%nat) as [n|] eqn:Hn; [|discriminate].
  cbn in H. apply tags_lookup in Hn. pose proof (Hsp _ _ Hn) as (_ & _ & S3).
  cbn in S3. apply bool_decide_eq_false in S3. apply S3. congruence.
Qed.

Lemma trace_single_edge_ended fuel node str node' ep cf :
  0 <= path_begin str <= path_end str -> path_end str <= E ->
  trace_single_edge fuel t node str no_skip = Ret (node', ep, cf, true) ->
  ended fuel t E (mkPos node' ep) (path_begin str) (path_end str) cf.
Proof.
  intros Hb Hpe H. unfold trace_single_edge in H.
  apply bind_Ret in H as (c & Hc & H).
  apply bind_Ret in H as (cont & Hcont & H).
  assert (Hsl : dw (path_end str - path_begin str + 1)
                = path_end str - path_begin str + 1)
    by (unfold dw; apply Z.mod_small; lia).
  rewrite Hsl in H. set (sl := path_end str - path_begin str + 1) in *.
  destruct cont as [q|].
  - apply bind_Ret in H as (len & Hlen & H).
    apply (label_length_spec t E He Hsp HE) in Hlen as (x & Hx & Hlen & Hlb).
    apply bind_Ret in H as (n & Hn & H). apply node_at_Ret in Hn.
    apply tags_lookup in Hn. assert (x = tag n) by congruence. subst x.
    change (tag n).1.1.1 with (edge_label_start n) in *.
    apply bind_Ret in H as (r & Hr & H).
    assert (EL : (if bool_decide (sl < len) then sl else len) = Z.min sl len)
      by (case_bool_decide; lia).
    rewrite EL in Hr. apply scan_edge_spec in Hr; [|lia|lia].
    destruct r as [[ep' cf'] | [ep' cf']].
    + injection H as <- <- <-. destruct Hr as (H1 & -> & _ & Hd).
      right. right. exists (tag n). cbn [pos_node edge_pos].
      assert (Em : dw (cf' - 1) = cf' - 1) by (unfold dw; apply Z.mod_small; lia).
      rewrite Em. split; [exact Hx|].
      change (tag n).1.1.1 with (edge_label_start n).
      split; [lia|]. split.
      * replace (edge_label_start n + (cf' - 1) + 1) with (edge_label_start n + cf') by lia.
        exact Hd.
      * exact (found_son_not_root _ _ _ _ Hcont).
    + injection H as <- <- <- Hd. destruct Hr as (-> & H2 & _).
      left. apply negb_true_iff, bool_decide_eq_false in Hd. lia.
  - apply bind_Ret in H as (len & Hlen & H). injection H as <- <- <-.
    apply (label_length_spec t E He Hsp HE) in Hlen as (x & Hx & Hlen & Hlb).
    right. left. exists x, c. cbn [pos_node edge_pos]. split; [exact Hx|].
    split; [unfold dw; rewrite Z.mod_small by lia; lia|].
    rewrite Z.add_0_r. auto.
Qed.

Lemma trace_string_loop_ended fuel fuel0 : forall node str cf0 node' ep cf,
  0 <= path_begin str <= path_end str -> path_end str <= E ->
  0 <= cf0 -> cf0 + (path_end str - path_begin str + 1) <= E + 1 ->
  trace_string_loop fuel fuel0 t node str cf0 no_skip = Ret (node', ep, cf) ->
  ended fuel0 t E (mkPos node' ep) (path_begin str - cf0) (path_end str) cf.
Proof.
  induction fuel as [|fuel IH]; intros node str cf0 node' ep cf Hb Hpe Hc0 Hsum H;
    cbn [trace_string_loop] in H; [discriminate|].
  apply bind_Ret in H as ([[[n1 ep1] ecf] done] & H1 & H).
  pose proof (trace_single_edge_pos t E He Hsp HE _ _ _ _ _ _ _ _ Hb Hpe H1)
    as (_ & Hcf & Hdone).
  assert (E1 : dw (cf0 + ecf) = cf0 + ecf) by (unfold dw; apply Z.mod_small; lia).
  rewrite E1 in H. destruct done.
  - injection H as <- <- <-.
    apply trace_single_edge_ended in H1; [|exact Hb|exact Hpe].
    destruct H1 as [Hfull | [(x & c & Hx & Hep & Hc & Hfs) | (x & Hx & Hep & Hd & Hr)]].
    + left. lia.
    + right. left. exists x, c. split; [exact Hx|]. split; [exact Hep|].
      split; [|exact Hfs].
      replace (path_begin str - cf0 + (cf0 + ecf)) with (path_begin str + ecf) by lia.
      exact Hc.
    + right. right. exists x. split; [exact Hx|]. split; [exact Hep|].
      split; [|exact Hr].
      replace (path_begin str - cf0 + (cf0 + ecf)) with (path_begin str + ecf) by lia.
      exact Hd.
  - specialize (Hdone eq_refl).
    assert (E2 : dw (path_begin str + ecf) = path_begin str + ecf)
      by (unfold dw; apply Z.mod_small; lia).
    rewrite E2 in H. apply IH in H; cbn [path_begin path_end] in *; try lia.
    replace (path_begin str + ecf - (cf0 + ecf)) with (path_begin str - cf0) in H by lia.
    exact H.
Qed.

End Evidence.

Lemma distinct_shape h h' str :
  List.length h' = List.length h ->
  (forall p, link right_sibling h' p = link right_sibling h p) ->
  (forall p, link sons h' p = link sons h p) ->
  (forall p, start_of h' p = start_of h p) ->
  distinct h str -> distinct h' str.
Proof.
  intros Hlen HR HS Hst Hd f l Hc. rewrite HS in Hc.
  assert (Hc0 : chain h (link sons h f) l).
  { apply (chain_ext _ _ _ _ Hc). intros p Hp. split; [|symmetry; apply HR].
    rewrite <- Hlen. exact (chain_bound _ _ _ Hc p Hp). }
  intros i j p q c Hi Hj Hbp Hbq. unfold byte in Hbp, Hbq. rewrite Hst in Hbp, Hbq.
  exact (Hd _ _ Hc0 _ _ _ _ _ Hi Hj Hbp Hbq).
Qed.

Lemma distinct_store t p n n' str :
  heap t !! p = Some n ->
  right_sibling n' = right_sibling n -> sons n' = sons n ->
  edge_label_start n' = edge_label_start n ->
  distinct (heap t) str -> distinct (heap (store t p n')) str.
Proof.
  intros Hn Hr Hs He. apply distinct_shape; cbn [heap store with_heap].
  - apply length_insert.
  - intros q. exact (link_insert_same _ _ _ _ _ q Hn Hr).
  - intros q. exact (link_insert_same _ _ _ _ _ q Hn Hs).
  - intros q. unfold start_of. destruct (decide (p = q)) as [->|Hne].
    + rewrite list_lookup_insert_eq by (now apply lookup_lt_Some in Hn).
      rewrite Hn. cbn. now rewrite He.
    + now rewrite list_lookup_insert_ne.
Qed.

Lemma distinct_create_suffix_link t node l t' str :
  distinct (heap t) str -> create_suffix_link t node l = Ret t' ->
  distinct (heap t') str.
Proof.
  unfold create_suffix_link. intros Hd H.
  apply bind_Ret in H as (n & Hn & H). apply node_at_Ret in Hn. injection H as <-.
  now apply (distinct_store _ _ n).
Qed.

Lemma distinct_rule_2_new_son fuel fuel' t node b e_ pp ep t' q c :
  linked (heap t) -> distinct (heap t) (tree_string t) ->
  apply_extension_rule_2 fuel t node b e_ pp ep new_son = Ret (t', q) ->
  char_at t b = Ret c -> find_son fuel' t node c = Ret None ->
  distinct (heap t') (tree_string t).
Proof.
  intros Hl Hd H Hc Hfs.
  destruct (new_son_links _ _ _ _ _ _ _ _ _ Hl H)
    as (l & s & Hch & Hnode & _ & Hlen & HR & HS & Hst).
  apply find_son_none in Hfs as (l0 & Hch0 & Hall).
  rewrite (chain_unique _ _ _ Hch _ Hch0) in Hall.
  apply (distinct_new_son _ _ _ node l s b Hl Hd Hch Hlen HR HS Hst).
  intros p c' Hp Hb Ht. apply char_at_text in Hc.
  apply (Hall p c' Hp Hb). congruence.
Qed.

Lemma distinct_rule_2_split fuel t node b e_ pp ep t' q :
  linked (heap t) -> distinct (heap t) (tree_string t) ->
  apply_extension_rule_2 fuel t node b e_ pp ep split = Ret (t', q) ->
  (forall s0 a c, start_of (heap t) node = Some s0 ->
     text_at (tree_string t) (dw (s0 + (ep + 1))) = Some a ->
     text_at (tree_string t) b = Some c -> a <> c) ->
  distinct (heap t') (tree_string t).
Proof.
  intros Hl Hd H Hev.
  destruct (split_links _ _ _ _ _ _ _ _ _ Hl H) as (f & Hf & _ & Hlen & ER & _ & ES & _).
  apply tags_rule_2 in H as (Hcut & _). cbn [cut] in Hcut.
  destruct Hcut as (s0 & en & so & Hx & Ht').
  assert (Hs0 : start_of (heap t) node = Some s0).
  { rewrite start_of_tags, Hx. reflexivity. }
  assert (HlenT : List.length (tags t) = List.length (heap t))
    by (unfold tags; apply length_fmap).
  assert (Hxb : (node < List.length (heap t))%nat) by exact (link_Some _ _ _ _ Hf).
  apply (distinct_split (heap t) (heap t') (tree_string t) node f
           (dw (s0 + (ep + 1))) b Hl Hf Hlen ER ES); [|exact Hd|].
  - intros p. rewrite !start_of_tags, Ht'.
    destruct (decide (p = node)) as [->|Hpx].
    + rewrite lookup_app_l by (rewrite length_insert; lia).
      rewrite list_lookup_insert_eq by lia. reflexivity.
    + destruct (decide (p = List.length (heap t))) as [->|HpN].
      * rewrite lookup_app_r by (rewrite length_insert; lia).
        rewrite length_insert, HlenT, Nat.sub_diag, Hx. reflexivity.
      * destruct (decide (p = S (List.length (heap t)))) as [->|HpS].
        -- rewrite lookup_app_r by (rewrite length_insert; lia).
           rewrite length_insert, HlenT.
           replace (S (List.length (heap t)) - List.length (heap t))%nat with 1%nat by lia.
           reflexivity.
        -- destruct (lt_dec p (List.length (heap t))) as [Hlt|Hge].
           ++ rewrite lookup_app_l by (rewrite length_insert; lia).
              now rewrite list_lookup_insert_ne.
           ++ rewrite !lookup_ge_None_2; [reflexivity| |];
                rewrite ?length_app, ?length_insert; simpl; lia.
  - intros a c. exact (Hev s0 a c Hs0).
Qed.

(** One extension keeps the sons of every node distinct. *)
Lemma distinct_SEA fuel t E pos str after t' pos' r :
  e t = Some E -> root t = 0%nat -> spans (tags t) E -> E + 2 < 2 ^ 64 ->
  linked (heap t) -> distinct (heap t) (tree_string t) ->
  pos_node pos = root t \/ pos_ok (tags t) E pos ->
  1 <= path_begin str <= path_end str -> path_end str = E ->
  SEA fuel t pos str after = Ret (t', pos', r) ->
  distinct (heap t') (tree_string t).
Proof.
  intros He Hroot Hsp HE Hl Hd Hpos Hstr Hpe H. unfold SEA in H.
  apply bind_Ret in H as (pos1 & H1 & H).
  assert (Hpos1 : pos_node pos1 = root t \/ pos_ok (tags t) E pos1).
  { destruct after; [now injection H1 as <-|].
    exact (follow_suffix_link_pos t E He Hsp HE _ _ _ Hpos H1). }
  clear H1 Hpos.
  apply bind_Ret in H as ([[pos2 str2] cf] & H2 & H).
  assert (HB : pos_ok (tags t) E pos2 /\
               1 <= path_begin str2 <= path_end str2 /\ path_end str2 = E /\
               0 <= cf <= path_end str2 - path_begin str2 + 1 /\
               ended fuel t E pos2 (path_begin str2) (path_end str2) cf).
  { destruct (bool_decide_reflect (pos_node pos1 = root t)) as [Hr|Hr].
    - apply bind_Ret in H2 as ([[node' ep] cf'] & Htr & H2). injection H2 as <- <- <-.
      unfold trace_string in Htr.
      pose proof Htr as Htr'.
      apply (trace_string_loop_pos t E He Hsp HE) in Htr; try lia.
      apply (trace_string_loop_ended t E He Hroot Hsp HE Hl) in Htr'; try lia.
      rewrite Z.sub_0_r in Htr'.
      destruct Htr as (Hp & Hc). split; [exact Hp|]. split; [lia|].
      split; [exact Hpe|]. split; [lia | exact Htr'].
    - destruct Hpos1 as [Hc|Hpos1]; [contradiction|].
      apply bind_Ret in H2 as (last & Hlast & H2).
      apply (last_char_spec t E He Hsp HE) in Hlast as (x & Hx & ->).
      cbn [path_end path_begin] in H2.
      assert (Edw : dw (path_end str + 0) = path_end str)
        by (rewrite Z.add_0_r; unfold dw; apply Z.mod_small; lia).
      destruct (bool_decide_reflect (edge_pos pos1 = eff_end E x - x.1.1.1)) as [Hlc|Hlc].
      + apply bind_Ret in H2 as (c & Hc & H2). apply bind_Ret in H2 as (tmp & Htmp & H2).
        destruct tmp as [q|]; injection H2 as <- <- <-; cbn [path_begin path_end].
        * split; [|split; [lia|split; [exact Hpe|split; [lia|left; lia]]]].
          apply find_son_valid in Htmp as (n & Hn).
          apply tags_lookup in Hn. exists (tag n). split; [exact Hn|].
          pose proof (Hsp _ _ Hn) as (S1 & _). cbn [edge_pos]. lia.
        * split; [exact Hpos1|]. split; [lia|]. split; [exact Hpe|]. split; [lia|].
          right. left. exists x, c. rewrite Z.add_0_r. auto.
      + apply bind_Ret in H2 as (n & Hn & H2). apply node_at_Ret in Hn.
        apply tags_lookup in Hn. assert (x = tag n) by congruence. subst x.
        apply bind_Ret in H2 as (a & Ha & H2). apply bind_Ret in H2 as (b & Hb & H2).
        destruct Hpos1 as (x' & Hx' & Hb').
        assert (x' = tag n) by congruence. subst x'.
        pose proof (Hsp _ _ Hx) as (S1 & S2 & _).
        destruct (bool_decide_reflect (a = b)) as [Hab|Hab]; injection H2 as <- <- <-;
          cbn [path_begin path_end].
        * split; [|split; [lia|split; [exact Hpe|split; [lia|left; lia]]]].
          exists (tag n). split; [exact Hx|]. cbn [edge_pos]. unfold dw.
          rewrite Z.mod_small; lia.
        * split; [exists (tag n); auto|]. split; [lia|]. split; [exact Hpe|].
          split; [lia|]. right. right. exists (tag n). split; [exact Hx|].
          split; [lia|]. split; [|exact Hr].
          exists a, b. rewrite Edw. change (tag n).1.1.1 with (edge_label_start n). auto. }
  clear H2 Hpos1. destruct HB as (Hpos2 & Hstr2 & Hpe2 & Hcf & Hend).
  assert (Esl : dw (path_end str2 - path_begin str2 + 1)
                = path_end str2 - path_begin str2 + 1)
    by (unfold dw; apply Z.mod_small; lia).
  rewrite Esl in H.
  destruct (bool_decide_reflect (cf = path_end str2 - path_begin str2 + 1)) as [Hfull|Hfull].
  { (* rule 3 *)
    apply bind_Ret in H as (t1 & Ht1 & H). injection H as <- _ _.
    destruct (suffixless t) as [s|]; [|now injection Ht1 as <-].
    apply bind_Ret in Ht1 as (n & _ & Ht1). apply bind_Ret in Ht1 as (t2 & Ht2 & Ht1).
    injection Ht1 as <-. cbn [heap with_suffixless].
    exact (distinct_create_suffix_link _ _ _ _ _ Hd Ht2). }
  assert (Eb : dw (path_begin str2 + cf) = path_begin str2 + cf)
    by (unfold dw; apply Z.mod_small; lia).
  rewrite Eb in H.
  apply bind_Ret in H as (last & Hlast & H).
  apply (last_char_spec t E He Hsp HE) in Hlast as (x & Hx & ->).
  destruct Hend as [Hc | Hend]; [contradiction|].
  destruct (bool_decide (edge_pos pos2 = eff_end E x - x.1.1.1)
            || bool_decide (pos_node pos2 = root t)) eqn:Hor.
  - (* a new son, or nothing *)
    apply bind_Ret in H as (n & _ & H). destruct (sons n) as [first|].
    2: { injection H as <- _ _. exact Hd. }
    apply bind_Ret in H as ([t1 q] & Ht1 & H).
    apply bind_Ret in H as (t2 & Ht2 & H). injection H as <- _ _.
    assert (Hd1 : distinct (heap t1) (tree_string t)).
    { destruct Hend as [(x' & c & Hx' & Hep & Hc & Hfs) | (x' & Hx' & Hep & _ & Hnr)].
      - exact (distinct_rule_2_new_son _ _ _ _ _ _ _ _ _ _ _ Hl Hd Ht1 Hc Hfs).
      - exfalso. assert (x' = x) by congruence. subst x'.
        apply orb_true_iff in Hor as [Hor|Hor]; apply bool_decide_eq_true in Hor;
          [lia | contradiction]. }
    destruct (suffixless t1) as [s|]; [|now injection Ht2 as <-].
    apply bind_Ret in Ht2 as (t3 & Ht3 & Ht2). injection Ht2 as <-.
    cbn [heap with_suffixless].
    exact (distinct_create_suffix_link _ _ _ _ _ Hd1 Ht3).
  - (* a split *)
    apply orb_false_iff in Hor as [Hnl Hnr].
    apply bool_decide_eq_false in Hnl, Hnr.
    apply bind_Ret in H as ([t1 tmp] & Ht1 & H).
    assert (Hd1 : distinct (heap t1) (tree_string t)).
    { destruct Hend as [(x' & c & Hx' & Hep & _) | (x' & Hx' & Hep & Hdf & _)].
      - exfalso. assert (x' = x) by congruence. subst x'. contradiction.
      - assert (x' = x) by congruence. subst x'.
        apply (distinct_rule_2_split _ _ _ _ _ _ _ _ _ Hl Hd Ht1).
        intros s0 a c Hs0 Ha Hc.
        rewrite start_of_tags, Hx in Hs0. injection Hs0 as <-.
        destruct Hdf as (u & v & Hu & Hv & Huv).
        rewrite Eb in Hv. apply char_at_text in Hu, Hv.
        rewrite <- Z.add_assoc in Hu. congruence. }
    apply bind_Ret in H as (t2 & Ht2 & H).
    assert (Hd2 : distinct (heap t2) (tree_string t)).
    { destruct (suffixless t1) as [s|]; [|now injection Ht2 as <-].
      exact (distinct_create_suffix_link _ _ _ _ _ Hd1 Ht2). }
    apply bind_Ret in H as (len & _ & H).
    apply bind_Ret in H as (tn & Htn & H). apply node_at_Ret in Htn.
    apply bind_Ret in H as (t3 & Ht3 & H). injection H as <- _ _.
    destruct (_ && _); injection Ht3 as <-; cbn [heap with_suffixless];
      [|exact Hd2].
    now apply (distinct_store _ _ tn).
Qed.

(** The shape of the tree under construction: the root is node 0, the
    labels lie in the text up to [E], the links agree and the sons of
    every node begin with different bytes. *)
Definition sound (t : SUFFIX_TREE) (E : Z) : Prop :=
  root t = 0%nat /\ spans (tags t) E /\ linked (heap t) /\
  distinct (heap t) (tree_string t).

Lemma tree_string_tables t t' : tables t' = tables t -> tree_string t' = tree_string t.
Proof. unfold tables. now intros [= _ _ _ _ _ _ H _]. Qed.

Lemma sound_SEA fuel t E pos str after t' pos' r :
  e t = Some E -> sound t E -> E + 2 < 2 ^ 64 ->
  pos_node pos = root t \/ pos_ok (tags t) E pos ->
  1 <= path_begin str <= path_end str -> path_end str = E ->
  SEA fuel t pos str after = Ret (t', pos', r) ->
  e t' = Some E /\ sound t' E /\ pos_ok (tags t') E pos'.
Proof.
  intros He (Hroot & Hsp & Hl & Hd) HE Hpos Hstr Hpe H.
  pose proof (e_SEA _ _ _ _ _ _ _ _ H) as He'.
  pose proof (root_SEA _ _ _ _ _ _ _ _ H) as Hr'.
  pose proof (tree_string_tables _ _ (tables_SEA _ _ _ _ _ _ _ _ H)) as Hs'.
  pose proof (linked_SEA _ _ _ _ _ _ _ _ Hl H) as Hl'.
  pose proof (distinct_SEA _ _ _ _ _ _ _ _ _ He Hroot Hsp HE Hl Hd Hpos Hstr Hpe H) as Hd'.
  destruct (spans_SEA _ _ _ _ _ _ _ _ _ He Hroot Hsp HE Hpos Hstr Hpe H) as (Hsp' & Hpos').
  split; [congruence|]. split; [|exact Hpos'].
  split; [congruence|]. split; [exact Hsp'|]. split; [exact Hl'|]. now rewrite Hs'.
Qed.

Lemma sound_SPA_loop fuel fuel0 : forall t pos phase ext rep rule t' pos' ext' rep',
  0 <= phase -> phase + 3 < 2 ^ 64 ->
  e t = Some (phase + 1) -> sound t (phase + 1) ->
  pos_node pos = root t \/ pos_ok (tags t) (phase + 1) pos ->
  1 <= ext ->
  SPA_loop fuel fuel0 t pos phase ext rep rule = Ret (t', pos', ext', rep') ->
  sound t' (phase + 1) /\
  (pos_node pos' = root t' \/ pos_ok (tags t') (phase + 1) pos') /\ 1 <= ext'.
Proof.
  induction fuel as [|fuel IH]; intros t pos phase ext rep rule t' pos' ext' rep'
    Hp Hlt He Hs Hpos Hext H; cbn [SPA_loop] in H.
  - destruct (bool_decide _); [discriminate|]. injection H as <- <- <- _. auto.
  - destruct (bool_decide_reflect (ext <= dw (phase + 1))) as [Hle|_].
    2: { injection H as <- <- <- _. auto. }
    assert (Ed : dw (phase + 1) = phase + 1) by (unfold dw; apply Z.mod_small; lia).
    rewrite Ed in Hle, H.
    apply bind_Ret in H as ([[t1 pos1] r] & H1 & H).
    apply (sound_SEA _ _ (phase + 1)) in H1; cbn [path_begin path_end];
      try assumption; try lia.
    destruct H1 as (He1 & Hs1 & Hpos1).
    destruct (bool_decide (default rule r = 3)).
    + injection H as <- <- <- _. auto.
    + apply IH in H; try assumption; try lia; [now right|].
      unfold dw. rewrite Z.mod_small by lia. lia.
Qed.

Lemma sound_mono t E E' : sound t E -> E <= E' -> sound t E'.
Proof.
  intros (Hr & Hsp & Hl & Hd) Hle. split; [exact Hr|].
  split; [exact (spans_mono _ _ _ Hsp Hle) | auto].
Qed.

Lemma sound_phases cnt fuel : forall t pos phase ext rep t',
  1 <= phase -> phase + Z.of_nat cnt + 3 < 2 ^ 64 ->
  sound t phase ->
  pos_node pos = root t \/ pos_ok (tags t) phase pos ->
  1 <= ext ->
  phases cnt fuel t pos phase ext rep = Ret t' ->
  sound t' (phase + Z.of_nat cnt).
Proof.
  induction cnt as [|cnt IH]; intros t pos phase ext rep t' Hp Hlt Hs Hpos Hext H;
    cbn [phases] in H.
  - injection H as <-. now rewrite Z.add_0_r.
  - apply bind_Ret in H as ([[[t1 pos1] ext1] rep1] & H1 & H).
    unfold SPA in H1.
    assert (Ed : dw (phase + 1) = phase + 1) by (unfold dw; apply Z.mod_small; lia).
    rewrite Ed in H1, H.
    apply sound_SPA_loop in H1; try lia.
    + destruct H1 as (Hs1 & Hpos1 & Hext1).
      apply IH in H; try assumption; try lia.
      replace (phase + Z.of_nat (S cnt)) with (phase + 1 + Z.of_nat cnt) by lia.
      exact H.
    + reflexivity.
    + apply (sound_mono (with_e t (phase + 1)) phase); [exact Hs | lia].
    + change (tags (with_e t (phase + 1))) with (tags t).
      change (root (with_e t (phase + 1))) with (root t).
      destruct Hpos as [Hpos|Hpos]; [now left | right].
      apply (pos_ok_mono _ phase); [exact Hpos | lia].
Qed.

Lemma distinct_dfs fuel str :
  (forall t node depth t' k,
     dfsForInversePointers fuel t node depth = Ret (t', k) ->
     distinct (heap t) str -> distinct (heap t') str) /\
  (forall t c depth num t' k,
     dfs_children fuel t c depth num = Ret (t', k) ->
     distinct (heap t) str -> distinct (heap t') str).
Proof.
  induction fuel as [|fuel [IH1 IH2]]; split.
  - intros; discriminate.
  - intros t [c|] depth num t' k H; simpl in H; [discriminate | now simplify_eq].
  - intros t node depth t' k H Hd. cbn [dfsForInversePointers] in H.
    apply bind_Ret in H as (n & Hn & H). apply node_at_Ret in Hn.
    assert (Hd1 : distinct (heap (store t node (set_strDepth n depth))) str)
      by (now apply (distinct_store _ _ n)).
    destruct (sons n) as [first|].
    + apply bind_Ret in H as (n1 & Hn1 & H). apply node_at_Ret in Hn1.
      apply IH2 in H; [exact H|]. now apply (distinct_store _ _ n1).
    + apply bind_Ret in H as (ip & _ & H). apply bind_Ret in H as (f & _ & H).
      apply bind_Ret in H as (fn & _ & H). apply bind_Ret in H as (fd & _ & H).
      apply bind_Ret in H as (msd & _ & H).
      apply bind_Ret in H as (n1 & Hn1 & H). apply node_at_Ret in Hn1.
      injection H as <- _.
      apply (distinct_store (with_maxStrDepth (with_inversePointers _ ip) msd) _ n1);
        try reflexivity; assumption.
  - intros t [c|] depth num t' k H Hd; cbn [dfs_children] in H; [|now simplify_eq].
    apply bind_Ret in H as (cn & _ & H). apply bind_Ret in H as ([t1 k1] & H1 & H).
    apply bind_Ret in H as (cn' & _ & H).
    apply IH1 in H1; [|exact Hd]. exact (IH2 _ _ _ _ _ _ H H1).
Qed.

(** What [find_son] finds is on the chain of the sons and begins with
    the byte. *)
Lemma find_son_loop_found fuel t c q : forall o l,
  find_son_loop fuel t o c = Ret (Some q) -> chain (heap t) o l ->
  q ∈ l /\ byte (heap t) (tree_string t) q = Some c.
Proof.
  induction fuel as [|fuel IH]; intros [p|] l H Hc; cbn [find_son_loop] in H;
    try discriminate.
  apply bind_Ret in H as (n & Hn & H). apply node_at_Ret in Hn.
  apply bind_Ret in H as (c' & Hc' & H).
  inversion Hc as [|p0 l0 Hp Hc0 E1 E2]; subst.
  destruct (bool_decide_reflect (c' = c)) as [->|Hne].
  - injection H as <-. split; [apply elem_of_cons; auto|].
    unfold byte, start_of. rewrite Hn. cbn. now apply char_at_text.
  - rewrite (link_lookup _ _ _ _ Hn) in Hc0.
    destruct (IH _ _ H Hc0) as (Hq & Hb). split; [apply elem_of_cons; auto | exact Hb].
Qed.

(** In the tree that [ST_CreateTree] returns no two sons of a node have
    labels beginning with the same byte: on the chain of right siblings
    from [node->sons], two different places hold nodes whose first label
    bytes differ.  So the son [find_son] answers is the only son of the
    node that begins with the byte. *)
Theorem ST_CreateTree_sons_distinct (fuel mem_ : nat) (str : list Z) (len : Z)
    (t : SUFFIX_TREE) :
  0 <= len -> len + 2 < 2 ^ 32 ->
  ST_CreateTree fuel mem_ str len = Ret t ->
  distinct (heap t) (tree_string t) /\
  forall fuel' node c q l p,
    find_son fuel' t node c = Ret (Some q) ->
    chain (heap t) (link sons (heap t) node) l -> p ∈ l ->
    byte (heap t) (tree_string t) p = Some c -> p = q.
Proof.
  intros Hlen Hsz H.
  assert (Hd : distinct (heap t) (tree_string t)).
  { unfold ST_CreateTree in H. destruct mem_ as [|m]; [discriminate|].
    apply bind_Ret in H as ([t1 r] & H1 & H).
    assert (Hl1 : length t1 = len + 1).
    { unfold create_node in H1. cbn [avail] in H1.
      destruct m; [discriminate|]. injection H1 as <- _. cbn.
      unfold dw. apply Z.mod_small. lia. }
    pose proof (create_node_heap _ _ _ _ _ _ _ H1) as (-> & Hh1). cbn [heap app] in Hh1.
    apply bind_Ret in H as ([t3 first] & H3 & H).
    assert (Hl3 : length t3 = len + 1).
    { unfold create_node in H3. cbn [avail] in H3.
      destruct (avail t1); [discriminate|]. injection H3 as <- _. exact Hl1. }
    pose proof (create_node_heap _ _ _ _ _ _ _ H3) as (-> & Hh3). cbn [heap] in Hh3.
    apply root_create_node in H3. cbn [root] in H3.
    rewrite Hh1 in Hh3. cbn [app] in Hh3.
    apply bind_Ret in H as (rn & Hrn & H). apply node_at_Ret in Hrn.
    rewrite Hh3 in Hrn. cbn in Hrn. injection Hrn as <-.
    apply bind_Ret in H as (t5 & H5 & H).
    apply bind_Ret in H as ([t6 nn] & H6 & H).
    apply bind_Ret in H as (msd & _ & H). injection H as <-.
    cbn [heap tree_string with_D with_maxStrDepth].
    assert (Hs6 : tree_string t6 = tree_string t5).
    { pose proof (proj1 (ledger_dfs fuel) _ _ _ _ _ H6) as Hg. unfold ledger in Hg.
      now injection Hg as _ _ _ _ Hg _. }
    rewrite Hs6. apply (proj1 (distinct_dfs fuel (tree_string t5))) in H6; [exact H6|].
    cbn [length with_suffixless store with_heap] in H5. rewrite Hl3 in H5.
    set (t4 := with_suffixless _ None) in *.
    assert (Hh4 : heap t4 = [set_sons (mkNode None None None None None 0 0 0 None None)
                               (Some 1%nat);
                             mkNode None None None None (Some 0%nat) 1 1 (length t1)
                               None None]).
    { unfold t4. cbn [heap with_suffixless store with_heap]. rewrite Hh3, Hh1. reflexivity. }
    assert (Hs4 : sound t4 2).
    { split; [exact H3|]. split; [|split].
      - unfold tags. rewrite Hh4. intros [|[|p]] x Hp; cbn in Hp; try discriminate;
          injection Hp as <-; unfold span, eff_end; cbn; lia.
      - rewrite Hh4. intros [|[|p]]; (split; [|split; [|split]]); intros q Hq;
          try discriminate; injection Hq as <-; cbn; auto with lia.
      - rewrite Hh4. intros f l Hc i j p q c Hi Hj _ _.
        assert (Hle : (List.length l <= 1)%nat).
        { destruct f as [|[|f]]; cbn in Hc.
          - inversion Hc as [|p0 l0 Hp0 Hc0 E1 E2]; subst. cbn in Hc0.
            inversion Hc0. cbn. lia.
          - inversion Hc. cbn. lia.
          - inversion Hc. cbn. lia. }
        apply lookup_lt_Some in Hi, Hj. lia. }
    pose proof (tree_string_tables _ _ (tables_phases _ _ _ _ _ _ _ _ H5)) as Hs5.
    apply sound_phases in H5; try lia; [| exact Hs4 | left; symmetry; exact H3].
    destruct H5 as (_ & _ & _ & Hd5). exact Hd5. }
  split; [exact Hd|].
  intros fuel' node c q l p Hfs Hc Hp Hb.
  unfold find_son in Hfs. apply bind_Ret in Hfs as (n & Hn & Hfs).
  apply node_at_Ret in Hn. rewrite (link_lookup _ _ _ _ Hn) in Hc.
  destruct (find_son_loop_found _ _ _ _ _ _ Hfs Hc) as (Hq & Hbq).
  apply list_elem_of_lookup in Hp as (i & Hi). apply list_elem_of_lookup in Hq as (j & Hj).
  rewrite <- (link_lookup sons _ _ _ Hn) in Hc.
  assert (i = j) by exact (Hd _ _ Hc _ _ _ _ _ Hi Hj Hb Hbq). subst j. congruence.
Qed.

Lemma ST_CreateTree_sons_distinct_witness :
  0 <= 7 /\ 7 + 2 < 2 ^ 32 /\
  ST_CreateTree 64 64 (aababab ++ [0]) 7 = Ret aababab_tree /\
  chain (heap aababab_tree) (link sons (heap aababab_tree) 0) [2; 11; 13]%nat /\
  byte (heap aababab_tree) (tree_string aababab_tree) <$> [2; 11; 13]%nat
    = [Some 97; Some 98; Some 0] /\
  distinct (heap aababab_tree) (tree_string aababab_tree) /\
  forall fuel' node c q l p,
    find_son fuel' aababab_tree node c = Ret (Some q) ->
    chain (heap aababab_tree) (link sons (heap aababab_tree) node) l -> p ∈ l ->
    byte (heap aababab_tree) (tree_string aababab_tree) p = Some c -> p = q.
Proof.
  assert (Hlen : 0 <= 7) by lia.
  assert (Hsz : 7 + 2 < 2 ^ 32) by lia.
  assert (H0 : ST_CreateTree 64 64 (aababab ++ [0]) 7 = Ret aababab_tree)
    by (vm_compute; reflexivity).
  refine (conj Hlen (conj Hsz (conj H0 (conj _ (conj _ _))))).
  - repeat (constructor; [vm_compute; lia|]). constructor.
  - vm_compute. reflexivity.
  - exact (ST_CreateTree_sons_distinct 64 64 (aababab ++ [0]) 7 aababab_tree
             Hlen Hsz H0).
Defined.

(** ** The sons of a node are the nodes it is the father of *)

(** The chain of right siblings from [f->sons] ends, and the nodes on it
    are exactly the nodes whose father is [f]. *)
Definition family (h : list NODE) : Prop :=
  forall f, exists l, chain h (link sons h f) l /\
                      forall p, p ∈ l <-> link father h p = Some f.

Lemma chain_suffix h o l : chain h o l -> forall p, p ∈ l ->
  exists l2, chain h (Some p) l2 /\ (List.length l2 <= List.length l)%nat.
Proof.
  induction 1 as [|q l Hq Hc IH]; intros p Hp; [now apply elem_of_nil in Hp|].
  apply elem_of_cons in Hp as [->|Hp].
  - exists (q :: l). split; [now constructor | lia].
  - destruct (IH p Hp) as (l2 & Hc2 & Hle). exists l2. split; [exact Hc2|]. simpl. lia.
Qed.

Lemma chain_NoDup h o l : chain h o l -> NoDup l.
Proof.
  induction 1 as [|p l Hp Hc IH]; constructor; [|exact IH].
  intros Hin. destruct (chain_suffix _ _ _ Hc p Hin) as (l2 & Hc2 & Hle).
  assert (E : l2 = p :: l) by (symmetry; apply (chain_unique _ _ _ Hc2); now constructor).
  subst l2. simpl in Hle. lia.
Qed.

Lemma chain_length h o l : chain h o l -> (List.length l <= List.length h)%nat.
Proof.
  intros Hc. pose proof (chain_NoDup _ _ _ Hc) as Hnd.
  assert (Hsub : l ⊆+ seq 0 (List.length h)).
  { apply NoDup_submseteq; [exact Hnd|]. intros p Hp.
    apply elem_of_seq. pose proof (chain_bound _ _ _ Hc p Hp). lia. }
  apply submseteq_length in Hsub. now rewrite length_seq in Hsub.
Qed.

Lemma link_father_fathers t p : link father (heap t) p = fathers t !! p ≫= id.
Proof.
  unfold link, fathers. rewrite list_lookup_fmap. now destruct (heap t !! p).
Qed.

Lemma family_new_son h h' node l s :
  linked h -> family h ->
  chain h (link sons h node) (l ++ [s]) ->
  (node < List.length h)%nat ->
  List.length h' = S (List.length h) ->
  (forall p, link right_sibling h' p =
     if decide (p = s) then Some (List.length h) else link right_sibling h p) ->
  (forall p, link sons h' p = link sons h p) ->
  (forall p, link father h' p =
     if decide (p = List.length h) then Some node else link father h p) ->
  family h'.
Proof.
  intros Hl Hfam Hc Hnode Hlen HR HS HF. set (N := List.length h) in *.
  pose proof (chain_bound _ _ _ Hc) as Hb.
  assert (Hsb : (s < N)%nat)
    by (apply Hb, elem_of_app; right; now apply list_elem_of_singleton).
  assert (Hs_f : link father h s = Some node).
  { apply (sons_father _ _ _ Hl Hc). apply elem_of_app. right.
    now apply list_elem_of_singleton. }
  assert (HFN : forall p g, link father h p = Some g -> (p < N)%nat /\ (g < N)%nat).
  { intros p g Hg. split; [exact (link_Some _ _ _ _ Hg)|].
    destruct (Hl p) as (K5 & _). now destruct (K5 g Hg). }
  intros f. rewrite HS.
  destruct (decide (f = node)) as [->|Hne].
  - exists (l ++ [s; N]). split.
    + apply (chain_snoc h h' s N); try assumption; try lia.
      * exact (chain_last _ _ _ _ Hc).
      * rewrite HR, decide_False by lia. apply link_None. lia.
    + destruct (Hfam node) as (l0 & Hc0 & Hm0).
      rewrite (chain_unique _ _ _ Hc _ Hc0) in Hm0.
      intros p. rewrite HF. change (l ++ [s; N]) with (l ++ [s] ++ [N]).
      rewrite app_assoc, elem_of_app, list_elem_of_singleton, Hm0.
      destruct (decide (p = N)) as [->|HpN]; [tauto|].
      split; [intros [Hp|Hp]; [exact Hp | contradiction] | auto].
  - destruct (Hfam f) as (l0 & Hc0 & Hm0). exists l0. split.
    + apply (chain_ext _ _ _ _ Hc0). intros p Hp.
      pose proof (chain_bound _ _ _ Hc0 p Hp) as Hpb. split; [lia|].
      rewrite HR, decide_False; [reflexivity|].
      intros ->. apply Hm0 in Hp. congruence.
    + intros p. rewrite HF, Hm0.
      destruct (decide (p = N)) as [->|HpN]; [|reflexivity].
      split; [|intros [= ->]; contradiction].
      intros Hp. apply HFN in Hp. lia.
Qed.

Section SplitFamily.
Variables (h h' : list NODE) (x f : nat).
Hypothesis Hl : linked h.
Hypothesis Hf : link father h x = Some f.
Hypothesis Hlen : List.length h' = S (S (List.length h)).
Hypothesis ER : forall q, link right_sibling h' q =
  if decide (q = x) then Some (S (List.length h))
  else if decide (q = List.length h) then link right_sibling h x
  else if decide (link left_sibling h x = Some q) then Some (List.length h)
  else link right_sibling h q.
Hypothesis ES : forall q, link sons h' q =
  if decide (q = List.length h) then Some x
  else if decide (q = f /\ link sons h f = Some x) then Some (List.length h)
  else link sons h q.
Hypothesis EF : forall q, link father h' q =
  if decide (q = x) then Some (List.length h)
  else if decide (q = S (List.length h)) then Some (List.length h)
  else if decide (q = List.length h) then Some f
  else link father h q.

(** The node that stands after the split where [p] stood. *)
Definition after_split (p : nat) : nat := if decide (p = x) then List.length h else p.

Lemma chain_forward : forall o l, chain h o l ->
  (forall p, o = Some p -> link father h p = Some f) ->
  chain h' (after_split <$> o) (after_split <$> l).
Proof.
  set (N := List.length h) in *.
  assert (Hx : (x < N)%nat) by exact (link_Some _ _ _ _ Hf).
  intros o l Hc. induction Hc as [|p l Hp Hc IH]; intros Ho; [constructor|].
  specialize (Ho p eq_refl).
  assert (Hnext : forall r, link right_sibling h p = Some r -> link father h r = Some f).
  { intros r Hr. destruct (Hl p) as (_ & K1 & _). destruct (K1 r Hr) as (_ & _ & Hfr).
    congruence. }
  specialize (IH Hnext).
  cbn [fmap option_fmap option_map list_fmap]. unfold after_split at 1 2.
  destruct (decide (p = x)) as [->|Hpx].
  - constructor; [lia|]. rewrite ER. rewrite decide_False by lia.
    rewrite decide_True by reflexivity.
    destruct (link right_sibling h x) as [r|] eqn:Hr; [|exact IH].
    cbn in IH. unfold after_split in IH at 1.
    destruct (Hl x) as (_ & K1 & _). destruct (K1 r Hr) as (Hne & _).
    now rewrite decide_False in IH by exact Hne.
  - constructor; [lia|]. rewrite ER. rewrite !decide_False by lia.
    destruct (decide (link left_sibling h x = Some p)) as [Hlx|Hlx].
    + destruct (Hl x) as (_ & _ & K2 & _). destruct (K2 p Hlx) as (_ & Hrp).
      rewrite Hrp in IH. cbn in IH. unfold after_split in IH at 1.
      now rewrite decide_True in IH by reflexivity.
    + destruct (link right_sibling h p) as [r|] eqn:Hr; [|exact IH].
      cbn in IH. unfold after_split in IH at 1.
      rewrite decide_False in IH; [exact IH|].
      intros ->. destruct (Hl p) as (_ & K1 & _). destruct (K1 x Hr) as (_ & Hlx' & _).
      contradiction.
Qed.

Lemma family_split : family h -> family h'.
Proof.
  set (N := List.length h) in *.
  assert (Hx : (x < N)%nat) by exact (link_Some _ _ _ _ Hf).
  destruct (Hl x) as (X5 & X1 & X2 & X3). destruct (X5 f Hf) as (Hfx & Hfb). fold N in Hfb.
  assert (HFN : forall p g, link father h p = Some g -> (p < N)%nat /\ (g < N)%nat).
  { intros p g Hg. split; [exact (link_Some _ _ _ _ Hg)|].
    destruct (Hl p) as (K5 & _). now destruct (K5 g Hg). }
  assert (Hlb : forall q, link left_sibling h x = Some q -> (q < N)%nat).
  { intros q Hq. destruct (X2 q Hq) as (_ & Hr). exact (link_Some _ _ _ _ Hr). }
  intros Hfam f'. rewrite ES.
  destruct (decide (f' = N)) as [->|HfN].
  - (* the new internal node *)
    exists [x; S N]. split.
    + constructor; [lia|]. rewrite ER, decide_True by reflexivity.
      constructor; [lia|]. rewrite ER. rewrite !decide_False by lia.
      rewrite decide_False.
      * rewrite link_None by lia. constructor.
      * intros Hq. apply Hlb in Hq. lia.
    + intros p. rewrite EF. rewrite !elem_of_cons, elem_of_nil.
      destruct (decide (p = x)) as [->|Hpx]; [tauto|].
      destruct (decide (p = S N)) as [->|HpS]; [tauto|].
      destruct (decide (p = N)) as [->|HpN].
      * split; [intros [?|[?|[]]]; lia | intros [= ->]; lia].
      * split; [intros [?|[?|[]]]; contradiction|].
        intros Hp. apply HFN in Hp. lia.
  - destruct (Hfam f') as (l & Hc & Hm).
    destruct (decide (f' = f)) as [->|Hff].
    + (* the father of the split node *)
      exists (after_split <$> l). split.
      * assert (E : (if decide (f = f /\ link sons h f = Some x) then Some N
                     else link sons h f) = after_split <$> link sons h f).
        { destruct (decide (f = f /\ link sons h f = Some x)) as [[_ Hs]|Hn].
          - rewrite Hs. cbn. unfold after_split. now rewrite decide_True.
          - destruct (link sons h f) as [p|] eqn:Hs; [|reflexivity].
            cbn. unfold after_split. rewrite decide_False; [reflexivity|].
            intros ->. apply Hn. auto. }
        rewrite E. apply chain_forward; [exact Hc|].
        intros p Hp. now apply (sons_start _ _ _ Hl Hp).
      * intros p. rewrite list_elem_of_fmap, EF.
        destruct (decide (p = x)) as [->|Hpx].
        { split; [|intros [= E]; lia].
          intros (q & Hq & Hin). unfold after_split in Hq.
          destruct (decide (q = x)); [lia|]. congruence. }
        destruct (decide (p = S N)) as [->|HpS].
        { split; [|intros [= E]; lia].
          intros (q & Hq & Hin). unfold after_split in Hq.
          pose proof (chain_bound _ _ _ Hc q Hin). fold N in H.
          destruct (decide (q = x)); lia. }
        destruct (decide (p = N)) as [->|HpN].
        { split; [reflexivity|]. intros _. exists x. split; [|now apply Hm].
          unfold after_split. now rewrite decide_True. }
        rewrite <- Hm. split.
        -- intros (q & Hq & Hin). unfold after_split in Hq.
           destruct (decide (q = x)); [contradiction | congruence].
        -- intros Hin. exists p. split; [|exact Hin].
           unfold after_split. now rewrite decide_False.
    + (* any other node *)
      rewrite decide_False by tauto. exists l. split.
      * apply (chain_ext _ _ _ _ Hc). intros p Hp.
        pose proof (chain_bound _ _ _ Hc p Hp) as Hpb. fold N in Hpb. split; [lia|].
        apply Hm in Hp. rewrite ER.
        rewrite decide_False by (intros ->; congruence).
        rewrite decide_False by lia.
        rewrite decide_False; [reflexivity|].
        intros Hq. destruct (X2 p Hq) as (_ & Hr).
        destruct (Hl p) as (_ & K1 & _). destruct (K1 x Hr) as (_ & _ & E).
        congruence.
      * intros p. rewrite Hm, EF.
        destruct (decide (p = x)) as [->|Hpx];
          [split; intros Hp; [congruence | injection Hp as <-; contradiction]|].
        destruct (decide (p = S N)) as [->|HpS].
        { split; [intros Hp; apply HFN in Hp; lia | intros [= <-]; contradiction]. }
        destruct (decide (p = N)) as [->|HpN]; [|reflexivity].
        split; [intros Hp; apply HFN in Hp; lia | intros [= <-]; contradiction].
Qed.

End SplitFamily.

(** The links agree and the son chains are complete. *)
Definition kin (h : list NODE) : Prop := linked h /\ family h.

Lemma family_shape h h' :
  List.length h' = List.length h ->
  (forall p, link right_sibling h' p = link right_sibling h p) ->
  (forall p, link sons h' p = link sons h p) ->
  (forall p, link father h' p = link father h p) ->
  family h -> family h'.
Proof.
  intros Hlen HR HS HF Hfam f. destruct (Hfam f) as (l & Hc & Hm).
  exists l. rewrite HS. split.
  - apply (chain_ext _ _ _ _ Hc). intros p Hp. split; [|apply HR].
    rewrite Hlen. exact (chain_bound _ _ _ Hc p Hp).
  - intros p. now rewrite HF.
Qed.

Lemma kin_store t p n n' :
  heap t !! p = Some n ->
  father n' = father n -> right_sibling n' = right_sibling n ->
  left_sibling n' = left_sibling n -> sons n' = sons n ->
  kin (heap t) -> kin (heap (store t p n')).
Proof.
  intros Hn Hf Hr Hle Hs (Hl & Hfam). split; [now apply (linked_store _ _ n)|].
  revert Hfam. apply family_shape; cbn [heap store with_heap].
  - apply length_insert.
  - intros q. exact (link_insert_same _ _ _ _ _ q Hn Hr).
  - intros q. exact (link_insert_same _ _ _ _ _ q Hn Hs).
  - intros q. exact (link_insert_same _ _ _ _ _ q Hn Hf).
Qed.

Lemma kin_create_suffix_link t node l t' :
  kin (heap t) -> create_suffix_link t node l = Ret t' -> kin (heap t').
Proof.
  unfold create_suffix_link. intros Hk H.
  apply bind_Ret in H as (n & Hn & H). apply node_at_Ret in Hn. injection H as <-.
  now apply (kin_store _ _ n).
Qed.

Lemma kin_rule_2 fuel t node b e_ pp ep type t' q :
  kin (heap t) ->
  apply_extension_rule_2 fuel t node b e_ pp ep type = Ret (t', q) ->
  kin (heap t').
Proof.
  intros (Hl & Hfam) H. split; [exact (linked_rule_2 _ _ _ _ _ _ _ _ _ _ Hl H)|].
  destruct type.
  - destruct (new_son_links _ _ _ _ _ _ _ _ _ Hl H)
      as (l & s & Hch & Hnode & _ & Hlen & HR & HS & _).
    apply fathers_rule_2 in H.
    assert (HlenF : forall u, List.length (fathers u) = List.length (heap u))
      by (intros u; unfold fathers; apply length_fmap).
    assert (HF : fathers t' = fathers t ++ [Some node]).
    { destruct H as [[_ H] | (f & _ & H)]; [exact H|]. exfalso.
      apply (f_equal List.length) in H.
      rewrite length_app, length_insert, !HlenF, Hlen in H. simpl in H. lia. }
    apply (family_new_son _ _ node l s Hl Hfam Hch Hnode Hlen HR HS).
    intros p. rewrite !link_father_fathers, HF, <- HlenF.
    destruct (decide (p = List.length (fathers t))) as [->|Hne].
    + now rewrite list_lookup_middle.
    + destruct (lt_dec p (List.length (fathers t))) as [Hlt|Hge].
      * now rewrite lookup_app_l.
      * rewrite !lookup_ge_None_2; [reflexivity| |]; rewrite ?length_app; simpl; lia.
  - destruct (split_links _ _ _ _ _ _ _ _ _ Hl H)
      as (f & Hf & _ & Hlen & ER & _ & ES & EF).
    exact (family_split _ _ _ _ Hl Hf Hlen ER ES EF Hfam).
Qed.

Ltac kin_fwd :=
  repeat match goal with
  | E : apply_extension_rule_2 _ ?t _ _ _ _ _ _ = Ret (?t', _), H : kin (heap ?t) |- _ =>
    lazymatch goal with
    | _ : kin (heap t') |- _ => fail
    | _ => pose proof (kin_rule_2 _ _ _ _ _ _ _ _ _ _ H E)
    end
  | E : create_suffix_link ?t _ _ = Ret ?t', H : kin (heap ?t) |- _ =>
    lazymatch goal with
    | _ : kin (heap t') |- _ => fail
    | _ => pose proof (kin_create_suffix_link _ _ _ _ H E)
    end
  end.

Lemma kin_SEA fuel t pos str after t' pos' r :
  kin (heap t) -> SEA fuel t pos str after = Ret (t', pos', r) -> kin (heap t').
Proof.
  unfold SEA. intros Hl H. inv_all; kin_fwd; cbn [heap with_suffixless];
    try assumption;
    (eapply kin_store; [apply node_at_Ret; eassumption | reflexivity.. | assumption]).
Qed.

Lemma kin_SPA_loop fuel fuel0 : forall t pos phase ext rep rule t' pos' ext' rep',
  kin (heap t) ->
  SPA_loop fuel fuel0 t pos phase ext rep rule = Ret (t', pos', ext', rep') ->
  kin (heap t').
Proof.
  induction fuel as [|fuel IH]; intros t pos phase ext rep rule t' pos' ext' rep' Hl H;
    cbn [SPA_loop] in H.
  - destruct (bool_decide _); [discriminate | now injection H as <- _ _ _].
  - destruct (bool_decide _); [| now injection H as <- _ _ _].
    apply bind_Ret in H as ([[t1 pos1] r] & H1 & H).
    apply kin_SEA in H1; [|exact Hl].
    destruct (bool_decide _); [now injection H as <- _ _ _|].
    exact (IH _ _ _ _ _ _ _ _ _ _ H1 H).
Qed.

Lemma kin_phases cnt fuel : forall t pos phase ext rep t',
  kin (heap t) -> phases cnt fuel t pos phase ext rep = Ret t' -> kin (heap t').
Proof.
  induction cnt as [|cnt IH]; intros t pos phase ext rep t' Hl H; cbn [phases] in H.
  - now injection H as <-.
  - apply bind_Ret in H as ([[[t1 pos1] ext1] rep1] & H1 & H).
    unfold SPA in H1. apply kin_SPA_loop in H1; [|exact Hl].
    exact (IH _ _ _ _ _ _ H1 H).
Qed.

Lemma kin_dfs fuel :
  (forall t node depth t' k, kin (heap t) ->
     dfsForInversePointers fuel t node depth = Ret (t', k) -> kin (heap t')) /\
  (forall t c depth num t' k, kin (heap t) ->
     dfs_children fuel t c depth num = Ret (t', k) -> kin (heap t')).
Proof.
  induction fuel as [|fuel [IH1 IH2]]; split.
  - intros; discriminate.
  - intros t [c|] depth num t' k Hl H; simpl in H; [discriminate | now simplify_eq].
  - intros t node depth t' k Hl H. cbn [dfsForInversePointers] in H.
    apply bind_Ret in H as (n & Hn & H). apply node_at_Ret in Hn.
    assert (Hl1 : kin (heap (store t node (set_strDepth n depth))))
      by (now apply (kin_store _ _ n)).
    destruct (sons n) as [first|].
    + apply bind_Ret in H as (n1 & Hn1 & H). apply node_at_Ret in Hn1.
      apply IH2 in H; [exact H|]. now apply (kin_store _ _ n1).
    + apply bind_Ret in H as (ip & _ & H). apply bind_Ret in H as (f & _ & H).
      apply bind_Ret in H as (fn & _ & H). apply bind_Ret in H as (fd & _ & H).
      apply bind_Ret in H as (msd & _ & H).
      apply bind_Ret in H as (n1 & Hn1 & H). apply node_at_Ret in Hn1.
      injection H as <- _.
      apply (kin_store (with_maxStrDepth (with_inversePointers _ ip) msd) _ n1);
        try reflexivity; assumption.
  - intros t [c|] depth num t' k Hl H; cbn [dfs_children] in H; [|now simplify_eq].
    apply bind_Ret in H as (cn & _ & H). apply bind_Ret in H as ([t1 k1] & H1 & H).
    apply bind_Ret in H as (cn' & _ & H).
    apply IH1 in H1; [|exact Hl]. exact (IH2 _ _ _ _ _ _ H1 H).
Qed.

Lemma find_son_loop_total fuel t c : forall o l,
  chain (heap t) o l -> (List.length l <= fuel)%nat ->
  (forall p, p ∈ l -> exists c', byte (heap t) (tree_string t) p = Some c') ->
  exists r, find_son_loop fuel t o c = Ret r.
Proof.
  induction fuel as [|fuel IH]; intros o l Hc Hlen Hb.
  - destruct l; [|simpl in Hlen; lia]. inversion Hc; subst. now exists None.
  - inversion Hc as [|p l0 Hp Hc0 E1 E2]; subst; [now exists None|].
    cbn [find_son_loop].
    destruct (Hb p) as (c' & Hc'); [apply elem_of_cons; auto|].
    unfold byte, start_of in Hc'. destruct (heap t !! p) as [n|] eqn:Hn; [|discriminate].
    cbn in Hc'. apply char_at_text in Hc'.
    rewrite (node_at_lookup _ _ _ Hn). cbn [mbind outcome_bind]. rewrite Hc'.
    cbn [mbind outcome_bind].
    destruct (bool_decide (c' = c)); [eauto|].
    rewrite (link_lookup _ _ _ _ Hn) in Hc0.
    apply (IH _ l0 Hc0); [simpl in Hlen; lia|].
    intros q Hq. apply Hb. apply elem_of_cons. auto.
Qed.

(** The tree [ST_CreateTree] returns has the whole shape. *)
Lemma ST_CreateTree_shape fuel mem_ str len t :
  2 <= len -> len + 2 < 2 ^ 32 ->
  ST_CreateTree fuel mem_ str len = Ret t ->
  sound t (len + 1) /\ kin (heap t).
Proof.
  intros Hlen Hsz H.
  unfold ST_CreateTree in H. destruct mem_ as [|m]; [discriminate|].
  apply bind_Ret in H as ([t1 r] & H1 & H).
  assert (Hl1 : length t1 = len + 1).
  { unfold create_node in H1. cbn [avail] in H1.
    destruct m; [discriminate|]. injection H1 as <- _. cbn.
    unfold dw. apply Z.mod_small. lia. }
  pose proof (create_node_heap _ _ _ _ _ _ _ H1) as (-> & Hh1). cbn [heap app] in Hh1.
  apply bind_Ret in H as ([t3 first] & H3 & H).
  assert (Hl3 : length t3 = len + 1).
  { unfold create_node in H3. cbn [avail] in H3.
    destruct (avail t1); [discriminate|]. injection H3 as <- _. exact Hl1. }
  pose proof (create_node_heap _ _ _ _ _ _ _ H3) as (-> & Hh3). cbn [heap] in Hh3.
  apply root_create_node in H3. cbn [root] in H3.
  rewrite Hh1 in Hh3. cbn [app] in Hh3.
  apply bind_Ret in H as (rn & Hrn & H). apply node_at_Ret in Hrn.
  rewrite Hh3 in Hrn. cbn in Hrn. injection Hrn as <-.
  apply bind_Ret in H as (t5 & H5 & H).
  apply bind_Ret in H as ([t6 nn] & H6 & H).
  apply bind_Ret in H as (msd & _ & H). injection H as <-.
  cbn [length with_suffixless store with_heap] in H5. rewrite Hl3 in H5.
  set (t4 := with_suffixless _ None) in *.
  assert (Hh4 : heap t4 = [set_sons (mkNode None None None None None 0 0 0 None None)
                             (Some 1%nat);
                           mkNode None None None None (Some 0%nat) 1 1 (length t1)
                             None None]).
  { unfold t4. cbn [heap with_suffixless store with_heap]. rewrite Hh3, Hh1. reflexivity. }
  assert (Hl4 : linked (heap t4)).
  { rewrite Hh4. intros [|[|p]]; (split; [|split; [|split]]); intros q Hq;
      try discriminate; injection Hq as <-; cbn; auto with lia. }
  assert (Hs4 : sound t4 2).
  { split; [exact H3|]. split; [|split; [exact Hl4|]].
    - unfold tags. rewrite Hh4. intros [|[|p]] x Hp; cbn in Hp; try discriminate;
        injection Hp as <-; unfold span, eff_end; cbn; lia.
    - rewrite Hh4. intros f l Hc i j p q c Hi Hj _ _.
      assert (Hle : (List.length l <= 1)%nat).
      { destruct f as [|[|f]]; cbn in Hc.
        - inversion Hc as [|p0 l0 Hp0 Hc0 E1 E2]; subst. cbn in Hc0.
          inversion Hc0. cbn. lia.
        - inversion Hc. cbn. lia.
        - inversion Hc. cbn. lia. }
      apply lookup_lt_Some in Hi, Hj. lia. }
  assert (Hk4 : kin (heap t4)).
  { split; [exact Hl4|]. rewrite Hh4. intros [|[|f]].
    - exists [1%nat]. split.
      + cbn. constructor; [simpl; lia|]. cbn. constructor.
      + intros [|[|p]]; rewrite list_elem_of_singleton; cbn; split; intros E;
          try reflexivity; try discriminate; try lia.
    - exists []. split; [cbn; constructor|].
      intros [|[|p]]; rewrite elem_of_nil; cbn; split; intros E;
        try contradiction; try discriminate.
    - exists []. split; [cbn; constructor|].
      intros [|[|p]]; rewrite elem_of_nil; cbn; split; intros E;
        try contradiction; try discriminate. }
  pose proof (tree_string_tables _ _ (tables_phases _ _ _ _ _ _ _ _ H5)) as Hs5.
  pose proof (kin_phases _ _ _ _ _ _ _ _ Hk4 H5) as Hk5.
  apply sound_phases in H5; try lia; [| exact Hs4 | left; symmetry; exact H3].
  replace (2 + Z.of_nat (Z.to_nat (len + 1 - 2))) with (len + 1) in H5 by lia.
  destruct H5 as (Hr5 & Hsp5 & Hl5 & Hd5).
  assert (Hs6 : tree_string t6 = tree_string t5).
  { pose proof (proj1 (ledger_dfs fuel) _ _ _ _ _ H6) as Hg. unfold ledger in Hg.
    now injection Hg as _ _ _ _ Hg _. }
  pose proof (proj1 (tags_dfs fuel) _ _ _ _ _ H6) as Ht6.
  pose proof (proj1 (root_dfs fuel) _ _ _ _ _ H6) as Hr6.
  pose proof (proj1 (kin_dfs fuel) _ _ _ _ _ Hk5 H6) as Hk6.
  pose proof (proj1 (distinct_dfs fuel (tree_string t5)) _ _ _ _ _ H6 Hd5) as Hd6.
  split; [|exact Hk6].
  split; [cbn [root with_D with_maxStrDepth]; congruence|].
  split; [change (tags (with_D (with_maxStrDepth t6 msd) _)) with (tags t6);
          now rewrite Ht6|].
  split; [exact (proj1 Hk6)|].
  cbn [heap tree_string with_D with_maxStrDepth]. now rewrite Hs6.
Qed.

(** In the tree that [ST_CreateTree] returns for a text of [n >= 2] bytes
    held in a buffer of at least [n + 1] bytes, the chain of right
    siblings from the first son of any node ends and holds exactly the
    nodes whose father the node is; and [find_son] returns an answer for
    every node and byte once its fuel covers the number of nodes: it
    neither runs on for ever nor reads outside the text. *)
Theorem ST_CreateTree_find_son_total (fuel mem_ : nat) (str : list Z) (len : Z)
    (t : SUFFIX_TREE) :
  2 <= len -> len + 2 < 2 ^ 32 -> len + 1 <= Z.of_nat (List.length str) ->
  ST_CreateTree fuel mem_ str len = Ret t ->
  family (heap t) /\
  forall fuel' node n c,
    heap t !! node = Some n -> (List.length (heap t) <= fuel')%nat ->
    exists r, find_son fuel' t node c = Ret r.
Proof.
  intros Hlen Hsz Hstr H.
  destruct (ST_CreateTree_shape _ _ _ _ _ Hlen Hsz H) as ((Hroot & Hsp & _ & _) & (Hl & Hfam)).
  apply ST_CreateTree_ledger in H as (_ & Hs & _).
  split; [exact Hfam|].
  intros fuel' node n c Hn Hfuel.
  destruct (Hfam node) as (l & Hc & Hm).
  unfold find_son. rewrite (node_at_lookup _ _ _ Hn). cbn [mbind outcome_bind].
  rewrite (link_lookup _ _ _ _ Hn) in Hc.
  apply (find_son_loop_total _ _ _ _ l Hc).
  - pose proof (chain_length _ _ _ Hc). lia.
  - intros p Hp. apply Hm in Hp.
    unfold link in Hp. destruct (heap t !! p) as [m|] eqn:Hpm; [|discriminate].
    cbn in Hp. pose proof (tags_lookup _ _ _ Hpm) as Hx.
    pose proof (Hsp _ _ Hx) as (S1 & S2 & S3).
    assert (Hp0 : p <> 0%nat).
    { intros ->. cbn in S3. apply bool_decide_eq_false in S3. apply S3. congruence. }
    destruct p as [|p']; [contradiction|]. cbn in S3.
    change (tag m).1.1.1 with (edge_label_start m) in *.
    unfold byte, start_of. rewrite Hpm. cbn. unfold text_at.
    rewrite bool_decide_eq_true_2 by lia. rewrite Hs.
    apply lookup_lt_is_Some. lia.
Qed.

Lemma ST_CreateTree_find_son_total_witness :
  2 <= 7 /\ 7 + 2 < 2 ^ 32 /\ 7 + 1 <= Z.of_nat (List.length (aababab ++ [0])) /\
  ST_CreateTree 64 64 (aababab ++ [0]) 7 = Ret aababab_tree /\
  find_son 14 aababab_tree 0 98 = Ret (Some 11%nat) /\
  find_son 14 aababab_tree 0 99 = Ret None /\
  family (heap aababab_tree) /\
  forall fuel' node n c,
    heap aababab_tree !! node = Some n ->
    (List.length (heap aababab_tree) <= fuel')%nat ->
    exists r, find_son fuel' aababab_tree node c = Ret r.
Proof.
  assert (Hlen : 2 <= 7) by lia.
  assert (Hsz : 7 + 2 < 2 ^ 32) by lia.
  assert (Hstr : 7 + 1 <= Z.of_nat (List.length (aababab ++ [0])))
    by (vm_compute; discriminate).
  assert (H0 : ST_CreateTree 64 64 (aababab ++ [0]) 7 = Ret aababab_tree)
    by (vm_compute; reflexivity).
  refine (conj Hlen (conj Hsz (conj Hstr (conj H0 (conj _ (conj _ _)))))).
  - vm_compute. reflexivity.
  - vm_compute. reflexivity.
  - exact (ST_CreateTree_find_son_total 64 64 (aababab ++ [0]) 7 aababab_tree
             Hlen Hsz Hstr H0).
Defined.

(** ** The depth-first pass reaches every node *)

(** The stages of [ST_CreateTree]: the tree of the root and the first
    leaf, the tree after the phases, and the tree after the depth-first
    pass. *)
Lemma ST_CreateTree_stages fuel mem_ str len t :
  0 <= len -> len + 2 < 2 ^ 32 ->
  ST_CreateTree fuel mem_ str len = Ret t ->
  exists t4 t5 t6 nn msd el,
    heap t4 = [set_sons (mkNode None None None None None 0 0 0 None None) (Some 1%nat);
               mkNode None None None None (Some 0%nat) 1 1 el None None] /\
    root t4 = 0%nat /\
    tables t4 = (replicate (Z.to_nat (len + 2)) None,
                 replicate (Z.to_nat (len + 2)) (u32 (len + 1)),
                 segmCreate (replicate (Z.to_nat (len + 2)) (u32 (len + 1))) (len + 1),
                 replicate (Z.to_nat (len + 2)) None, [], len + 1, str, 0) /\
    phases (Z.to_nat (len + 1 - 2)) fuel t4 (mkPos 0%nat 0) 2 2 false = Ret t5 /\
    dfsForInversePointers fuel t5 (root t5) 0 = Ret (t6, nn) /\
    monotone_pass (Z.to_nat (length t6 - 1)) (maxStrDepth t6) 2 = Ret msd /\
    t = with_D (with_maxStrDepth t6 msd) (replicate (Z.to_nat (length t6 + 1)) (-1)).
Proof.
  intros Hlen Hsz H.
  unfold ST_CreateTree in H. destruct mem_ as [|m]; [discriminate|].
  apply bind_Ret in H as ([t1 r] & H1 & H).
  assert (Hl1 : length t1 = len + 1).
  { unfold create_node in H1. cbn [avail] in H1.
    destruct m; [discriminate|]. injection H1 as <- _. cbn.
    unfold dw. apply Z.mod_small. lia. }
  pose proof (tables_create_node _ _ _ _ _ _ _ H1) as Ht1.
  pose proof (create_node_heap _ _ _ _ _ _ _ H1) as (-> & Hh1). cbn [heap app] in Hh1.
  apply bind_Ret in H as ([t3 first] & H3 & H).
  assert (Hl3 : length t3 = len + 1).
  { unfold create_node in H3. cbn [avail] in H3.
    destruct (avail t1); [discriminate|]. injection H3 as <- _. exact Hl1. }
  pose proof (tables_create_node _ _ _ _ _ _ _ H3) as Ht3.
  pose proof (create_node_heap _ _ _ _ _ _ _ H3) as (-> & Hh3). cbn [heap] in Hh3.
  apply root_create_node in H3. cbn [root] in H3.
  rewrite Hh1 in Hh3. cbn [app] in Hh3.
  apply bind_Ret in H as (rn & Hrn & H). apply node_at_Ret in Hrn.
  rewrite Hh3 in Hrn. cbn in Hrn. injection Hrn as <-.
  apply bind_Ret in H as (t5 & H5 & H).
  apply bind_Ret in H as ([t6 nn] & H6 & H).
  apply bind_Ret in H as (msd & Hmsd & H). injection H as <-.
  cbn [length with_suffixless store with_heap] in H5. rewrite Hl3 in H5.
  cbn [List.length] in H5.
  eexists _, t5, t6, nn, msd, (length t1).
  split; [|split; [|split; [|split; [exact H5|split; [exact H6 |
    split; [exact Hmsd | reflexivity]]]]]].
  - cbn [heap with_suffixless store with_heap]. rewrite Hh3, Hh1. reflexivity.
  - exact H3.
  - rewrite tables_with_suffixless, tables_store, Ht3.
    transitivity (tables t1); [reflexivity|]. rewrite Ht1. unfold tables. cbn.
    unfold dw. rewrite Z.mod_small by lia. reflexivity.
Qed.

(** The annotation [dfsForInversePointers] writes on a node: both values
    unset, and both positions the path position of a leaf, 0 for a node
    with sons. *)
Definition visit_annot (n : NODE) : Annotation :=
  match sons n with
  | None => mkAnnot UNSET (u32 (path_position n)) UNSET (u32 (path_position n))
  | Some _ => mkAnnot UNSET 0 UNSET 0
  end.

(** Node [p] has been visited: its string depth and its annotation are
    written and, when it is a leaf, the cell of [inversePointers] at its
    path position points to it. *)
Definition visited (t : SUFFIX_TREE) (p : nat) : Prop :=
  exists n d, heap t !! p = Some n /\ annot n = Some (visit_annot n) /\
    strDepth n = Some d /\
    (sons n = None -> inversePointers t !! Z.to_nat (path_position n) = Some (Some p)).

(** The links of the nodes, which the pass does not touch. *)
Definition wiring (t : SUFFIX_TREE) : list (option nat * option nat * option nat) :=
  (fun n => (right_sibling n, sons n, father n)) <$> heap t.

Lemma wiring_store_same t p n n' :
  heap t !! p = Some n ->
  right_sibling n' = right_sibling n -> sons n' = sons n -> father n' = father n ->
  wiring (store t p n') = wiring t.
Proof.
  intros Hn Hr Hs Hf. unfold wiring. cbn [heap store with_heap].
  rewrite list_fmap_insert, Hr, Hs, Hf. apply list_insert_id.
  now rewrite list_lookup_fmap, Hn.
Qed.

Lemma wiring_link t t' :
  wiring t' = wiring t ->
  List.length (heap t') = List.length (heap t) /\
  (forall p, link right_sibling (heap t') p = link right_sibling (heap t) p) /\
  (forall p, link sons (heap t') p = link sons (heap t) p) /\
  fathers t' = fathers t.
Proof.
  intros H. split; [|split; [|split]].
  - apply (f_equal List.length) in H. unfold wiring in H. now rewrite !length_fmap in H.
  - intros p. apply (f_equal (fun l => l !! p)) in H. unfold wiring in H.
    rewrite !list_lookup_fmap in H. unfold link.
    destruct (heap t' !! p), (heap t !! p); cbn in *; congruence.
  - intros p. apply (f_equal (fun l => l !! p)) in H. unfold wiring in H.
    rewrite !list_lookup_fmap in H. unfold link.
    destruct (heap t' !! p), (heap t !! p); cbn in *; congruence.
  - unfold fathers. apply list_eq. intros p.
    apply (f_equal (fun l => l !! p)) in H. unfold wiring in H.
    rewrite !list_lookup_fmap in *.
    destruct (heap t' !! p), (heap t !! p); cbn in *; congruence.
Qed.

(** A descendant of [r] is [r] or a descendant of a son of [r]. *)
Lemma reaches_son F r p :
  reaches F r p -> p = r \/ exists c, F !! c = Some (Some r) /\ reaches F c p.
Proof.
  induction 1 as [|p f Hp Hr IH]; [now left|]. right.
  destruct IH as [->|(c & Hc & Hcp)].
  - exists p. split; [exact Hp | constructor].
  - exists c. split; [exact Hc|]. exact (reaches_up _ _ _ _ Hp Hcp).
Qed.

Lemma wiring_dfs fuel :
  (forall t node depth t' k,
     dfsForInversePointers fuel t node depth = Ret (t', k) -> wiring t' = wiring t) /\
  (forall t c depth num t' k,
     dfs_children fuel t c depth num = Ret (t', k) -> wiring t' = wiring t).
Proof.
  induction fuel as [|fuel [IH1 IH2]]; split.
  - intros; discriminate.
  - intros t [c|] depth num t' k H; simpl in H; [discriminate | now simplify_eq].
  - intros t node depth t' k H. cbn [dfsForInversePointers] in H.
    apply bind_Ret in H as (n & Hn & H). apply node_at_Ret in Hn.
    assert (E1 : wiring (store t node (set_strDepth n depth)) = wiring t)
      by (now apply (wiring_store_same _ _ n)).
    destruct (sons n) as [first|].
    + apply bind_Ret in H as (n1 & Hn1 & H). apply node_at_Ret in Hn1.
      apply IH2 in H. rewrite H, <- E1. now apply (wiring_store_same _ _ n1).
    + apply bind_Ret in H as (ip & _ & H). apply bind_Ret in H as (f & _ & H).
      apply bind_Ret in H as (fn & _ & H). apply bind_Ret in H as (fd & _ & H).
      apply bind_Ret in H as (msd & _ & H).
      apply bind_Ret in H as (n1 & Hn1 & H). apply node_at_Ret in Hn1.
      injection H as <- _. rewrite <- E1.
      now apply (wiring_store_same
                   (with_maxStrDepth (with_inversePointers _ ip) msd) _ n1).
  - intros t [c|] depth num t' k H; cbn [dfs_children] in H; [|now simplify_eq].
    apply bind_Ret in H as (cn & _ & H). apply bind_Ret in H as ([t1 k1] & H1 & H).
    apply bind_Ret in H as (cn' & _ & H).
    apply IH1 in H1. apply IH2 in H. congruence.
Qed.

(** A store that keeps what a visit wrote keeps the node visited. *)
Lemma visited_store t p n n' q :
  heap t !! p = Some n ->
  (annot n = Some (visit_annot n) -> annot n' = Some (visit_annot n')) ->
  (forall d, strDepth n = Some d -> exists d', strDepth n' = Some d') ->
  sons n' = sons n -> path_position n' = path_position n ->
  visited t q -> visited (store t p n') q.
Proof.
  intros Hn Ha Hd Hs Hpp (m & d & Hm & Hma & Hmd & Hip). unfold visited.
  change (inversePointers (store t p n')) with (inversePointers t).
  destruct (decide (p = q)) as [->|Hne].
  - rewrite (lookup_store_eq _ _ n' _ Hn).
    assert (m = n) by congruence. subst m.
    destruct (Hd _ Hmd) as (d' & Hd').
    exists n', d'. rewrite Hs, Hpp. auto.
  - rewrite lookup_store_ne by exact Hne. eauto 8.
Qed.

(** A visit keeps the nodes visited before it visited. *)
Lemma visited_dfs E fuel :
  (forall t node depth t' k, leaves_ok (marks t) E ->
     dfsForInversePointers fuel t node depth = Ret (t', k) ->
     forall p, visited t p -> visited t' p) /\
  (forall t c depth num t' k, leaves_ok (marks t) E ->
     dfs_children fuel t c depth num = Ret (t', k) ->
     forall p, visited t p -> visited t' p).
Proof.
  induction fuel as [|fuel [IH1 IH2]]; split.
  - intros; discriminate.
  - intros t [c|] depth num t' k Hok H; simpl in H; [discriminate | now simplify_eq].
  - intros t node depth t' k Hok H p Hv. cbn [dfsForInversePointers] in H.
    apply bind_Ret in H as (n & Hn & H). apply node_at_Ret in Hn.
    assert (Hn1 : heap (store t node (set_strDepth n depth)) !! node
                  = Some (set_strDepth n depth)) by (eapply lookup_store_eq, Hn).
    assert (Hv1 : visited (store t node (set_strDepth n depth)) p).
    { apply (visited_store _ _ n); eauto. }
    assert (E1 : marks (store t node (set_strDepth n depth)) = marks t)
      by (now apply (marks_store_same _ _ n)).
    destruct (sons n) as [first|] eqn:Hsons.
    + rewrite (node_at_lookup _ _ _ Hn1) in H. cbn [mbind outcome_bind] in H.
      eapply IH2; [|exact H|].
      * rewrite (marks_store_same _ _ (set_strDepth n depth)), E1 by (exact Hn1 || reflexivity).
        exact Hok.
      * apply (visited_store _ _ (set_strDepth n depth)); eauto.
        intros _. unfold visit_annot. cbn. now rewrite Hsons.
    + apply bind_Ret in H as (ip & Hip & H). apply wr_Ret in Hip as (Hpp & ->).
      cbn [inversePointers store with_heap] in Hpp.
      apply bind_Ret in H as (f & _ & H).
      apply bind_Ret in H as (fn & _ & H). apply bind_Ret in H as (fd & _ & H).
      apply bind_Ret in H as (msd & _ & H).
      rewrite (node_at_lookup _ _ _ Hn1) in H. cbn [mbind outcome_bind] in H.
      injection H as <- _.
      destruct Hv1 as (m & d & Hm & Hma & Hmd & Hmi).
      unfold visited.
      cbn [inversePointers heap store with_heap with_maxStrDepth with_inversePointers] in *.
      destruct (decide (p = node)) as [->|Hne].
      * rewrite list_lookup_insert_eq
          by (rewrite length_insert; now apply lookup_lt_Some in Hn).
        eexists _, d. split; [reflexivity|].
        split; [unfold visit_annot; cbn; now rewrite Hsons|].
        split; [rewrite Hn1 in Hm; injection Hm as <-; exact Hmd|].
        intros _. cbn. apply list_lookup_insert_eq. lia.
      * rewrite list_lookup_insert_ne by congruence.
        exists m, d. split; [exact Hm|]. split; [exact Hma|]. split; [exact Hmd|].
        intros Hs. rewrite list_lookup_insert_ne; [exact (Hmi Hs)|].
        intros Heq.
        rewrite list_lookup_insert_ne in Hm by congruence.
        assert (M1 : marks t !! p = Some (Some (path_position m))).
        { unfold marks. rewrite list_lookup_fmap, Hm. cbn. unfold leafpos. now rewrite Hs. }
        assert (M2 : marks t !! node = Some (Some (path_position n))).
        { unfold marks. rewrite list_lookup_fmap, Hn. cbn. unfold leafpos. now rewrite Hsons. }
        destruct (Hok _ _ M1) as (Hr1 & Hu).
        destruct (Hok _ _ M2) as (Hr2 & _).
        assert (path_position n = path_position m) by lia.
        apply Hne. symmetry. apply Hu. congruence.
  - intros t [c|] depth num t' k Hok H p Hv; cbn [dfs_children] in H; [|now simplify_eq].
    apply bind_Ret in H as (cn & _ & H). apply bind_Ret in H as ([t1 k1] & H1 & H).
    apply bind_Ret in H as (cn' & _ & H).
    eapply IH2; [|exact H|].
    + rewrite (proj1 (marks_dfs fuel) _ _ _ _ _ H1). exact Hok.
    + eapply IH1; eauto.
Qed.

(** A visit of [node] visits every node below it. *)
Lemma covers_dfs E fuel :
  (forall t node depth t' k, kin (heap t) -> leaves_ok (marks t) E ->
     dfsForInversePointers fuel t node depth = Ret (t', k) ->
     forall p, reaches (fathers t) node p -> visited t' p) /\
  (forall t o depth num t' k l, kin (heap t) -> leaves_ok (marks t) E ->
     dfs_children fuel t o depth num = Ret (t', k) ->
     chain (heap t) o l ->
     forall c p, c ∈ l -> reaches (fathers t) c p -> visited t' p).
Proof.
  induction fuel as [|fuel [IH1 IH2]]; split.
  - intros; discriminate.
  - intros t [c|] depth num t' k l _ _ H Hc; simpl in H; [discriminate|].
    inversion Hc; subst. intros c p Hin. now apply elem_of_nil in Hin.
  - intros t node depth t' k Hk Hok H p Hp. cbn [dfsForInversePointers] in H.
    apply bind_Ret in H as (n & Hn & H). apply node_at_Ret in Hn.
    set (t1 := store t node (set_strDepth n depth)) in *.
    assert (Hn1 : heap t1 !! node = Some (set_strDepth n depth))
      by (eapply lookup_store_eq, Hn).
    assert (E1 : marks t1 = marks t) by (now apply (marks_store_same _ _ n)).
    assert (W1 : wiring t1 = wiring t) by (now apply (wiring_store_same _ _ n)).
    assert (Hk1 : kin (heap t1)) by (now apply (kin_store _ _ n)).
    destruct Hk as (Hl & Hfam). destruct (Hfam node) as (l & Hch & Hsons).
    rewrite (link_lookup _ _ _ _ Hn) in Hch.
    destruct (sons n) as [first|] eqn:Hs.
    + rewrite (node_at_lookup _ _ _ Hn1) in H. cbn [mbind outcome_bind] in H.
      set (n2 := set_annot (set_strDepth n depth) (mkAnnot UNSET 0 UNSET 0)) in *.
      set (t2 := store t1 node n2) in *.
      assert (E2 : marks t2 = marks t).
      { rewrite <- E1. now apply (marks_store_same _ _ (set_strDepth n depth)). }
      assert (W2 : wiring t2 = wiring t).
      { rewrite <- W1. now apply (wiring_store_same _ _ (set_strDepth n depth)). }
      assert (Hk2 : kin (heap t2)) by (now apply (kin_store _ _ (set_strDepth n depth))).
      destruct (wiring_link _ _ W2) as (Hlen & HR & _ & HF).
      assert (Hv2 : visited t2 node).
      { exists n2, depth.
        split; [eapply lookup_store_eq, Hn1|].
        split; [unfold visit_annot; cbn; now rewrite Hs|]. split; [reflexivity|].
        cbn. rewrite Hs. discriminate. }
      assert (Hok2 : leaves_ok (marks t2) E) by (now rewrite E2).
      apply reaches_son in Hp as [->|(c & Hc & Hcp)].
      * exact (proj2 (visited_dfs E fuel) _ _ _ _ _ _ Hok2 H _ Hv2).
      * apply (IH2 _ _ _ _ _ _ l Hk2 Hok2 H) with (c := c).
        -- apply (chain_ext _ _ _ _ Hch). intros q Hq. split; [|apply HR].
           rewrite Hlen. exact (chain_bound _ _ _ Hch _ Hq).
        -- apply Hsons. rewrite link_father_fathers, Hc. reflexivity.
        -- now rewrite HF.
    + inversion Hch; subst.
      apply reaches_son in Hp as [->|(c & Hc & Hcp)].
      2:{ exfalso. apply (elem_of_nil c). apply Hsons.
          rewrite link_father_fathers, Hc. reflexivity. }
      apply bind_Ret in H as (ip & Hip & H). apply wr_Ret in Hip as (Hpp & ->).
      cbn [inversePointers store with_heap t1] in Hpp.
      apply bind_Ret in H as (f & _ & H).
      apply bind_Ret in H as (fn & _ & H). apply bind_Ret in H as (fd & _ & H).
      apply bind_Ret in H as (msd & _ & H).
      rewrite (node_at_lookup _ _ _ Hn1) in H. cbn [mbind outcome_bind] in H.
      injection H as <- _.
      eexists _, depth. split.
      { cbn [heap store with_heap with_maxStrDepth with_inversePointers].
        apply list_lookup_insert_eq. unfold t1. cbn [heap store with_heap].
        rewrite length_insert. now apply lookup_lt_Some in Hn. }
      split; [unfold visit_annot; cbn; now rewrite Hs|]. split; [reflexivity|]. intros _.
      cbn. apply list_lookup_insert_eq. lia.
  - intros t [c|] depth num t' k l Hk Hok H Hch c0 p Hin Hp;
      cbn [dfs_children] in H; [|inversion Hch; subst; now apply elem_of_nil in Hin].
    apply bind_Ret in H as (cn & _ & H). apply bind_Ret in H as ([t1 k1] & H1 & H).
    apply bind_Ret in H as (cn' & Hcn' & H). apply node_at_Ret in Hcn'.
    inversion Hch as [|c' l0 Hc Hch0 Q1 Q2]; subst.
    pose proof (proj1 (wiring_dfs fuel) _ _ _ _ _ H1) as W1.
    destruct (wiring_link _ _ W1) as (Hlen & HR & _ & HF).
    assert (Hok1 : leaves_ok (marks t1) E)
      by (now rewrite (proj1 (marks_dfs fuel) _ _ _ _ _ H1)).
    assert (Hk1 : kin (heap t1)) by exact (proj1 (kin_dfs fuel) _ _ _ _ _ Hk H1).
    apply elem_of_cons in Hin as [->|Hin].
    + apply (proj2 (visited_dfs E fuel) _ _ _ _ _ _ Hok1 H).
      exact (IH1 _ _ _ _ _ Hk Hok H1 _ Hp).
    + apply (IH2 _ _ _ _ _ _ l0 Hk1 Hok1 H) with (c := c0); [|exact Hin|now rewrite HF].
      rewrite <- (link_lookup right_sibling _ _ _ Hcn'), HR.
      apply (chain_ext _ _ _ _ Hch0). intros q Hq. split; [|apply HR].
      rewrite Hlen. exact (chain_bound _ _ _ Hch0 _ Hq).
Qed.

(** The pass of [ST_CreateTree] visits every node of the tree. *)
Lemma ST_CreateTree_visited fuel mem_ str len t :
  0 <= len -> len + 2 < 2 ^ 32 ->
  ST_CreateTree fuel mem_ str len = Ret t ->
  forall p, (p < List.length (heap t))%nat -> visited t p.
Proof.
  intros Hlen Hsz H.
  apply ST_CreateTree_stages in H
    as (t4 & t5 & t6 & nn & msd & el & Hh4 & Hr4 & _ & H5 & H6 & _ & ->); [|lia|lia].
  assert (Hk4 : kin (heap t4)).
  { split.
    - rewrite Hh4. intros [|[|p]]; (split; [|split; [|split]]); intros q Hq;
        try discriminate; injection Hq as <-; cbn; auto with lia.
    - rewrite Hh4. intros [|[|f]].
      + exists [1%nat]. split.
        * cbn. constructor; [simpl; lia|]. cbn. constructor.
        * intros [|[|p]]; rewrite list_elem_of_singleton; cbn; split; intros E;
            try reflexivity; try discriminate; try lia.
      + exists []. split; [cbn; constructor|].
        intros [|[|p]]; rewrite elem_of_nil; cbn; split; intros E;
          try contradiction; try discriminate.
      + exists []. split; [cbn; constructor|].
        intros [|[|p]]; rewrite elem_of_nil; cbn; split; intros E;
          try contradiction; try discriminate. }
  assert (Hrt4 : rooted (fathers t4)).
  { unfold fathers. rewrite Hh4. split; [reflexivity|].
    intros [|[|p]] Hp; [constructor | | simpl in Hp; lia].
    apply (reaches_up _ _ _ 0%nat); [reflexivity | constructor]. }
  assert (Hok4 : leaves_ok (marks t4) 2).
  { unfold marks. rewrite Hh4. intros [|[|i]] v Hi; cbn in Hi; try discriminate.
    injection Hi as <-. split; [lia|].
    intros [|[|j]] Hj; cbn in Hj; try discriminate. reflexivity. }
  pose proof (kin_phases _ _ _ _ _ _ _ _ Hk4 H5) as Hk5.
  pose proof (rooted_phases _ _ _ _ _ _ _ _ Hrt4 H5) as (_ & Hall).
  pose proof (root_phases _ _ _ _ _ _ _ _ H5) as Hr5. rewrite Hr4 in Hr5.
  assert (Hok5 : leaves_ok (marks t5) (len + 2)).
  { destruct (Z.to_nat (len + 1 - 2)) as [|c] eqn:Hc.
    - cbn [phases] in H5. injection H5 as <-.
      apply (leaves_ok_mono _ 2); [exact Hok4 | lia].
    - apply leaves_phases with (ext := 2) in H5; [|lia|lia|lia|exact Hok4].
      apply (leaves_ok_mono _ _ _ H5). lia. }
  rewrite Hr5 in H6.
  pose proof (proj1 (fathers_dfs fuel) _ _ _ _ _ H6) as HF.
  intros p Hp. cbn [heap with_D with_maxStrDepth] in Hp.
  assert (Hv : visited t6 p).
  { apply (proj1 (covers_dfs (len + 2) fuel) _ _ _ _ _ Hk5 Hok5 H6).
    apply Hall. rewrite <- HF. unfold fathers. now rewrite length_fmap. }
  exact Hv.
Qed.

(** After [ST_CreateTree] every node of the tree has been visited by
    [dfsForInversePointers]: it has a string depth, and its annotation has
    both values unset and both text positions equal to its path position
    when it is a leaf, to 0 when it has sons. *)
Theorem ST_CreateTree_annotates_every_node (fuel mem_ : nat) (str : list Z) (len : Z)
    (t : SUFFIX_TREE) :
  0 <= len -> len + 2 < 2 ^ 32 ->
  ST_CreateTree fuel mem_ str len = Ret t ->
  forall p n, heap t !! p = Some n ->
    (exists d, strDepth n = Some d) /\
    annot n = Some (match sons n with
                    | None => mkAnnot UNSET (u32 (path_position n))
                                UNSET (u32 (path_position n))
                    | Some _ => mkAnnot UNSET 0 UNSET 0
                    end).
Proof.
  intros Hlen Hsz H p n Hp.
  destruct (ST_CreateTree_visited _ _ _ _ _ Hlen Hsz H p) as (m & d & Hm & Ha & Hd & _).
  { now apply lookup_lt_Some in Hp. }
  assert (m = n) by congruence. subst m. split; [eauto|]. exact Ha.
Qed.

Lemma ST_CreateTree_annotates_every_node_witness :
  0 <= 7 /\ 7 + 2 < 2 ^ 32 /\
  ST_CreateTree 64 64 (aababab ++ [0]) 7 = Ret aababab_tree /\
  forall p n, heap aababab_tree !! p = Some n ->
    (exists d, strDepth n = Some d) /\
    annot n = Some (match sons n with
                    | None => mkAnnot UNSET (u32 (path_position n))
                                UNSET (u32 (path_position n))
                    | Some _ => mkAnnot UNSET 0 UNSET 0
                    end).
Proof.
  assert (H0 : ST_CreateTree 64 64 (aababab ++ [0]) 7 = Ret aababab_tree)
    by (vm_compute; reflexivity).
  assert (Hlen : 0 <= 7) by lia.
  assert (Hsz : 7 + 2 < 2 ^ 32) by lia.
  refine (conj Hlen (conj Hsz (conj H0 _))).
  exact (ST_CreateTree_annotates_every_node 64 64 (aababab ++ [0]) 7 aababab_tree
           Hlen Hsz H0).
Defined.

(** After [ST_CreateTree] every leaf of the tree is recorded in
    [inversePointers]: the cell at the leaf's path position points to the
    leaf. *)
Theorem ST_CreateTree_leaves_recorded (fuel mem_ : nat) (str : list Z) (len : Z)
    (t : SUFFIX_TREE) :
  0 <= len -> len + 2 < 2 ^ 32 ->
  ST_CreateTree fuel mem_ str len = Ret t ->
  forall p n, heap t !! p = Some n -> sons n = None ->
    inversePointers t !! Z.to_nat (path_position n) = Some (Some p).
Proof.
  intros Hlen Hsz H p n Hp Hs.
  destruct (ST_CreateTree_visited _ _ _ _ _ Hlen Hsz H p) as (m & d & Hm & _ & _ & Hi).
  { now apply lookup_lt_Some in Hp. }
  assert (m = n) by congruence. subst m. exact (Hi Hs).
Qed.

Lemma ST_CreateTree_leaves_recorded_witness :
  0 <= 7 /\ 7 + 2 < 2 ^ 32 /\
  ST_CreateTree 64 64 (aababab ++ [0]) 7 = Ret aababab_tree /\
  forall p n, heap aababab_tree !! p = Some n -> sons n = None ->
    inversePointers aababab_tree !! Z.to_nat (path_position n) = Some (Some p).
Proof.
  assert (H0 : ST_CreateTree 64 64 (aababab ++ [0]) 7 = Ret aababab_tree)
    by (vm_compute; reflexivity).
  assert (Hlen : 0 <= 7) by lia.
  assert (Hsz : 7 + 2 < 2 ^ 32) by lia.
  refine (conj Hlen (conj Hsz (conj H0 _))).
  exact (ST_CreateTree_leaves_recorded 64 64 (aababab ++ [0]) 7 aababab_tree
           Hlen Hsz H0).
Defined.

(** ** String depths *)

(** [up F k p]: the [k]-th ancestor of [p] along the father pointers. *)
Fixpoint up (F : list (option nat)) (k : nat) (p : nat) : option nat :=
  match k with
  | O => Some p
  | S k' => match F !! p with
            | Some (Some f) => up F k' f
            | _ => None
            end
  end.

Lemma reaches_up_iff F r p : reaches F r p <-> exists k, up F k p = Some r.
Proof.
  split.
  - induction 1 as [|p f Hp _ (k & Hk)]; [now exists 0%nat|].
    exists (S k). cbn. now rewrite Hp.
  - intros (k & Hk). revert p Hk. induction k as [|k IH]; intros p Hk; cbn in Hk.
    + injection Hk as ->. constructor.
    + destruct (F !! p) as [[f|]|] eqn:Hp; try discriminate.
      exact (reaches_up _ _ _ _ Hp (IH _ Hk)).
Qed.

Lemma up_add F a : forall b p, up F (a + b) p = up F a p ≫= up F b.
Proof.
  induction a as [|a IH]; intros b p; [reflexivity|]. cbn.
  destruct (F !! p) as [[f|]|]; try reflexivity. apply IH.
Qed.

Lemma reaches_trans F a b p : reaches F b p -> reaches F a b -> reaches F a p.
Proof.
  induction 1 as [|p f Hp _ IH]; intros Hab; [exact Hab|].
  exact (reaches_up _ _ _ _ Hp (IH Hab)).
Qed.

(** Under a root that every node reaches, no node is its own ancestor. *)
Lemma no_cycle F p j : rooted F -> up F (S j) p = Some p -> False.
Proof.
  intros (H0 & Hall) Hc.
  assert (Hp : (p < List.length F)%nat).
  { cbn in Hc. destruct (F !! p) eqn:E; [|discriminate]. now apply lookup_lt_Some in E. }
  apply Hall, reaches_up_iff in Hp as (k & Hk).
  assert (Hm : forall m, up F (m * S j) p = Some p).
  { induction m as [|m IH]; [reflexivity|].
    replace (S m * S j)%nat with (S j + m * S j)%nat by lia.
    rewrite up_add, Hc. exact IH. }
  specialize (Hm (S k)).
  replace (S k * S j)%nat with (k + S (k * j + j))%nat in Hm by lia.
  rewrite up_add, Hk in Hm. cbn in Hm. now rewrite H0 in Hm.
Qed.

(** A node is not below its son. *)
Lemma no_loop F c f : rooted F -> F !! c = Some (Some f) -> ~ reaches F c f.
Proof.
  intros Hr Hc (k & Hk)%reaches_up_iff.
  apply (no_cycle F c k Hr). cbn. now rewrite Hc.
Qed.

(** No node is below two sons of one node. *)
Lemma apart F c c' f p :
  rooted F -> F !! c = Some (Some f) -> F !! c' = Some (Some f) -> c <> c' ->
  reaches F c p -> reaches F c' p -> False.
Proof.
  intros Hr Hc Hc' Hne (a & Ha)%reaches_up_iff (b & Hb)%reaches_up_iff.
  assert (K : forall x y u v, F !! u = Some (Some f) -> F !! v = Some (Some f) ->
            up F x p = Some u -> up F y p = Some v -> (x < y)%nat -> False).
  { intros x y u v Hu Hv Hx Hy Hlt.
    replace y with (x + S (y - x - 1))%nat in Hy by lia.
    rewrite up_add, Hx in Hy. cbn in Hy. rewrite Hu in Hy.
    apply (no_cycle F f (y - x - 1) Hr).
    replace (S (y - x - 1)) with ((y - x - 1) + 1)%nat by lia.
    rewrite up_add, Hy. cbn. now rewrite Hv. }
  destruct (Nat.lt_trichotomy a b) as [Hlt|[->|Hlt]].
  - exact (K _ _ _ _ Hc Hc' Ha Hb Hlt).
  - congruence.
  - exact (K _ _ _ _ Hc' Hc Hb Ha Hlt).
Qed.

Lemma fathers_link t p f :
  link father (heap t) p = Some f <-> fathers t !! p = Some (Some f).
Proof.
  rewrite link_father_fathers. destruct (fathers t !! p) as [[g|]|]; cbn;
    split; intros E; congruence.
Qed.

Lemma fathers_lookup t p n : heap t !! p = Some n -> fathers t !! p = Some (father n).
Proof. intros H. unfold fathers. now rewrite list_lookup_fmap, H. Qed.

(** What the pass leaves of a node: its links, its label and, for a leaf,
    its path position. *)
Lemma fields_kept t t' p n n' :
  wiring t' = wiring t -> tags t' = tags t -> marks t' = marks t ->
  heap t !! p = Some n -> heap t' !! p = Some n' ->
  father n' = father n /\ sons n' = sons n /\
  edge_label_start n' = edge_label_start n /\ edge_label_end n' = edge_label_end n /\
  (sons n = None -> path_position n' = path_position n).
Proof.
  intros HW HT HM Hn Hn'.
  apply (f_equal (fun l => l !! p)) in HW, HT, HM.
  unfold wiring, tags, marks in *. rewrite !list_lookup_fmap, Hn, Hn' in *.
  cbn in *. unfold tag, leafpos in *.
  injection HW as E1 E2 E3. injection HT as E4 E5 _ _.
  repeat split; try assumption.
  intros Hs. rewrite E2, Hs in HM. congruence.
Qed.

Lemma fields_dfs fuel t node depth t' k p n n' :
  dfsForInversePointers fuel t node depth = Ret (t', k) ->
  heap t !! p = Some n -> heap t' !! p = Some n' ->
  father n' = father n /\ sons n' = sons n /\
  edge_label_start n' = edge_label_start n /\ edge_label_end n' = edge_label_end n /\
  (sons n = None -> path_position n' = path_position n).
Proof.
  intros H. apply fields_kept.
  - exact (proj1 (wiring_dfs fuel) _ _ _ _ _ H).
  - exact (proj1 (tags_dfs fuel) _ _ _ _ _ H).
  - exact (proj1 (marks_dfs fuel) _ _ _ _ _ H).
Qed.

(** The pass writes only below the node it visits: a node [p] that is not
    below keeps all its fields, and the cell of [maxStrDepth] of a leaf
    that is not below keeps its value. *)
Definition kept (t t' : SUFFIX_TREE) (p : nat) : Prop :=
  heap t' !! p = heap t !! p /\
  forall n, heap t !! p = Some n -> sons n = None ->
    maxStrDepth t' !! Z.to_nat (path_position n)
    = maxStrDepth t !! Z.to_nat (path_position n).

Lemma kept_trans t t1 t' p : kept t t1 p -> kept t1 t' p -> kept t t' p.
Proof.
  intros (H1 & M1) (H2 & M2). split; [congruence|].
  intros n Hn Hs. rewrite <- (M1 n Hn Hs). apply M2; [congruence | exact Hs].
Qed.

Lemma frame_dfs E fuel :
  (forall t node depth t' k, kin (heap t) -> leaves_ok (marks t) E ->
     dfsForInversePointers fuel t node depth = Ret (t', k) ->
     forall p, ~ reaches (fathers t) node p -> kept t t' p) /\
  (forall t o depth num t' k l, kin (heap t) -> leaves_ok (marks t) E ->
     dfs_children fuel t o depth num = Ret (t', k) ->
     chain (heap t) o l ->
     forall p, (forall c, c ∈ l -> ~ reaches (fathers t) c p) -> kept t t' p).
Proof.
  induction fuel as [|fuel [IH1 IH2]]; split.
  - intros; discriminate.
  - intros t [c|] depth num t' k l _ _ H Hc; simpl in H; [discriminate|].
    injection H as <- _. intros p _. split; auto.
  - intros t node depth t' k Hk Hok H p Hp. cbn [dfsForInversePointers] in H.
    assert (Hne : node <> p) by (intros ->; apply Hp; constructor).
    apply bind_Ret in H as (n & Hn & H). apply node_at_Ret in Hn.
    set (t1 := store t node (set_strDepth n depth)) in *.
    assert (Hn1 : heap t1 !! node = Some (set_strDepth n depth))
      by (eapply lookup_store_eq, Hn).
    assert (E1 : marks t1 = marks t) by (now apply (marks_store_same _ _ n)).
    assert (W1 : wiring t1 = wiring t) by (now apply (wiring_store_same _ _ n)).
    assert (Hk1 : kin (heap t1)) by (now apply (kin_store _ _ n)).
    destruct (Hk) as (Hl & Hfam). destruct (Hfam node) as (l & Hch & Hsons).
    rewrite (link_lookup _ _ _ _ Hn) in Hch.
    destruct (sons n) as [first|] eqn:Hs.
    + rewrite (node_at_lookup _ _ _ Hn1) in H. cbn [mbind outcome_bind] in H.
      set (n2 := set_annot (set_strDepth n depth) (mkAnnot UNSET 0 UNSET 0)) in *.
      set (t2 := store t1 node n2) in *.
      assert (E2 : marks t2 = marks t).
      { rewrite <- E1. now apply (marks_store_same _ _ (set_strDepth n depth)). }
      assert (W2 : wiring t2 = wiring t).
      { rewrite <- W1. now apply (wiring_store_same _ _ (set_strDepth n depth)). }
      assert (Hk2 : kin (heap t2)) by (now apply (kin_store _ _ (set_strDepth n depth))).
      destruct (wiring_link _ _ W2) as (Hlen & HR & _ & HF).
      assert (Hok2 : leaves_ok (marks t2) E) by (now rewrite E2).
      assert (K2 : kept t t2 p).
      { split; [|reflexivity]. unfold t2, t1. now rewrite !lookup_store_ne. }
      apply (kept_trans _ _ _ _ K2).
      apply (IH2 _ _ _ _ _ _ l Hk2 Hok2 H).
      * apply (chain_ext _ _ _ _ Hch). intros q Hq. split; [|apply HR].
        rewrite Hlen. exact (chain_bound _ _ _ Hch _ Hq).
      * intros c Hc Hcp. apply Hp. rewrite HF in Hcp.
        apply (reaches_trans _ _ _ _ Hcp).
        apply (reaches_up _ _ _ node); [|constructor].
        apply fathers_link, Hsons, Hc.
    + apply bind_Ret in H as (ip & Hip & H).
      apply bind_Ret in H as (f & _ & H).
      apply bind_Ret in H as (fn & _ & H). apply bind_Ret in H as (fd & _ & H).
      apply bind_Ret in H as (msd & Hmsd & H). apply wr_Ret in Hmsd as (Hpp & ->).
      rewrite (node_at_lookup _ _ _ Hn1) in H. cbn [mbind outcome_bind] in H.
      injection H as <- _. split.
      * cbn [heap store with_heap with_maxStrDepth with_inversePointers t1].
        now rewrite !list_lookup_insert_ne.
      * intros m Hm Hsm.
        cbn [maxStrDepth store with_heap with_maxStrDepth with_inversePointers t1].
        apply list_lookup_insert_ne. intros Heq.
        assert (M1 : marks t !! p = Some (Some (path_position m))).
        { unfold marks. rewrite list_lookup_fmap, Hm. cbn. unfold leafpos. now rewrite Hsm. }
        assert (M2 : marks t !! node = Some (Some (path_position n))).
        { unfold marks. rewrite list_lookup_fmap, Hn. cbn. unfold leafpos. now rewrite Hs. }
        destruct (Hok _ _ M1) as (Hr1 & Hu).
        destruct (Hok _ _ M2) as (Hr2 & _).
        assert (path_position n = path_position m) by lia.
        apply Hne. apply Hu. congruence.
  - intros t [c|] depth num t' k l Hk Hok H Hch p Hp;
      cbn [dfs_children] in H; [|injection H as <- _; split; auto].
    apply bind_Ret in H as (cn & _ & H). apply bind_Ret in H as ([t1 k1] & H1 & H).
    apply bind_Ret in H as (cn' & Hcn' & H). apply node_at_Ret in Hcn'.
    inversion Hch as [|c' l0 Hc Hch0 Q1 Q2]; subst.
    pose proof (proj1 (wiring_dfs fuel) _ _ _ _ _ H1) as W1.
    destruct (wiring_link _ _ W1) as (Hlen & HR & _ & HF).
    assert (Hok1 : leaves_ok (marks t1) E)
      by (now rewrite (proj1 (marks_dfs fuel) _ _ _ _ _ H1)).
    assert (Hk1 : kin (heap t1)) by exact (proj1 (kin_dfs fuel) _ _ _ _ _ Hk H1).
    apply (kept_trans _ t1).
    + apply (IH1 _ _ _ _ _ Hk Hok H1). apply Hp. apply elem_of_cons. auto.
    + apply (IH2 _ _ _ _ _ _ l0 Hk1 Hok1 H).
      * rewrite <- (link_lookup right_sibling _ _ _ Hcn'), HR.
        apply (chain_ext _ _ _ _ Hch0). intros q Hq. split; [|apply HR].
        rewrite Hlen. exact (chain_bound _ _ _ Hch0 _ Hq).
      * intros c0 Hc0. rewrite HF. apply Hp. apply elem_of_cons. auto.
Qed.

(** Node [p] is settled: it has a father with a string depth [d], its own
    string depth is [d] plus the length of its label and, when it is a
    leaf, the cell of [maxStrDepth] at its path position holds the path
    position plus [d - 1]. *)
Definition settled (t : SUFFIX_TREE) (p : nat) : Prop :=
  exists n f fn d, heap t !! p = Some n /\ father n = Some f /\
    heap t !! f = Some fn /\ strDepth fn = Some d /\
    strDepth n = Some (u32 (d + (edge_label_end n - edge_label_start n) + 1)) /\
    (sons n = None ->
     maxStrDepth t !! Z.to_nat (path_position n)
     = Some (Some (u32 (path_position n + d - 1)))).

Lemma settled_kept t t' p :
  settled t p -> kept t t' p ->
  (forall n f, heap t !! p = Some n -> father n = Some f -> kept t t' f) ->
  settled t' p.
Proof.
  intros (n & f & fn & d & Hn & Hf & Hfn & Hd & Hdn & Hm) (Hp & Hmp) Hkf.
  destruct (Hkf n f Hn Hf) as (Hf' & _).
  exists n, f, fn, d. split; [congruence|]. split; [exact Hf|].
  split; [congruence|]. split; [exact Hd|]. split; [exact Hdn|].
  intros Hs. rewrite (Hmp n Hn Hs). exact (Hm Hs).
Qed.

Lemma depth_dfs E fuel :
  (forall t node depth t' k,
     kin (heap t) -> rooted (fathers t) -> leaves_ok (marks t) E ->
     dfsForInversePointers fuel t node depth = Ret (t', k) ->
     (exists n', heap t' !! node = Some n' /\ strDepth n' = Some depth /\
        (sons n' = None -> forall f fn d,
           father n' = Some f -> heap t !! f = Some fn -> strDepth fn = Some d ->
           maxStrDepth t' !! Z.to_nat (path_position n')
           = Some (Some (u32 (path_position n' + d - 1))))) /\
     forall p, reaches (fathers t) node p -> p <> node -> settled t' p) /\
  (forall t o depth num t' k l f fn,
     kin (heap t) -> rooted (fathers t) -> leaves_ok (marks t) E ->
     dfs_children fuel t o depth num = Ret (t', k) ->
     chain (heap t) o l ->
     (forall c, c ∈ l -> fathers t !! c = Some (Some f)) ->
     heap t !! f = Some fn -> strDepth fn = Some depth ->
     forall c p, c ∈ l -> reaches (fathers t) c p -> settled t' p).
Proof.
  induction fuel as [|fuel [IH1 IH2]]; split.
  - intros; discriminate.
  - intros t [c|] depth num t' k l f fn _ _ _ H Hc; simpl in H; [discriminate|].
    inversion Hc; subst. intros _ _ _ c p Hin. now apply elem_of_nil in Hin.
  - intros t node depth t' k Hk Hrt Hok H. cbn [dfsForInversePointers] in H.
    apply bind_Ret in H as (n & Hn & H). apply node_at_Ret in Hn.
    set (t1 := store t node (set_strDepth n depth)) in *.
    assert (Hn1 : heap t1 !! node = Some (set_strDepth n depth))
      by (eapply lookup_store_eq, Hn).
    assert (E1 : marks t1 = marks t) by (now apply (marks_store_same _ _ n)).
    assert (W1 : wiring t1 = wiring t) by (now apply (wiring_store_same _ _ n)).
    assert (Hk1 : kin (heap t1)) by (now apply (kin_store _ _ n)).
    destruct (Hk) as (Hl & Hfam). destruct (Hfam node) as (l & Hch & Hsons).
    rewrite (link_lookup _ _ _ _ Hn) in Hch.
    destruct (sons n) as [first|] eqn:Hs.
    + rewrite (node_at_lookup _ _ _ Hn1) in H. cbn [mbind outcome_bind] in H.
      set (n2 := set_annot (set_strDepth n depth) (mkAnnot UNSET 0 UNSET 0)) in *.
      set (t2 := store t1 node n2) in *.
      assert (Hn2 : heap t2 !! node = Some n2) by (eapply lookup_store_eq, Hn1).
      assert (E2 : marks t2 = marks t).
      { rewrite <- E1. now apply (marks_store_same _ _ (set_strDepth n depth)). }
      assert (W2 : wiring t2 = wiring t).
      { rewrite <- W1. now apply (wiring_store_same _ _ (set_strDepth n depth)). }
      assert (Hk2 : kin (heap t2)) by (now apply (kin_store _ _ (set_strDepth n depth))).
      destruct (wiring_link _ _ W2) as (Hlen & HR & _ & HF).
      assert (Hok2 : leaves_ok (marks t2) E) by (now rewrite E2).
      assert (Hrt2 : rooted (fathers t2)) by (now rewrite HF).
      assert (Hch2 : chain (heap t2) (Some first) l).
      { apply (chain_ext _ _ _ _ Hch). intros q Hq. split; [|apply HR].
        rewrite Hlen. exact (chain_bound _ _ _ Hch _ Hq). }
      assert (Hfl : forall c, c ∈ l -> fathers t2 !! c = Some (Some node)).
      { intros c Hc. rewrite HF. apply fathers_link, Hsons, Hc. }
      split.
      * assert (K : kept t2 t' node).
        { apply (proj2 (frame_dfs E fuel) _ _ _ _ _ _ l Hk2 Hok2 H Hch2).
          intros c Hc. apply (no_loop _ _ _ Hrt2 (Hfl c Hc)). }
        destruct K as (K & _). exists n2. split; [congruence|].
        split; [reflexivity|]. cbn. rewrite Hs. discriminate.
      * intros p Hp Hne. apply reaches_son in Hp as [->|(c & Hc & Hcp)]; [congruence|].
        apply (IH2 _ _ _ _ _ _ l node n2 Hk2 Hrt2 Hok2 H Hch2 Hfl Hn2 eq_refl c).
        -- apply Hsons, fathers_link, Hc.
        -- now rewrite HF.
    + inversion Hch; subst.
      apply bind_Ret in H as (ip & Hip & H).
      apply bind_Ret in H as (f & Hf & H). apply deref_Ret in Hf.
      apply bind_Ret in H as (fn & Hfn & H). apply node_at_Ret in Hfn.
      apply bind_Ret in H as (fd & Hfd & H). apply deref_Ret in Hfd.
      apply bind_Ret in H as (msd & Hmsd & H). apply wr_Ret in Hmsd as (Hpp & ->).
      rewrite (node_at_lookup _ _ _ Hn1) in H. cbn [mbind outcome_bind] in H.
      injection H as <- _. split.
      * eexists. split.
        { cbn [heap store with_heap with_maxStrDepth with_inversePointers].
          apply list_lookup_insert_eq. unfold t1. cbn [heap store with_heap].
          rewrite length_insert. now apply lookup_lt_Some in Hn. }
        split; [reflexivity|]. intros _ f0 fn0 d Hf0 Hfn0 Hd.
        cbn in Hf0. assert (f0 = f) by congruence. subst f0.
        assert (Hnf : f <> node).
        { destruct (Hl node) as (K & _). apply K.
          rewrite (link_lookup _ _ _ _ Hn). exact Hf. }
        unfold t1 in Hfn. rewrite lookup_store_ne in Hfn by congruence.
        assert (fn0 = fn) by congruence. subst fn0.
        assert (d = fd) by congruence. subst d.
        cbn. apply list_lookup_insert_eq. cbn in Hpp. lia.
      * intros p Hp Hne. apply reaches_son in Hp as [->|(c & Hc & Hcp)]; [congruence|].
        exfalso. apply (elem_of_nil c). apply Hsons, fathers_link, Hc.
  - intros t [c|] depth num t' k l f fn Hk Hrt Hok H Hch Hfl Hfn Hfd c0 p Hin Hp;
      cbn [dfs_children] in H; [|inversion Hch; subst; now apply elem_of_nil in Hin].
    apply bind_Ret in H as (cn & Hcn & H). apply node_at_Ret in Hcn.
    apply bind_Ret in H as ([t1 k1] & H1 & H).
    apply bind_Ret in H as (cn' & Hcn' & H). apply node_at_Ret in Hcn'.
    pose proof (chain_NoDup _ _ _ Hch) as Hnd.
    inversion Hch as [|c' l0 Hc Hch0 Q1 Q2]; subst.
    apply NoDup_cons in Hnd as (Hcl0 & Hnd0).
    pose proof (proj1 (wiring_dfs fuel) _ _ _ _ _ H1) as W1.
    destruct (wiring_link _ _ W1) as (Hlen & HR & _ & HF).
    assert (Hok1 : leaves_ok (marks t1) E)
      by (now rewrite (proj1 (marks_dfs fuel) _ _ _ _ _ H1)).
    assert (Hk1 : kin (heap t1)) by exact (proj1 (kin_dfs fuel) _ _ _ _ _ Hk H1).
    assert (Hrt1 : rooted (fathers t1)) by (now rewrite HF).
    assert (Hch1 : chain (heap t1) (right_sibling cn') l0).
    { rewrite <- (link_lookup right_sibling _ _ _ Hcn'), HR.
      apply (chain_ext _ _ _ _ Hch0). intros q Hq. split; [|apply HR].
      rewrite Hlen. exact (chain_bound _ _ _ Hch0 _ Hq). }
    assert (Hfc : fathers t !! c = Some (Some f)) by (apply Hfl, elem_of_cons; auto).
    assert (Kf : kept t t1 f).
    { apply (proj1 (frame_dfs E fuel) _ _ _ _ _ Hk Hok H1).
      exact (no_loop _ _ _ Hrt Hfc). }
    assert (Hfn1 : heap t1 !! f = Some fn) by (destruct Kf as (-> & _); exact Hfn).
    assert (Hfl1 : forall c1, c1 ∈ l0 -> fathers t1 !! c1 = Some (Some f)).
    { intros c1 Hc1. rewrite HF. apply Hfl, elem_of_cons. auto. }
    apply elem_of_cons in Hin as [->|Hin].
    2:{ apply (IH2 _ _ _ _ _ _ l0 f fn Hk1 Hrt1 Hok1 H Hch1 Hfl1 Hfn1 Hfd c0);
          [exact Hin | now rewrite HF]. }
    destruct (IH1 _ _ _ _ _ Hk Hrt Hok H1) as ((n' & Hn' & Hd' & Hm') & Hbelow).
    assert (n' = cn') by congruence. subst n'.
    destruct (fields_dfs _ _ _ _ _ _ _ _ _ H1 Hcn Hcn') as (F1 & F2 & F3 & F4 & F5).
    assert (Hfcn : father cn = Some f).
    { rewrite (fathers_lookup _ _ _ Hcn) in Hfc. congruence. }
    assert (Hs1 : settled t1 p).
    { destruct (decide (p = c)) as [->|Hne]; [|exact (Hbelow p Hp Hne)].
      exists cn', f, fn, depth. split; [exact Hcn'|]. split; [congruence|].
      split; [exact Hfn1|]. split; [exact Hfd|]. split.
      - rewrite Hd', F3, F4. reflexivity.
      - intros Hs. apply (Hm' Hs f fn depth); [congruence | exact Hfn | exact Hfd]. }
    assert (Hout : forall q, reaches (fathers t) c q ->
              forall c1, c1 ∈ l0 -> ~ reaches (fathers t1) c1 q).
    { intros q Hq c1 Hc1 Hr1. rewrite HF in Hr1.
      apply (apart (fathers t) c c1 f q Hrt Hfc); auto.
      - apply Hfl, elem_of_cons. auto.
      - intros ->. contradiction. }
    apply (settled_kept t1 t' p Hs1).
    + apply (proj2 (frame_dfs E fuel) _ _ _ _ _ _ l0 Hk1 Hok1 H Hch1).
      apply Hout, Hp.
    + intros n0 f0 Hn0 Hf0.
      apply (proj2 (frame_dfs E fuel) _ _ _ _ _ _ l0 Hk1 Hok1 H Hch1).
      intros c1 Hc1 Hr1. apply (Hout p Hp c1 Hc1).
      apply (reaches_up _ _ _ f0); [|exact Hr1].
      rewrite (fathers_lookup _ _ _ Hn0). now rewrite Hf0.
Qed.

(** A written cell of [maxStrDepth] has its cell of [inversePointers]
    written too, with a node that has a father. *)
Definition noted (t : SUFFIX_TREE) : Prop :=
  forall i v, maxStrDepth t !! i = Some (Some v) ->
    exists p n f, inversePointers t !! i = Some (Some p) /\
                  heap t !! p = Some n /\ father n = Some f.

Lemma noted_store t p n n' :
  heap t !! p = Some n -> father n' = father n -> noted t -> noted (store t p n').
Proof.
  intros Hn Hf Hr i v Hi. destruct (Hr i v Hi) as (q & m & f & Hq & Hm & Hfm).
  change (inversePointers (store t p n')) with (inversePointers t).
  destruct (decide (p = q)) as [->|Hne].
  - exists q, n', f. split; [exact Hq|]. split; [exact (lookup_store_eq _ _ _ _ Hn)|].
    congruence.
  - exists q, m, f. split; [exact Hq|]. split; [|exact Hfm].
    now rewrite lookup_store_ne.
Qed.

Lemma noted_dfs fuel :
  (forall t node depth t' k,
     noted t -> dfsForInversePointers fuel t node depth = Ret (t', k) -> noted t') /\
  (forall t c depth num t' k,
     noted t -> dfs_children fuel t c depth num = Ret (t', k) -> noted t').
Proof.
  induction fuel as [|fuel [IH1 IH2]]; split.
  - intros; discriminate.
  - intros t [c|] depth num t' k Hr H; simpl in H; [discriminate | now simplify_eq].
  - intros t node depth t' k Hr H. cbn [dfsForInversePointers] in H.
    apply bind_Ret in H as (n & Hn & H). apply node_at_Ret in Hn.
    assert (Hn1 : heap (store t node (set_strDepth n depth)) !! node
                  = Some (set_strDepth n depth)) by (eapply lookup_store_eq, Hn).
    assert (Hr1 : noted (store t node (set_strDepth n depth)))
      by (now apply (noted_store _ _ n)).
    destruct (sons n) as [first|].
    + rewrite (node_at_lookup _ _ _ Hn1) in H. cbn [mbind outcome_bind] in H.
      eapply IH2; [|exact H]. now apply (noted_store _ _ (set_strDepth n depth)).
    + apply bind_Ret in H as (ip & Hip & H). apply wr_Ret in Hip as (Hpp & ->).
      apply bind_Ret in H as (f & Hf & H). apply deref_Ret in Hf.
      apply bind_Ret in H as (fn & _ & H). apply bind_Ret in H as (fd & _ & H).
      apply bind_Ret in H as (msd & Hmsd & H). apply wr_Ret in Hmsd as (_ & ->).
      rewrite (node_at_lookup _ _ _ Hn1) in H. cbn [mbind outcome_bind] in H.
      injection H as <- _.
      intros i v Hi.
      cbn [maxStrDepth inversePointers heap store with_heap with_maxStrDepth
           with_inversePointers] in *.
      assert (Hnode : <[node:=set_annot (set_strDepth n depth)
                         (mkAnnot UNSET (u32 (path_position n)) UNSET
                            (u32 (path_position n)))]>
                        (<[node:=set_strDepth n depth]> (heap t)) !! node
                      = Some (set_annot (set_strDepth n depth)
                                (mkAnnot UNSET (u32 (path_position n)) UNSET
                                   (u32 (path_position n))))).
      { apply list_lookup_insert_eq. rewrite length_insert.
        now apply lookup_lt_Some in Hn. }
      destruct (decide (i = Z.to_nat (path_position n))) as [->|Hne].
      * eexists node, _, f. split; [apply list_lookup_insert_eq; lia|].
        split; [exact Hnode | exact Hf].
      * rewrite list_lookup_insert_ne in Hi by congruence.
        rewrite list_lookup_insert_ne by congruence.
        destruct (Hr _ _ Hi) as (q & m & g & Hq & Hm & Hg).
        destruct (decide (q = node)) as [->|Hqn].
        -- eexists node, _, g. split; [exact Hq|]. split; [exact Hnode|].
           cbn. congruence.
        -- exists q, m, g. split; [exact Hq|]. split; [|exact Hg].
           now rewrite !list_lookup_insert_ne by congruence.
  - intros t [c|] depth num t' k Hr H; cbn [dfs_children] in H; [|now simplify_eq].
    apply bind_Ret in H as (cn & _ & H). apply bind_Ret in H as ([t1 k1] & H1 & H).
    apply bind_Ret in H as (cn' & _ & H).
    exact (IH2 _ _ _ _ _ _ (IH1 _ _ _ _ _ Hr H1) H).
Qed.

(** The tree before the last loop of [ST_CreateTree]: the root has string
    depth 0, every other node is settled, and every written cell of
    [maxStrDepth] is the cell of a leaf. *)
Lemma ST_CreateTree_settled fuel mem_ str len t :
  0 <= len -> len + 2 < 2 ^ 32 ->
  ST_CreateTree fuel mem_ str len = Ret t ->
  exists t6 msd,
    t = with_D (with_maxStrDepth t6 msd) (replicate (Z.to_nat (length t6 + 1)) (-1)) /\
    monotone_pass (Z.to_nat len) (maxStrDepth t6) 2 = Ret msd /\
    root t6 = 0%nat /\
    (exists r, heap t6 !! 0%nat = Some r /\ father r = None /\ strDepth r = Some 0) /\
    (forall p n f, heap t6 !! p = Some n -> father n = Some f -> settled t6 p) /\
    (forall i v, maxStrDepth t6 !! i = Some (Some v) ->
       exists p n f, heap t6 !! p = Some n /\ sons n = None /\
                     path_position n = Z.of_nat i /\ father n = Some f).
Proof.
  intros Hlen Hsz H.
  apply ST_CreateTree_stages in H
    as (t4 & t5 & t6 & nn & msd & el & Hh4 & Hr4 & Ht4 & H5 & H6 & Hm & ->); [|lia|lia].
  assert (Hk4 : kin (heap t4)).
  { split.
    - rewrite Hh4. intros [|[|p]]; (split; [|split; [|split]]); intros q Hq;
        try discriminate; injection Hq as <-; cbn; auto with lia.
    - rewrite Hh4. intros [|[|f]].
      + exists [1%nat]. split.
        * cbn. constructor; [simpl; lia|]. cbn. constructor.
        * intros [|[|p]]; rewrite list_elem_of_singleton; cbn; split; intros E;
            try reflexivity; try discriminate; try lia.
      + exists []. split; [cbn; constructor|].
        intros [|[|p]]; rewrite elem_of_nil; cbn; split; intros E;
          try contradiction; try discriminate.
      + exists []. split; [cbn; constructor|].
        intros [|[|p]]; rewrite elem_of_nil; cbn; split; intros E;
          try contradiction; try discriminate. }
  assert (Hrt4 : rooted (fathers t4)).
  { unfold fathers. rewrite Hh4. split; [reflexivity|].
    intros [|[|p]] Hp; [constructor | | simpl in Hp; lia].
    apply (reaches_up _ _ _ 0%nat); [reflexivity | constructor]. }
  assert (Hok4 : leaves_ok (marks t4) 2).
  { unfold marks. rewrite Hh4. intros [|[|i]] v Hi; cbn in Hi; try discriminate.
    injection Hi as <-. split; [lia|].
    intros [|[|j]] Hj; cbn in Hj; try discriminate. reflexivity. }
  pose proof (kin_phases _ _ _ _ _ _ _ _ Hk4 H5) as Hk5.
  pose proof (rooted_phases _ _ _ _ _ _ _ _ Hrt4 H5) as Hrt5.
  pose proof (root_phases _ _ _ _ _ _ _ _ H5) as Hr5. rewrite Hr4 in Hr5.
  pose proof (tables_phases _ _ _ _ _ _ _ _ H5) as Ht5. rewrite Ht4 in Ht5.
  assert (Hok5 : leaves_ok (marks t5) (len + 2)).
  { destruct (Z.to_nat (len + 1 - 2)) as [|c] eqn:Hc.
    - cbn [phases] in H5. injection H5 as <-.
      apply (leaves_ok_mono _ 2); [exact Hok4 | lia].
    - apply leaves_phases with (ext := 2) in H5; [|lia|lia|lia|exact Hok4].
      apply (leaves_ok_mono _ _ _ H5). lia. }
  rewrite Hr5 in H6.
  pose proof (proj1 (fathers_dfs fuel) _ _ _ _ _ H6) as HF.
  pose proof (proj1 (root_dfs fuel) _ _ _ _ _ H6) as Hr6. rewrite Hr5 in Hr6.
  pose proof (proj1 (ledger_dfs fuel) _ _ _ _ _ H6) as Hled.
  assert (Hlen6 : length t6 = len + 1).
  { unfold ledger in Hled. unfold tables in Ht5. congruence. }
  assert (Hip5 : inversePointers t5 = replicate (Z.to_nat (len + 2)) None)
    by (unfold tables in Ht5; congruence).
  assert (Hmsd5 : maxStrDepth t5 = replicate (Z.to_nat (len + 2)) None)
    by (unfold tables in Ht5; congruence).
  assert (Hreg : registered t6).
  { apply (proj1 (registered_dfs fuel) _ _ _ _ _) in H6; [exact H6|].
    intros i p n Hi. rewrite Hip5 in Hi. apply lookup_replicate in Hi as [Hi _].
    discriminate. }
  assert (Hnot : noted t6).
  { apply (proj1 (noted_dfs fuel) _ _ _ _ _) in H6; [exact H6|].
    intros i v Hi. rewrite Hmsd5 in Hi. apply lookup_replicate in Hi as [Hi _].
    discriminate. }
  destruct (proj1 (depth_dfs (len + 2) fuel) _ _ _ _ _ Hk5 Hrt5 Hok5 H6)
    as ((r & Hr & Hdr & _) & Hbelow).
  exists t6, msd. split; [reflexivity|]. split.
  { rewrite Hlen6 in Hm. replace (len + 1 - 1) with len in Hm by lia. exact Hm. }
  split; [exact Hr6|]. split.
  { exists r. split; [exact Hr|]. split; [|exact Hdr].
    destruct Hrt5 as (H0 & _). rewrite <- HF in H0.
    rewrite (fathers_lookup _ _ _ Hr) in H0. congruence. }
  split.
  - intros p n f Hn Hf. apply Hbelow.
    + destruct Hrt5 as (_ & Hall). apply Hall. rewrite <- HF. unfold fathers.
      rewrite length_fmap. now apply lookup_lt_Some in Hn.
    + intros ->. destruct Hrt5 as (H0 & _). rewrite <- HF in H0.
      rewrite (fathers_lookup _ _ _ Hn) in H0. congruence.
  - intros i v Hi. destruct (Hnot _ _ Hi) as (p & n & f & Hp & Hn & Hf).
    destruct (Hreg _ _ _ Hp Hn) as (Hs & Hpp & _). eauto 8.
Qed.

(** In the tree [ST_CreateTree] returns the string depths that
    [dfsForInversePointers] wrote are those of the tree: the root has
    string depth 0, and every other node has the string depth of its
    father plus [edge_label_end - edge_label_start + 1], as an unsigned
    32-bit number. *)
Theorem ST_CreateTree_string_depths (fuel mem_ : nat) (str : list Z) (len : Z)
    (t : SUFFIX_TREE) :
  0 <= len -> len + 2 < 2 ^ 32 ->
  ST_CreateTree fuel mem_ str len = Ret t ->
  (exists r, heap t !! root t = Some r /\ father r = None /\ strDepth r = Some 0) /\
  forall p n f, heap t !! p = Some n -> father n = Some f ->
    exists fn d, heap t !! f = Some fn /\ strDepth fn = Some d /\
      strDepth n = Some (u32 (d + (edge_label_end n - edge_label_start n) + 1)).
Proof.
  intros Hlen Hsz H.
  apply ST_CreateTree_settled in H
    as (t6 & msd & -> & _ & Hr6 & Hroot & Hset & _); [|lia|lia].
  cbn [heap root with_D with_maxStrDepth]. rewrite Hr6. split; [exact Hroot|].
  intros p n f Hn Hf.
  destruct (Hset p n f Hn Hf) as (n0 & f0 & fn & d & Hn0 & Hf0 & Hfn & Hd & Hdn & _).
  assert (n0 = n) by congruence. subst n0.
  assert (f0 = f) by congruence. subst f0. eauto.
Qed.

Lemma ST_CreateTree_string_depths_witness :
  0 <= 7 /\ 7 + 2 < 2 ^ 32 /\
  ST_CreateTree 64 64 (aababab ++ [0]) 7 = Ret aababab_tree /\
  (exists r, heap aababab_tree !! root aababab_tree = Some r /\ father r = None /\
             strDepth r = Some 0) /\
  forall p n f, heap aababab_tree !! p = Some n -> father n = Some f ->
    exists fn d, heap aababab_tree !! f = Some fn /\ strDepth fn = Some d /\
      strDepth n = Some (u32 (d + (edge_label_end n - edge_label_start n) + 1)).
Proof.
  assert (H0 : ST_CreateTree 64 64 (aababab ++ [0]) 7 = Ret aababab_tree)
    by (vm_compute; reflexivity).
  assert (Hlen : 0 <= 7) by lia.
  assert (Hsz : 7 + 2 < 2 ^ 32) by lia.
  refine (conj Hlen (conj Hsz (conj H0 _))).
  exact (ST_CreateTree_string_depths 64 64 (aababab ++ [0]) 7 aababab_tree
           Hlen Hsz H0).
Defined.

(** After [ST_CreateTree] for a text of [n >= 1] bytes, every position [i]
    from 1 to [n + 1] has a leaf, and [maxStrDepth[i]] is the running
    maximum of the values [dfsForInversePointers] wrote: the leaf's path
    position plus the string depth of its father minus 1 for [i = 1], and
    the larger of [maxStrDepth[i - 1]] and that value for [i >= 2]. *)
Theorem ST_CreateTree_maxStrDepth_values (fuel mem_ : nat) (str : list Z) (len : Z)
    (t : SUFFIX_TREE) :
  1 <= len -> len + 2 < 2 ^ 32 ->
  ST_CreateTree fuel mem_ str len = Ret t ->
  forall i, 1 <= i <= len + 1 ->
    exists p n f fn d m,
      heap t !! p = Some n /\ sons n = None /\ path_position n = i /\
      father n = Some f /\ heap t !! f = Some fn /\ strDepth fn = Some d /\
      maxStrDepth t !! Z.to_nat i = Some (Some m) /\
      (i = 1 -> m = u32 (i + d - 1)) /\
      (2 <= i -> exists m', maxStrDepth t !! Z.to_nat (i - 1) = Some (Some m') /\
                            m = Z.max m' (u32 (i + d - 1))).
Proof.
  intros Hlen Hsz H i Hi.
  apply ST_CreateTree_settled in H
    as (t6 & msd & -> & Hm & _ & _ & Hset & Hleaf); [|lia|lia].
  cbn [heap maxStrDepth with_D with_maxStrDepth].
  apply monotone_pass_spec in Hm as (_ & Hpre & Hbody); [|lia].
  assert (Hraw : exists y, maxStrDepth t6 !! Z.to_nat i = Some (Some y)).
  { destruct (decide (i = 1)) as [->|Hne].
    - destruct (Hbody 2) as (x & _ & Hx & _); [lia|].
      replace (2 - 1) with 1 in Hx by lia. rewrite Hpre in Hx by lia. eauto.
    - destruct (Hbody i) as (_ & y & _ & Hy & _); [lia|]. eauto. }
  destruct Hraw as (y & Hy).
  destruct (Hleaf _ _ Hy) as (p & n & f & Hn & Hs & Hpp & Hf).
  rewrite Z2Nat.id in Hpp by lia.
  destruct (Hset p n f Hn Hf) as (n0 & f0 & fn & d & Hn0 & Hf0 & Hfn & Hd & _ & Hcell).
  assert (n0 = n) by congruence. subst n0.
  assert (f0 = f) by congruence. subst f0.
  specialize (Hcell Hs). rewrite Hpp, Hy in Hcell. injection Hcell as ->.
  destruct (decide (i = 1)) as [->|Hne].
  - exists p, n, f, fn, d, (u32 (1 + d - 1)).
    split; [exact Hn|]. split; [exact Hs|]. split; [exact Hpp|]. split; [exact Hf|].
    split; [exact Hfn|]. split; [exact Hd|].
    split; [rewrite Hpre by lia; exact Hy|].
    split; [reflexivity | lia].
  - destruct (Hbody i) as (x & y' & Hx & Hy' & Hmax); [lia|].
    rewrite Hy in Hy'. injection Hy' as <-.
    exists p, n, f, fn, d, (Z.max x (u32 (i + d - 1))).
    split; [exact Hn|]. split; [exact Hs|]. split; [exact Hpp|]. split; [exact Hf|].
    split; [exact Hfn|]. split; [exact Hd|]. split; [exact Hmax|].
    split; [lia|]. intros _. eauto.
Qed.

Lemma ST_CreateTree_maxStrDepth_values_witness :
  1 <= 7 /\ 7 + 2 < 2 ^ 32 /\
  ST_CreateTree 64 64 (aababab ++ [0]) 7 = Ret aababab_tree /\
  forall i, 1 <= i <= 7 + 1 ->
    exists p n f fn d m,
      heap aababab_tree !! p = Some n /\ sons n = None /\ path_position n = i /\
      father n = Some f /\ heap aababab_tree !! f = Some fn /\ strDepth fn = Some d /\
      maxStrDepth aababab_tree !! Z.to_nat i = Some (Some m) /\
      (i = 1 -> m = u32 (i + d - 1)) /\
      (2 <= i -> exists m', maxStrDepth aababab_tree !! Z.to_nat (i - 1) = Some (Some m') /\
                            m = Z.max m' (u32 (i + d - 1))).
Proof.
  assert (H0 : ST_CreateTree 64 64 (aababab ++ [0]) 7 = Ret aababab_tree)
    by (vm_compute; reflexivity).
  assert (Hlen : 1 <= 7) by lia.
  assert (Hsz : 7 + 2 < 2 ^ 32) by lia.
  refine (conj Hlen (conj Hsz (conj H0 _))).
  exact (ST_CreateTree_maxStrDepth_values 64 64 (aababab ++ [0]) 7 aababab_tree
           Hlen Hsz H0).
Defined.

(** ** The call of the query *)



Section QueryCall.

Variable cappedMax : list Z -> Z -> Z -> Z -> Z.




End QueryCall.






(** ** The candidate cost under a [cappedMax] that answers with a position *)






